(** * nix-viewer: the path model, the query runner and the tree provider

    A shallow embedding of the TypeScript sources of the Nix flake explorer
    ([src/nixRunner.ts], [src/searchProvider.ts], [flakeNode.ts],
    [flakeTreeProvider.ts], and the [smartRefresh] / [onNodeCollapsed]
    listings of [docs/nixd-migration-plan.md]) together with the properties
    their specification states about them, followed by further properties of
    the same code and of the code around it: the search index and its
    suggestions, [parsePathForCompletion] of [src/nixdClient.ts], the history
    of [statusView.ts] and the debounced file watcher of [extension.ts].

    Conventions of the embedding:
    - a JavaScript string is a [string] of characters, one character for
      one UTF-16 code unit; [toLowerCase], [trim] and the iteration of a
      string by code points are those of the language on strings of ASCII
      characters ([JS.isAscii]), and the properties that rest on them are
      stated for such strings; a [Map<string, V>] is a [gmap string V]; a
      [Set<string>], whose iteration order is insertion order, is a
      duplicate-free [list string];
    - a [number] that holds a list index or a count is a [nat] (a number of
      the language holds the integers below 2^53 exactly), a timestamp is a
      [Z];
    - the text of the Nix expression that a query hands to the evaluator is
      related to an expression of [NixLang] by its words, and evaluated by
      the evaluation of [NixLang];
    - an object that is mutated in place is threaded through the functions
      that mutate it and returned in its new state;
    - a promise is identified by the number of the call that created it; the
      event loop is a list of events applied one after the other. *)

From Stdlib Require Import String Ascii List ZArith Bool Lia.
From Stdlib Require Import DecimalString DecimalNat Decimal Sorted.
From stdpp Require Import base option list gmap strings.

Set Warnings "-register-all,-notation-for-abbreviation".

(** [simpl] may unfold the concatenation of strings, as it does for lists. *)
#[local] Arguments String.append !s1 s2 : simpl nomatch.

Local Open Scope string_scope.
Local Open Scope list_scope.

(** ** JavaScript string and array primitives used by the sources *)

Module JS.

(** [s.startsWith(pre)] *)
Definition startsWith (s pre : string) : bool := String.prefix pre s.

(** [s.slice(n)] for [0 <= n] *)
Fixpoint slice (s : string) (n : nat) : string :=
  match n, s with
  | O, _ => s
  | S _, EmptyString => EmptyString
  | S n', String _ s' => slice s' n'
  end.

(** [s.slice(0, n)] *)
Fixpoint take (s : string) (n : nat) : string :=
  match n, s with
  | O, _ => EmptyString
  | S _, EmptyString => EmptyString
  | S n', String c s' => String c (take s' n')
  end.

(** [s.split(sep)] for a one-character separator: never empty,
    [''.split('.')] is [['']]. *)
Fixpoint split (sep : ascii) (s : string) : list string :=
  match s with
  | EmptyString => [EmptyString]
  | String c s' =>
      if Ascii.eqb c sep then EmptyString :: split sep s'
      else match split sep s' with
           | [] => [String c EmptyString]
           | part :: parts => String c part :: parts
           end
  end.

(** [parts.join(sep)] *)
Definition join (sep : string) (parts : list string) : string :=
  String.concat sep parts.

(** truthiness of a string: [if (s)] *)
Definition truthy (s : string) : bool :=
  match s with EmptyString => false | String _ _ => true end.

(** [a || b] on strings *)
Definition or_else (a b : string) : string := if truthy a then a else b.

(** [a || b] where [a] may be [undefined] *)
Definition opt_or_else (a : option string) (b : string) : string :=
  match a with Some s => or_else s b | None => b end.

(** [String(n)] and [`${n}`] for a non-negative integer *)
Definition showNat (n : nat) : string :=
  NilEmpty.string_of_uint (Nat.to_uint n).

(** [String(z)] for an integer *)
Definition showZ (z : Z) : string :=
  NilEmpty.string_of_int (Z.to_int z).

(** the character class [\d] *)
Definition isDigit (c : ascii) : bool :=
  let n := nat_of_ascii c in (48 <=? n)%nat && (n <=? 57)%nat.

(** the character class [\w] *)
Definition isWordChar (c : ascii) : bool :=
  let n := nat_of_ascii c in
  ((48 <=? n)%nat && (n <=? 57)%nat)
  || ((65 <=? n)%nat && (n <=? 90)%nat)
  || ((97 <=? n)%nat && (n <=? 122)%nat)
  || (n =? 95)%nat.

Fixpoint allChars (p : ascii -> bool) (s : string) : bool :=
  match s with
  | EmptyString => true
  | String c s' => p c && allChars p s'
  end.

(** [parseInt(ds, 10)] on a string of decimal digits ([NaN], which the
    callers never meet because the regular expression has matched [\d+],
    is rendered as [0]). The number of the language is exact, and printed
    digit by digit, for a value below 2^53; the indices of lists are far
    below. *)
Definition parseInt (ds : string) : nat :=
  match NilEmpty.uint_of_string ds with
  | Some d => Nat.of_uint d
  | None => 0
  end.

(** [c.toLowerCase()] on one ASCII character *)
Definition lowerChar (c : ascii) : ascii :=
  let n := nat_of_ascii c in
  if (65 <=? n)%nat && (n <=? 90)%nat then ascii_of_nat (n + 32) else c.

(** [s.toLowerCase()] on a string of ASCII characters, see [isAscii] *)
Fixpoint toLowerCase (s : string) : string :=
  match s with
  | EmptyString => EmptyString
  | String c s' => String (lowerChar c) (toLowerCase s')
  end.

(** [s.includes(sub)] *)
Fixpoint includes (s sub : string) : bool :=
  String.prefix sub s
  || match s with
     | EmptyString => false
     | String _ s' => includes s' sub
     end.

(** the ASCII white space that [trim] removes, see [isAscii] *)
Definition isSpace (c : ascii) : bool :=
  let n := nat_of_ascii c in
  (n =? 32)%nat || ((9 <=? n)%nat && (n <=? 13)%nat).

Fixpoint trimStart (s : string) : string :=
  match s with
  | EmptyString => EmptyString
  | String c s' => if isSpace c then trimStart s' else s
  end.

Fixpoint trimEnd (s : string) : string :=
  match s with
  | EmptyString => EmptyString
  | String c s' =>
      match trimEnd s' with
      | EmptyString => if isSpace c then EmptyString else String c EmptyString
      | t => String c t
      end
  end.

(** [s.trim()] *)
Definition trim (s : string) : string := trimEnd (trimStart s).

(** [xs.sort()] on strings and [xs.sort(cmp)]: the sort of the language is
    stable, so its result is the one of a stable insertion sort. [cmp a b]
    is the sign test [cmp(a, b) <= 0] of the comparator. *)
Section Sort.
Context {A : Type} (le : A -> A -> bool).

Fixpoint insert (x : A) (l : list A) : list A :=
  match l with
  | [] => [x]
  | y :: l' => if le x y then x :: y :: l' else y :: insert x l'
  end.

Fixpoint sort (l : list A) : list A :=
  match l with
  | [] => []
  | x :: l' => insert x (sort l')
  end.
End Sort.

(** the default comparison of [sort()]: code-unit order *)
Definition sortStrings : list string -> list string := sort String.leb.

(** [s.endsWith(suffix)] *)
Definition endsWith (s suffix : string) : bool :=
  (String.length suffix <=? String.length s)%nat
  && String.eqb (slice s (String.length s - String.length suffix)) suffix.

(** [s.lastIndexOf(c)] for one character; [None] is [-1]. *)
Fixpoint lastIndexOf (c : ascii) (s : string) : option nat :=
  match s with
  | EmptyString => None
  | String d rest =>
      match lastIndexOf c rest with
      | Some i => Some (S i)
      | None => if Ascii.eqb d c then Some 0 else None
      end
  end.

(** [s[i]], [None] where it is [undefined] *)
Definition charAt (s : string) (i : nat) : option ascii := String.get i s.

(** The strings of ASCII characters (code points below 128). On these a
    character is one UTF-16 code unit and one code point, [toLowerCase]
    lowers the letters [A] to [Z] and nothing else, and [trim] removes the
    characters of [isSpace] and nothing else, so that [lowerChar],
    [toLowerCase], [isSpace] and [trim] above are the functions of the
    language; outside ASCII the language also lowers other letters, by
    rules that look at the neighbours of a letter, iterates a string by
    code points that may take two units, and trims further white space. *)
Definition isAscii (s : string) : bool :=
  allChars (fun c => (nat_of_ascii c <? 128)%nat) s.

End JS.

(** ** [src/searchProvider.ts] *)

Module SearchProvider.

(** [toRelativePath(absolutePath)]; [rootPath] is what [getRootPath()]
    returns. *)
Definition toRelativePath (rootPath absolutePath : string) : string :=
  if negb (JS.truthy rootPath) then absolutePath
  else if JS.startsWith absolutePath (rootPath +:+ ".") then
    JS.slice absolutePath (String.length rootPath + 1)
  else if String.eqb absolutePath rootPath then ""
  else absolutePath.

(** The three locals of the loop of [splitPath]. *)
Record SplitState := mkSplitState {
  parts : list string;
  current : string;
  inBracket : bool
}.

(** One round of [for (const char of path)]. *)
Definition splitStep (st : SplitState) (char : ascii) : SplitState :=
  if Ascii.eqb char "[" then
    mkSplitState (parts st) (current st +:+ String char "") true
  else if Ascii.eqb char "]" then
    mkSplitState (parts st) (current st +:+ String char "") false
  else if Ascii.eqb char "." && negb (inBracket st) then
    if JS.truthy (current st) then
      mkSplitState (parts st ++ [current st]) "" (inBracket st)
    else st
  else
    mkSplitState (parts st) (current st +:+ String char "") (inBracket st).

Fixpoint splitLoop (st : SplitState) (path : string) : SplitState :=
  match path with
  | EmptyString => st
  | String char rest => splitLoop (splitStep st char) rest
  end.

(** [splitPath(path)] *)
Definition splitPath (path : string) : list string :=
  let st := splitLoop (mkSplitState [] "" false) path in
  if JS.truthy (current st) then parts st ++ [current st] else parts st.

(** The path that [indexPath] rebuilds from the parts, one
    [current ? `${current}.${parts[i]}` : parts[i]] at a time. *)
Definition rebuild (parts : list string) : string :=
  fold_left
    (fun current part =>
       if JS.truthy current then current +:+ "." +:+ part else part)
    parts "".

End SearchProvider.

(** ** JSON values: what [JSON.parse] returns and what a node displays *)

Inductive Json : Type :=
  | JNull
  | JBool (b : bool)
  | JNum (z : Z)
  | JStr (s : string)
  | JArr (items : list Json)
  | JObj (fields : list (string * Json)).

(** [interface NixEvalResult], with the type the callers assert for [data]. *)
Record NixEvalResult (A : Type) := mkResult {
  success : bool;
  data : option A;
  error : option string
}.
Arguments mkResult {A} _ _ _.
Arguments success {A} _.
Arguments data {A} _.
Arguments error {A} _.

(** [interface NixRunnerOptions] *)
Record NixRunnerOptions := mkOptions {
  cwd : string;
  timeout : option Z
}.

(** ** [src/nixRunner.ts]: attribute paths and evaluator commands *)

Module NixRunner.

(** The double quote of the Nix string literals in the queries. *)
Definition dq : string := String (ascii_of_nat 34) "".
(** The line break of the multi-line template literals. *)
Definition nl : string := String (ascii_of_nat 10) "".

(** [part.match(/^\[(\d+)\]$/)]: the digits of the capture group. *)
Definition matchIndex (part : string) : option string :=
  match part with
  | String "[" rest =>
      let n := String.length rest in
      let digits := JS.take rest (n - 1) in
      if String.eqb (JS.slice rest (n - 1)) "]"
         && JS.truthy digits && JS.allChars JS.isDigit digits
      then Some digits else None
  | _ => None
  end.

(** Whether a part goes to the base path, and the list access it is
    otherwise. *)
Definition nonIndex (part : string) : bool :=
  match matchIndex part with None => true | Some _ => false end.

Definition indexOf (part : string) : option nat :=
  JS.parseInt <$> matchIndex part.

(** The result of [parseAttrPath]. *)
Record ParsedAttrPath := mkParsed {
  basePath : string;
  listAccesses : list nat
}.

(** One round of [for (const part of parts)]; the state is
    [(baseParts, listAccesses)]. Both arms of the inner test push the part
    onto [baseParts], as in the source. *)
Definition parseStep (st : list string * list nat) (part : string)
  : list string * list nat :=
  let '(baseParts, accesses) := st in
  match matchIndex part with
  | Some digits => (baseParts, accesses ++ [JS.parseInt digits])
  | None =>
      if (length accesses =? 0)%nat then (baseParts ++ [part], accesses)
      else (baseParts ++ [part], accesses)
  end.

(** [parseAttrPath(attrPath)] *)
Definition parseAttrPath (attrPath : string) : ParsedAttrPath :=
  let '(baseParts, accesses) :=
    fold_left parseStep (JS.split "." attrPath) ([], []) in
  mkParsed (JS.join "." baseParts) accesses.

(** One round of [for (const idx of listAccesses)]. *)
Definition wrapElemAt (accessor : string) (idx : nat) : string :=
  "(builtins.elemAt " +:+ accessor +:+ " " +:+ JS.showNat idx +:+ ")".

(** The [accessor] built by the loop of [buildEvalArgs]. *)
Definition buildAccessor (accesses : list nat) : string :=
  fold_left wrapElemAt accesses "x".

(** [applyExpr.replace(/\bx\b/g, 'v')]; [prevWord] tells whether the
    character before the current one is a word character. *)
Fixpoint replaceX (prevWord : bool) (s : string) : string :=
  match s with
  | EmptyString => EmptyString
  | String c rest =>
      let nextWord :=
        match rest with
        | String d _ => JS.isWordChar d
        | EmptyString => false
        end in
      if Ascii.eqb c "x" && negb prevWord && negb nextWord
      then String "v" (replaceX true rest)
      else String c (replaceX (JS.isWordChar c) rest)
  end.

(** [buildEvalArgs(attrPath, applyExpr?)] *)
Definition buildEvalArgs (attrPath : string) (applyExpr : option string)
  : list string :=
  let parsed := parseAttrPath attrPath in
  let flakeRef :=
    if JS.truthy (basePath parsed) then ".#" +:+ basePath parsed else "." in
  let apply := JS.opt_or_else applyExpr "" in
  if (0 <? length (listAccesses parsed))%nat then
    let accessor := buildAccessor (listAccesses parsed) in
    let fullApply :=
      if JS.truthy apply
      then "x: let v = " +:+ accessor +:+ "; in " +:+ replaceX false apply
      else "x: " +:+ accessor in
    ["eval"; "--json"; flakeRef; "--apply"; fullApply]
  else if JS.truthy apply then
    ["eval"; "--json"; flakeRef; "--apply"; apply]
  else
    ["eval"; "--json"; flakeRef].

(** What a query method hands to [run]: the arguments, the options and the
    process key. *)
Record Query := mkQuery {
  q_args : list string;
  q_options : NixRunnerOptions;
  q_key : string
}.

Definition isDrvExpr (v : string) : string :=
  "(" +:+ v +:+ ".type or null) == " +:+ dq +:+ "derivation" +:+ dq
  +:+ " || (" +:+ v +:+ " ? drvPath)".

Definition getAttrNames (flakePath attrPath : string) : Query :=
  mkQuery (buildEvalArgs attrPath (Some "x: builtins.attrNames x"))
          (mkOptions flakePath None) ("attrNames:" +:+ attrPath).

Definition getValue (flakePath attrPath : string) : Query :=
  mkQuery (buildEvalArgs attrPath None)
          (mkOptions flakePath None) ("value:" +:+ attrPath).

Definition getValueType (flakePath attrPath : string) : Query :=
  mkQuery (buildEvalArgs attrPath (Some "x: builtins.typeOf x"))
          (mkOptions flakePath None) ("type:" +:+ attrPath).

Definition isDerivation (flakePath attrPath : string) : Query :=
  mkQuery (buildEvalArgs attrPath (Some ("x: " +:+ isDrvExpr "x")))
          (mkOptions flakePath None) ("isDrv:" +:+ attrPath).

(** The [--apply] expression of [getListElementsInfo]. *)
Definition listElementsExpr : string :=
  "xs: builtins.genList (i: let e = builtins.elemAt xs i; in { " +:+ nl
  +:+ "        index = i;" +:+ nl
  +:+ "        name = e.name or e.pname or (toString i); " +:+ nl
  +:+ "        isDrv = " +:+ isDrvExpr "e" +:+ ";" +:+ nl
  +:+ "      }) (builtins.length xs)".

Definition getListElementsInfo (flakePath attrPath : string) : Query :=
  mkQuery ["eval"; "--json"; ".#" +:+ attrPath; "--apply"; listElementsExpr]
          (mkOptions flakePath None) ("listElems:" +:+ attrPath).

(** The per-element query, which [fetchListChildren] does not use. *)
Definition getListElementInfo (flakePath attrPath : string) (index : nat)
  : Query :=
  mkQuery
    ["eval"; "--json"; ".#" +:+ attrPath; "--apply";
     "xs: let e = builtins.elemAt xs " +:+ JS.showNat index +:+ "; in { "
     +:+ nl +:+ "        name = e.name or e.pname or " +:+ dq +:+ "["
     +:+ JS.showNat index +:+ "]" +:+ dq +:+ "; " +:+ nl
     +:+ "        isDrv = " +:+ isDrvExpr "e" +:+ ";" +:+ nl +:+ "      }"]
    (mkOptions flakePath None)
    ("listElem:" +:+ attrPath +:+ "[" +:+ JS.showNat index +:+ "]").

Definition flakeShow (flakePath : string) : Query :=
  mkQuery ["flake"; "show"; "--json"; "."]
          (mkOptions flakePath None) "flakeShow".

(** The [--apply] expression of [getAttrInfo]. *)
Definition attrInfoExpr : string :=
  "x: let" +:+ nl
  +:+ "          t = builtins.typeOf x;" +:+ nl
  +:+ "          isDrv = " +:+ isDrvExpr "x" +:+ ";" +:+ nl
  +:+ "        in {" +:+ nl
  +:+ "          type = t;" +:+ nl
  +:+ "          isDrv = isDrv;" +:+ nl
  +:+ "        } // (if t == " +:+ dq +:+ "set" +:+ dq
  +:+ " && !isDrv then {" +:+ nl
  +:+ "          attrNames = builtins.attrNames x;" +:+ nl
  +:+ "        } else {}) // (if t == " +:+ dq +:+ "list" +:+ dq
  +:+ " then {" +:+ nl
  +:+ "          listLength = builtins.length x;" +:+ nl
  +:+ "        } else {})".

Definition getAttrInfo (flakePath attrPath : string) : Query :=
  mkQuery (buildEvalArgs attrPath (Some attrInfoExpr))
          (mkOptions flakePath None) ("attrInfo:" +:+ attrPath).

Definition getListLength (flakePath attrPath : string) : Query :=
  mkQuery ["eval"; "--json"; ".#" +:+ attrPath; "--apply";
           "x: builtins.length x"]
          (mkOptions flakePath None) ("listLen:" +:+ attrPath).

Definition getDrvPath (flakePath attrPath : string) : Query :=
  mkQuery ["eval"; "--raw"; (".#" +:+ attrPath) +:+ ".drvPath"]
          (mkOptions flakePath None) ("drvPath:" +:+ attrPath).

Definition getDerivationJson (flakePath drvPath : string) : Query :=
  mkQuery ["derivation"; "show"; drvPath]
          (mkOptions flakePath None) ("drvShow:" +:+ drvPath).

(** The query methods that take a flake path and one path, by the prefix
    of their process key. *)
Definition pathQueries : list (string -> string -> Query) :=
  [getAttrNames; getAttrInfo; getValue; getValueType; isDerivation;
   getListLength; getListElementsInfo; getDrvPath; getDerivationJson].

End NixRunner.

(** ** [src/nixRunner.ts]: processes, debounce timers and [run]

    The child processes and the timers live outside the program; the model
    keeps every process ever spawned and every debounce timer ever created in
    two growing tables, indexed by creation order, beside the two maps of the
    class. What the runtime does later (a timer fires, a process closes, a
    watchdog expires) is an [Event]; time itself is not modelled, so every
    schedule of the runtime is some list of events. *)

Module Runner.

Inductive TimerState := Pending | Cleared | Fired.

(** A [setTimeout] of [run]: the closure keeps [args], [options],
    [processKey] and the [resolve] of the promise. *)
Record DebounceTimer := mkTimer {
  t_args : list string;
  t_options : NixRunnerOptions;
  t_key : string;
  t_promise : nat;
  t_state : TimerState
}.

(** A [ChildProcess] with what the closures of [executeNix] keep. *)
Record ChildProcess := mkProcess {
  p_args : list string;
  p_cwd : string;
  p_key : string;
  p_promise : nat;
  p_timeout : Z;
  killed : bool;
  closed : bool;
  watchdog : TimerState
}.

Record State := mkState {
  processes : list ChildProcess;
  timers : list DebounceTimer;
  activeProcesses : gmap string nat;
  debounceTimers : gmap string nat;
  settled : list (nat * NixEvalResult Json);
  promises : nat
}.

Definition init : State := mkState [] [] ∅ ∅ [] 0.

Inductive Event :=
  | Call (args : list string) (options : NixRunnerOptions)
         (key : option string) (debounce : bool)
  | Cancel (key : string)
  | CancelAll
  | TimerFires (timer : nat)
  | ProcessCloses (pid : nat) (code : option Z) (stdout stderr : string)
  | ProcessErrors (pid : nat) (message : string)
  | WatchdogFires (pid : nat).

Section WithConfig.

(** [getConfig()]: the settings [nixArgs] and [experimentalFeatures];
    [debounceMs] only sets the delay of a timer, which the model leaves to
    the order of the events. *)
Variables nixArgs experimentalFeatures : list string.
(** [JSON.parse], [None] where it throws. *)
Variable JSON_parse : string -> option Json.

(** [buildBaseArgs()] *)
Definition buildBaseArgs : list string :=
  (if (0 <? length experimentalFeatures)%nat
   then ["--extra-experimental-features"; JS.join " " experimentalFeatures]
   else [])
  ++ nixArgs.

Definition setProcess (pid : nat) (f : ChildProcess -> ChildProcess)
           (s : State) : State :=
  mkState (alter f pid (processes s)) (timers s) (activeProcesses s)
          (debounceTimers s) (settled s) (promises s).

Definition setTimer (tid : nat) (f : DebounceTimer -> DebounceTimer)
           (s : State) : State :=
  mkState (processes s) (alter f tid (timers s)) (activeProcesses s)
          (debounceTimers s) (settled s) (promises s).

(** [proc.kill('SIGTERM')]: the flag [killed] is set when the signal
    reaches a process that has not ended. *)
Definition kill (p : ChildProcess) : ChildProcess :=
  mkProcess (p_args p) (p_cwd p) (p_key p) (p_promise p) (p_timeout p)
            (negb (closed p) || killed p) (closed p) (watchdog p).

(** [clearTimeout(timer)] on a debounce timer *)
Definition clearTimer (t : DebounceTimer) : DebounceTimer :=
  mkTimer (t_args t) (t_options t) (t_key t) (t_promise t)
          (match t_state t with Pending => Cleared | st => st end).

(** [resolve(result)]: a promise keeps its first settlement. *)
Definition resolve (promise : nat) (result : NixEvalResult Json)
           (s : State) : State :=
  if existsb (fun e => (fst e =? promise)%nat) (settled s) then s
  else mkState (processes s) (timers s) (activeProcesses s)
               (debounceTimers s) (settled s ++ [(promise, result)])
               (promises s).

(** [cancel(key)] *)
Definition cancel (key : string) (s : State) : State :=
  let s1 :=
    match activeProcesses s !! key with
    | Some pid =>
        match processes s !! pid with
        | Some proc =>
            if negb (killed proc) then
              let s' := setProcess pid kill s in
              mkState (processes s') (timers s')
                      (delete key (activeProcesses s'))
                      (debounceTimers s') (settled s') (promises s')
            else s
        | None => s
        end
    | None => s
    end in
  match debounceTimers s1 !! key with
  | Some tid =>
      let s' := setTimer tid clearTimer s1 in
      mkState (processes s') (timers s') (activeProcesses s')
              (delete key (debounceTimers s')) (settled s') (promises s')
  | None => s1
  end.

(** [cancelAll()] *)
Definition cancelAll (s : State) : State :=
  foldr cancel s (map fst (map_to_list (activeProcesses s))).

(** [executeNix(args, options, processKey)] up to the end of the
    executor: the process is spawned and registered, the watchdog is
    armed; [promise] is the promise that its handlers resolve. *)
Definition executeNix (args : list string) (options : NixRunnerOptions)
           (processKey : string) (promise : nat) (s : State) : State :=
  let fullArgs := buildBaseArgs ++ args in
  let proc :=
    mkProcess fullArgs (cwd options) processKey promise
              (default 30000%Z (timeout options)) false false Pending in
  let pid := length (processes s) in
  mkState (processes s ++ [proc]) (timers s)
          (<[processKey := pid]> (activeProcesses s))
          (debounceTimers s) (settled s) (promises s).

(** [run(args, options, key?, debounce)]; the second component is the
    promise it returns. *)
Definition run (args : list string) (options : NixRunnerOptions)
           (key : option string) (debounce : bool) (s : State)
  : State * nat :=
  let processKey := default (JS.join " " args) key in
  let s1 := cancel processKey s in
  let promise := promises s1 in
  let s2 := mkState (processes s1) (timers s1) (activeProcesses s1)
                    (debounceTimers s1) (settled s1) (S promise) in
  if debounce then
    let tid := length (timers s2) in
    (mkState (processes s2)
             (timers s2 ++ [mkTimer args options processKey promise Pending])
             (activeProcesses s2)
             (<[processKey := tid]> (debounceTimers s2))
             (settled s2) (promises s2),
     promise)
  else (executeNix args options processKey promise s2, promise).

(** The callback of the debounce timer. The runtime calls it at most
    once, and never after [clearTimeout]. *)
Definition timerFires (tid : nat) (s : State) : State :=
  match timers s !! tid with
  | Some t =>
      match t_state t with
      | Pending =>
          let s1 :=
            setTimer tid
              (fun t => mkTimer (t_args t) (t_options t) (t_key t)
                                (t_promise t) Fired) s in
          let s2 :=
            mkState (processes s1) (timers s1) (activeProcesses s1)
                    (delete (t_key t) (debounceTimers s1))
                    (settled s1) (promises s1) in
          executeNix (t_args t) (t_options t) (t_key t) (t_promise t) s2
      | _ => s
      end
  | None => s
  end.

Definition stopWatchdog (p : ChildProcess) : ChildProcess :=
  mkProcess (p_args p) (p_cwd p) (p_key p) (p_promise p) (p_timeout p)
            (killed p) (closed p)
            (match watchdog p with Pending => Cleared | st => st end).

Definition markClosed (p : ChildProcess) : ChildProcess :=
  mkProcess (p_args p) (p_cwd p) (p_key p) (p_promise p) (p_timeout p)
            (killed p) true (watchdog p).

Definition showCode (code : option Z) : string :=
  match code with Some z => JS.showZ z | None => "null" end.

(** The result that the ['close'] handler resolves with. *)
Definition closeResult (code : option Z) (stdout stderr : string)
  : NixEvalResult Json :=
  match code with
  | Some 0%Z =>
      if JS.truthy (JS.trim stdout) then
        match JSON_parse stdout with
        | Some v => mkResult true (Some v) None
        | None => mkResult true (Some (JStr (JS.trim stdout))) None
        end
      else mkResult true (Some JNull) None
  | _ =>
      mkResult false None
        (Some (JS.or_else (JS.trim stderr) ("Exit code " +:+ showCode code)))
  end.

(** [proc.on('close', ...)]: a process closes once. *)
Definition processCloses (pid : nat) (code : option Z)
           (stdout stderr : string) (s : State) : State :=
  match processes s !! pid with
  | Some proc =>
      if closed proc then s
      else
        let s1 := setProcess pid (fun p => markClosed (stopWatchdog p)) s in
        let s2 :=
          mkState (processes s1) (timers s1)
                  (delete (p_key proc) (activeProcesses s1))
                  (debounceTimers s1) (settled s1) (promises s1) in
        resolve (p_promise proc) (closeResult code stdout stderr) s2
  | None => s
  end.

(** [proc.on('error', ...)] *)
Definition processErrors (pid : nat) (message : string) (s : State)
  : State :=
  match processes s !! pid with
  | Some proc =>
      let s1 := setProcess pid stopWatchdog s in
      let s2 :=
        mkState (processes s1) (timers s1)
                (delete (p_key proc) (activeProcesses s1))
                (debounceTimers s1) (settled s1) (promises s1) in
      resolve (p_promise proc) (mkResult false None (Some message)) s2
  | None => s
  end.

(** The callback of the watchdog of [executeNix]. *)
Definition watchdogFires (pid : nat) (s : State) : State :=
  match processes s !! pid with
  | Some proc =>
      match watchdog proc with
      | Pending =>
          let fired p :=
            mkProcess (p_args p) (p_cwd p) (p_key p) (p_promise p)
                      (p_timeout p) (killed p) (closed p) Fired in
          if negb (killed proc) then
            resolve (p_promise proc)
              (mkResult false None
                 (Some ("Command timed out after "
                        +:+ JS.showZ (p_timeout proc) +:+ "ms")))
              (setProcess pid (fun p => kill (fired p)) s)
          else setProcess pid fired s
      | _ => s
      end
  | None => s
  end.

Definition step (s : State) (e : Event) : State :=
  match e with
  | Call args options key debounce => fst (run args options key debounce s)
  | Cancel key => cancel key s
  | CancelAll => cancelAll s
  | TimerFires tid => timerFires tid s
  | ProcessCloses pid code out err => processCloses pid code out err s
  | ProcessErrors pid msg => processErrors pid msg s
  | WatchdogFires pid => watchdogFires pid s
  end.

Definition exec (s : State) (events : list Event) : State :=
  fold_left step events s.

(** The states the class can be in. *)
Inductive reachable : State -> Prop :=
  | reachable_init : reachable init
  | reachable_step s e : reachable s -> reachable (step s e).

(** Every spawn so far: the promise it serves and its command line. *)
Definition spawnLog (s : State) : list (nat * list string) :=
  map (fun p => (p_promise p, p_args p)) (processes s).

(** Every debounce timer so far: promise, arguments and key. *)
Definition timerLog (s : State) : list (nat * list string * string) :=
  map (fun t => (t_promise t, t_args t, t_key t)) (timers s).

(** The command lines of the processes spawned for a promise. *)
Definition spawnedFor (promise : nat) (s : State) : list (list string) :=
  map snd (List.filter (fun e => (fst e =? promise)%nat) (spawnLog s)).

(** What one event can do to the tables: it spawns at most one process,
    for a fresh promise or for a pending timer that it fires; it arms at
    most one timer, for a fresh promise; a timer that is cleared or fired
    stays so; a promise settles only for a spawned process. *)
Record StepSpec (s s' : State) : Prop := {
  ss_promises : promises s <= promises s';
  ss_spawn :
    spawnLog s' = spawnLog s
    \/ exists r a,
        spawnLog s' = spawnLog s ++ [(r, buildBaseArgs ++ a)]
        /\ ((r = promises s /\ promises s < promises s')
            \/ exists tid t t',
                timers s !! tid = Some t /\ t_state t = Pending
                /\ t_promise t = r /\ t_args t = a
                /\ timers s' !! tid = Some t' /\ t_state t' = Fired);
  ss_timers :
    timerLog s' = timerLog s
    \/ exists a k,
        timerLog s' = timerLog s ++ [(promises s, a, k)]
        /\ promises s < promises s';
  ss_states :
    forall tid t,
      timers s !! tid = Some t -> t_state t <> Pending ->
      exists t', timers s' !! tid = Some t' /\ t_state t' = t_state t;
  ss_fire :
    forall tid t t',
      timers s !! tid = Some t -> t_state t = Pending ->
      timers s' !! tid = Some t' -> t_state t' = Fired ->
      spawnLog s' = spawnLog s ++ [(t_promise t, buildBaseArgs ++ t_args t)];
  ss_settled :
    forall r res,
      (r, res) ∈ settled s' ->
      (r, res) ∈ settled s \/ r ∈ map fst (spawnLog s)
}.

(** An event that neither spawns nor arms: the logs and the promise
    counter stay as they are, and a timer keeps its state or goes from
    pending to cleared. *)
Record Quiet (s s' : State) : Prop := {
  q_spawn : spawnLog s' = spawnLog s;
  q_timers : timerLog s' = timerLog s;
  q_promises : promises s' = promises s;
  q_states :
    forall tid t,
      timers s !! tid = Some t ->
      exists t',
        timers s' !! tid = Some t'
        /\ (t_state t' = t_state t
            \/ (t_state t = Pending /\ t_state t' = Cleared))
}.

(** A call whose timer was cleared before it fired: nothing was spawned
    for it, its timer is cleared, its promise is not settled. *)
Definition superseded (promise : nat) (s : State) : Prop :=
  promise < promises s
  /\ (forall a, (promise, a) ∉ spawnLog s)
  /\ (forall tid t, timers s !! tid = Some t -> t_promise t = promise ->
                    t_state t = Cleared)
  /\ (forall res, (promise, res) ∉ settled s).

(** A debounced call: its timer is the only one for its promise, and
    its process has been spawned, once and with its arguments, exactly
    when the timer has fired. *)
Definition debounced (promise tid : nat) (args : list string) (s : State)
  : Prop :=
  promise < promises s
  /\ (forall tid' t, timers s !! tid' = Some t -> t_promise t = promise ->
                     tid' = tid)
  /\ exists t,
      timers s !! tid = Some t /\ t_promise t = promise
      /\ t_args t = args
      /\ spawnedFor promise s
         = match t_state t with
           | Fired => [buildBaseArgs ++ args]
           | _ => []
           end.

(** A call that was not debounced: its process was spawned at once, and
    is the only one for its promise. *)
Definition started (promise : nat) (args : list string) (s : State)
  : Prop :=
  promise < promises s
  /\ (forall tid t, timers s !! tid = Some t -> t_promise t <> promise)
  /\ spawnedFor promise s = [buildBaseArgs ++ args].

(** Promises are handed out in increasing order. *)
Definition freshPromises (s : State) : Prop :=
  Forall (fun e => fst e < promises s) (spawnLog s)
  /\ Forall (fun e => fst (fst e) < promises s) (timerLog s).

(** A promise is settled only by the handlers of a process spawned for
    it. *)
Definition settledSpawned (s : State) : Prop :=
  forall r res, (r, res) ∈ settled s -> r ∈ map fst (spawnLog s).

(** A pending timer is the one registered under its key. *)
Definition pendingRegistered (s : State) : Prop :=
  forall tid t,
    timers s !! tid = Some t -> t_state t = Pending ->
    debounceTimers s !! t_key t = Some tid.

(** A timer that is registered under a key was created for that key. *)
Definition registeredKeys (s : State) : Prop :=
  forall key tid,
    debounceTimers s !! key = Some tid ->
    exists t, timers s !! tid = Some t /\ t_key t = key.

(** A process that is tracked under a key was spawned for that key. *)
Definition trackedKeys (s : State) : Prop :=
  forall key pid,
    activeProcesses s !! key = Some pid ->
    exists proc, processes s !! pid = Some proc /\ p_key proc = key.

(** A promise has at most one settlement. *)
Definition settledOnce (s : State) : Prop :=
  NoDup (map fst (settled s)).

(** What one event does to the settlements: nothing, or one more, of a
    promise that had none. *)
Definition grows (s s' : State) : Prop :=
  settled s' = settled s
  \/ exists promise result,
      settled s' = settled s ++ [(promise, result)]
      /\ promise ∉ map fst (settled s).

End WithConfig.

End Runner.

(** ** [flakeNode.ts] *)

Module Node.

Inductive FlakeNodeType :=
  | Attrset | List | ListElement | Derivation | Leaf | Error | Loading.

(** [vscode.TreeItemCollapsibleState] *)
Inductive CollapsibleState := NotCollapsible | Collapsed | Expanded.

Definition FlakeNodeType_eqb (a b : FlakeNodeType) : bool :=
  match a, b with
  | Attrset, Attrset | List, List | ListElement, ListElement
  | Derivation, Derivation | Leaf, Leaf | Error, Error
  | Loading, Loading => true
  | _, _ => false
  end.

(** [class FlakeNode] with [interface FlakeNodeCache]. A node is held by
    the values of its fields; the back-pointer [parent], which no function
    below reads except for the parent's [attrPath], is left out. *)
Inductive FlakeNode : Type := mkFlakeNode {
  label : string;
  attrPath : string;
  nodeType : FlakeNodeType;
  contextValue : FlakeNodeType;
  collapsibleState : CollapsibleState;
  iconPath : string;
  tooltip : string;
  description : option string;
  listIndex : option nat;
  cache : option FlakeNodeCache;
  errorMessage : option string
}
with FlakeNodeCache : Type := mkCache {
  children : option (list FlakeNode);
  value : option Json;
  timestamp : Z
}.

Definition withAppearance (icon : string) (state : CollapsibleState)
           (n : FlakeNode) : FlakeNode :=
  mkFlakeNode (label n) (attrPath n) (nodeType n) (contextValue n) state icon
              (JS.or_else (attrPath n) "(flake root)") (description n)
              (listIndex n) (cache n) (errorMessage n).

(** [updateAppearance()] *)
Definition updateAppearance (n : FlakeNode) : FlakeNode :=
  match nodeType n with
  | Attrset => withAppearance "symbol-namespace" Collapsed n
  | List => withAppearance "symbol-array" Collapsed n
  | ListElement => withAppearance "symbol-variable" Collapsed n
  | Derivation => withAppearance "package" Collapsed n
  | Leaf => withAppearance "symbol-constant" NotCollapsible n
  | Error => withAppearance "error" NotCollapsible n
  | Loading => withAppearance "loading~spin" NotCollapsible n
  end.

(** [new FlakeNode(label, attrPath, nodeType, collapsibleState)] *)
Definition new (label attrPath : string) (nodeType : FlakeNodeType)
           (collapsibleState : CollapsibleState) : FlakeNode :=
  updateAppearance
    (mkFlakeNode label attrPath nodeType nodeType collapsibleState "" ""
                 None None None None).

Definition setNodeType (t : FlakeNodeType) (n : FlakeNode) : FlakeNode :=
  mkFlakeNode (label n) (attrPath n) t (contextValue n) (collapsibleState n)
              (iconPath n) (tooltip n) (description n) (listIndex n)
              (cache n) (errorMessage n).

Definition setCollapsibleState (c : CollapsibleState) (n : FlakeNode)
  : FlakeNode :=
  mkFlakeNode (label n) (attrPath n) (nodeType n) (contextValue n) c
              (iconPath n) (tooltip n) (description n) (listIndex n)
              (cache n) (errorMessage n).

Definition setDescription (d : option string) (n : FlakeNode) : FlakeNode :=
  mkFlakeNode (label n) (attrPath n) (nodeType n) (contextValue n)
              (collapsibleState n) (iconPath n) (tooltip n) d (listIndex n)
              (cache n) (errorMessage n).

Definition setListIndex (i : option nat) (n : FlakeNode) : FlakeNode :=
  mkFlakeNode (label n) (attrPath n) (nodeType n) (contextValue n)
              (collapsibleState n) (iconPath n) (tooltip n) (description n) i
              (cache n) (errorMessage n).

Definition setCache (c : option FlakeNodeCache) (n : FlakeNode) : FlakeNode :=
  mkFlakeNode (label n) (attrPath n) (nodeType n) (contextValue n)
              (collapsibleState n) (iconPath n) (tooltip n) (description n)
              (listIndex n) c (errorMessage n).

(** The text [setValue] shows for a value; a number is an integer, and the
    length of a string counts its characters. *)
Definition formatValue (v : Json) : string :=
  match v with
  | JStr s =>
      let truncated :=
        if (50 <? String.length s)%nat then JS.take s 47 +:+ "..." else s in
      NixRunner.dq +:+ truncated +:+ NixRunner.dq
  | JBool true => "true"
  | JBool false => "false"
  | JNum z => JS.showZ z
  | JNull => "null"
  | JArr items => "[" +:+ JS.showNat (length items) +:+ " items]"
  | JObj fields => "{ " +:+ JS.showNat (length fields) +:+ " attrs }"
  end.

(** [setValue(value)]; [None] is [undefined]. *)
Definition setValue (v : option Json) (n : FlakeNode) : FlakeNode :=
  setDescription (formatValue <$> v) n.

(** [setError(message)] *)
Definition setError (message : string) (n : FlakeNode) : FlakeNode :=
  updateAppearance
    (mkFlakeNode (label n) (attrPath n) Error (contextValue n)
                 (collapsibleState n) (iconPath n) message (Some "error")
                 (listIndex n) (cache n) (Some message)).

(** [createChild(name, nodeType)], called without [listIndex]. *)
Definition createChild (name : string) (t : FlakeNodeType) (n : FlakeNode)
  : FlakeNode :=
  let childPath :=
    if JS.truthy (attrPath n) then attrPath n +:+ "." +:+ name else name in
  setListIndex None
    (new name childPath t
         (if FlakeNodeType_eqb t Leaf then NotCollapsible else Collapsed)).

(** [getCachedChildren(maxAgeMs = 60000)]; [now] is [Date.now()]. *)
Definition getCachedChildren (now : Z) (n : FlakeNode)
  : option (list FlakeNode) :=
  match cache n with
  | Some c =>
      match children c with
      | Some cs =>
          if (60000 <? now - timestamp c)%Z then None else Some cs
      | None => None
      end
  | None => None
  end.

(** [cacheChildren(children)]; [now] is [Date.now()]. *)
Definition cacheChildren (now : Z) (cs : list FlakeNode) (n : FlakeNode)
  : FlakeNode :=
  setCache
    (Some (mkCache (Some cs) (match cache n with
                              | Some c => value c
                              | None => None
                              end) now)) n.

(** [createErrorNode(message, parent?)] *)
Definition createErrorNode (message : string) (parent : option FlakeNode)
  : FlakeNode :=
  setError message
    (new "Error" (match parent with Some p => attrPath p | None => "" end)
         Error NotCollapsible).

End Node.

(** ** The evaluator as the tree provider meets it *)

(** One entry of the array that [getListElementsInfo] returns, as
    [fetchListChildren] reads it. *)
Record ElementInfo := mkInfo {
  index : nat;
  name : string;
  isDrv : bool
}.

(** ** The language of the [--apply] expressions

    The expression that [getListElementsInfo] hands to the evaluator is a
    text of the Nix language. [Expr] is the part of the language that the
    text uses, [tokens] writes an expression as the words of its text, [lex]
    cuts a text into its words, and [eval] and [apply] are the evaluation of
    the language on values that are already computed (the evaluator prints
    the whole result, so that the order of evaluation does not show).

    The grouping of an expression follows the grammar of the language: a
    function [x: body] and [let ... in body] reach as far to the right as
    they can; [||] binds weaker than [==], which binds weaker than [?],
    which binds weaker than the application of a function, which binds
    weaker than the selection [e.a]; the default of [e.a or d] is itself a
    selection, so that [e.a or e.b or d] is [e.a or (e.b or d)];
    application groups to the left. *)

Module NixLang.

Inductive Expr : Type :=
  | Var (x : string)                                  (* [x] *)
  | Str (s : string)                                  (* a string literal *)
  | Lam (x : string) (body : Expr)                    (* [x: body] *)
  | App (f a : Expr)                                  (* [f a] *)
  | Let (x : string) (bound body : Expr)              (* [let x = bound; in body] *)
  | Select (e : Expr) (a : string)                    (* [e.a] *)
  | SelectOr (e : Expr) (a : string) (default : Expr) (* [e.a or default] *)
  | HasAttr (e : Expr) (a : string)                   (* [e ? a] *)
  | Eq (a b : Expr)                                   (* [a == b] *)
  | OrElse (a b : Expr)                               (* [a || b] *)
  | Attrs (fields : list (string * Expr))             (* [{ a = e; ... }] *)
  | Paren (e : Expr).                                 (* [(e)] *)

(** The words of the text of an expression, in order. *)
Fixpoint tokens (e : Expr) : list string :=
  match e with
  | Var x => [x]
  | Str s => [String (ascii_of_nat 34) s +:+ String (ascii_of_nat 34) ""]
  | Lam x body => x :: ":" :: tokens body
  | App f a => tokens f ++ tokens a
  | Let x bound body =>
      "let" :: x :: "=" :: tokens bound ++ ";" :: "in" :: tokens body
  | Select e a => tokens e ++ ["."; a]
  | SelectOr e a default => tokens e ++ "." :: a :: "or" :: tokens default
  | HasAttr e a => tokens e ++ ["?"; a]
  | Eq a b => tokens a ++ "==" :: tokens b
  | OrElse a b => tokens a ++ "||" :: tokens b
  | Attrs fields =>
      "{"
      :: (fix fieldTokens (fs : list (string * Expr)) : list string :=
            match fs with
            | [] => []
            | (k, d) :: rest => k :: "=" :: tokens d ++ ";" :: fieldTokens rest
            end) fields
      ++ ["}"]
  | Paren e => "(" :: tokens e ++ [")"]
  end.

(** The characters of an identifier or keyword. *)
Definition isIdChar (c : ascii) : bool :=
  JS.isWordChar c || Ascii.eqb c "'" || Ascii.eqb c "-".

Definition flush (word : string) : list string :=
  if JS.truthy word then [word] else [].

(** The words of a text: identifiers and keywords, string literals with
    their quotes (the texts at hand have no escape in a string), the two
    operators of two characters, and every other character that is not
    white space as a word of its own. *)
Fixpoint lexLoop (word : string) (inString : bool) (text : string)
  : list string :=
  match text with
  | EmptyString => flush word
  | String c rest =>
      if inString then
        if Ascii.eqb c (ascii_of_nat 34)
        then (word +:+ String c "") :: lexLoop "" false rest
        else lexLoop (word +:+ String c "") true rest
      else if Ascii.eqb c (ascii_of_nat 34) then
        flush word ++ lexLoop (String c "") true rest
      else if isIdChar c then lexLoop (word +:+ String c "") false rest
      else if JS.isSpace c then flush word ++ lexLoop "" false rest
      else
        match rest with
        | String d rest' =>
            if (Ascii.eqb c "=" && Ascii.eqb d "=")
               || (Ascii.eqb c "|" && Ascii.eqb d "|")
            then flush word ++ String c (String d "") :: lexLoop "" false rest'
            else flush word ++ String c "" :: lexLoop "" false rest
        | EmptyString => flush word ++ [String c ""]
        end
  end.

Definition lex (text : string) : list string := lexLoop "" false text.

(** The expression of [getListElementsInfo], word for word:
    [xs: builtins.genList (i: let e = builtins.elemAt xs i; in
       { index = i; name = e.name or e.pname or (toString i);
         isDrv = (e.type or null) == "derivation" || (e ? drvPath); })
     (builtins.length xs)]. *)
Definition listElementsAst : Expr :=
  Lam "xs"
    (App
       (App (Select (Var "builtins") "genList")
          (Paren
             (Lam "i"
                (Let "e"
                   (App (App (Select (Var "builtins") "elemAt") (Var "xs"))
                        (Var "i"))
                   (Attrs
                      [("index", Var "i");
                       ("name",
                        SelectOr (Var "e") "name"
                          (SelectOr (Var "e") "pname"
                             (Paren (App (Var "toString") (Var "i")))));
                       ("isDrv",
                        OrElse
                          (Eq (Paren (SelectOr (Var "e") "type" (Var "null")))
                              (Str "derivation"))
                          (Paren (HasAttr (Var "e") "drvPath")))])))))
       (Paren (App (Select (Var "builtins") "length") (Var "xs")))).

(** The primitive operations that the expressions use. *)
Inductive Prim := GenList | ElemAt | Length | ToString.

(** Values: a function is a closure or a primitive operation that has been
    given some of its arguments. *)
Inductive Value : Type :=
  | VNull
  | VBool (b : bool)
  | VInt (z : Z)
  | VStr (s : string)
  | VList (items : list Value)
  | VAttrs (fields : list (string * Value))
  | VClosure (env : list (string * Value)) (x : string) (body : Expr)
  | VPrim (p : Prim) (args : list Value).

Definition Env : Type := list (string * Value).

(** The value bound to a name: the innermost binding wins. *)
Fixpoint assoc {A : Type} (k : string) (fs : list (string * A)) : option A :=
  match fs with
  | [] => None
  | (k', v) :: rest => if String.eqb k' k then Some v else assoc k rest
  end.

(** The attribute [a] of a value: there is none when the value is not an
    attribute set or has no such attribute. *)
Definition attr (a : string) (v : Value) : option Value :=
  match v with
  | VAttrs fields => assoc a fields
  | _ => None
  end.

(** [v ? a] *)
Definition hasAttr (a : string) (v : Value) : bool :=
  match attr a v with Some _ => true | None => false end.

(** [a == b]: values of different kinds are different, and a function is
    equal to nothing. The comparison of two lists or of two attribute sets
    is left out ([None]). *)
Definition eqValue (a b : Value) : option bool :=
  match a, b with
  | VNull, VNull => Some true
  | VBool x, VBool y => Some (Bool.eqb x y)
  | VInt x, VInt y => Some (x =? y)%Z
  | VStr x, VStr y => Some (String.eqb x y)
  | VList _, VList _ => None
  | VAttrs _, VAttrs _ => None
  | _, _ => Some false
  end.

Definition primArity (p : Prim) : nat :=
  match p with
  | GenList => 2
  | ElemAt => 2
  | Length => 1
  | ToString => 1
  end.

(** [toString v] on a string, an integer, [null] and the booleans; the
    other cases are left out ([None]). *)
Definition toStringValue (v : Value) : option Value :=
  match v with
  | VStr s => Some (VStr s)
  | VInt z =>
      Some (VStr (if (z <? 0)%Z then "-" +:+ JS.showNat (Z.to_nat (- z))
                  else JS.showNat (Z.to_nat z)))
  | VNull => Some (VStr "")
  | VBool true => Some (VStr "1")
  | VBool false => Some (VStr "")
  | _ => None
  end.

(** The attribute set [builtins], as far as the expressions use it. *)
Definition builtins : Value :=
  VAttrs [("genList", VPrim GenList []);
          ("elemAt", VPrim ElemAt []);
          ("length", VPrim Length []);
          ("toString", VPrim ToString [])].

(** The names that every expression can use. *)
Definition globals : Env :=
  [("builtins", builtins);
   ("toString", VPrim ToString []);
   ("null", VNull);
   ("true", VBool true);
   ("false", VBool false)].

(** Evaluation, with [None] for an error and for a case that is left out.
    The language can loop, so that [fuel] bounds the depth of the
    evaluation; an evaluation that has enough fuel does not depend on it. A
    [let] evaluates what it binds before its body: the expressions at hand
    bind no variable to an expression that mentions it. *)
Fixpoint eval (fuel : nat) (env : Env) (e : Expr) {struct fuel}
  : option Value :=
  match fuel with
  | O => None
  | S n =>
      match e with
      | Var x => assoc x env
      | Str s => Some (VStr s)
      | Lam x body => Some (VClosure env x body)
      | App f a =>
          vf ← eval n env f; va ← eval n env a; apply n vf va
      | Let x bound body =>
          v ← eval n env bound; eval n ((x, v) :: env) body
      | Select e a => v ← eval n env e; attr a v
      | SelectOr e a default =>
          v ← eval n env e;
          match attr a v with
          | Some w => Some w
          | None => eval n env default
          end
      | HasAttr e a => v ← eval n env e; Some (VBool (hasAttr a v))
      | Eq a b =>
          va ← eval n env a; vb ← eval n env b; VBool <$> eqValue va vb
      | OrElse a b =>
          va ← eval n env a;
          match va with
          | VBool true => Some (VBool true)
          | VBool false =>
              vb ← eval n env b;
              match vb with VBool _ => Some vb | _ => None end
          | _ => None
          end
      | Attrs fields =>
          VAttrs <$> mapM (fun field : string * Expr =>
                             v ← eval n env (snd field); Some (fst field, v))
                          fields
      | Paren e => eval n env e
      end
  end
with apply (fuel : nat) (f a : Value) {struct fuel} : option Value :=
  match fuel with
  | O => None
  | S n =>
      match f with
      | VClosure env x body => eval n ((x, a) :: env) body
      | VPrim p args =>
          let args1 := args ++ [a] in
          if (length args1 <? primArity p)%nat then Some (VPrim p args1)
          else
            match p, args1 with
            | Length, [VList items] => Some (VInt (Z.of_nat (length items)))
            | ElemAt, [VList items; VInt i] =>
                if (i <? 0)%Z then None else items !! Z.to_nat i
            | ToString, [v] => toStringValue v
            | GenList, [g; VInt count] =>
                if (count <? 0)%Z then None
                else
                  VList <$> mapM (fun i => apply n g (VInt (Z.of_nat i)))
                                 (seq 0 (Z.to_nat count))
            | _, _ => None
            end
      | _ => None
      end
  end.

(** What [nix eval --apply e] computes: [e], which is a function, applied
    to the value loaded from the flake. *)
Definition run (fuel : nat) (e : Expr) (loaded : Value) : option Value :=
  f ← eval fuel globals e; apply fuel f loaded.

(** The attribute set that describes the element [x] at index [i] of a
    list: its index, its [name] if it has one, else its [pname] if it has
    one, else the index as a string, and whether its [type] is the string
    [derivation] or it has a [drvPath]. *)
Definition elementValue (i : nat) (x : Value) : Value :=
  VAttrs
    [("index", VInt (Z.of_nat i));
     ("name",
      match attr "name" x with
      | Some n => n
      | None =>
          match attr "pname" x with
          | Some p => p
          | None => VStr (JS.showNat i)
          end
      end);
     ("isDrv",
      VBool (match attr "type" x with
             | Some (VStr t) => String.eqb t "derivation"
             | _ => false
             end || hasAttr "drvPath" x))].

(** The function that [listElementsAst] hands to [builtins.genList], once
    [xs] is bound. *)
Definition elementClosure (xs : list Value) : Value :=
  VClosure (("xs", VList xs) :: globals) "i"
    (Let "e"
       (App (App (Select (Var "builtins") "elemAt") (Var "xs")) (Var "i"))
       (Attrs
          [("index", Var "i");
           ("name",
            SelectOr (Var "e") "name"
              (SelectOr (Var "e") "pname"
                 (Paren (App (Var "toString") (Var "i")))));
           ("isDrv",
            OrElse
              (Eq (Paren (SelectOr (Var "e") "type" (Var "null")))
                  (Str "derivation"))
              (Paren (HasAttr (Var "e") "drvPath")))])).

(** The entry of the JSON answer that an attribute set with an integer
    [index], a string [name] and a boolean [isDrv] is printed as. *)
Definition toInfo (v : Value) : option ElementInfo :=
  match attr "index" v, attr "name" v, attr "isDrv" v with
  | Some (VInt i), Some (VStr n), Some (VBool b) =>
      if (i <? 0)%Z then None else Some (mkInfo (Z.to_nat i) n b)
  | _, _, _ => None
  end.

(** The answer that the tree provider receives when the evaluator has
    computed the list [items]. *)
Definition toInfos (items : list Value) : option (list ElementInfo) :=
  mapM toInfo items.

End NixLang.

Module NixExpr.

(** The accessor expressions that [buildEvalArgs] writes: [x], the loaded
    value, and [(builtins.elemAt a i)]. *)
Inductive Accessor :=
  | Loaded
  | ElemAt (inner : Accessor) (i : nat).

(** The text of an accessor. *)
Fixpoint render (a : Accessor) : string :=
  match a with
  | Loaded => "x"
  | ElemAt inner i =>
      "(builtins.elemAt " +:+ render inner +:+ " " +:+ JS.showNat i +:+ ")"
  end.

(** [builtins.elemAt v i]: the [i]-th element of a list, an error
    otherwise. *)
Definition elemAt (v : Json) (i : nat) : option Json :=
  match v with
  | JArr items => items !! i
  | _ => None
  end.

(** The value of an accessor when [x] is the loaded value. *)
Fixpoint access (a : Accessor) (x : Json) : option Json :=
  match a with
  | Loaded => Some x
  | ElemAt inner i =>
      match access inner x with
      | Some v => elemAt v i
      | None => None
      end
  end.

(** Index after index, each applied to the result of the one before. *)
Definition nested (indices : list nat) : Accessor :=
  fold_left ElemAt indices Loaded.

End NixExpr.

(** What awaiting each query of the runner yields at one moment. *)
Record Evaluator := mkEvaluator {
  evalType : string -> NixEvalResult string;
  evalIsDrv : string -> NixEvalResult Json;
  evalAttrNames : string -> NixEvalResult (list string);
  evalValue : string -> NixEvalResult Json;
  evalList : string -> NixEvalResult (list ElementInfo);
  evalFlakeShow : NixEvalResult (list (string * Json))
}.

(** ** [flakeTreeProvider.ts] (the class [FlakeTreeProvider]) *)

Module FlakeTreeProvider.
Import Node.

Inductive StatusType := Info | Failure | Success.

(** The fields of the class that [getChildren] reads or writes, the
    configured root path, and what the provider sends out: the queries it
    hands to the runner and the status updates it emits. *)
Record Provider := mkProvider {
  flakePath : string;
  rootPath : string;
  rootNode : option FlakeNode;
  lastGoodChildren : gmap string (list FlakeNode);
  prefetchCache : gmap string (list FlakeNode);
  filterPath : string;
  knownPaths : list string;
  issued : list NixRunner.Query;
  statusUpdates : list (StatusType * string)
}.

(** What a block of statements ends with: a value or a thrown error. *)
Inductive Outcome (A : Type) :=
  | Returned (a : A)
  | Thrown (message : string).
Arguments Returned {A} _.
Arguments Thrown {A} _.

(** The message of the [TypeError] of reading through [undefined]; the
    text is the one of the engine, and stands here for any text. *)
Definition typeError : string := "data is not iterable".

Definition emitStatus (ty : StatusType) (message : string) (st : Provider)
  : Provider :=
  mkProvider (flakePath st) (rootPath st) (rootNode st) (lastGoodChildren st)
             (prefetchCache st) (filterPath st) (knownPaths st) (issued st)
             (statusUpdates st ++ [(ty, message)]).

(** A call of a query method of the runner. *)
Definition ask (q : NixRunner.Query) (st : Provider) : Provider :=
  mkProvider (flakePath st) (rootPath st) (rootNode st) (lastGoodChildren st)
             (prefetchCache st) (filterPath st) (knownPaths st)
             (issued st ++ [q]) (statusUpdates st).

Definition setLastGood (path : string) (cs : list FlakeNode) (st : Provider)
  : Provider :=
  mkProvider (flakePath st) (rootPath st) (rootNode st)
             (<[path := cs]> (lastGoodChildren st))
             (prefetchCache st) (filterPath st) (knownPaths st) (issued st)
             (statusUpdates st).

Definition setRootNode (n : option FlakeNode) (st : Provider) : Provider :=
  mkProvider (flakePath st) (rootPath st) n (lastGoodChildren st)
             (prefetchCache st) (filterPath st) (knownPaths st) (issued st)
             (statusUpdates st).

(** [indexPath(attrPath)] *)
Definition indexPath (path : string) (st : Provider) : Provider :=
  if JS.truthy path && negb (existsb (String.eqb path) (knownPaths st)) then
    mkProvider (flakePath st) (rootPath st) (rootNode st)
               (lastGoodChildren st) (prefetchCache st) (filterPath st)
               (knownPaths st ++ [path]) (issued st) (statusUpdates st)
  else st.

(** The loop "Index paths for search" of [getChildren]. *)
Definition indexAll (cs : list FlakeNode) (st : Provider) : Provider :=
  fold_left (fun s child => indexPath (attrPath child) s) cs st.

(** Two providers with the same settings, prefetch cache and last good
    children: they differ at most in what fetching logs and indexes. *)
Record sameSettings (a b : Provider) : Prop := {
  same_flakePath : flakePath b = flakePath a;
  same_rootPath : rootPath b = rootPath a;
  same_filterPath : filterPath b = filterPath a;
  same_prefetchCache : prefetchCache b = prefetchCache a;
  same_lastGood : lastGoodChildren b = lastGoodChildren a
}.

(** [toRelativePath(absolutePath)] *)
Definition toRelativePath (rootPath absolutePath : string) : string :=
  if negb (JS.truthy rootPath) then absolutePath
  else if JS.startsWith absolutePath (rootPath +:+ ".") then
    JS.slice absolutePath (String.length rootPath + 1)
  else if String.eqb absolutePath rootPath then ""
  else absolutePath.

(** The predicate of the [filter] of [applyFilter]. *)
Definition matchesFilter (st : Provider) (child : FlakeNode) : bool :=
  let filterLower := JS.toLowerCase (filterPath st) in
  let childPathLower :=
    JS.toLowerCase (toRelativePath (rootPath st) (attrPath child)) in
  let childLabelLower := JS.toLowerCase (label child) in
  if String.eqb childPathLower filterLower then true
  else if JS.startsWith filterLower (childPathLower +:+ ".") then true
  else if JS.startsWith childPathLower (filterLower +:+ ".")
          || JS.startsWith childPathLower filterLower then true
  else if JS.includes childLabelLower filterLower
          || JS.includes filterLower childLabelLower then true
  else false.

(** [applyFilter(children)] *)
Definition applyFilter (st : Provider) (cs : list FlakeNode)
  : list FlakeNode :=
  if negb (JS.truthy (filterPath st)) then cs
  else List.filter (matchesFilter st) cs.

(** What a failed query falls back to: the last good children of the
    node, or one error node with the message. *)
Definition fallback (err : option string) (parent : FlakeNode)
           (st : Provider) : list FlakeNode :=
  match lastGoodChildren st !! attrPath parent with
  | Some lastGood => lastGood
  | None =>
      [createErrorNode (JS.opt_or_else err "Failed to evaluate")
                       (Some parent)]
  end.

(** The common end of a failed query: the status update, then the last
    good children or one error node. *)
Definition failWith (statusDefault : string) (err : option string)
           (parent : FlakeNode) (st : Provider)
  : Provider * list FlakeNode :=
  let st1 := emitStatus Failure (JS.opt_or_else err statusDefault) st in
  match lastGoodChildren st1 !! attrPath parent with
  | Some lastGood => (st1, lastGood)
  | None =>
      (st1,
       [createErrorNode (JS.opt_or_else err "Failed to evaluate")
                        (Some parent)])
  end.

Section WithEvaluator.

Variable ev : Evaluator.
(** [Date.now()] when the node cache is written. *)
Variable writeTime : Z.

(** [fetchLeafValue(node)] *)
Definition fetchLeafValue (node : FlakeNode) (st : Provider)
  : Provider * FlakeNode :=
  let st1 := ask (NixRunner.getValue (flakePath st) (attrPath node)) st in
  let result := evalValue ev (attrPath node) in
  if success result then
    (st1,
     setCache (Some (mkCache None (data result) writeTime))
              (setValue (data result) node))
  else
    (st1, setError (JS.opt_or_else (error result) "Failed to evaluate") node).

(** [fetchAttrsetChildren(parent)] *)
Definition fetchAttrsetChildren (parent : FlakeNode) (st : Provider)
  : Provider * FlakeNode * Outcome (list FlakeNode) :=
  match prefetchCache st !! attrPath parent with
  | Some prefetched => (st, parent, Returned prefetched)
  | None =>
      let st1 :=
        ask (NixRunner.isDerivation (flakePath st) (attrPath parent)) st in
      let drvCheck := evalIsDrv ev (attrPath parent) in
      let parent1 :=
        if success drvCheck
           && match data drvCheck with
              | Some (JBool true) => true
              | _ => false
              end
        then updateAppearance (setNodeType Derivation parent)
        else parent in
      let st2 :=
        ask (NixRunner.getAttrNames (flakePath st1) (attrPath parent1)) st1 in
      let result := evalAttrNames ev (attrPath parent1) in
      if negb (success result) then
        let '(st3, cs) :=
          failWith "Failed to get attributes" (error result) parent1 st2 in
        (st3, parent1, Returned cs)
      else
        match data result with
        | None => (st2, parent1, Thrown typeError)
        | Some attrNames =>
            let cs :=
              map (fun name => createChild name Attrset parent1)
                  (JS.sortStrings attrNames) in
            (emitStatus Success
               ("Loaded " +:+ JS.showNat (length cs) +:+ " attributes") st2,
             parent1, Returned cs)
        end
  end.

(** The child that [fetchListChildren] makes of one element. *)
Definition listChild (parent : FlakeNode) (elem : ElementInfo)
  : FlakeNode :=
  let child :=
    new (name elem)
        (attrPath parent +:+ ".[" +:+ JS.showNat (index elem) +:+ "]")
        (if isDrv elem then Derivation else ListElement)
        (if isDrv elem then NotCollapsible else Collapsed) in
  let child1 := updateAppearance (setListIndex (Some (index elem)) child) in
  if isDrv elem then setCollapsibleState NotCollapsible child1 else child1.

(** [fetchListChildren(parent)] *)
Definition fetchListChildren (parent : FlakeNode) (st : Provider)
  : Provider * FlakeNode * Outcome (list FlakeNode) :=
  let parent1 := updateAppearance (setNodeType List parent) in
  let st1 :=
    ask (NixRunner.getListElementsInfo (flakePath st) (attrPath parent1))
        st in
  let listValue := evalList ev (attrPath parent1) in
  if negb (success listValue) then
    let '(st2, cs) :=
      failWith "Failed to get list elements" (error listValue) parent1 st1 in
    (st2, parent1, Returned cs)
  else
    match data listValue with
    | None => (st1, parent1, Thrown typeError)
    | Some elements =>
        let cs := map (listChild parent1) elements in
        (emitStatus Success
           ("Loaded " +:+ JS.showNat (length cs) +:+ " list items") st1,
         parent1, Returned cs)
    end.

(** [fetchChildren(parent)] *)
Definition fetchChildren (parent : FlakeNode) (st : Provider)
  : Provider * FlakeNode * Outcome (list FlakeNode) :=
  let st1 :=
    ask (NixRunner.getValueType (flakePath st) (attrPath parent)) st in
  let typeResult := evalType ev (attrPath parent) in
  if negb (success typeResult) then
    let '(st2, cs) :=
      failWith "Failed to get type" (error typeResult) parent st1 in
    (st2, parent, Returned cs)
  else
    match data typeResult with
    | Some "set" => fetchAttrsetChildren parent st1
    | Some "list" => fetchListChildren parent st1
    | _ =>
        let parent1 :=
          setCollapsibleState NotCollapsible (setNodeType Leaf parent) in
        let '(st2, parent2) := fetchLeafValue parent1 st1 in
        (st2, parent2, Returned [])
    end.

(** [fetchTopLevelOutputs()] *)
Definition fetchTopLevelOutputs (st : Provider)
  : Provider * Outcome (list FlakeNode) :=
  let st1 := ask (NixRunner.flakeShow (flakePath st)) st in
  let result := evalFlakeShow ev in
  if negb (success result) then
    let st2 :=
      emitStatus Failure (JS.opt_or_else (error result) "Failed to show flake")
                 st1 in
    match lastGoodChildren st2 !! "" with
    | Some lastGood => (st2, Returned lastGood)
    | None =>
        (st2,
         Returned [createErrorNode
                     (JS.opt_or_else (error result) "Failed to evaluate flake")
                     None])
    end
  else
    let st2 := emitStatus Success "Flake outputs loaded" st1 in
    match data result with
    | None => (st2, Thrown typeError)
    | Some outputs =>
        let keys := JS.sortStrings (map fst outputs) in
        let cs := map (fun key => new key key Attrset Collapsed) keys in
        let st3 := fold_left (fun s key => indexPath key s) keys st2 in
        (setLastGood "" cs st3, Returned cs)
    end.

(** [getRootChildren()] *)
Definition getRootChildren (st : Provider)
  : Provider * Outcome (list FlakeNode) :=
  if negb (JS.truthy (rootPath st)) then fetchTopLevelOutputs st
  else
    let root :=
      new (JS.or_else (List.last (JS.split "." (rootPath st)) "") "root")
          (rootPath st) Attrset Expanded in
    let '(st1, root1, out) := fetchChildren root (setRootNode (Some root) st) in
    (setRootNode (Some root1) st1, out).

(** The [try] block of [getChildren]; [now] is [Date.now()] when the
    node cache is read. *)
Definition getChildrenTry (now : Z) (element : option FlakeNode)
           (st : Provider)
  : Provider * option FlakeNode * Outcome (list FlakeNode) :=
  match element with
  | None =>
      let '(st1, out) := getRootChildren st in
      match out with
      | Returned cs => (st1, None, Returned (applyFilter st1 cs))
      | Thrown m => (st1, None, Thrown m)
      end
  | Some el =>
      match getCachedChildren now el with
      | Some cached => (st, Some el, Returned (applyFilter st cached))
      | None =>
          let '(st1, el1, out) := fetchChildren el st in
          match out with
          | Thrown m => (st1, Some el1, Thrown m)
          | Returned cs =>
              let st2 := indexAll cs st1 in
              if (0 <? length cs)%nat
                 && negb (FlakeNodeType_eqb (nodeType el1) Error)
              then
                (setLastGood (attrPath el1) cs st2,
                 Some (cacheChildren writeTime cs el1),
                 Returned (applyFilter st2 cs))
              else (st2, Some el1, Returned (applyFilter st2 cs))
          end
      end
  end.

(** [getChildren(element?)]: the provider and the element after the
    call, and the nodes the promise resolves with. *)
Definition getChildren (now : Z) (element : option FlakeNode)
           (st : Provider)
  : Provider * option FlakeNode * list FlakeNode :=
  if negb (JS.truthy (flakePath st)) then (st, element, [])
  else
    let '(st1, element1, out) := getChildrenTry now element st in
    match out with
    | Returned cs => (st1, element1, cs)
    | Thrown message =>
        let st2 :=
          emitStatus Failure ("Failed to get children: " +:+ message) st1 in
        let lastGood :=
          match element1 with
          | Some el => lastGoodChildren st2 !! attrPath el
          | None => None
          end in
        match lastGood with
        | Some cs => (st2, element1, cs)
        | None => (st2, element1, [createErrorNode message element1])
        end
    end.

(** [refreshNode(node)], as far as the node is concerned. *)
Definition refreshNode (node : FlakeNode) : FlakeNode := setCache None node.

(** The error of the query for the children of [path], when the query
    that decides them fails: the type query, or the attribute-name query
    of a set that is not prefetched, or the element query of a list. *)
Definition queryFailure (st : Provider) (path : string)
  : option (option string) :=
  let typeResult := evalType ev path in
  if negb (success typeResult) then Some (error typeResult)
  else
    match data typeResult with
    | Some "set" =>
        match prefetchCache st !! path with
        | Some _ => None
        | None =>
            let result := evalAttrNames ev path in
            if negb (success result) then Some (error result) else None
        end
    | Some "list" =>
        let result := evalList ev path in
        if negb (success result) then Some (error result) else None
    | _ => None
    end.

(** The code of the callback of [prefetchCommonPaths] that runs once the
    attribute names of [fullPath] have arrived: [result] is what the
    awaited query resolved with. A [result.data] that is no array makes
    [sort] throw; the [catch] of the callback logs the error and leaves the
    provider as it is. *)
Definition prefetched (fullPath : string)
           (result : NixEvalResult (list string)) (st : Provider) : Provider :=
  if success result then
    match data result with
    | None => st
    | Some attrNames =>
        let names := JS.sortStrings attrNames in
        let cs :=
          map (fun name =>
                 new name (fullPath +:+ "." +:+ name) Attrset Collapsed)
              names in
        let st1 :=
          fold_left
            (fun s name => indexPath (fullPath +:+ "." +:+ name) s)
            names st in
        let st2 :=
          mkProvider (flakePath st1) (rootPath st1) (rootNode st1)
                     (<[fullPath := cs]> (lastGoodChildren st1))
                     (<[fullPath := cs]> (prefetchCache st1))
                     (filterPath st1) (knownPaths st1) (issued st1)
                     (statusUpdates st1) in
        indexPath fullPath st2
    end
  else st.

End WithEvaluator.

(** [setFilterPath(path)]: the field and the status update. *)
Definition setFilterPath (path : string) (st : Provider) : Provider :=
  let st1 :=
    mkProvider (flakePath st) (rootPath st) (rootNode st)
               (lastGoodChildren st) (prefetchCache st) (JS.trim path)
               (knownPaths st) (issued st) (statusUpdates st) in
  if JS.truthy (filterPath st1)
  then emitStatus Info ("Filtered to: " +:+ filterPath st1) st1
  else emitStatus Info "Filter cleared" st1.

(** [clearFilter()] *)
Definition clearFilter (st : Provider) : Provider := setFilterPath "" st.

(** [prefetchCommonPaths()] up to its first [await]: the guard, the status
    update and the queries, one for each path of the setting
    [prefetchPaths]; the second component is the flag
    [prefetchInProgress]. *)
Definition prefetchCommonPaths (prefetchInProgress : bool)
           (prefetchPaths : list string) (st : Provider) : Provider * bool :=
  if prefetchInProgress then (st, prefetchInProgress)
  else if negb (JS.truthy (rootPath st)) then (st, prefetchInProgress)
  else
    let st1 := emitStatus Info "Prefetching common config paths..." st in
    (fold_left
       (fun s subPath =>
          ask (NixRunner.getAttrNames
                 (flakePath s) (rootPath s +:+ "." +:+ subPath)) s)
       prefetchPaths st1,
     true).

(** [refresh()] *)
Definition refresh (prefetchInProgress : bool) (prefetchPaths : list string)
           (st : Provider) : Provider * bool :=
  let st1 :=
    mkProvider (flakePath st) (rootPath st) None (lastGoodChildren st) ∅
               (filterPath st) [] (issued st) (statusUpdates st) in
  prefetchCommonPaths prefetchInProgress prefetchPaths
    (emitStatus Info "Refreshing flake outputs..." st1).

(** A provider that differs from another one only in the queries it has
    issued and the status updates it has emitted since. *)
Definition logsOnly (qs : list NixRunner.Query)
           (us : list (StatusType * string)) (a b : Provider) : Prop :=
  b = mkProvider (flakePath a) (rootPath a) (rootNode a)
                 (lastGoodChildren a) (prefetchCache a) (filterPath a)
                 (knownPaths a) (issued a ++ qs) (statusUpdates a ++ us).

(** Queries that run in the directory of the flake. *)
Definition inFlake (st : Provider) (qs : list NixRunner.Query) : Prop :=
  Forall (fun q => cwd (NixRunner.q_options q) = flakePath st) qs.

(** The set of known paths as a set that only grows: what was known is
    still known, in the same order; no path twice; never the empty path. *)
Definition indexGrows (a b : Provider) : Prop :=
  knownPaths a `prefix_of` knownPaths b
  /\ (NoDup (knownPaths a) -> NoDup (knownPaths b))
  /\ ("" ∉ knownPaths a -> "" ∉ knownPaths b).

End FlakeTreeProvider.

(** ** The expansion-aware cache of [docs/nixd-migration-plan.md]

    The bodies of [smartRefresh], [onNodeExpanded] and [onNodeCollapsed]
    that [extension.ts] calls are the listings of the migration plan (section
    "FlakeTreeProvider Changes"); [findNodeByPath], which the listing calls
    and does not define, is a parameter. *)

Module SmartCache.

Inductive MetadataType := TSet | TList | TDerivation | TLeaf.

(** [interface NodeMetadata] *)
Record NodeMetadata := mkMetadata {
  type : MetadataType;
  isDrv : bool;
  attrNames : option (list string);
  listLength : option nat;
  value : option Json;
  timestamp : Z
}.

(** [interface TreeState], with the nodes handed to
    [_onDidChangeTreeData.fire], oldest first. *)
Record TreeState := mkTreeState {
  expandedPaths : list string;
  metadataCache : gmap string NodeMetadata;
  fired : list Node.FlakeNode
}.

(** [set.has(path)] *)
Definition has (paths : list string) (path : string) : bool :=
  existsb (String.eqb path) paths.

(** [set.add(path)] *)
Definition add (path : string) (paths : list string) : list string :=
  if has paths path then paths else paths ++ [path].

(** [set.delete(path)] *)
Definition remove (path : string) (paths : list string) : list string :=
  List.filter (fun p => negb (String.eqb path p)) paths.

(** [a.split('.').length] *)
Definition depth (path : string) : nat := length (JS.split "." path).

(** The comparator [(a, b) => depthB - depthA], as the test
    [cmp(a, b) <= 0]. *)
Definition deepestFirst (a b : string) : bool :=
  (Z.of_nat (depth b) - Z.of_nat (depth a) <=? 0)%Z.

(** [[...this.expandedPaths].sort(...)] *)
Definition sortedPaths (st : TreeState) : list string :=
  JS.sort deepestFirst (expandedPaths st).

(** The test of the loop of [onNodeCollapsed]. *)
Definition underCollapsed (path cachedPath : string) : bool :=
  String.eqb cachedPath path || JS.startsWith cachedPath (path +:+ ".").

Section WithTree.

Variable findNodeByPath : string -> option Node.FlakeNode.

(** One round of the loop "Refresh expanded paths". *)
Definition refreshPath (st : TreeState) (path : string) : TreeState :=
  let cache := delete path (metadataCache st) in
  match findNodeByPath path with
  | Some node => mkTreeState (expandedPaths st) cache (fired st ++ [node])
  | None => mkTreeState (expandedPaths st) cache (fired st)
  end.

(** [smartRefresh()] *)
Definition smartRefresh (st : TreeState) : TreeState :=
  let sorted := sortedPaths st in
  let kept :=
    filter (fun entry => has (expandedPaths st) (fst entry) = true)
           (metadataCache st) in
  fold_left refreshPath sorted
            (mkTreeState (expandedPaths st) kept (fired st)).

End WithTree.

(** [onNodeExpanded(path)] *)
Definition onNodeExpanded (path : string) (st : TreeState) : TreeState :=
  mkTreeState (add path (expandedPaths st)) (metadataCache st) (fired st).

(** [onNodeCollapsed(path)] *)
Definition onNodeCollapsed (path : string) (st : TreeState) : TreeState :=
  mkTreeState
    (remove path (expandedPaths st))
    (filter (fun entry => underCollapsed path (fst entry) = false)
            (metadataCache st))
    (fired st).

End SmartCache.

(** ** [src/searchProvider.ts]: the index and the suggestions *)

Module SearchIndex.

(** The two indexes of the class: [allPaths] and [pathTree]. *)
Record Index := mkIndex {
  allPaths : list string;
  pathTree : gmap string (list string)
}.

(** One round of the loop of [indexPath]; the state is
    [(current, pathTree)]. *)
Definition indexStep (st : string * gmap string (list string))
           (part : string) : string * gmap string (list string) :=
  let '(current, tree) := st in
  let parent := current in
  let current1 :=
    if JS.truthy current then current +:+ "." +:+ part else part in
  let tree1 :=
    match tree !! parent with
    | Some _ => tree
    | None => <[parent := []]> tree
    end in
  (current1, alter (SmartCache.add current1) parent tree1).

(** [indexPath(absolutePath)]; [rootPath] is what [getRootPath()]
    returns. *)
Definition indexPath (rootPath absolutePath : string) (idx : Index)
  : Index :=
  if negb (JS.truthy absolutePath) then idx
  else
    let relativePath := SearchProvider.toRelativePath rootPath absolutePath in
    if negb (JS.truthy relativePath) then idx
    else
      let parts := SearchProvider.splitPath relativePath in
      mkIndex (SmartCache.add relativePath (allPaths idx))
              (snd (fold_left indexStep parts ("", pathTree idx))).

(** [clearIndex()] *)
Definition clearIndex (idx : Index) : Index := mkIndex [] ∅.

(** The loop of [fuzzyMatch]; [queryIndex] is its counter. The loop
    [for (const char of target)] visits the code points of the target and
    [query[queryIndex]] is a code unit of the query: on the strings of
    [JS.isAscii] both are the characters of the string. *)
Fixpoint fuzzyLoop (query : string) (queryIndex : nat) (target : string)
  : bool :=
  match target with
  | EmptyString => false
  | String char rest =>
      match JS.charAt query queryIndex with
      | Some c =>
          if Ascii.eqb char c then
            if (String.length query <=? S queryIndex)%nat then true
            else fuzzyLoop query (S queryIndex) rest
          else fuzzyLoop query queryIndex rest
      | None => fuzzyLoop query queryIndex rest
      end
  end.

(** [fuzzyMatch(query, target)] *)
Definition fuzzyMatch (query target : string) : bool :=
  fuzzyLoop query 0 target.

(** An entry of [suggestions]. *)
Record Suggestion := mkSuggestion {
  path : string;
  score : Z
}.

(** [p.split('.').pop()?.toLowerCase() || ''] *)
Definition lastPartLower (p : string) : string :=
  JS.or_else (JS.toLowerCase (List.last (JS.split "." p) "")) "".

(** One round of the loop over [parentChildren]. *)
Definition childSuggestion (searchTerm : string)
           (suggestions : list Suggestion) (childPath : string)
  : list Suggestion :=
  let childName := lastPartLower childPath in
  if JS.startsWith childName searchTerm then
    suggestions ++ [mkSuggestion childPath 10]
  else if JS.includes childName searchTerm then
    suggestions ++ [mkSuggestion childPath 5]
  else suggestions.

(** Whether the loop over [parentChildren] takes a child. *)
Definition keeps (searchTerm childPath : string) : bool :=
  JS.startsWith (lastPartLower childPath) searchTerm
  || JS.includes (lastPartLower childPath) searchTerm.

(** One round of the loop over [allPaths]. *)
Definition pathSuggestion (normalizedQuery searchTerm : string)
           (suggestions : list Suggestion) (p : string)
  : list Suggestion :=
  let pathLower := JS.toLowerCase p in
  let lastPart := lastPartLower p in
  if existsb (fun s => String.eqb (path s) p) suggestions then suggestions
  else if JS.startsWith lastPart searchTerm then
    suggestions ++ [mkSuggestion p 3]
  else if JS.includes pathLower normalizedQuery then
    suggestions ++ [mkSuggestion p 2]
  else if fuzzyMatch normalizedQuery lastPart then
    suggestions ++ [mkSuggestion p 1]
  else suggestions.

Section WithLocale.

(** [a.localeCompare(b)], which depends on the locale of the host. *)
Variable localeCompare : string -> string -> Z.

(** The comparator of [suggestions.sort], as the test [cmp(a, b) <= 0]. *)
Definition byScore (a b : Suggestion) : bool :=
  if negb (score b =? score a)%Z then (score b - score a <=? 0)%Z
  else (localeCompare (path a) (path b) <=? 0)%Z.

(** The suggestions of a query that is not empty and does not end with a
    dot, before they are sorted. *)
Definition scored (query : string) (idx : Index) : list Suggestion :=
  let normalizedQuery := JS.toLowerCase query in
  let lastDotIndex := JS.lastIndexOf "." query in
  let parentPath :=
    match lastDotIndex with
    | Some (S i) => JS.take query (S i)
    | _ => ""
    end in
  let searchTerm :=
    match lastDotIndex with
    | Some (S i) => JS.toLowerCase (JS.slice query (S i + 1))
    | _ => normalizedQuery
    end in
  let suggestions :=
    match pathTree idx !! parentPath with
    | Some parentChildren =>
        fold_left (childSuggestion searchTerm) parentChildren []
    | None => []
    end in
  fold_left (pathSuggestion normalizedQuery searchTerm) (allPaths idx)
            suggestions.

(** [getAutocompleteSuggestions(query)] *)
Definition getAutocompleteSuggestions (query : string) (idx : Index)
  : list string :=
  if negb (JS.truthy query) then
    match pathTree idx !! "" with
    | Some topLevel => take 20 (JS.sortStrings topLevel)
    | None => []
    end
  else if JS.endsWith query "." then
    let parentPath := JS.take query (String.length query - 1) in
    match pathTree idx !! parentPath with
    | Some children => take 30 (JS.sortStrings children)
    | None => []
    end
  else
    map path (take 30 (JS.sort byScore (scored query idx))).

End WithLocale.

(** A comparator that orders the strings, as [localeCompare] does in every
    locale: swapping the arguments changes the sign of the result, and the
    order is transitive. For such a comparator the language defines the
    order that [sort] produces. *)
Definition consistent (compare : string -> string -> Z) : Prop :=
  (forall a b, Z.sgn (compare b a) = (- Z.sgn (compare a b))%Z)
  /\ (forall a b c,
        (compare a b <= 0)%Z -> (compare b c <= 0)%Z ->
        (compare a c <= 0)%Z).

(** The order of [suggestions.sort]: the higher score first, and among
    equal scores the order of the comparator on the paths. *)
Definition ranks (compare : string -> string -> Z) (a b : Suggestion)
  : Prop :=
  (score b < score a)%Z
  \/ (score a = score b /\ (compare (path a) (path b) <= 0)%Z).

(** The index after [indexPath] has been called on each of the paths, in
    order, the root path being what it was at each call. *)
Definition indexed (calls : list (string * string)) : Index :=
  fold_left (fun idx call => indexPath (fst call) (snd call) idx) calls
            (mkIndex [] ∅).

(** The entries of a path tree: a parent and one of its children. *)
Definition treeEdge (tree : gmap string (list string))
           (parent child : string) : Prop :=
  exists children, tree !! parent = Some children /\ child ∈ children.

Definition edge (idx : Index) (parent child : string) : Prop :=
  treeEdge (pathTree idx) parent child.

(** A path tree in which each child is its parent with one more part, a
    parent is the root [""] or a child itself, and no set lists a child
    twice. *)
Definition wellFormed (tree : gmap string (list string)) : Prop :=
  (forall parent child,
     treeEdge tree parent child ->
     exists part,
       JS.truthy part = true
       /\ child = if JS.truthy parent then parent +:+ "." +:+ part
                  else part)
  /\ (forall parent,
        is_Some (tree !! parent) ->
        parent = "" \/ exists grand, treeEdge tree grand parent)
  /\ (forall parent cs, tree !! parent = Some cs -> NoDup cs).

End SearchIndex.

(** ** [src/nixdClient.ts]: [parsePathForCompletion] *)

Module NixdClient.

Record Completion := mkCompletion {
  scope : list string;
  prefix : string
}.

(** [parsePathForCompletion(path)] *)
Definition parsePathForCompletion (path : string) : Completion :=
  if negb (JS.truthy path) then mkCompletion [] ""
  else
    let parts := JS.split "." path in
    if JS.endsWith path "." then mkCompletion (removelast parts) ""
    else mkCompletion (removelast parts) (JS.or_else (List.last parts "") "").

(** The [fullPath] that [getConfigCompletion] builds of the scope and the
    prefix. *)
Definition fullPath (c : Completion) : string :=
  if (0 <? length (scope c))%nat
  then JS.join "." (scope c) +:+ "." +:+ prefix c
  else prefix c.

End NixdClient.

(** ** [statusView.ts]: the history of the status view *)

Module StatusView.

(** A status update without its time stamp. *)
Definition StatusUpdate : Type := FlakeTreeProvider.StatusType * string.

Definition maxHistory : nat := 50.

(** [updateStatus(update)] on the field [statusHistory] *)
Definition updateStatus (update : StatusUpdate)
           (statusHistory : list StatusUpdate) : list StatusUpdate :=
  let history := update :: statusHistory in
  if (maxHistory <? length history)%nat then take maxHistory history
  else history.

(** The updates of the message that [updateStatus] posts to the view. *)
Definition posted (statusHistory : list StatusUpdate) : list StatusUpdate :=
  take 10 statusHistory.

(** The history after the updates that a provider has emitted, oldest
    first, have gone through [updateStatus]. *)
Definition received (updates : list StatusUpdate) : list StatusUpdate :=
  fold_left (fun history update => updateStatus update history) updates [].

End StatusView.

(** ** [extension.ts]: the file watcher and its debounce timer

    The timers of [triggerSmartRefresh] are kept in a table, by creation
    order; the variable [debounceTimer] holds the last one. *)

Module Extension.

Record Watcher := mkWatcher {
  debounceTimer : option nat;
  timers : list Runner.TimerState;
  tree : SmartCache.TreeState
}.

Inductive Event :=
  | FileChanged
  | TimerFires (timer : nat)
  | NodeExpanded (path : string)
  | NodeCollapsed (path : string)
  | Deactivate.

(** [clearTimeout(debounceTimer)] *)
Definition clearTimeout (st : Runner.TimerState) : Runner.TimerState :=
  match st with Runner.Pending => Runner.Cleared | _ => st end.

Definition clearDebounce (w : Watcher) : list Runner.TimerState :=
  match debounceTimer w with
  | Some tid => alter clearTimeout tid (timers w)
  | None => timers w
  end.

(** [triggerSmartRefresh()], the handler of the three events of the file
    watcher. *)
Definition triggerSmartRefresh (w : Watcher) : Watcher :=
  let timers1 := clearDebounce w in
  mkWatcher (Some (length timers1)) (timers1 ++ [Runner.Pending]) (tree w).

(** A pending timer is the one that [debounceTimer] holds. *)
Definition onePending (w : Watcher) : Prop :=
  forall tid,
    timers w !! tid = Some Runner.Pending -> debounceTimer w = Some tid.

Section WithTree.

Variable findNodeByPath : string -> option Node.FlakeNode.

(** The callback of the timer: [treeProvider.smartRefresh()]. The runtime
    calls it at most once, and never after [clearTimeout]. *)
Definition timerFires (tid : nat) (w : Watcher) : Watcher :=
  match timers w !! tid with
  | Some Runner.Pending =>
      mkWatcher (debounceTimer w)
                (alter (fun _ => Runner.Fired) tid (timers w))
                (SmartCache.smartRefresh findNodeByPath (tree w))
  | _ => w
  end.

(** [deactivate()], as far as the watcher is concerned. *)
Definition deactivate (w : Watcher) : Watcher :=
  mkWatcher (debounceTimer w) (clearDebounce w) (tree w).

(** The handlers of [onDidExpandElement] and [onDidCollapseElement]. *)
Definition onTree (f : SmartCache.TreeState -> SmartCache.TreeState)
           (w : Watcher) : Watcher :=
  mkWatcher (debounceTimer w) (timers w) (f (tree w)).

Definition step (w : Watcher) (e : Event) : Watcher :=
  match e with
  | FileChanged => triggerSmartRefresh w
  | TimerFires tid => timerFires tid w
  | NodeExpanded path => onTree (SmartCache.onNodeExpanded path) w
  | NodeCollapsed path => onTree (SmartCache.onNodeCollapsed path) w
  | Deactivate => deactivate w
  end.

Definition exec (w : Watcher) (events : list Event) : Watcher :=
  fold_left step events w.

(** The watcher after activation, and the states it can be in. *)
Definition init (t : SmartCache.TreeState) : Watcher := mkWatcher None [] t.

Inductive reachable : Watcher -> Prop :=
  | reachable_init t : reachable (init t)
  | reachable_step w e : reachable w -> reachable (step w e).

End WithTree.

End Extension.

(** ** The path model in the words of the specification *)

Module AttrPath.

(** A segment is a name or a collection index. *)
Inductive Segment :=
  | Name (s : string)
  | Index (i : nat).

(** The display form of a segment: an index is written in brackets. *)
Definition display (seg : Segment) : string :=
  match seg with
  | Name s => s
  | Index i => "[" +:+ JS.showNat i +:+ "]"
  end.

(** [serialize]: the segments joined with dots. *)
Definition serialize (path : list Segment) : string :=
  JS.join "." (map display path).

Definition plainChar (c : ascii) : bool :=
  negb (Ascii.eqb c "." || Ascii.eqb c "[" || Ascii.eqb c "]").

(** A name is not empty and has no dot and no bracket. *)
Definition validName (s : string) : bool :=
  JS.truthy s && JS.allChars plainChar s.

Definition validSegment (seg : Segment) : bool :=
  match seg with
  | Name s => validName s
  | Index _ => true
  end.

(** A string without dot. *)
Definition dotFree (s : string) : bool :=
  JS.allChars (fun c => negb (Ascii.eqb c ".")) s.

(** The segments of the dotted form. *)
Definition segments (path : string) : list string := JS.split "." path.

(** [isAncestor(a, b)]: the segment sequence of [b] starts with all the
    segments of [a]. *)
Definition isAncestor (a b : string) : Prop :=
  segments a `prefix_of` segments b.

(** The index segments at the end of a path. *)
Definition indexTail (indices : list nat) : list Segment :=
  map Index indices.

(** Unmatched brackets: the brackets of the string, read from the left, do
    not alternate [\[], [\]] or do not end closed. *)
Fixpoint unmatchedBrackets (open : bool) (s : string) : bool :=
  match s with
  | EmptyString => open
  | String c rest =>
      if Ascii.eqb c "[" then open || unmatchedBrackets true rest
      else if Ascii.eqb c "]" then negb open || unmatchedBrackets false rest
      else unmatchedBrackets open rest
  end.

(** An empty segment: one of the dot-separated pieces is empty. *)
Definition hasEmptySegment (s : string) : bool :=
  existsb (fun part => negb (JS.truthy part)) (segments s).

Definition malformed (s : string) : bool :=
  unmatchedBrackets false s || hasEmptySegment s.

(** The attribute [name] of a JSON object. *)
Definition field (v : Json) (name : string) : option Json :=
  match v with
  | JObj fields => NixLang.assoc name fields
  | _ => None
  end.

(** One segment further into a value: a name selects an attribute of an
    attribute set, an index an element of a list. *)
Definition followStep (v : option Json) (seg : Segment) : option Json :=
  match v, seg with
  | Some v, Name s => field v s
  | Some v, Index i => NixExpr.elemAt v i
  | None, _ => None
  end.

(** The value at a path of segments below a value, the segments taken in
    their order; [None] when there is none. *)
Definition follow (path : list Segment) (outputs : Json) : option Json :=
  fold_left followStep path (Some outputs).

(** The value that the command built from a base path and list accesses
    computes when the attribute path of its flake reference is resolved in
    [outputs]: the value at the names, and the accessor applied to it. *)
Definition evaluated (names : list string) (accesses : list nat)
           (outputs : Json) : option Json :=
  match follow (map Name names) outputs with
  | Some loaded => NixExpr.access (NixExpr.nested accesses) loaded
  | None => None
  end.

End AttrPath.

(** ** Sample inputs *)

Module Samples.

Definition sampleMetadata : SmartCache.NodeMetadata :=
  SmartCache.mkMetadata SmartCache.TSet false (Some ["enable"]) None None 0.

Definition nodeAt (path : string) : Node.FlakeNode :=
  Node.new path path Node.Attrset Node.Collapsed.

(** A provider on the workspace [/w], no root path, nothing cached. *)
Definition provider : FlakeTreeProvider.Provider :=
  FlakeTreeProvider.mkProvider "/w" "" None ∅ ∅ "" [] [] [].

Definition ok {A : Type} (a : A) : NixEvalResult A :=
  mkResult true (Some a) None.

Definition failed {A : Type} (message : string) : NixEvalResult A :=
  mkResult false None (Some message).

(** Every path is an attribute set with the given attribute names. *)
Definition setEvaluator (names : list string) : Evaluator :=
  mkEvaluator (fun _ => ok "set") (fun _ => ok (JBool false))
              (fun _ => ok names) (fun _ => failed "not a value")
              (fun _ => failed "not a list") (failed "no flake").

(** Every path is a list, and the list query is answered with the given
    entries. *)
Definition listEvaluator (elements : list ElementInfo) : Evaluator :=
  mkEvaluator (fun _ => ok "list") (fun _ => ok (JBool false))
              (fun _ => failed "not a set") (fun _ => failed "not a value")
              (fun _ => ok elements) (failed "no flake").

(** Every query fails with the given message. *)
Definition failingEvaluator (message : string) : Evaluator :=
  mkEvaluator (fun _ => failed message) (fun _ => failed message)
              (fun _ => failed message) (fun _ => failed message)
              (fun _ => failed message) (failed message).

(** The default settings of the runner, and a parser that takes nothing
    for JSON. *)
Definition nixArgs : list string := ["--offline"].
Definition experimentalFeatures : list string := ["nix-command"; "flakes"].
Definition noJson (text : string) : option Json := None.
Definition options : NixRunnerOptions := mkOptions "/w" None.
Definition baseArgs : list string :=
  ["--extra-experimental-features"; "nix-command flakes"; "--offline"].

(** A package, as a list such as [home.packages] holds it, and a value that
    is no attribute set. *)
Definition package (name : string) : NixLang.Value :=
  NixLang.VAttrs [("name", NixLang.VStr name);
                  ("type", NixLang.VStr "derivation");
                  ("drvPath", NixLang.VStr "/nix/store/package.drv")].

Definition plain : NixLang.Value := NixLang.VInt 7.

(** An attribute set with a [pname] and no [name], which is no
    derivation. *)
Definition named (pname : string) : NixLang.Value :=
  NixLang.VAttrs [("pname", NixLang.VStr pname)].

(** Outputs in which [a] is a list whose first element has the list [b]. *)
Definition listOutputs : Json :=
  JObj [("a", JArr [JObj [("b", JArr [JNum 10; JNum 11; JNum 12])]])].

(** Outputs in which [a] is an attribute set whose [b] is a list of
    lists. *)
Definition setOutputs : Json :=
  JObj [("a", JObj [("b", JArr [JArr [JNum 20; JNum 21; JNum 22]])])].

(** The answer to the list query for the list [xs]: the value of the
    expression of the query on [xs], as JSON. *)
Definition listAnswer (xs : list NixLang.Value) : list ElementInfo :=
  match NixLang.run 11 NixLang.listElementsAst (NixLang.VList xs) with
  | Some (NixLang.VList items) =>
      match NixLang.toInfos items with
      | Some elements => elements
      | None => []
      end
  | _ => []
  end.

End Samples.

(** * Properties *)

(** ** Strings *)

Section StringFacts.

Lemma append_assoc (a b c : string) : (a +:+ b) +:+ c = a +:+ (b +:+ c).
Proof. induction a as [|x a IH]; simpl; [reflexivity | now rewrite IH]. Qed.

Lemma append_empty_r (a : string) : a +:+ "" = a.
Proof. induction a as [|x a IH]; simpl; [reflexivity | now rewrite IH]. Qed.

Lemma length_append (a b : string) :
  String.length (a +:+ b) = String.length a + String.length b.
Proof. induction a as [|x a IH]; simpl; [reflexivity | now rewrite IH]. Qed.

Lemma prefix_append (p s : string) : String.prefix p (p +:+ s) = true.
Proof.
  induction p as [|c p IH]; simpl.
  - now destruct s.
  - destruct (ascii_dec c c) as [_|ne]; [exact IH | now destruct ne].
Qed.

Lemma prefix_inv (p s : string) :
  String.prefix p s = true -> exists rest, s = p +:+ rest.
Proof.
  revert s. induction p as [|c p IH]; intros s H.
  - now exists s.
  - destruct s as [|d s]; simpl in H; [discriminate|].
    destruct (ascii_dec c d) as [->|]; [|discriminate].
    destruct (IH _ H) as [rest ->]. now exists rest.
Qed.

Lemma prefix_longer (r : string) (c : ascii) (s : string) :
  String.prefix (r +:+ String c s) r = false.
Proof.
  induction r as [|x r IH]; simpl; [reflexivity|].
  destruct (ascii_dec x x); [exact IH | reflexivity].
Qed.

Lemma slice_append (p s : string) : JS.slice (p +:+ s) (String.length p) = s.
Proof.
  induction p as [|c p IH]; simpl; [now destruct s | exact IH].
Qed.

Lemma take_append (p s : string) : JS.take (p +:+ s) (String.length p) = p.
Proof.
  induction p as [|c p IH]; simpl; [now destruct s | now rewrite IH].
Qed.

Lemma truthy_true (s : string) : JS.truthy s = true <-> s <> "".
Proof. destruct s; simpl; split; congruence. Qed.

Lemma truthy_false (s : string) : JS.truthy s = false <-> s = "".
Proof. destruct s; simpl; split; congruence. Qed.

(** [split] and [join] *)

Lemma split_nonempty (sep : ascii) (s : string) : JS.split sep s <> [].
Proof.
  destruct s as [|c s]; simpl; [discriminate|].
  destruct (Ascii.eqb c sep); [discriminate|].
  destruct (JS.split sep s); discriminate.
Qed.

Lemma split_cons_other (sep c : ascii) (s : string) :
  Ascii.eqb c sep = false ->
  exists part parts,
    JS.split sep s = part :: parts
    /\ JS.split sep (String c s) = String c part :: parts.
Proof.
  intros Hc. simpl. rewrite Hc.
  destruct (JS.split sep s) as [|part parts] eqn:E.
  - now destruct (split_nonempty sep s).
  - now exists part, parts.
Qed.

Lemma split_append (sep : ascii) (p s : string) :
  JS.split sep (p +:+ String sep s) = JS.split sep p ++ JS.split sep s.
Proof.
  induction p as [|c p IH].
  - simpl. now rewrite Ascii.eqb_refl.
  - cbn [String.append]. simpl. destruct (Ascii.eqb c sep) eqn:Hc.
    + now rewrite IH.
    + rewrite IH. destruct (JS.split sep p) as [|part parts] eqn:E.
      * now destruct (split_nonempty sep p).
      * reflexivity.
Qed.

Lemma join_cons (sep part : string) (parts : list string) :
  parts <> [] ->
  JS.join sep (part :: parts) = part +:+ sep +:+ JS.join sep parts.
Proof. destruct parts; [congruence | reflexivity]. Qed.

Lemma join_split (s : string) : JS.join "." (JS.split "." s) = s.
Proof.
  induction s as [|c s IH]; [reflexivity|].
  simpl. destruct (Ascii.eqb c ".") eqn:Hc.
  - apply Ascii.eqb_eq in Hc. subst c.
    rewrite join_cons by apply split_nonempty. now rewrite IH.
  - destruct (JS.split "." s) as [|part parts] eqn:E.
    + now destruct (split_nonempty "." s).
    + destruct parts as [|q parts].
      * simpl in *. now subst.
      * rewrite <- IH. rewrite !join_cons by discriminate. reflexivity.
Qed.

Lemma join_app (sep : string) (xs ys : list string) :
  xs <> [] -> ys <> [] ->
  JS.join sep (xs ++ ys) = JS.join sep xs +:+ sep +:+ JS.join sep ys.
Proof.
  intros Hx Hy. induction xs as [|x xs IH]; [congruence|].
  destruct xs as [|x' xs].
  - simpl app. now rewrite join_cons.
  - change ((x :: x' :: xs) ++ ys) with (x :: ((x' :: xs) ++ ys)).
    rewrite join_cons by discriminate.
    rewrite IH by discriminate.
    rewrite (join_cons sep x (x' :: xs)) by discriminate.
    now rewrite !append_assoc.
Qed.

Lemma split_dotFree (s : string) : AttrPath.dotFree s = true -> JS.split "." s = [s].
Proof.
  induction s as [|c s IH]; [reflexivity|].
  unfold AttrPath.dotFree. simpl. intros H. apply andb_prop in H as [Hc Hs].
  apply negb_true_iff in Hc. rewrite Hc, (IH Hs). reflexivity.
Qed.

Lemma split_join (parts : list string) :
  parts <> [] -> Forall (fun p => AttrPath.dotFree p = true) parts ->
  JS.split "." (JS.join "." parts) = parts.
Proof.
  intros Hne Hall. induction Hall as [|p parts Hp Hall IH]; [congruence|].
  destruct parts as [|q parts].
  - simpl. now apply split_dotFree.
  - rewrite join_cons by discriminate.
    change ("." +:+ JS.join "." (q :: parts))
      with (String "." (JS.join "." (q :: parts))).
    rewrite split_append, IH by discriminate.
    now rewrite split_dotFree.
Qed.

End StringFacts.

(** ** Relative paths *)

Lemma toRelativePath_same (root path : string) :
  FlakeTreeProvider.toRelativePath root path
  = SearchProvider.toRelativePath root path.
Proof. reflexivity. Qed.

(** C10. For a non-empty root [r], [toRelativePath] sends [r] to the empty
    string, [r + '.' + s] to [s], and leaves every other path that does not
    begin with [r + '.'] as it is; so with root [a.b] the path [a.bc] is
    returned unchanged. The copy of the tree provider is the same function. *)
Theorem toRelativePath_cases (r : string) :
  r <> "" ->
  SearchProvider.toRelativePath r r = ""
  /\ (forall s, SearchProvider.toRelativePath r (r +:+ "." +:+ s) = s)
  /\ (forall p, p <> r -> JS.startsWith p (r +:+ ".") = false ->
                SearchProvider.toRelativePath r p = p)
  /\ SearchProvider.toRelativePath "a.b" "a.bc" = "a.bc"
  /\ (forall p, FlakeTreeProvider.toRelativePath r p
                = SearchProvider.toRelativePath r p).
Proof.
  intros Hr. apply truthy_true in Hr.
  unfold SearchProvider.toRelativePath, JS.startsWith. rewrite Hr. simpl negb.
  split; [|split; [|split; [|split]]].
  - rewrite prefix_longer, String.eqb_refl. reflexivity.
  - intros s. rewrite <- append_assoc, prefix_append.
    replace (String.length r + 1) with (String.length (r +:+ ".")).
    + apply slice_append.
    + rewrite length_append. reflexivity.
  - intros p Hp Hpre. rewrite Hpre.
    apply String.eqb_neq in Hp. now rewrite Hp.
  - reflexivity.
  - intros p. unfold FlakeTreeProvider.toRelativePath, JS.startsWith.
    now rewrite Hr.
Qed.

Lemma toRelativePath_cases_witness :
  SearchProvider.toRelativePath "nixosConfigurations.host.config"
    "nixosConfigurations.host.config" = ""
  /\ SearchProvider.toRelativePath "nixosConfigurations.host.config"
       "nixosConfigurations.host.config.programs.git" = "programs.git"
  /\ SearchProvider.toRelativePath "a.b" "a.bc" = "a.bc".
Proof.
  pose proof (toRelativePath_cases "nixosConfigurations.host.config"
                ltac:(discriminate)) as (H1 & H2 & _).
  pose proof (toRelativePath_cases "a.b" ltac:(discriminate))
    as (_ & _ & H3 & _).
  split; [exact H1|]. split; [exact (H2 "programs.git")|].
  apply H3; [discriminate | reflexivity].
Defined.

(** ** Collapsing a node *)

Lemma underCollapsed_isAncestor (p q : string) :
  SmartCache.underCollapsed p q = true <-> AttrPath.isAncestor p q.
Proof.
  unfold SmartCache.underCollapsed, AttrPath.isAncestor, AttrPath.segments,
    JS.startsWith.
  split.
  - intros H. apply orb_true_iff in H as [H|H].
    + apply String.eqb_eq in H. subst q. exists []. now rewrite app_nil_r.
    + apply prefix_inv in H as [rest ->]. rewrite append_assoc.
      change ("." +:+ rest) with (String "." rest).
      rewrite split_append. now exists (JS.split "." rest).
  - intros [k Hk]. apply orb_true_iff. destruct k as [|s k].
    + left. rewrite app_nil_r in Hk. apply String.eqb_eq.
      now rewrite <- (join_split q), <- (join_split p), Hk.
    + right. rewrite <- (join_split q), Hk.
      rewrite join_app by (try apply split_nonempty; discriminate).
      rewrite join_split, <- append_assoc. apply prefix_append.
Qed.

(** C6. Collapsing [p] removes the cache entry of [p] and of every [q] that
    has [p] as an ancestor (the segments of [q] start with the segments of
    [p]) and leaves the entry of every other path as it was; the test follows
    the segments, so collapsing [programs] keeps [programs2]. *)
Theorem onNodeCollapsed_evicts_descendants
        (p q : string) (st : SmartCache.TreeState) :
  (AttrPath.isAncestor p q ->
   SmartCache.metadataCache (SmartCache.onNodeCollapsed p st) !! q = None)
  /\ (~ AttrPath.isAncestor p q ->
      SmartCache.metadataCache (SmartCache.onNodeCollapsed p st) !! q
      = SmartCache.metadataCache st !! q)
  /\ SmartCache.metadataCache (SmartCache.onNodeCollapsed p st) !! p = None
  /\ ~ AttrPath.isAncestor "programs" "programs2"
  /\ SmartCache.metadataCache (SmartCache.onNodeCollapsed "programs" st)
       !! "programs2"
     = SmartCache.metadataCache st !! "programs2".
Proof.
  assert (gone : forall a b, AttrPath.isAncestor a b ->
            SmartCache.metadataCache (SmartCache.onNodeCollapsed a st) !! b
            = None).
  { intros a b H. apply underCollapsed_isAncestor in H. simpl.
    apply map_lookup_filter_None. right. intros m _. simpl. congruence. }
  assert (kept : forall a b, ~ AttrPath.isAncestor a b ->
            SmartCache.metadataCache (SmartCache.onNodeCollapsed a st) !! b
            = SmartCache.metadataCache st !! b).
  { intros a b H. simpl.
    assert (Hb : SmartCache.underCollapsed a b = false).
    { destruct (SmartCache.underCollapsed a b) eqn:E; [|reflexivity].
      now apply underCollapsed_isAncestor in E. }
    destruct (SmartCache.metadataCache st !! b) as [m|] eqn:E.
    - now apply map_lookup_filter_Some.
    - apply map_lookup_filter_None. now left. }
  assert (other : ~ AttrPath.isAncestor "programs" "programs2").
  { intros H. now apply underCollapsed_isAncestor in H. }
  split; [apply gone|]. split; [apply kept|].
  split; [apply gone; exists []; now rewrite app_nil_r|].
  split; [exact other | now apply kept].
Qed.

Lemma onNodeCollapsed_evicts_descendants_witness :
  let st :=
    SmartCache.mkTreeState
      ["programs"; "programs.git"; "programs2"]
      (<["programs" := Samples.sampleMetadata]>
         (<["programs.git" := Samples.sampleMetadata]>
            (<["programs2" := Samples.sampleMetadata]> ∅)))
      [] in
  let st' := SmartCache.onNodeCollapsed "programs" st in
  SmartCache.metadataCache st' !! "programs" = None
  /\ SmartCache.metadataCache st' !! "programs.git" = None
  /\ SmartCache.metadataCache st' !! "programs2" = Some Samples.sampleMetadata.
Proof.
  intros st st'.
  pose proof (onNodeCollapsed_evicts_descendants "programs" "programs.git" st)
    as (Hgit & _ & Hself & Hother & Hkeep).
  split; [exact Hself|]. split.
  - apply Hgit. exists ["git"]. reflexivity.
  - unfold st'. rewrite Hkeep. reflexivity.
Defined.

(** ** Smart refresh *)

Section SortFacts.
Context {A : Type} (le : A -> A -> bool).

Lemma insert_perm (x : A) (l : list A) : JS.insert le x l ≡ₚ x :: l.
Proof.
  induction l as [|y l IH]; simpl; [reflexivity|].
  destruct (le x y); [reflexivity|].
  rewrite IH. apply Permutation_swap.
Qed.

Lemma sort_perm (l : list A) : JS.sort le l ≡ₚ l.
Proof.
  induction l as [|x l IH]; simpl; [reflexivity|].
  now rewrite insert_perm, IH.
Qed.

Variable R : A -> A -> Prop.
Hypothesis le_R : forall a b, le a b = true -> R a b.
Hypothesis not_le_R : forall a b, le a b = false -> R b a.
Hypothesis R_trans : forall a b c, R a b -> R b c -> R a c.

Lemma insert_sorted (x : A) (l : list A) :
  StronglySorted R l -> StronglySorted R (JS.insert le x l).
Proof.
  induction 1 as [|y l Hs IH Hy]; simpl.
  - constructor; constructor.
  - destruct (le x y) eqn:E.
    + constructor; [now constructor|].
      constructor; [now apply le_R|].
      eapply Forall_impl; [exact Hy|]. intros z Hz.
      eapply R_trans; [apply le_R; exact E | exact Hz].
    + constructor; [exact IH|].
      rewrite insert_perm. constructor; [now apply not_le_R | exact Hy].
Qed.

Lemma sort_sorted (l : list A) : StronglySorted R (JS.sort le l).
Proof.
  induction l as [|x l IH]; simpl; [constructor | now apply insert_sorted].
Qed.

End SortFacts.

Lemma has_elem_of (paths : list string) (p : string) :
  SmartCache.has paths p = true <-> p ∈ paths.
Proof.
  unfold SmartCache.has. rewrite existsb_exists. split.
  - intros (x & Hin & Heq). apply String.eqb_eq in Heq. subst x.
    now apply list_elem_of_In.
  - intros Hin. exists p. split; [now apply list_elem_of_In|].
    apply String.eqb_refl.
Qed.

Section RefreshFacts.
Variable findNodeByPath : string -> option Node.FlakeNode.


Lemma refresh_fold_fired (l : list string) (st : SmartCache.TreeState) :
  SmartCache.fired (fold_left (SmartCache.refreshPath findNodeByPath) l st)
  = SmartCache.fired st ++ omap findNodeByPath l.
Proof.
  revert st. induction l as [|p l IH]; intros st; simpl.
  - now rewrite app_nil_r.
  - rewrite IH. unfold SmartCache.refreshPath.
    destruct (findNodeByPath p); simpl; [|reflexivity].
    now rewrite <- app_assoc.
Qed.

End RefreshFacts.




(** ** Attribute paths *)

Section PathFacts.
Import AttrPath.

Lemma showNat_digits (i : nat) : JS.allChars JS.isDigit (JS.showNat i) = true.
Proof.
  unfold JS.showNat. induction (Nat.to_uint i) as [|d IH|d IH|d IH|d IH|d IH
                                                  |d IH|d IH|d IH|d IH|d IH];
    simpl; auto.
Qed.

Lemma showNat_truthy (i : nat) : JS.truthy (JS.showNat i) = true.
Proof.
  unfold JS.showNat.
  assert (H : Nat.to_uint i <> Nil).
  { rewrite <- (Unsigned.of_to i) at 1. rewrite Unsigned.to_of.
    apply DecimalFacts.unorm_nonnil. }
  destruct (Nat.to_uint i); [congruence | reflexivity..].
Qed.

Lemma parseInt_showNat (i : nat) : JS.parseInt (JS.showNat i) = i.
Proof.
  unfold JS.parseInt, JS.showNat. rewrite NilEmpty.usu. apply Unsigned.of_to.
Qed.

Lemma digit_plain (c : ascii) : JS.isDigit c = true -> plainChar c = true.
Proof.
  intros H. unfold plainChar.
  destruct (Ascii.eqb c ".") eqn:E1;
    [apply Ascii.eqb_eq in E1; subst; discriminate|].
  destruct (Ascii.eqb c "[") eqn:E2;
    [apply Ascii.eqb_eq in E2; subst; discriminate|].
  destruct (Ascii.eqb c "]") eqn:E3;
    [apply Ascii.eqb_eq in E3; subst; discriminate|].
  reflexivity.
Qed.

Lemma allChars_impl (P Q : ascii -> bool) (s : string) :
  (forall c, P c = true -> Q c = true) ->
  JS.allChars P s = true -> JS.allChars Q s = true.
Proof.
  intros HPQ. induction s as [|c s IH]; simpl; [reflexivity|].
  intros H. apply andb_prop in H as [Hc Hs].
  now rewrite (HPQ _ Hc), (IH Hs).
Qed.

Lemma plain_dotFree (s : string) :
  JS.allChars plainChar s = true -> dotFree s = true.
Proof.
  apply allChars_impl. intros c. unfold plainChar.
  destruct (Ascii.eqb c "."); [discriminate | reflexivity].
Qed.

Lemma display_dotFree (seg : Segment) :
  validSegment seg = true -> dotFree (display seg) = true.
Proof.
  destruct seg as [s|i]; simpl.
  - unfold validName. intros H. apply andb_prop in H as [_ H].
    now apply plain_dotFree.
  - intros _. unfold dotFree. simpl.
    assert (H : forall s, dotFree s = true -> dotFree (s +:+ "]") = true).
    { induction s as [|c s IH]; [reflexivity|]. unfold dotFree. simpl.
      intros H. apply andb_prop in H as [-> Hs]. now apply IH. }
    apply H, plain_dotFree.
    eapply allChars_impl; [apply digit_plain | apply showNat_digits].
Qed.

(** [matchIndex] tells the two kinds of segment apart. *)

Lemma matchIndex_index (i : nat) :
  NixRunner.matchIndex (display (Index i)) = Some (JS.showNat i).
Proof.
  simpl. unfold NixRunner.matchIndex.
  change ("[" +:+ JS.showNat i +:+ "]")
    with (String "[" (JS.showNat i +:+ "]")).
  cbv iota beta.
  replace (String.length (JS.showNat i +:+ "]") - 1)
    with (String.length (JS.showNat i))
    by (rewrite length_append; simpl; lia).
  rewrite slice_append, take_append, showNat_truthy, showNat_digits.
  reflexivity.
Qed.

Lemma matchIndex_name (s : string) :
  validName s = true -> NixRunner.matchIndex s = None.
Proof.
  unfold validName. destruct s as [|c s]; [discriminate|].
  simpl. intros H. apply andb_prop in H as [Hc _].
  unfold plainChar in Hc. apply negb_true_iff in Hc.
  apply orb_false_iff in Hc as [Hc _]. apply orb_false_iff in Hc as [_ Hc].
  apply Ascii.eqb_neq in Hc.
  unfold NixRunner.matchIndex.
  destruct c as [[] [] [] [] [] [] [] []]; try reflexivity.
  now destruct Hc.
Qed.

(** The loop of [splitPath] *)

Lemma splitLoop_plain (s : string) (ps : list string) (cur : string)
      (b : bool) :
  JS.allChars plainChar s = true ->
  SearchProvider.splitLoop (SearchProvider.mkSplitState ps cur b) s
  = SearchProvider.mkSplitState ps (cur +:+ s) b.
Proof.
  revert cur. induction s as [|c s IH]; intros cur H; simpl.
  - now rewrite append_empty_r.
  - simpl in H. apply andb_prop in H as [Hc Hs].
    unfold plainChar in Hc. apply negb_true_iff in Hc.
    apply orb_false_iff in Hc as [Hc H3].
    apply orb_false_iff in Hc as [H1 H2].
    unfold SearchProvider.splitStep. rewrite H1, H2, H3. simpl.
    rewrite IH by assumption.
    now rewrite append_assoc.
Qed.

Lemma splitLoop_append (a b : string) (st : SearchProvider.SplitState) :
  SearchProvider.splitLoop st (a +:+ b)
  = SearchProvider.splitLoop (SearchProvider.splitLoop st a) b.
Proof. revert st. induction a as [|c a IH]; intros st; simpl; auto. Qed.

Lemma splitLoop_segment (seg : Segment) (ps : list string) :
  validSegment seg = true ->
  SearchProvider.splitLoop (SearchProvider.mkSplitState ps "" false)
                           (display seg)
  = SearchProvider.mkSplitState ps (display seg) false
  /\ JS.truthy (display seg) = true.
Proof.
  destruct seg as [s|i]; simpl; intros H.
  - unfold validName in H. apply andb_prop in H as [Ht Hp].
    split; [|exact Ht]. now rewrite splitLoop_plain.
  - split; [|reflexivity].
    change ("[" +:+ JS.showNat i +:+ "]")
      with (String "[" (JS.showNat i +:+ "]")).
    simpl. unfold SearchProvider.splitStep at 1. simpl.
    rewrite splitLoop_append, splitLoop_plain
      by (eapply allChars_impl; [apply digit_plain | apply showNat_digits]).
    simpl. unfold SearchProvider.splitStep. simpl. reflexivity.
Qed.

Lemma splitLoop_serialize (segs : list Segment) (ps : list string) :
  Forall (fun seg => validSegment seg = true) segs ->
  let st :=
    SearchProvider.splitLoop (SearchProvider.mkSplitState ps "" false)
                             (serialize segs) in
  (if JS.truthy (SearchProvider.current st)
   then SearchProvider.parts st ++ [SearchProvider.current st]
   else SearchProvider.parts st)
  = ps ++ map display segs.
Proof.
  intros Hall. cbv zeta. revert ps.
  induction Hall as [|seg segs Hseg Hall IH]; intros ps.
  - simpl. now rewrite app_nil_r.
  - destruct (splitLoop_segment seg ps Hseg) as [E Ht].
    destruct segs as [|seg' segs].
    + change (serialize [seg]) with (display seg).
      rewrite E. simpl. now rewrite Ht.
    + unfold serialize. simpl map.
      rewrite join_cons by discriminate.
      rewrite splitLoop_append, E.
      change ("." +:+ JS.join "." (display seg' :: map display segs))
        with (String "." (serialize (seg' :: segs))).
      specialize (IH (ps ++ [display seg])).
      set (rest := serialize (seg' :: segs)) in *.
      assert (Hdot : SearchProvider.splitLoop
                       (SearchProvider.mkSplitState ps (display seg) false)
                       (String "." rest)
                     = SearchProvider.splitLoop
                         (SearchProvider.mkSplitState
                            (ps ++ [display seg]) "" false) rest).
      { simpl. unfold SearchProvider.splitStep at 1. simpl. now rewrite Ht. }
      rewrite Hdot, IH. now rewrite <- app_assoc.
Qed.

Lemma rebuild_join (parts : list string) :
  Forall (fun p => JS.truthy p = true) parts ->
  SearchProvider.rebuild parts = JS.join "." parts.
Proof.
  unfold SearchProvider.rebuild.
  assert (H : forall parts cur,
             JS.truthy cur = true ->
             Forall (fun p => JS.truthy p = true) parts ->
             fold_left
               (fun current part =>
                  if JS.truthy current then current +:+ "." +:+ part
                  else part) parts cur
             = JS.join "." (cur :: parts)).
  { clear parts. induction parts as [|p ps IH]; intros cur Hc Hall;
      [reflexivity|].
    inversion Hall as [|? ? Hp Hps]; subst. simpl fold_left. rewrite Hc.
    rewrite IH; [|now destruct cur|assumption].
    rewrite (join_cons "." cur (p :: ps)) by discriminate.
    destruct ps as [|q ps]; [reflexivity|].
    rewrite !join_cons by discriminate. now rewrite !append_assoc. }
  intros Hall. destruct Hall as [|p ps Hp Hps]; [reflexivity|].
  simpl fold_left. now apply H.
Qed.

End PathFacts.

Section ParseFacts.
Import AttrPath.

Lemma parse_fold (parts baseParts : list string) (accesses : list nat) :
  fold_left NixRunner.parseStep parts (baseParts, accesses)
  = (baseParts ++ List.filter NixRunner.nonIndex parts, accesses ++ omap NixRunner.indexOf parts).
Proof.
  revert baseParts accesses.
  induction parts as [|part parts IH]; intros baseParts accesses.
  - simpl. now rewrite !app_nil_r.
  - change (fold_left NixRunner.parseStep (part :: parts)
                      (baseParts, accesses))
      with (fold_left NixRunner.parseStep parts
                      (NixRunner.parseStep (baseParts, accesses) part)).
    assert (Hstep : NixRunner.parseStep (baseParts, accesses) part
                    = match NixRunner.matchIndex part with
                      | Some digits =>
                          (baseParts, accesses ++ [JS.parseInt digits])
                      | None => (baseParts ++ [part], accesses)
                      end).
    { unfold NixRunner.parseStep.
      destruct (NixRunner.matchIndex part); [reflexivity|].
      now destruct (length accesses =? 0)%nat. }
    rewrite Hstep. simpl List.filter. simpl omap. unfold NixRunner.nonIndex, NixRunner.indexOf.
    destruct (NixRunner.matchIndex part) as [digits|]; simpl;
      rewrite IH; now rewrite <- app_assoc.
Qed.

Lemma parseAttrPath_parts (s : string) :
  NixRunner.parseAttrPath s
  = NixRunner.mkParsed
      (JS.join "." (List.filter NixRunner.nonIndex (JS.split "." s)))
      (omap NixRunner.indexOf (JS.split "." s)).
Proof. unfold NixRunner.parseAttrPath. now rewrite parse_fold. Qed.

Lemma filter_indexTail (indices : list nat) :
  List.filter NixRunner.nonIndex (map display (indexTail indices)) = [].
Proof.
  unfold indexTail. induction indices as [|i indices IH]; [reflexivity|].
  cbn [map List.filter]. unfold NixRunner.nonIndex at 1.
  now rewrite matchIndex_index.
Qed.

Lemma omap_indexTail (indices : list nat) :
  omap NixRunner.indexOf (map display (indexTail indices)) = indices.
Proof.
  unfold indexTail. induction indices as [|i indices IH]; [reflexivity|].
  cbn [map omap list_omap]. unfold NixRunner.indexOf at 1. rewrite matchIndex_index.
  cbn [fmap option_fmap option_map]. rewrite parseInt_showNat.
  now rewrite IH.
Qed.

Lemma filter_names (names : list string) (indices : list nat) :
  Forall (fun s => validName s = true) names ->
  List.filter NixRunner.nonIndex
    (map display (map Name names ++ indexTail indices)) = names.
Proof.
  intros H. rewrite map_app, List.filter_app, filter_indexTail, app_nil_r.
  induction H as [|s names Hs Hall IH]; [reflexivity|].
  cbn [map List.filter display]. unfold NixRunner.nonIndex at 1.
  rewrite (matchIndex_name s Hs). now rewrite IH.
Qed.

Lemma omap_indices (names : list string) (indices : list nat) :
  Forall (fun s => validName s = true) names ->
  omap NixRunner.indexOf (map display (map Name names ++ indexTail indices)) = indices.
Proof.
  intros H. rewrite map_app, omap_app, omap_indexTail.
  induction H as [|s names Hs Hall IH]; [reflexivity|].
  cbn [map omap list_omap display]. unfold NixRunner.indexOf at 1.
  rewrite (matchIndex_name s Hs). exact IH.
Qed.

Lemma splitLoop_parts_truthy (s : string) (st : SearchProvider.SplitState) :
  Forall (fun p => JS.truthy p = true) (SearchProvider.parts st) ->
  Forall (fun p => JS.truthy p = true)
         (SearchProvider.parts (SearchProvider.splitLoop st s)).
Proof.
  revert st. induction s as [|c s IH]; intros st H; [exact H|].
  simpl. apply IH. unfold SearchProvider.splitStep.
  destruct (Ascii.eqb c "["); [exact H|].
  destruct (Ascii.eqb c "]"); [exact H|].
  destruct (Ascii.eqb c "." && negb (SearchProvider.inBracket st));
    [|exact H].
  destruct (JS.truthy (SearchProvider.current st)) eqn:E; [|exact H].
  simpl. apply Forall_app. split; [exact H|]. now constructor.
Qed.

Lemma buildAccessor_render (indices : list nat) :
  NixRunner.buildAccessor indices = NixExpr.render (NixExpr.nested indices).
Proof.
  unfold NixRunner.buildAccessor, NixExpr.nested.
  change "x" with (NixExpr.render NixExpr.Loaded).
  generalize NixExpr.Loaded.
  induction indices as [|i indices IH]; intros a; [reflexivity|].
  simpl fold_left. rewrite <- IH. reflexivity.
Qed.

End ParseFacts.

(** C1. For a display-form path made of valid segments (names without dot
    or bracket, and bracketed indices), [splitPath] returns exactly the
    segments, and joining them with dots, or rebuilding the path as
    [indexPath] does, gives the path back; an index segment stays one
    segment, and the pattern of [parseAttrPath] recognises the index segments
    and no name, so the name [3] is not the index [\[3\]]. *)
Theorem splitPath_roundtrip (segs : list AttrPath.Segment) :
  Forall (fun seg => AttrPath.validSegment seg = true) segs ->
  SearchProvider.splitPath (AttrPath.serialize segs)
  = map AttrPath.display segs
  /\ JS.join "." (SearchProvider.splitPath (AttrPath.serialize segs))
     = AttrPath.serialize segs
  /\ SearchProvider.rebuild (SearchProvider.splitPath (AttrPath.serialize segs))
     = AttrPath.serialize segs
  /\ Forall (fun seg =>
               NixRunner.matchIndex (AttrPath.display seg)
               = match seg with
                 | AttrPath.Index i => Some (JS.showNat i)
                 | AttrPath.Name _ => None
                 end) segs
  /\ NixRunner.matchIndex "[3]" = Some "3"
  /\ NixRunner.matchIndex "3" = None.
Proof.
  intros Hall.
  assert (Hsplit : SearchProvider.splitPath (AttrPath.serialize segs)
                   = map AttrPath.display segs).
  { unfold SearchProvider.splitPath.
    apply (splitLoop_serialize segs [] Hall). }
  split; [exact Hsplit|]. rewrite Hsplit.
  split; [reflexivity|].
  split.
  { rewrite rebuild_join; [reflexivity|].
    apply Forall_fmap. eapply Forall_impl; [exact Hall|].
    intros seg Hseg. simpl. now apply (splitLoop_segment seg []). }
  split; [|split; reflexivity].
  eapply Forall_impl; [exact Hall|]. intros [s|i] Hseg.
  - now apply matchIndex_name.
  - apply matchIndex_index.
Qed.

Lemma splitPath_roundtrip_witness :
  SearchProvider.splitPath "a.b.[3].c.3" = ["a"; "b"; "[3]"; "c"; "3"]
  /\ JS.join "." (SearchProvider.splitPath "a.b.[3].c.3") = "a.b.[3].c.3".
Proof.
  pose proof (splitPath_roundtrip
                [AttrPath.Name "a"; AttrPath.Name "b"; AttrPath.Index 3;
                 AttrPath.Name "c"; AttrPath.Name "3"]) as H.
  destruct H as (H1 & H2 & _).
  - repeat constructor.
  - split; [exact H1 | exact H2].
Defined.

(** C8, as the code has it. Neither parser rejects anything: for every
    string [parseAttrPath] returns a base path and list accesses, every part
    that is not a bracketed integer staying in the base path whatever it
    contains, and [splitPath] returns segments, skipping the empty ones. *)
Theorem parse_accepts_every_string (s : string) :
  NixRunner.basePath (NixRunner.parseAttrPath s)
  = JS.join "." (List.filter NixRunner.nonIndex (JS.split "." s))
  /\ NixRunner.listAccesses (NixRunner.parseAttrPath s)
     = omap NixRunner.indexOf (JS.split "." s)
  /\ Forall (fun part => part <> "") (SearchProvider.splitPath s).
Proof.
  rewrite parseAttrPath_parts. split; [reflexivity|]. split; [reflexivity|].
  unfold SearchProvider.splitPath.
  pose proof (splitLoop_parts_truthy s
                (SearchProvider.mkSplitState [] "" false)
                ltac:(constructor)) as H.
  destruct (JS.truthy (SearchProvider.current _)) eqn:E.
  - apply Forall_app. split.
    + eapply Forall_impl; [exact H|]. intros p. apply truthy_true.
    + constructor; [now apply truthy_true | constructor].
  - eapply Forall_impl; [exact H|]. intros p. apply truthy_true.
Qed.

(** C8, as stated, fails: the string [a..\[3] has an empty segment and an
    unmatched bracket, and both parsers return a path for it. *)
Lemma parse_accepts_malformed :
  AttrPath.unmatchedBrackets false "a..[3" = true
  /\ AttrPath.hasEmptySegment "a..[3" = true
  /\ AttrPath.malformed "a..[3" = true
  /\ NixRunner.parseAttrPath "a..[3" = NixRunner.mkParsed "a..[3" []
  /\ SearchProvider.splitPath "a..[3" = ["a"; "[3"].
Proof. repeat split. Qed.

Section FollowFacts.
Import AttrPath.

Lemma followStep_None (path : list Segment) :
  fold_left followStep path None = None.
Proof. induction path as [|seg path IH]; [reflexivity | exact IH]. Qed.

(** For names followed by indices, the command computes the value at the
    path. *)
Lemma evaluated_follow (names : list string) (indices : list nat)
      (outputs : Json) :
  evaluated names indices outputs
  = follow (map Name names ++ indexTail indices) outputs.
Proof.
  unfold evaluated, follow. rewrite fold_left_app.
  destruct (fold_left followStep (map Name names) (Some outputs))
    as [loaded|].
  - unfold NixExpr.nested, indexTail. clear.
    change (Some loaded) with (NixExpr.access NixExpr.Loaded loaded).
    generalize NixExpr.Loaded.
    induction indices as [|i indices IH]; intros a; [reflexivity|].
    cbn [fold_left map]. rewrite IH. reflexivity.
  - now rewrite followStep_None.
Qed.

End FollowFacts.

(** C9, on the code. For every path, [buildEvalArgs] puts every part that
    is not an index into the flake reference, wherever it stands, and nests
    one [builtins.elemAt] per index in the order of the indices, the first
    index reading the loaded value and each later one the result of the one
    before, with or without an apply expression. For a path that ends in
    its indices this is the order of the segments, and the command computes
    the value at the path. For a path with a name after an index it is not:
    [a.\[0\].b.\[2\]] gets the command of [a.b.\[0\].\[2\]]. *)
Theorem buildEvalArgs_nests_left_to_right :
  (forall (path : string) (applyExpr : option string),
      let parts := JS.split "." path in
      let names := List.filter NixRunner.nonIndex parts in
      let indices := omap NixRunner.indexOf parts in
      let flakeRef :=
        if JS.truthy (JS.join "." names) then ".#" +:+ JS.join "." names
        else "." in
      let accessor := NixExpr.render (NixExpr.nested indices) in
      NixRunner.parseAttrPath path
      = NixRunner.mkParsed (JS.join "." names) indices
      /\ (indices <> [] ->
          Forall (fun i => (Z.of_nat i < 2 ^ 53)%Z) indices ->
          NixRunner.buildEvalArgs path applyExpr
          = ["eval"; "--json"; flakeRef; "--apply";
             match applyExpr with
             | Some e =>
                 if JS.truthy e
                 then "x: let v = " +:+ accessor +:+ "; in "
                      +:+ NixRunner.replaceX false e
                 else "x: " +:+ accessor
             | None => "x: " +:+ accessor
             end]))
  /\ (forall (before : list nat) (i : nat) (x : Json),
         NixExpr.access (NixExpr.nested (before ++ [i])) x
         = match NixExpr.access (NixExpr.nested before) x with
           | Some v => NixExpr.elemAt v i
           | None => None
           end)
  /\ (forall (names : list string) (indices : list nat) (outputs : Json),
         Forall (fun s => AttrPath.validName s = true) names ->
         let path :=
           AttrPath.serialize
             (map AttrPath.Name names ++ AttrPath.indexTail indices) in
         NixRunner.parseAttrPath path
         = NixRunner.mkParsed (JS.join "." names) indices
         /\ AttrPath.evaluated names indices outputs
            = AttrPath.follow
                (map AttrPath.Name names ++ AttrPath.indexTail indices)
                outputs)
  /\ NixRunner.buildEvalArgs "a.[0].[2]" None
     = ["eval"; "--json"; ".#a"; "--apply";
        "x: (builtins.elemAt (builtins.elemAt x 0) 2)"]
  /\ NixRunner.parseAttrPath "a.[0].b.[2]" = NixRunner.mkParsed "a.b" [0; 2]
  /\ NixRunner.buildEvalArgs "a.[0].b.[2]" None
     = ["eval"; "--json"; ".#a.b"; "--apply";
        "x: (builtins.elemAt (builtins.elemAt x 0) 2)"]
  /\ NixRunner.buildEvalArgs "a.[0].b.[2]" None
     = NixRunner.buildEvalArgs "a.b.[0].[2]" None
  /\ AttrPath.follow
       [AttrPath.Name "a"; AttrPath.Index 0; AttrPath.Name "b";
        AttrPath.Index 2] Samples.listOutputs
     = Some (JNum 12)
  /\ AttrPath.evaluated ["a"; "b"] [0; 2] Samples.listOutputs = None
  /\ AttrPath.follow
       [AttrPath.Name "a"; AttrPath.Index 0; AttrPath.Name "b";
        AttrPath.Index 2] Samples.setOutputs
     = None
  /\ AttrPath.evaluated ["a"; "b"] [0; 2] Samples.setOutputs
     = Some (JNum 22).
Proof.
  split; [|split; [|split; [|repeat split]]].
  - intros path applyExpr parts names indices flakeRef accessor.
    assert (Hparse : NixRunner.parseAttrPath path
                     = NixRunner.mkParsed (JS.join "." names) indices)
      by apply parseAttrPath_parts.
    split; [exact Hparse|]. intros Hidx _.
    unfold NixRunner.buildEvalArgs. rewrite Hparse.
    cbn [NixRunner.basePath NixRunner.listAccesses].
    fold flakeRef. rewrite buildAccessor_render. fold accessor.
    destruct indices as [|i indices]; [congruence|].
    cbn [length Nat.ltb Nat.leb].
    destruct applyExpr as [e|]; [|reflexivity].
    cbn [JS.opt_or_else]. unfold JS.or_else.
    destruct e as [|c e]; reflexivity.
  - intros before i x. unfold NixExpr.nested. now rewrite fold_left_app.
  - intros names indices outputs Hnames path. split.
    + rewrite parseAttrPath_parts. unfold path, AttrPath.serialize.
      destruct (decide (names = [] /\ indices = [])) as [[-> ->]|Hne];
        [reflexivity|].
      rewrite split_join.
      * now rewrite filter_names, omap_indices.
      * destruct names; destruct indices; simpl; try congruence.
        intros _. now apply Hne.
      * apply Forall_fmap, Forall_app. split.
        -- apply Forall_fmap. eapply Forall_impl; [exact Hnames|].
           intros s Hs. now apply (display_dotFree (AttrPath.Name s)).
        -- apply Forall_fmap, Forall_forall. intros i _.
           now apply (display_dotFree (AttrPath.Index i)).
    + apply evaluated_follow.
Qed.

Lemma buildEvalArgs_nests_left_to_right_witness :
  NixRunner.parseAttrPath "home.packages.[4].[1]"
  = NixRunner.mkParsed "home.packages" [4; 1]
  /\ NixRunner.buildEvalArgs "home.packages.[4].[1]"
       (Some "x: builtins.typeOf x")
     = ["eval"; "--json"; ".#home.packages"; "--apply";
        "x: let v = (builtins.elemAt (builtins.elemAt x 4) 1); in "
        +:+ "v: builtins.typeOf v"].
Proof.
  destruct buildEvalArgs_nests_left_to_right as (H & _).
  destruct (H "home.packages.[4].[1]" (Some "x: builtins.typeOf x"))
    as [Hparse Hargs].
  split; [exact Hparse|].
  apply Hargs; [discriminate|]. repeat constructor.
Defined.

(** ** The tree provider *)

Section ProviderFacts.
Import Node FlakeTreeProvider.

Lemma sameSettings_refl (a : Provider) : sameSettings a a.
Proof. now constructor. Qed.

Lemma sameSettings_trans (a b c : Provider) :
  sameSettings a b -> sameSettings b c -> sameSettings a c.
Proof. intros [] []. constructor; congruence. Qed.

Lemma sameSettings_emitStatus ty m (a : Provider) :
  sameSettings a (emitStatus ty m a).
Proof. now constructor. Qed.

Lemma sameSettings_ask q (a : Provider) : sameSettings a (ask q a).
Proof. now constructor. Qed.

Lemma sameSettings_indexPath p (a : Provider) :
  sameSettings a (indexPath p a).
Proof. unfold indexPath. destruct (_ && _); now constructor. Qed.

Lemma sameSettings_index_all (cs : list FlakeNode) (a : Provider) :
  sameSettings a (indexAll cs a).
Proof.
  unfold indexAll. revert a. induction cs as [|c cs IH]; intros a; simpl.
  - apply sameSettings_refl.
  - eapply sameSettings_trans; [apply sameSettings_indexPath | apply IH].
Qed.

Lemma issued_index_all (cs : list FlakeNode) (a : Provider) :
  issued (indexAll cs a) = issued a.
Proof.
  unfold indexAll. revert a. induction cs as [|c cs IH]; intros a; simpl; [reflexivity|].
  rewrite IH. unfold indexPath. now destruct (_ && _).
Qed.

Lemma applyFilter_same (a b : Provider) (cs : list FlakeNode) :
  sameSettings a b -> applyFilter b cs = applyFilter a cs.
Proof.
  intros [_ Hr Hf _ _]. unfold applyFilter, matchesFilter.
  now rewrite Hr, Hf.
Qed.

Lemma applyFilter_off (a : Provider) (cs : list FlakeNode) :
  filterPath a = "" -> applyFilter a cs = cs.
Proof. unfold applyFilter. now intros ->. Qed.

Lemma createErrorNode_path (m : string) (a b : FlakeNode) :
  attrPath a = attrPath b ->
  createErrorNode m (Some a) = createErrorNode m (Some b).
Proof. unfold createErrorNode. now intros ->. Qed.

Lemma failWith_fallback (d : string) (err : option string)
      (parent : FlakeNode) (st : Provider) :
  failWith d err parent st
  = (emitStatus Failure (JS.opt_or_else err d) st, fallback err parent st).
Proof.
  unfold failWith, fallback. simpl.
  now destruct (lastGoodChildren st !! attrPath parent).
Qed.

Lemma fallback_same (err : option string) (a b : FlakeNode)
      (s t : Provider) :
  attrPath a = attrPath b -> sameSettings s t ->
  fallback err a t = fallback err b s.
Proof.
  intros Hp [_ _ _ _ Hl]. unfold fallback. rewrite Hl, Hp.
  destruct (lastGoodChildren s !! attrPath b); [reflexivity|].
  f_equal. now apply createErrorNode_path.
Qed.

Variable ev : Evaluator.
Variable writeTime : Z.

Lemma fetchLeafValue_frame (node : FlakeNode) (st : Provider) :
  sameSettings st (fst (fetchLeafValue ev writeTime node st))
  /\ attrPath (snd (fetchLeafValue ev writeTime node st)) = attrPath node.
Proof.
  unfold fetchLeafValue. destruct (success _); simpl;
    (split; [now constructor | reflexivity]).
Qed.

Lemma updateAppearance_path (n : FlakeNode) :
  attrPath (updateAppearance n) = attrPath n.
Proof. unfold updateAppearance. now destruct (nodeType n). Qed.

Lemma fetchAttrsetChildren_frame (parent : FlakeNode) (st : Provider) :
  let '(st1, parent1, _) := fetchAttrsetChildren ev parent st in
  sameSettings st st1 /\ attrPath parent1 = attrPath parent.
Proof.
  unfold fetchAttrsetChildren. rewrite failWith_fallback.
  repeat case_match; simplify_eq; simpl;
    (split; [now constructor | now rewrite ?updateAppearance_path]).
Qed.

Lemma fetchListChildren_frame (parent : FlakeNode) (st : Provider) :
  let '(st1, parent1, _) := fetchListChildren ev parent st in
  sameSettings st st1 /\ attrPath parent1 = attrPath parent
  /\ nodeType parent1 = List.
Proof.
  unfold fetchListChildren. rewrite failWith_fallback.
  destruct (negb _);
    [split; [now constructor | split; reflexivity]|].
  destruct (data _); (split; [now constructor | split; reflexivity]).
Qed.

Lemma fetchChildren_frame (parent : FlakeNode) (st : Provider) :
  let '(st1, parent1, _) := fetchChildren ev writeTime parent st in
  sameSettings st st1 /\ attrPath parent1 = attrPath parent.
Proof.
  unfold fetchChildren. rewrite failWith_fallback.
  destruct (negb _); [split; [now constructor | reflexivity]|].
  set (st1 := ask _ st).
  assert (Hask : sameSettings st st1) by apply sameSettings_ask.
  assert (Hleaf :
    let '(st2, parent2, _) :=
      (let '(st2, parent2) :=
         fetchLeafValue ev writeTime
           (setCollapsibleState NotCollapsible (setNodeType Leaf parent)) st1
       in (st2, parent2, Returned (@nil FlakeNode))) in
    sameSettings st st2 /\ attrPath parent2 = attrPath parent).
  { pose proof (fetchLeafValue_frame
                  (setCollapsibleState NotCollapsible
                     (setNodeType Leaf parent)) st1) as [Hs Hp].
    destruct (fetchLeafValue _ _ _ _) as [st2 parent2]. simpl in *.
    split; [eapply sameSettings_trans; eassumption | exact Hp]. }
  destruct (data _) as [ty|]; [|exact Hleaf].
  destruct (String.eqb ty "set") eqn:Eset.
  { apply String.eqb_eq in Eset. subst ty.
    pose proof (fetchAttrsetChildren_frame parent st1) as H.
    destruct (fetchAttrsetChildren _ _ _) as [[st2 parent2] out].
    destruct H as [Hs Hp].
    split; [eapply sameSettings_trans; eassumption | exact Hp]. }
  destruct (String.eqb ty "list") eqn:Elist.
  { apply String.eqb_eq in Elist. subst ty.
    pose proof (fetchListChildren_frame parent st1) as H.
    destruct (fetchListChildren _ _ _) as [[st2 parent2] out].
    destruct H as (Hs & Hp & _).
    split; [eapply sameSettings_trans; eassumption | exact Hp]. }
  apply String.eqb_neq in Eset, Elist.
  repeat (match goal with
          | |- context [match ?x with _ => _ end] =>
              match type of x with
              | string => destruct x
              | ascii => destruct x
              | bool => destruct x
              end
          end; try congruence; try exact Hleaf).
Qed.

End ProviderFacts.

Section GetChildrenFacts.
Import Node FlakeTreeProvider.

Variable ev : Evaluator.
Variable writeTime : Z.

Lemma getChildren_miss (now : Z) (st st1 : Provider) (el el1 : FlakeNode)
      (cs : list FlakeNode) :
  JS.truthy (flakePath st) = true ->
  getCachedChildren now el = None ->
  fetchChildren ev writeTime el st = (st1, el1, Returned cs) ->
  getChildren ev writeTime now (Some el) st
  = if (0 <? length cs)%nat && negb (FlakeNodeType_eqb (nodeType el1) Error)
    then (setLastGood (attrPath el1) cs (indexAll cs st1),
          Some (cacheChildren writeTime cs el1), applyFilter st cs)
    else (indexAll cs st1, Some el1, applyFilter st cs).
Proof.
  intros Hflake Hmiss Hfetch.
  pose proof (fetchChildren_frame ev writeTime el st) as Hframe.
  rewrite Hfetch in Hframe. destruct Hframe as [Hsame _].
  assert (Hfilter : applyFilter (indexAll cs st1) cs = applyFilter st cs).
  { apply applyFilter_same. eapply sameSettings_trans; [exact Hsame|].
    apply sameSettings_index_all. }
  unfold getChildren, getChildrenTry. rewrite Hflake, Hmiss, Hfetch. simpl.
  rewrite Hfilter.
  now destruct (_ && _).
Qed.

Lemma getChildren_hit (now : Z) (st : Provider) (el : FlakeNode)
      (cached : list FlakeNode) :
  JS.truthy (flakePath st) = true ->
  getCachedChildren now el = Some cached ->
  getChildren ev writeTime now (Some el) st
  = (st, Some el, applyFilter st cached).
Proof.
  intros Hflake Hhit. unfold getChildren, getChildrenTry.
  now rewrite Hflake, Hhit.
Qed.

Lemma fetchChildren_failure (st : Provider) (el : FlakeNode)
      (err : option string) :
  queryFailure ev st (attrPath el) = Some err ->
  exists st1 el1,
    fetchChildren ev writeTime el st
    = (st1, el1, Returned (fallback err el st))
    /\ sameSettings st st1
    /\ attrPath el1 = attrPath el.
Proof.
  intros Hfail.
  pose proof (fetchChildren_frame ev writeTime el st) as Hframe.
  destruct (fetchChildren ev writeTime el st) as [[st1 el1] out] eqn:Hfetch.
  destruct Hframe as [Hsame Hpath].
  exists st1, el1. split; [|split; assumption]. f_equal.
  revert Hfetch Hfail.
  unfold queryFailure, fetchChildren, fetchAttrsetChildren, fetchListChildren.
  rewrite !failWith_fallback.
  destruct (negb (success (evalType ev (attrPath el)))).
  { intros [= <- <- <-] [= <-]. reflexivity. }
  destruct (data (evalType ev (attrPath el))) as [ty|]; [|discriminate].
  destruct (String.eqb ty "set") eqn:Eset.
  { apply String.eqb_eq in Eset. subst ty.
    simpl (prefetchCache (ask _ _)).
    destruct (prefetchCache st !! attrPath el) eqn:Epre; [discriminate|].
    - match goal with
      | |- context [if ?c then updateAppearance ?n else el] =>
          set (parent1 := if c then updateAppearance n else el)
      end.
      assert (Hp : attrPath parent1 = attrPath el).
      { unfold parent1. destruct (_ && _); [|reflexivity].
        now rewrite updateAppearance_path. }
      rewrite Hp.
      destruct (negb (success (evalAttrNames ev (attrPath el))));
        [|intros _ [=]].
      intros [= <- <- <-] [= <-]. f_equal.
      apply fallback_same; [exact Hp | now constructor]. }
  destruct (String.eqb ty "list") eqn:Elist.
  { apply String.eqb_eq in Elist. subst ty.
    rewrite updateAppearance_path. simpl attrPath.
    destruct (negb (success (evalList ev (attrPath el)))).
    - intros [= <- <- <-] [= <-]. reflexivity.
    - intros _ [=]. }
  apply String.eqb_neq in Eset, Elist.
  intros _.
  repeat (match goal with
          | |- context [match ?x with _ => _ end] =>
              match type of x with
              | string => destruct x
              | ascii => destruct x
              | bool => destruct x
              end
          end; try congruence; try discriminate).
Qed.

End GetChildrenFacts.

Section ChildrenTheorems.
Import Node FlakeTreeProvider.

Lemma cacheChildren_fresh (writeTime now : Z) (cs : list FlakeNode)
      (el : FlakeNode) :
  (now - writeTime <= 60000)%Z ->
  getCachedChildren now (cacheChildren writeTime cs el) = Some cs.
Proof.
  intros H. unfold getCachedChildren, cacheChildren. simpl.
  destruct (60000 <? now - writeTime)%Z eqn:E; [|reflexivity].
  apply Z.ltb_lt in E. lia.
Qed.

Lemma applyFilter_nil (st : Provider) : applyFilter st [] = [].
Proof. unfold applyFilter. now destruct (negb _). Qed.

Lemma listChild_path (a b : FlakeNode) (elem : ElementInfo) :
  attrPath a = attrPath b -> listChild a elem = listChild b elem.
Proof. unfold listChild. now intros ->. Qed.

Lemma getChildren_records (ev : Evaluator) (writeTime now : Z)
      (st st1 : Provider) (el el1 : FlakeNode) (cs : list FlakeNode) :
  JS.truthy (flakePath st) = true ->
  getCachedChildren now el = None ->
  fetchChildren ev writeTime el st = (st1, el1, Returned cs) ->
  cs <> [] -> nodeType el1 <> Error ->
  getChildren ev writeTime now (Some el) st
  = (setLastGood (attrPath el1) cs (indexAll cs st1),
     Some (cacheChildren writeTime cs el1), applyFilter st cs).
Proof.
  intros Hflake Hmiss Hfetch Hcs Herr.
  rewrite (getChildren_miss ev writeTime now st st1 el el1 cs
             Hflake Hmiss Hfetch).
  destruct cs as [|c cs]; [congruence|]. simpl.
  destruct (nodeType el1); simpl; congruence.
Qed.

End ChildrenTheorems.

Section NixFacts.
Import NixLang.

(** One step of the evaluation. *)
Lemma eval_S (n : nat) (env : Env) (e : Expr) :
  eval (S n) env e
  = match e with
    | Var x => assoc x env
    | Str s => Some (VStr s)
    | Lam x body => Some (VClosure env x body)
    | App f a => vf ← eval n env f; va ← eval n env a; apply n vf va
    | Let x bound body => v ← eval n env bound; eval n ((x, v) :: env) body
    | Select e a => v ← eval n env e; attr a v
    | SelectOr e a default =>
        v ← eval n env e;
        match attr a v with
        | Some w => Some w
        | None => eval n env default
        end
    | HasAttr e a => v ← eval n env e; Some (VBool (hasAttr a v))
    | Eq a b => va ← eval n env a; vb ← eval n env b; VBool <$> eqValue va vb
    | OrElse a b =>
        va ← eval n env a;
        match va with
        | VBool true => Some (VBool true)
        | VBool false =>
            vb ← eval n env b;
            match vb with VBool _ => Some vb | _ => None end
        | _ => None
        end
    | Attrs fields =>
        VAttrs <$> mapM (fun field : string * Expr =>
                           v ← eval n env (snd field); Some (fst field, v))
                        fields
    | Paren e => eval n env e
    end.
Proof. reflexivity. Qed.

Lemma apply_S (n : nat) (f a : Value) :
  apply (S n) f a
  = match f with
    | VClosure env x body => eval n ((x, a) :: env) body
    | VPrim p args =>
        let args1 := args ++ [a] in
        if (length args1 <? primArity p)%nat then Some (VPrim p args1)
        else
          match p, args1 with
          | Length, [VList items] => Some (VInt (Z.of_nat (length items)))
          | ElemAt, [VList items; VInt i] =>
              if (i <? 0)%Z then None else items !! Z.to_nat i
          | ToString, [v] => toStringValue v
          | GenList, [g; VInt count] =>
              if (count <? 0)%Z then None
              else
                VList <$> mapM (fun i => apply n g (VInt (Z.of_nat i)))
                               (seq 0 (Z.to_nat count))
          | _, _ => None
          end
    | _ => None
    end.
Proof. reflexivity. Qed.

#[local] Arguments attr a !v /.

Ltac nix_step :=
  rewrite ?eval_S, ?apply_S;
  cbn [mbind option_bind fmap option_fmap option_map mapM mret option_ret
       assoc attr String.eqb Ascii.eqb Bool.eqb primArity length app
       Nat.ltb Nat.leb snd fst globals builtins toStringValue].

(** The function of the expression on one element. *)
Lemma apply_element (xs : list Value) (i : nat) (x : Value) (k : nat) :
  xs !! i = Some x ->
  apply (8 + k) (elementClosure xs) (VInt (Z.of_nat i))
  = Some (elementValue i x).
Proof.
  intros Hx. unfold elementClosure.
  change (8 + k) with (S (S (S (S (S (S (S (S k)))))))).
  assert (Hneg : (Z.of_nat i <? 0)%Z = false) by (apply Z.ltb_ge; lia).
  do 6 nix_step.
  rewrite Hneg, Nat2Z.id, Hx. cbn [mbind option_bind].
  do 3 nix_step.
  unfold elementValue.
  destruct (attr "name" x) as [n|].
  - do 5 nix_step.
    destruct (attr "type" x) as [t|]; nix_step.
    + destruct t; cbn [eqValue fmap option_fmap option_map]; nix_step;
        try reflexivity.
      destruct (String.eqb s "derivation"); nix_step; reflexivity.
    + reflexivity.
  - nix_step. destruct (attr "pname" x) as [p|].
    + do 5 nix_step.
      destruct (attr "type" x) as [t|]; nix_step.
      * destruct t; cbn [eqValue fmap option_fmap option_map]; nix_step;
          try reflexivity.
        destruct (String.eqb s "derivation"); nix_step; reflexivity.
      * reflexivity.
    + do 4 nix_step. rewrite Hneg, Nat2Z.id.
      do 5 nix_step.
      destruct (attr "type" x) as [t|]; nix_step.
      * destruct t; cbn [eqValue fmap option_fmap option_map]; nix_step;
          try reflexivity.
        destruct (String.eqb s "derivation"); nix_step; reflexivity.
      * reflexivity.
Qed.

Lemma mapM_seq {A : Type} (f : nat -> option A) (g : nat -> Value -> A)
      (xs : list Value) (start : nat) :
  (forall i x, xs !! i = Some x -> f (start + i) = Some (g (start + i) x)) ->
  mapM f (seq start (length xs)) = Some (imap (fun i => g (start + i)) xs).
Proof.
  revert start. induction xs as [|x xs IH]; intros start H; [reflexivity|].
  cbn [length seq mapM imap].
  pose proof (H 0 x eq_refl) as H0. rewrite Nat.add_0_r in H0.
  rewrite H0. cbn [mbind option_bind].
  rewrite (IH (S start)).
  - cbn [mbind option_bind mret option_ret]. rewrite Nat.add_0_r.
    do 2 f_equal. apply imap_ext. intros i y _. simpl. f_equal. lia.
  - intros i y Hy. rewrite Nat.add_succ_comm. now apply (H (S i)).
Qed.

(** The value of the expression of [getListElementsInfo] on a list, with
    any fuel from 11 on. *)
Lemma run_listElements (xs : list Value) (fuel : nat) :
  11 <= fuel ->
  run fuel listElementsAst (VList xs) = Some (VList (imap elementValue xs)).
Proof.
  intros Hfuel.
  replace fuel with (11 + (fuel - 11)) by lia.
  generalize (fuel - 11). clear fuel Hfuel. intros k.
  change (11 + k) with (S (S (S (S (S (S (S (S (S (S (S k))))))))))).
  unfold run, listElementsAst.
  do 8 nix_step.
  rewrite Nat2Z.id.
  assert (Hneg : (Z.of_nat (length xs) <? 0)%Z = false)
    by (apply Z.ltb_ge; lia).
  rewrite Hneg.
  rewrite (mapM_seq _ elementValue xs 0); [reflexivity|].
  intros i x Hx. apply (apply_element xs i x k Hx).
Qed.

(** The answer, read as JSON, follows the list entry by entry. *)
Lemma toInfos_lookup (items : list Value) (elements : list ElementInfo)
      (i : nat) (item : Value) :
  toInfos items = Some elements ->
  items !! i = Some item ->
  exists elem, elements !! i = Some elem /\ toInfo item = Some elem.
Proof.
  unfold toInfos. intros H Hi. apply mapM_Some in H.
  destruct (Forall2_lookup_l _ _ _ _ _ H Hi) as (elem & He & Hinfo).
  now exists elem.
Qed.

Lemma toInfo_elementValue (i : nat) (x : Value) (elem : ElementInfo) :
  toInfo (elementValue i x) = Some elem ->
  index elem = i
  /\ VStr (name elem)
     = match attr "name" x with
       | Some n => n
       | None =>
           match attr "pname" x with
           | Some p => p
           | None => VStr (JS.showNat i)
           end
       end
  /\ isDrv elem
     = (match attr "type" x with
        | Some (VStr t) => String.eqb t "derivation"
        | _ => false
        end || hasAttr "drvPath" x).
Proof.
  unfold toInfo, elementValue.
  cbn [attr assoc String.eqb Ascii.eqb Bool.eqb].
  assert (Hneg : (Z.of_nat i <? 0)%Z = false) by (apply Z.ltb_ge; lia).
  rewrite Hneg, Nat2Z.id.
  destruct (match attr "name" x with Some n => n | None => _ end)
    as [| | |n| | | |]; try discriminate.
  intros [= <-]. simpl. auto.
Qed.

End NixFacts.

(** C4. Whatever the length of the list, the children of a list node are
    resolved with the type query and one query for the metadata of all
    elements, [nix eval --json .#path --apply expression], and no query per
    element. The expression of that query, evaluated on a list, is a list
    of the same length whose entry at index [i] carries the index, the
    [name] of the element if it has one, else its [pname], else the index
    itself, and whether the element is a derivation. The child made of an
    entry of the answer has the name of the entry as its label and is at
    [parent.\[index\]], not expandable when the entry is flagged as a
    derivation and an expandable list element otherwise; when the answer is
    the value of the expression on the list at the path, the child at
    position [i] is at [parent.\[i\]] and carries the preferred name of the
    element at index [i]. *)
Theorem fetchListChildren_one_query
        (ev : Evaluator) (writeTime now : Z)
        (st : FlakeTreeProvider.Provider) (el : Node.FlakeNode)
        (elements : list ElementInfo) (e1 e2 : option string) :
  JS.truthy (FlakeTreeProvider.flakePath st) = true ->
  Node.getCachedChildren now el = None ->
  evalType ev (Node.attrPath el) = mkResult true (Some "list") e1 ->
  evalList ev (Node.attrPath el) = mkResult true (Some elements) e2 ->
  let expression :=
    "xs: builtins.genList (i: let e = builtins.elemAt xs i; in { "
    +:+ NixRunner.nl
    +:+ "        index = i;" +:+ NixRunner.nl
    +:+ "        name = e.name or e.pname or (toString i); " +:+ NixRunner.nl
    +:+ "        isDrv = (e.type or null) == " +:+ NixRunner.dq
    +:+ "derivation" +:+ NixRunner.dq +:+ " || (e ? drvPath);"
    +:+ NixRunner.nl
    +:+ "      }) (builtins.length xs)" in
  let listQuery :=
    NixRunner.mkQuery
      ["eval"; "--json"; ".#" +:+ Node.attrPath el; "--apply"; expression]
      (mkOptions (FlakeTreeProvider.flakePath st) None)
      ("listElems:" +:+ Node.attrPath el) in
  let preferredName := fun (i : nat) (x : NixLang.Value) =>
    match NixLang.attr "name" x with
    | Some n => n
    | None =>
        match NixLang.attr "pname" x with
        | Some p => p
        | None => NixLang.VStr (JS.showNat i)
        end
    end in
  let isDerivation := fun x : NixLang.Value =>
    match NixLang.attr "type" x with
    | Some (NixLang.VStr t) => String.eqb t "derivation"
    | _ => false
    end || NixLang.hasAttr "drvPath" x in
  let children := map (FlakeTreeProvider.listChild el) elements in
  (exists st' el',
      FlakeTreeProvider.getChildren ev writeTime now (Some el) st
      = (st', Some el', FlakeTreeProvider.applyFilter st children)
      /\ FlakeTreeProvider.issued st'
         = FlakeTreeProvider.issued st
           ++ [NixRunner.getValueType (FlakeTreeProvider.flakePath st)
                                      (Node.attrPath el);
               listQuery])
  /\ NixLang.lex expression = NixLang.tokens NixLang.listElementsAst
  /\ (forall (xs : list NixLang.Value) (fuel : nat),
        11 <= fuel ->
        exists items,
          NixLang.run fuel NixLang.listElementsAst (NixLang.VList xs)
          = Some (NixLang.VList items)
          /\ length items = length xs
          /\ forall i x,
               xs !! i = Some x ->
               items !! i
               = Some (NixLang.VAttrs
                         [("index", NixLang.VInt (Z.of_nat i));
                          ("name", preferredName i x);
                          ("isDrv", NixLang.VBool (isDerivation x))]))
  /\ length children = length elements
  /\ (forall i elem,
        elements !! i = Some elem ->
        exists child,
          children !! i = Some child
          /\ Node.label child = name elem
          /\ Node.attrPath child
             = Node.attrPath el +:+ ".[" +:+ JS.showNat (index elem) +:+ "]"
          /\ Node.listIndex child = Some (index elem)
          /\ (isDrv elem = true ->
              Node.nodeType child = Node.Derivation
              /\ Node.collapsibleState child = Node.NotCollapsible)
          /\ (isDrv elem = false ->
              Node.nodeType child = Node.ListElement
              /\ Node.collapsibleState child = Node.Collapsed))
  /\ (forall (xs : list NixLang.Value) (fuel : nat) items,
        11 <= fuel ->
        NixLang.run fuel NixLang.listElementsAst (NixLang.VList xs)
        = Some (NixLang.VList items) ->
        NixLang.toInfos items = Some elements ->
        length children = length xs
        /\ forall i x,
             xs !! i = Some x ->
             exists child,
               children !! i = Some child
               /\ NixLang.VStr (Node.label child) = preferredName i x
               /\ Node.attrPath child
                  = Node.attrPath el +:+ ".[" +:+ JS.showNat i +:+ "]"
               /\ (isDerivation x = true ->
                   Node.nodeType child = Node.Derivation
                   /\ Node.collapsibleState child = Node.NotCollapsible)
               /\ (isDerivation x = false ->
                   Node.nodeType child = Node.ListElement
                   /\ Node.collapsibleState child = Node.Collapsed)).
Proof.
  intros Hflake Hmiss Htype Hlist expression listQuery preferredName
         isDerivation children.
  assert (Hchild : forall i elem,
             elements !! i = Some elem ->
             exists child,
               children !! i = Some child
               /\ Node.label child = name elem
               /\ Node.attrPath child
                  = Node.attrPath el +:+ ".[" +:+ JS.showNat (index elem)
                    +:+ "]"
               /\ Node.listIndex child = Some (index elem)
               /\ (isDrv elem = true ->
                   Node.nodeType child = Node.Derivation
                   /\ Node.collapsibleState child = Node.NotCollapsible)
               /\ (isDrv elem = false ->
                   Node.nodeType child = Node.ListElement
                   /\ Node.collapsibleState child = Node.Collapsed)).
  { intros i elem Hi.
    exists (FlakeTreeProvider.listChild el elem). split.
    { unfold children. now rewrite list_lookup_fmap, Hi. }
    unfold FlakeTreeProvider.listChild.
    destruct (isDrv elem); simpl; repeat split; congruence. }
  split; [|split; [|split; [|split; [|split]]]].
  - destruct (FlakeTreeProvider.fetchChildren ev writeTime el st)
      as [[st1 el1] out] eqn:Hfetch.
    assert (Hres : out = FlakeTreeProvider.Returned children
                   /\ FlakeTreeProvider.issued st1
                      = FlakeTreeProvider.issued st
                        ++ [NixRunner.getValueType
                              (FlakeTreeProvider.flakePath st)
                              (Node.attrPath el);
                            listQuery]).
    { revert Hfetch.
      unfold FlakeTreeProvider.fetchChildren,
        FlakeTreeProvider.fetchListChildren.
      rewrite Htype. simpl. rewrite Hlist. simpl.
      intros [= <- <- <-]. split.
      - reflexivity.
      - simpl. now rewrite <- app_assoc. }
    destruct Hres as [-> Hissued].
    rewrite (getChildren_miss ev writeTime now st st1 el el1 children
               Hflake Hmiss Hfetch).
    destruct (_ && _); eexists; eexists; (split; [reflexivity|]); simpl;
      now rewrite issued_index_all.
  - reflexivity.
  - intros xs fuel Hfuel. exists (imap NixLang.elementValue xs).
    split; [now apply run_listElements|].
    split; [apply length_imap|].
    intros i x Hx. now rewrite list_lookup_imap, Hx.
  - unfold children. apply length_map.
  - exact Hchild.
  - intros xs fuel items Hfuel Hrun Hinfos.
    rewrite (run_listElements xs fuel Hfuel) in Hrun.
    injection Hrun as <-.
    split.
    { unfold children. rewrite length_map.
      unfold NixLang.toInfos in Hinfos.
      apply mapM_Some, Forall2_length in Hinfos.
      now rewrite <- Hinfos, length_imap. }
    intros i x Hx.
    assert (Hitem : imap NixLang.elementValue xs !! i
                    = Some (NixLang.elementValue i x))
      by now rewrite list_lookup_imap, Hx.
    destruct (toInfos_lookup _ _ _ _ Hinfos Hitem) as (elem & Helem & Hinfo).
    apply toInfo_elementValue in Hinfo as (Hindex & Hname & Hdrv).
    destruct (Hchild i elem Helem)
      as (child & Hc & Hlabel & Hpath & _ & Hyes & Hno).
    exists child. split; [exact Hc|].
    split; [now rewrite Hlabel|].
    split; [now rewrite Hpath, Hindex|].
    fold (isDerivation x) in Hdrv. rewrite <- Hdrv. now split.
Qed.

Lemma fetchListChildren_one_query_witness :
  let el := Samples.nodeAt "x" in
  let xs :=
    Samples.package "git" :: Samples.plain :: Samples.named "vim"
    :: replicate 497 Samples.plain in
  let result :=
    FlakeTreeProvider.getChildren
      (Samples.listEvaluator (Samples.listAnswer xs)) 0 0 (Some el)
      Samples.provider in
  map NixRunner.q_key (FlakeTreeProvider.issued (fst (fst result)))
  = ["type:x"; "listElems:x"]
  /\ length (snd result) = 500
  /\ map (fun c => (Node.label c, Node.attrPath c, Node.collapsibleState c))
         (take 3 (snd result))
     = [("git", "x.[0]", Node.NotCollapsible);
        ("1", "x.[1]", Node.Collapsed);
        ("vim", "x.[2]", Node.Collapsed)].
Proof.
  intros el xs result.
  destruct (fetchListChildren_one_query
              (Samples.listEvaluator (Samples.listAnswer xs)) 0 0
              Samples.provider el (Samples.listAnswer xs) None None
              eq_refl eq_refl eq_refl eq_refl)
    as ((st' & el' & Hget & Hissued) & _ & _ & Hlen & _).
  assert (Hres : snd result
                 = map (FlakeTreeProvider.listChild el)
                       (Samples.listAnswer xs)).
  { unfold result. rewrite Hget. now apply applyFilter_off. }
  assert (Hst : fst (fst result) = st').
  { unfold result. now rewrite Hget. }
  rewrite Hres, Hst, Hissued.
  split; [reflexivity|].
  split; [rewrite Hlen; vm_compute; reflexivity | vm_compute; reflexivity].
Defined.

(** C3, as the code has it. When the query that decides the children of a
    node fails, [getChildren] throws nothing: it returns, through the search
    filter, the last good children recorded for the path if there are any and
    otherwise one error node that carries the message. A failing fetch leaves
    an existing last good entry, and the entries of all other paths, as they
    were; a fetch that succeeds with a result that is not empty records it,
    so that a failing fetch after it returns that result. *)
Theorem getChildren_failure_falls_back
        (ev : Evaluator) (writeTime now : Z)
        (st : FlakeTreeProvider.Provider) (el : Node.FlakeNode)
        (err : option string) :
  JS.truthy (FlakeTreeProvider.flakePath st) = true ->
  Node.getCachedChildren now el = None ->
  FlakeTreeProvider.queryFailure ev st (Node.attrPath el) = Some err ->
  let message := JS.opt_or_else err "Failed to evaluate" in
  exists st' el',
    FlakeTreeProvider.getChildren ev writeTime now (Some el) st
    = (st', Some el',
       FlakeTreeProvider.applyFilter st (FlakeTreeProvider.fallback err el st))
    /\ (FlakeTreeProvider.filterPath st = "" ->
        FlakeTreeProvider.applyFilter st (FlakeTreeProvider.fallback err el st)
        = FlakeTreeProvider.fallback err el st)
    /\ (forall lastGood,
           FlakeTreeProvider.lastGoodChildren st !! Node.attrPath el
           = Some lastGood ->
           FlakeTreeProvider.fallback err el st = lastGood
           /\ FlakeTreeProvider.lastGoodChildren st' !! Node.attrPath el
              = Some lastGood)
    /\ (FlakeTreeProvider.lastGoodChildren st !! Node.attrPath el = None ->
        FlakeTreeProvider.fallback err el st
        = [Node.createErrorNode message (Some el)]
        /\ Node.nodeType (Node.createErrorNode message (Some el)) = Node.Error
        /\ Node.errorMessage (Node.createErrorNode message (Some el))
           = Some message)
    /\ (forall q, q <> Node.attrPath el ->
                  FlakeTreeProvider.lastGoodChildren st' !! q
                  = FlakeTreeProvider.lastGoodChildren st !! q)
    /\ (forall ev0 writeTime0 now0 st0 el0 st1 el1 cs,
           JS.truthy (FlakeTreeProvider.flakePath st0) = true ->
           Node.getCachedChildren now0 el0 = None ->
           FlakeTreeProvider.queryFailure ev0 st0 (Node.attrPath el0) = None ->
           FlakeTreeProvider.fetchChildren ev0 writeTime0 el0 st0
           = (st1, el1, FlakeTreeProvider.Returned cs) ->
           cs <> [] -> Node.nodeType el1 <> Node.Error ->
           Node.attrPath el0 = Node.attrPath el ->
           st = fst (fst (FlakeTreeProvider.getChildren ev0 writeTime0 now0
                            (Some el0) st0)) ->
           FlakeTreeProvider.fallback err el st = cs).
Proof.
  intros Hflake Hmiss Hfail message.
  destruct (fetchChildren_failure ev writeTime st el err Hfail)
    as (st1 & el1 & Hfetch & Hsame & Hpath).
  pose proof (getChildren_miss ev writeTime now st st1 el el1 _
                Hflake Hmiss Hfetch) as Hget.
  set (cs := FlakeTreeProvider.fallback err el st) in *.
  assert (Hlast : FlakeTreeProvider.lastGoodChildren
                    (FlakeTreeProvider.indexAll cs st1)
                  = FlakeTreeProvider.lastGoodChildren st).
  { pose proof (sameSettings_trans _ _ _ Hsame
                  (sameSettings_index_all cs st1)) as [_ _ _ _ H].
    exact H. }
  assert (Hrecorded :
    forall lastGood,
      FlakeTreeProvider.lastGoodChildren st !! Node.attrPath el
      = Some lastGood -> cs = lastGood).
  { intros lastGood H. unfold cs, FlakeTreeProvider.fallback. now rewrite H. }
  destruct ((0 <? length cs)%nat
            && negb (Node.FlakeNodeType_eqb (Node.nodeType el1) Node.Error))
    eqn:Hcond.
  - eexists. eexists. split; [exact Hget|].
    split; [apply applyFilter_off|].
    split.
    { intros lastGood H. split; [now apply Hrecorded|].
      simpl. rewrite Hpath, lookup_insert_eq. f_equal. now apply Hrecorded. }
    split.
    { intros H. unfold cs, FlakeTreeProvider.fallback. rewrite H.
      repeat split. }
    split.
    { intros q Hq. simpl. rewrite lookup_insert_ne by congruence.
      now rewrite Hlast. }
    intros ev0 writeTime0 now0 st0 el0 st2 el2 cs0 Hflake0 Hmiss0 _ Hfetch0
           Hcs0 Herr0 Hpath0 Hst.
    pose proof (getChildren_records ev0 writeTime0 now0 st0 st2 el0 el2
                  cs0 Hflake0 Hmiss0 Hfetch0 Hcs0 Herr0) as Hfirst.
    rewrite Hfirst in Hst. simpl in Hst.
    apply Hrecorded. rewrite Hst. simpl.
    pose proof (fetchChildren_frame ev0 writeTime0 el0 st0) as Hframe.
    rewrite Hfetch0 in Hframe. destruct Hframe as [_ Hp].
    rewrite <- Hpath0, <- Hp. apply lookup_insert_eq.
  - eexists. eexists. split; [exact Hget|].
    split; [apply applyFilter_off|].
    split.
    { intros lastGood H. split; [now apply Hrecorded|].
      now rewrite Hlast. }
    split.
    { intros H. unfold cs, FlakeTreeProvider.fallback. rewrite H.
      repeat split. }
    split.
    { intros q Hq. now rewrite Hlast. }
    intros ev0 writeTime0 now0 st0 el0 st2 el2 cs0 Hflake0 Hmiss0 _ Hfetch0
           Hcs0 Herr0 Hpath0 Hst.
    pose proof (getChildren_records ev0 writeTime0 now0 st0 st2 el0 el2
                  cs0 Hflake0 Hmiss0 Hfetch0 Hcs0 Herr0) as Hfirst.
    rewrite Hfirst in Hst. simpl in Hst.
    apply Hrecorded. rewrite Hst. simpl.
    pose proof (fetchChildren_frame ev0 writeTime0 el0 st0) as Hframe.
    rewrite Hfetch0 in Hframe. destruct Hframe as [_ Hp].
    rewrite <- Hpath0, <- Hp. apply lookup_insert_eq.
Qed.

Lemma getChildren_failure_falls_back_witness :
  let el := Samples.nodeAt "programs" in
  let first :=
    FlakeTreeProvider.getChildren (Samples.setEvaluator ["git"]) 1000 1000
                                  (Some el) Samples.provider in
  let second :=
    FlakeTreeProvider.getChildren (Samples.failingEvaluator "boom") 2000 2000
      (FlakeTreeProvider.refreshNode <$> snd (fst first)) (fst (fst first)) in
  snd first = [Node.createChild "git" Node.Attrset el]
  /\ snd second = snd first
  /\ snd (FlakeTreeProvider.getChildren (Samples.failingEvaluator "boom")
            2000 2000 (Some el) Samples.provider)
     = [Node.createErrorNode "boom" (Some el)].
Proof.
  intros el first second.
  assert (Hfirst : snd first = [Node.createChild "git" Node.Attrset el])
    by reflexivity.
  split; [exact Hfirst|]. split.
  - set (elA := Node.cacheChildren 1000
                    [Node.createChild "git" Node.Attrset el] el).
    assert (HelA : snd (fst first) = Some elA) by reflexivity.
    destruct (getChildren_failure_falls_back
                (Samples.failingEvaluator "boom") 2000 2000 (fst (fst first))
                (FlakeTreeProvider.refreshNode elA) (Some "boom")
                eq_refl eq_refl eq_refl)
      as (st' & el' & Hget & Hoff & Hgood & _).
    unfold second. rewrite HelA. simpl fmap. rewrite Hget. simpl snd.
    rewrite Hoff by reflexivity. rewrite Hfirst.
    now apply (Hgood [Node.createChild "git" Node.Attrset el]).
  - destruct (getChildren_failure_falls_back
                (Samples.failingEvaluator "boom") 2000 2000 Samples.provider
                el (Some "boom") eq_refl eq_refl eq_refl)
      as (st' & el' & Hget & Hoff & _ & Hnone & _).
    rewrite Hget. simpl snd. rewrite Hoff by reflexivity.
    now apply Hnone.
Defined.

(** C3, as stated, fails: a fetch that succeeds with no children records
    nothing, so the failing fetch after it returns an error node, not the
    empty result; and when an older result is on record, the failing fetch
    returns that older result and not the empty one that came after it. *)
Lemma failing_refetch_after_empty_result :
  let el := Samples.nodeAt "programs" in
  let run ev time element st :=
    FlakeTreeProvider.getChildren ev time time element st in
  let empty := run (Samples.setEvaluator []) 1000%Z (Some el) Samples.provider in
  let failing :=
    run (Samples.failingEvaluator "boom") 2000%Z (snd (fst empty))
        (fst (fst empty)) in
  let first :=
    run (Samples.setEvaluator ["git"]) 1000%Z (Some el) Samples.provider in
  let second :=
    run (Samples.setEvaluator []) 70000%Z (snd (fst first)) (fst (fst first)) in
  let third :=
    run (Samples.failingEvaluator "boom") 80000%Z (snd (fst second))
        (fst (fst second)) in
  FlakeTreeProvider.queryFailure (Samples.setEvaluator []) Samples.provider
                                 "programs" = None
  /\ snd empty = []
  /\ FlakeTreeProvider.lastGoodChildren (fst (fst empty)) !! "programs" = None
  /\ snd failing = [Node.createErrorNode "boom" (Some el)]
  /\ snd first = [Node.createChild "git" Node.Attrset el]
  /\ snd second = []
  /\ snd third = [Node.createChild "git" Node.Attrset el].
Proof. vm_compute. repeat split. Qed.

(** ** The query runner *)

Section ListFacts.
Context {A B : Type}.

Lemma map_alter_same (g : A -> B) (f : A -> A) (i : nat) (l : list A) :
  (forall x, g (f x) = g x) -> map g (alter f i l) = map g l.
Proof.
  intros H. revert i. induction l as [|x l IH]; intros [|i]; simpl;
    try reflexivity.
  - now rewrite H.
  - f_equal. apply IH.
Qed.

Lemma lookup_map_Some (g : A -> B) (l : list A) (i : nat) (y : B) :
  map g l !! i = Some y <-> exists x, l !! i = Some x /\ y = g x.
Proof.
  revert i. induction l as [|x l IH]; intros [|i]; simpl.
  - split; [discriminate | now intros (? & ? & ?)].
  - split; [discriminate | now intros (? & ? & ?)].
  - split.
    + intros [= <-]. now exists x.
    + now intros (? & [= <-] & ->).
  - apply IH.
Qed.

Lemma lookup_alter_Some (f : A -> A) (l : list A) (i j : nat) (y : A) :
  alter f i l !! j = Some y ->
  exists x, l !! j = Some x /\ ((j = i /\ y = f x) \/ (j <> i /\ y = x)).
Proof.
  destruct (Nat.eq_dec i j) as [<-|Hne].
  - rewrite list_lookup_alter_eq. destruct (l !! i) as [x|]; [|discriminate].
    intros [= <-]. exists x. split; [reflexivity | now left].
  - rewrite list_lookup_alter_ne by exact Hne. intros H.
    exists y. split; [exact H | right; split; congruence].
Qed.

Lemma lookup_snoc_inv (l : list A) (x y : A) (i : nat) :
  (l ++ [x]) !! i = Some y ->
  l !! i = Some y \/ (i = length l /\ y = x).
Proof.
  intros H. apply lookup_snoc_Some in H as [[_ H]|[-> ->]]; auto.
Qed.
End ListFacts.

Section RunnerFacts.
Import Runner.

Variables nixArgs experimentalFeatures : list string.
Variable JSON_parse : string -> option Json.

Local Notation base := (buildBaseArgs nixArgs experimentalFeatures).
Local Notation step := (Runner.step nixArgs experimentalFeatures JSON_parse).
Local Notation exec := (Runner.exec nixArgs experimentalFeatures JSON_parse).
Local Notation run := (Runner.run nixArgs experimentalFeatures).
Local Notation StepSpec := (Runner.StepSpec nixArgs experimentalFeatures).

Lemma clearTimer_state (t : DebounceTimer) :
  t_state (clearTimer t) = t_state t
  \/ (t_state t = Pending /\ t_state (clearTimer t) = Cleared).
Proof. unfold clearTimer. destruct (t_state t); simpl; auto. Qed.

Lemma clearTimer_not_pending (t : DebounceTimer) :
  t_state (clearTimer t) <> Pending.
Proof. unfold clearTimer. destruct (t_state t); simpl; discriminate. Qed.

(** [cancel] *)

Lemma cancel_timers (key : string) (s : State) :
  timers (cancel key s)
  = match debounceTimers s !! key with
    | Some tid => alter clearTimer tid (timers s)
    | None => timers s
    end.
Proof.
  unfold cancel, setProcess, setTimer.
  repeat case_match; simplify_eq; simpl in *; congruence.
Qed.

Lemma cancel_debounceTimers (key : string) (s : State) :
  debounceTimers (cancel key s) = delete key (debounceTimers s).
Proof.
  unfold cancel, setProcess, setTimer.
  repeat case_match; simplify_eq; simpl in *;
    try reflexivity; symmetry; now apply delete_id.
Qed.

Lemma cancel_quiet (key : string) (s : State) : Quiet s (cancel key s).
Proof.
  constructor.
  - unfold spawnLog, cancel, setProcess, setTimer.
    repeat case_match; simplify_eq; simpl; try reflexivity;
      now apply map_alter_same.
  - unfold timerLog. rewrite cancel_timers.
    destruct (debounceTimers s !! key); [|reflexivity].
    now apply map_alter_same.
  - unfold cancel, setProcess, setTimer.
    repeat case_match; simplify_eq; reflexivity.
  - intros tid t Ht. rewrite cancel_timers.
    destruct (debounceTimers s !! key) as [tid0|]; [|eauto].
    destruct (Nat.eq_dec tid0 tid) as [->|Hne].
    + rewrite list_lookup_alter_eq, Ht. simpl. eexists. split; [reflexivity|].
      apply clearTimer_state.
    + rewrite list_lookup_alter_ne by exact Hne. eauto.
Qed.

Lemma cancel_settled (key : string) (s : State) :
  settled (cancel key s) = settled s.
Proof.
  unfold cancel, setProcess, setTimer.
  repeat case_match; simplify_eq; reflexivity.
Qed.

Lemma Quiet_refl (s : State) : Quiet s s.
Proof. constructor; eauto. Qed.

Lemma Quiet_trans (a b c : State) : Quiet a b -> Quiet b c -> Quiet a c.
Proof.
  intros [Hs1 Ht1 Hp1 Hst1] [Hs2 Ht2 Hp2 Hst2].
  constructor; try congruence.
  intros tid t Ht. destruct (Hst1 tid t Ht) as (t1 & Ht1' & H1).
  destruct (Hst2 tid t1 Ht1') as (t2 & Ht2' & H2).
  exists t2. split; [exact Ht2'|].
  destruct H1 as [H1|[H1 H1']]; destruct H2 as [H2|[H2 H2']];
    try (left; congruence); try (right; split; congruence).
Qed.

Lemma cancelAll_quiet (s : State) :
  Quiet s (cancelAll s) /\ settled (cancelAll s) = settled s.
Proof.
  unfold cancelAll.
  generalize (map fst (map_to_list (activeProcesses s))). intros keys.
  induction keys as [|k keys [IHq IHs]]; simpl.
  - split; [apply Quiet_refl | reflexivity].
  - split.
    + eapply Quiet_trans; [exact IHq | apply cancel_quiet].
    + now rewrite cancel_settled.
Qed.

(** [resolve] *)

Lemma resolve_fields (promise : nat) (result : NixEvalResult Json)
      (s : State) :
  processes (resolve promise result s) = processes s
  /\ timers (resolve promise result s) = timers s
  /\ debounceTimers (resolve promise result s) = debounceTimers s
  /\ promises (resolve promise result s) = promises s.
Proof. unfold resolve. destruct (existsb _ _); simpl; auto. Qed.

Lemma resolve_settled (promise : nat) (result : NixEvalResult Json)
      (s : State) (r : nat) (res : NixEvalResult Json) :
  (r, res) ∈ settled (resolve promise result s) ->
  (r, res) ∈ settled s \/ r = promise.
Proof.
  unfold resolve. destruct (existsb _ _); simpl; [auto|].
  rewrite elem_of_app, list_elem_of_singleton. intros [H|[= -> _]]; auto.
Qed.

Lemma Quiet_StepSpec (s s' : State) :
  Quiet s s' ->
  (forall r res, (r, res) ∈ settled s' ->
                 (r, res) ∈ settled s \/ r ∈ map fst (spawnLog s)) ->
  StepSpec s s'.
Proof.
  intros [Hs Ht Hp Hst] Hsettled. constructor.
  - lia.
  - now left.
  - now left.
  - intros tid t Htid Hnp. destruct (Hst tid t Htid) as (t' & Ht' & [H|[H _]]);
      [eauto | congruence].
  - intros tid t t' Htid Hpend Ht' Hfired.
    destruct (Hst tid t Htid) as (t'' & Ht'' & H).
    rewrite Ht' in Ht''. injection Ht'' as <-.
    destruct H as [H|[_ H]]; congruence.
  - exact Hsettled.
Qed.

End RunnerFacts.

Section StepFacts.
Import Runner.

Variables nixArgs experimentalFeatures : list string.
Variable JSON_parse : string -> option Json.

Local Notation base := (buildBaseArgs nixArgs experimentalFeatures).
Local Notation step := (Runner.step nixArgs experimentalFeatures JSON_parse).
Local Notation run := (Runner.run nixArgs experimentalFeatures).
Local Notation StepSpec := (Runner.StepSpec nixArgs experimentalFeatures).

Lemma settled_stays (s s' : State) :
  settled s' = settled s ->
  forall r res, (r, res) ∈ settled s' ->
                (r, res) ∈ settled s \/ r ∈ map fst (spawnLog s).
Proof. intros -> r res H. now left. Qed.

Lemma process_in_log (s : State) (pid : nat) (proc : ChildProcess) :
  processes s !! pid = Some proc -> p_promise proc ∈ map fst (spawnLog s).
Proof.
  intros H. unfold spawnLog. rewrite map_map. simpl.
  apply list_elem_of_In, in_map_iff. exists proc. split; [reflexivity|].
  apply list_elem_of_In. eapply list_elem_of_lookup_2. exact H.
Qed.

(** A change of the flags of one process, followed by a settlement. *)
Lemma flags_quiet (s s' : State) (pid : nat) (f : ChildProcess -> ChildProcess) :
  (forall p, p_promise (f p) = p_promise p /\ p_args (f p) = p_args p) ->
  processes s' = alter f pid (processes s) ->
  timers s' = timers s -> promises s' = promises s ->
  Quiet s s'.
Proof.
  intros Hf Hp Ht Hn. constructor.
  - unfold spawnLog. rewrite Hp. apply map_alter_same.
    intros p. destruct (Hf p) as [-> ->]. reflexivity.
  - unfold timerLog. now rewrite Ht.
  - exact Hn.
  - intros tid t H. rewrite Ht. eauto.
Qed.

Lemma processCloses_spec (pid : nat) (code : option Z) (out err : string)
      (s : State) :
  StepSpec s (processCloses JSON_parse pid code out err s).
Proof.
  unfold processCloses.
  destruct (processes s !! pid) as [proc|] eqn:Hproc;
    [|apply Quiet_StepSpec; [apply Quiet_refl | now left]].
  destruct (closed proc);
    [apply Quiet_StepSpec; [apply Quiet_refl | now left]|].
  match goal with
  | |- context [resolve ?p ?r ?x] =>
      destruct (resolve_fields p r x) as (Hp & Ht & _ & Hn);
      pose proof (resolve_settled p r x) as Hs
  end.
  apply Quiet_StepSpec.
  - eapply flags_quiet with (pid := pid)
                            (f := fun p => markClosed (stopWatchdog p));
      [now intros p | rewrite Hp; reflexivity | rewrite Ht; reflexivity
      | rewrite Hn; reflexivity].
  - intros r res H. destruct (Hs r res H) as [H'| ->]; [now left | right].
    eapply process_in_log. exact Hproc.
Qed.

Lemma processErrors_spec (pid : nat) (message : string) (s : State) :
  StepSpec s (processErrors pid message s).
Proof.
  unfold processErrors.
  destruct (processes s !! pid) as [proc|] eqn:Hproc;
    [|apply Quiet_StepSpec; [apply Quiet_refl | now left]].
  match goal with
  | |- context [resolve ?p ?r ?x] =>
      destruct (resolve_fields p r x) as (Hp & Ht & _ & Hn);
      pose proof (resolve_settled p r x) as Hs
  end.
  apply Quiet_StepSpec.
  - eapply flags_quiet with (pid := pid) (f := stopWatchdog);
      [now intros p | rewrite Hp; reflexivity | rewrite Ht; reflexivity
      | rewrite Hn; reflexivity].
  - intros r res H. destruct (Hs r res H) as [H'| ->]; [now left | right].
    eapply process_in_log. exact Hproc.
Qed.

Lemma watchdogFires_spec (pid : nat) (s : State) :
  StepSpec s (watchdogFires pid s).
Proof.
  unfold watchdogFires.
  destruct (processes s !! pid) as [proc|] eqn:Hproc;
    [|apply Quiet_StepSpec; [apply Quiet_refl | now left]].
  destruct (watchdog proc);
    try (apply Quiet_StepSpec; [apply Quiet_refl | now left]).
  destruct (negb (killed proc)).
  - match goal with
    | |- context [resolve ?p ?r ?x] =>
        destruct (resolve_fields p r x) as (Hp & Ht & _ & Hn);
        pose proof (resolve_settled p r x) as Hs
    end.
    apply Quiet_StepSpec.
    + eapply flags_quiet with (pid := pid); cycle 1;
        [rewrite Hp; reflexivity | rewrite Ht; reflexivity
        | rewrite Hn; reflexivity | now intros p].
    + intros r res H. destruct (Hs r res H) as [H'| ->]; [now left | right].
      eapply process_in_log. exact Hproc.
  - apply Quiet_StepSpec; [|now left].
    eapply flags_quiet with (pid := pid); cycle 1;
      [reflexivity | reflexivity | reflexivity | now intros p].
Qed.

Lemma timers_after_cancel (key : string) (s : State) (tid : nat)
      (t' : DebounceTimer) :
  timers (cancel key s) !! tid = Some t' ->
  exists t,
    timers s !! tid = Some t
    /\ t_promise t' = t_promise t /\ t_args t' = t_args t
    /\ t_key t' = t_key t
    /\ (t_state t' = t_state t \/ (t_state t = Pending /\ t_state t' = Cleared))
    /\ (t_state t' = Pending -> t' = t /\ debounceTimers s !! key <> Some tid).
Proof.
  rewrite cancel_timers.
  destruct (debounceTimers s !! key) as [tid0|].
  - intros H. apply lookup_alter_Some in H as (t & Ht & [[-> ->]|[Hne ->]]).
    + exists t. split; [exact Ht|].
      split; [reflexivity|]. split; [reflexivity|]. split; [reflexivity|].
      split; [apply clearTimer_state|].
      intros Hp. now destruct (clearTimer_not_pending t).
    + exists t. split; [exact Ht|].
      split; [reflexivity|]. split; [reflexivity|]. split; [reflexivity|].
      split; [now left|]. intros _. split; [reflexivity | congruence].
  - intros H. exists t'. split; [exact H|].
    split; [reflexivity|]. split; [reflexivity|]. split; [reflexivity|].
    split; [now left|]. intros _. split; [reflexivity | discriminate].
Qed.

Lemma run_spec (args : list string) (options : NixRunnerOptions)
      (key : option string) (debounce : bool) (s : State) :
  StepSpec s (fst (run args options key debounce s)).
Proof.
  unfold Runner.run.
  set (k := default (JS.join " " args) key).
  pose proof (cancel_quiet k s) as [Hs Ht Hp Hst].
  pose proof (cancel_settled k s) as Hset.
  destruct debounce; simpl.
  - constructor; simpl.
    + lia.
    + left. exact Hs.
    + right. exists args, k. split; [|lia].
      unfold timerLog in *. simpl. rewrite map_app, Ht, Hp. reflexivity.
    + intros tid t Htid Hnp.
      destruct (Hst tid t Htid) as (t' & Ht' & [H|[H _]]); [|congruence].
      exists t'. split; [|exact H].
      rewrite lookup_app_l; [exact Ht'|]. eapply lookup_lt_Some. exact Ht'.
    + intros tid t t' Htid Hpend Ht' Hfired. exfalso.
      apply lookup_snoc_inv in Ht' as [Ht'|[_ ->]]; [|discriminate].
      destruct (Hst tid t Htid) as (t'' & Ht'' & H).
      rewrite Ht' in Ht''. injection Ht'' as <-.
      destruct H as [H|[_ H]]; congruence.
    + rewrite Hset. now left.
  - unfold executeNix. constructor; simpl.
    + lia.
    + right. exists (promises s), args. split.
      * unfold spawnLog in *. simpl. rewrite map_app, Hs, Hp. reflexivity.
      * left. split; [reflexivity | lia].
    + left. exact Ht.
    + intros tid t Htid Hnp.
      destruct (Hst tid t Htid) as (t' & Ht' & [H|[H _]]); [eauto|congruence].
    + intros tid t t' Htid Hpend Ht' Hfired. exfalso.
      destruct (Hst tid t Htid) as (t'' & Ht'' & H).
      rewrite Ht' in Ht''. injection Ht'' as <-.
      destruct H as [H|[_ H]]; congruence.
    + rewrite Hset. now left.
Qed.

Lemma timerFires_spec (tid : nat) (s : State) :
  StepSpec s (timerFires nixArgs experimentalFeatures tid s).
Proof.
  unfold timerFires.
  destruct (timers s !! tid) as [t|] eqn:Htid;
    [|apply Quiet_StepSpec; [apply Quiet_refl | now left]].
  destruct (t_state t) eqn:Hstate;
    try (apply Quiet_StepSpec; [apply Quiet_refl | now left]).
  assert (Hlog : spawnLog
                   (executeNix nixArgs experimentalFeatures (t_args t)
                      (t_options t) (t_key t) (t_promise t)
                      (mkState
                         (processes (setTimer tid
                            (fun t => mkTimer (t_args t) (t_options t) (t_key t)
                                              (t_promise t) Fired) s))
                         (timers (setTimer tid
                            (fun t => mkTimer (t_args t) (t_options t) (t_key t)
                                              (t_promise t) Fired) s))
                         (activeProcesses s)
                         (delete (t_key t) (debounceTimers s))
                         (settled s) (promises s)))
                 = spawnLog s ++ [(t_promise t, base ++ t_args t)]).
  { unfold spawnLog, executeNix. simpl. now rewrite map_app. }
  constructor; simpl.
  - lia.
  - right. exists (t_promise t), (t_args t). split; [exact Hlog|].
    right. exists tid, t. eexists. repeat split; try eassumption.
    + rewrite list_lookup_alter_eq, Htid. reflexivity.
    + reflexivity.
  - left. unfold timerLog. simpl. now apply map_alter_same.
  - intros tid' t' Ht' Hnp. destruct (Nat.eq_dec tid tid') as [<-|Hne].
    + rewrite Htid in Ht'. injection Ht' as <-. congruence.
    + rewrite list_lookup_alter_ne by exact Hne. eauto.
  - intros tid' t0 t' Ht0 Hpend Ht' Hfired.
    destruct (Nat.eq_dec tid tid') as [<-|Hne].
    + rewrite Htid in Ht0. injection Ht0 as <-. exact Hlog.
    + rewrite list_lookup_alter_ne in Ht' by exact Hne.
      rewrite Ht0 in Ht'. injection Ht' as <-. congruence.
  - now left.
Qed.

Lemma step_spec (s : State) (e : Event) : StepSpec s (step s e).
Proof.
  destruct e as [args options key debounce|key| |tid|pid code out err
                |pid message|pid]; simpl.
  - apply run_spec.
  - apply Quiet_StepSpec; [apply cancel_quiet|].
    apply settled_stays, cancel_settled.
  - destruct (cancelAll_quiet s) as [Hq Hs].
    apply Quiet_StepSpec; [exact Hq | now apply settled_stays].
  - apply timerFires_spec.
  - apply processCloses_spec.
  - apply processErrors_spec.
  - apply watchdogFires_spec.
Qed.

End StepFacts.

Section InvariantFacts.
Import Runner.

Variables nixArgs experimentalFeatures : list string.
Variable JSON_parse : string -> option Json.

Local Notation base := (buildBaseArgs nixArgs experimentalFeatures).
Local Notation step := (Runner.step nixArgs experimentalFeatures JSON_parse).
Local Notation exec := (Runner.exec nixArgs experimentalFeatures JSON_parse).
Local Notation StepSpec := (Runner.StepSpec nixArgs experimentalFeatures).
Local Notation debounced := (Runner.debounced nixArgs experimentalFeatures).
Local Notation started := (Runner.started nixArgs experimentalFeatures).

Lemma timer_origin (s s' : State) (tid : nat) (t' : DebounceTimer) :
  StepSpec s s' -> timers s' !! tid = Some t' ->
  (exists t, timers s !! tid = Some t /\ t_promise t' = t_promise t
             /\ t_args t' = t_args t)
  \/ (t_promise t' = promises s /\ promises s < promises s').
Proof.
  intros [_ _ Ht _ _ _] H.
  assert (Hlog : timerLog s' !! tid = Some (t_promise t', t_args t', t_key t')).
  { unfold timerLog. apply lookup_map_Some. now exists t'. }
  destruct Ht as [Ht|(a & k & Ht & Hlt)]; rewrite Ht in Hlog.
  - left. apply lookup_map_Some in Hlog as (t & Htid & [= H1 H2 _]).
    now exists t.
  - apply lookup_snoc_inv in Hlog as [Hlog|[_ [= H1 _ _]]].
    + left. apply lookup_map_Some in Hlog as (t & Htid & [= H1 H2 _]).
      now exists t.
    + right. split; [exact H1 | exact Hlt].
Qed.

Lemma timer_persists (s s' : State) (tid : nat) (t : DebounceTimer) :
  StepSpec s s' -> timers s !! tid = Some t ->
  exists t', timers s' !! tid = Some t' /\ t_promise t' = t_promise t
             /\ t_args t' = t_args t.
Proof.
  intros [_ _ Ht _ _ _] H.
  assert (Hlog : timerLog s !! tid = Some (t_promise t, t_args t, t_key t)).
  { unfold timerLog. apply lookup_map_Some. now exists t. }
  assert (Hlog' : timerLog s' !! tid = Some (t_promise t, t_args t, t_key t)).
  { destruct Ht as [->|(a & k & -> & _)]; [exact Hlog|].
    rewrite lookup_app_l; [exact Hlog|]. eapply lookup_lt_Some. exact Hlog. }
  apply lookup_map_Some in Hlog' as (t' & Ht' & [= H1 H2 _]).
  now exists t'.
Qed.

Lemma spawnedFor_snoc (s s' : State) (p r : nat) (a : list string) :
  spawnLog s' = spawnLog s ++ [(r, a)] ->
  spawnedFor p s' = spawnedFor p s ++ (if (r =? p)%nat then [a] else []).
Proof.
  intros H. unfold spawnedFor. rewrite H, List.filter_app, map_app. simpl.
  now destruct (r =? p)%nat.
Qed.

Lemma spawnedFor_same (s s' : State) (p : nat) :
  spawnLog s' = spawnLog s -> spawnedFor p s' = spawnedFor p s.
Proof. intros H. unfold spawnedFor. now rewrite H. Qed.

Lemma spawnedFor_nil (s : State) (p : nat) :
  (forall a, (p, a) ∉ spawnLog s) <-> spawnedFor p s = [].
Proof.
  unfold spawnedFor. generalize (spawnLog s). intros log.
  induction log as [|[r a] log IH]; simpl.
  - split; [reflexivity|]. intros _ a H. inversion H.
  - destruct (r =? p)%nat eqn:E.
    + apply Nat.eqb_eq in E. subst r. split; [|discriminate].
      intros H. destruct (H a). constructor.
    + apply Nat.eqb_neq in E. rewrite <- IH. split.
      * intros H a' Hin. apply (H a'). now constructor.
      * intros H a' Hin. inversion Hin; subst; [congruence|]. now apply (H a').
Qed.

Lemma in_log_spawnedFor (s : State) (p : nat) :
  p ∈ map fst (spawnLog s) -> spawnedFor p s <> [].
Proof.
  intros Hin Hnil. pose proof (proj2 (spawnedFor_nil s p) Hnil) as Hno.
  apply list_elem_of_In, in_map_iff in Hin as ([r a] & Hr & Hin).
  simpl in Hr. subst r. apply (Hno a). now apply list_elem_of_In.
Qed.

(** What one event adds to the processes spawned for a promise [p]: nothing,
    unless it fires a pending timer of [p]. *)
Lemma spawn_step (s s' : State) (p : nat) :
  StepSpec s s' -> p < promises s ->
  spawnedFor p s' = spawnedFor p s
  \/ exists tid t t',
      timers s !! tid = Some t /\ t_state t = Pending /\ t_promise t = p
      /\ timers s' !! tid = Some t' /\ t_state t' = Fired
      /\ spawnedFor p s' = spawnedFor p s ++ [base ++ t_args t].
Proof.
  intros Hspec Hlt. destruct (ss_spawn _ _ _ _ Hspec)
    as [Hsame|(r & a & Hlog & Hwhy)].
  - left. now apply spawnedFor_same.
  - rewrite (spawnedFor_snoc _ _ p _ _ Hlog).
    destruct (r =? p)%nat eqn:E; [|left; now rewrite app_nil_r].
    apply Nat.eqb_eq in E. subst r.
    destruct Hwhy as [[-> _]|(tid & t & t' & Ht & Hp & Hr & Ha & Ht' & Hf)];
      [lia|].
    right. exists tid, t, t'. subst a. auto 10.
Qed.

Lemma superseded_step (s s' : State) (p : nat) :
  StepSpec s s' -> superseded p s -> superseded p s'.
Proof.
  intros Hspec (Hlt & Hspawn & Htimer & Hsettled).
  pose proof (ss_promises _ _ _ _ Hspec) as Hmono.
  assert (Hspawn' : spawnedFor p s' = []).
  { apply (proj1 (spawnedFor_nil s p)) in Hspawn.
    destruct (spawn_step s s' p Hspec Hlt)
      as [->|(tid & t & _ & Ht & Hp & Hr & _)]; [exact Hspawn|].
    rewrite (Htimer tid t Ht Hr) in Hp. discriminate. }
  split; [lia|]. split; [now apply spawnedFor_nil|]. split.
  - intros tid t' Ht' Hr.
    destruct (timer_origin s s' tid t' Hspec Ht')
      as [(t & Ht & Hpr & _)|[Hpr _]]; [|lia].
    assert (Hc : t_state t = Cleared) by (apply (Htimer tid t Ht); congruence).
    destruct (ss_states _ _ _ _ Hspec tid t Ht) as (t'' & Ht'' & Hst);
      [congruence|].
    rewrite Ht' in Ht''. injection Ht'' as <-. congruence.
  - intros res Hin.
    destruct (ss_settled _ _ _ _ Hspec p res Hin) as [H|H].
    + now apply (Hsettled res).
    + apply in_log_spawnedFor in H. apply H. now apply spawnedFor_nil.
Qed.

Lemma debounced_step (s s' : State) (p tid : nat) (a : list string) :
  StepSpec s s' -> debounced p tid a s -> debounced p tid a s'.
Proof.
  intros Hspec (Hlt & Honly & t & Ht & Hp & Ha & Hspawn).
  pose proof (ss_promises _ _ _ _ Hspec) as Hmono.
  destruct (timer_persists s s' tid t Hspec Ht) as (t' & Ht' & Hp' & Ha').
  split; [lia|]. split.
  { intros tid0 t0 Ht0 Hp0.
    destruct (timer_origin s s' tid0 t0 Hspec Ht0)
      as [(t1 & Ht1 & Hp1 & _)|[Hp1 _]]; [|lia].
    apply (Honly tid0 t1 Ht1). congruence. }
  exists t'. split; [exact Ht'|]. split; [congruence|]. split; [congruence|].
  destruct (spawn_step s s' p Hspec Hlt)
    as [Hsame|(tid0 & t0 & t0' & Ht0 & Hpend & Hp0 & Ht0' & Hfired & Hnew)].
  - rewrite Hsame, Hspawn.
    destruct (t_state t) eqn:Hst.
    + destruct (t_state t') eqn:Hst'; try reflexivity. exfalso.
      pose proof (ss_fire _ _ _ _ Hspec tid t t' Ht Hst Ht' Hst') as Hlog.
      rewrite (spawnedFor_snoc _ _ p _ _ Hlog), Hp, Nat.eqb_refl in Hsame.
      rewrite Hspawn in Hsame. discriminate.
    + destruct (ss_states _ _ _ _ Hspec tid t Ht) as (t'' & Ht'' & Hst'');
        [congruence|].
      rewrite Ht' in Ht''. injection Ht'' as <-. now rewrite Hst'', Hst.
    + destruct (ss_states _ _ _ _ Hspec tid t Ht) as (t'' & Ht'' & Hst'');
        [congruence|].
      rewrite Ht' in Ht''. injection Ht'' as <-. now rewrite Hst'', Hst.
  - assert (tid0 = tid) by now apply (Honly tid0 t0).
    subst tid0. rewrite Ht in Ht0. injection Ht0 as <-.
    rewrite Ht' in Ht0'. injection Ht0' as <-.
    rewrite Hnew, Hspawn, Hpend, Hfired, Ha. reflexivity.
Qed.

Lemma started_step (s s' : State) (p : nat) (a : list string) :
  StepSpec s s' -> started p a s -> started p a s'.
Proof.
  intros Hspec (Hlt & Hnone & Hspawn).
  pose proof (ss_promises _ _ _ _ Hspec) as Hmono.
  split; [lia|]. split.
  - intros tid t' Ht'.
    destruct (timer_origin s s' tid t' Hspec Ht')
      as [(t & Ht & Hp & _)|[Hp _]]; [|lia].
    rewrite Hp. now apply (Hnone tid t).
  - destruct (spawn_step s s' p Hspec Hlt)
      as [->|(tid & t & _ & Ht & _ & Hp & _)]; [exact Hspawn|].
    now destruct (Hnone tid t Ht).
Qed.

Lemma freshPromises_step (s s' : State) :
  StepSpec s s' -> freshPromises s -> freshPromises s'.
Proof.
  intros Hspec [Hs Ht].
  pose proof (ss_promises _ _ _ _ Hspec) as Hmono.
  assert (Hs' : Forall (fun e => fst e < promises s') (spawnLog s)).
  { eapply Forall_impl; [exact Hs|]. simpl. intros e He. lia. }
  assert (Ht' : Forall (fun e => fst (fst e) < promises s') (timerLog s)).
  { eapply Forall_impl; [exact Ht|]. simpl. intros e He. lia. }
  split.
  - destruct (ss_spawn _ _ _ _ Hspec)
      as [->|(r & a & -> & [[-> Hlt]|(tid & t & _ & Htid & _ & Hr & _)])];
      [exact Hs'| |].
    + apply Forall_app. split; [exact Hs'|]. constructor; [exact Hlt|constructor].
    + apply Forall_app. split; [exact Hs'|].
      constructor; [|constructor]. simpl.
      rewrite Forall_forall in Ht.
      assert (Hin : (t_promise t, t_args t, t_key t) ∈ timerLog s).
      { unfold timerLog. apply list_elem_of_In, in_map_iff. exists t.
        split; [reflexivity|]. apply list_elem_of_In.
        eapply list_elem_of_lookup_2. exact Htid. }
      specialize (Ht _ Hin). simpl in Ht. lia.
  - destruct (ss_timers _ _ _ _ Hspec) as [->|(a & k & -> & Hlt)];
      [exact Ht'|].
    apply Forall_app. split; [exact Ht'|]. constructor; [exact Hlt|constructor].
Qed.

Lemma exec_preserves (I : State -> Prop) :
  (forall s s', StepSpec s s' -> I s -> I s') ->
  forall events s, I s -> I (exec s events).
Proof.
  intros Hstep events. induction events as [|e events IH]; intros s Hs.
  - exact Hs.
  - simpl. apply IH. eapply Hstep; [apply step_spec | exact Hs].
Qed.

Lemma reachable_fresh (s : State) :
  reachable nixArgs experimentalFeatures JSON_parse s -> freshPromises s.
Proof.
  induction 1 as [|s e _ IH].
  - split; constructor.
  - eapply freshPromises_step; [apply step_spec | exact IH].
Qed.

End InvariantFacts.

Section PendingFacts.
Import Runner.

Variables nixArgs experimentalFeatures : list string.
Variable JSON_parse : string -> option Json.

Local Notation step := (Runner.step nixArgs experimentalFeatures JSON_parse).
Local Notation exec := (Runner.exec nixArgs experimentalFeatures JSON_parse).
Local Notation run := (Runner.run nixArgs experimentalFeatures).

Lemma cancel_pending (key : string) (s : State) :
  pendingRegistered s ->
  pendingRegistered (cancel key s)
  /\ forall tid t, timers (cancel key s) !! tid = Some t ->
                   t_state t = Pending -> t_key t <> key.
Proof.
  intros Hinv.
  assert (Hkey : forall tid t, timers (cancel key s) !! tid = Some t ->
                               t_state t = Pending ->
                               t_key t <> key
                               /\ debounceTimers s !! t_key t = Some tid).
  { intros tid t' Ht' Hpend.
    destruct (timers_after_cancel key s tid t' Ht')
      as (t & Ht & _ & _ & _ & _ & Hsame).
    destruct (Hsame Hpend) as [-> Hne].
    pose proof (Hinv tid t Ht Hpend) as Hreg.
    split; [|exact Hreg]. intros Heq. rewrite Heq in Hreg. contradiction. }
  split.
  - intros tid t Ht Hpend. destruct (Hkey tid t Ht Hpend) as [Hne Hreg].
    rewrite cancel_debounceTimers, lookup_delete_ne by congruence. exact Hreg.
  - intros tid t Ht Hpend. now destruct (Hkey tid t Ht Hpend).
Qed.

Lemma run_pending (args : list string) (options : NixRunnerOptions)
      (key : option string) (debounce : bool) (s : State) :
  pendingRegistered s ->
  pendingRegistered (fst (run args options key debounce s)).
Proof.
  intros Hinv. unfold Runner.run.
  set (k := default (JS.join " " args) key).
  destruct (cancel_pending k s Hinv) as [Hc Hother].
  destruct debounce; simpl.
  - intros tid t Ht Hpend. simpl in *.
    apply lookup_snoc_inv in Ht as [Ht|[-> ->]].
    + rewrite lookup_insert_ne by (intros Heq; now apply (Hother tid t Ht Hpend)).
      now apply Hc.
    + simpl. apply lookup_insert_eq.
  - intros tid t Ht Hpend. simpl in *. now apply Hc.
Qed.

Lemma timerFires_pending (tid : nat) (s : State) :
  pendingRegistered s ->
  pendingRegistered (timerFires nixArgs experimentalFeatures tid s).
Proof.
  intros Hinv. unfold timerFires.
  destruct (timers s !! tid) as [t|] eqn:Htid; [|exact Hinv].
  destruct (t_state t) eqn:Hstate; try exact Hinv.
  intros tid' t' Ht' Hpend. simpl in *.
  apply lookup_alter_Some in Ht' as (t0 & Ht0 & [[-> ->]|[Hne ->]]);
    [discriminate|].
  pose proof (Hinv tid' t0 Ht0 Hpend) as Hreg.
  rewrite lookup_delete_ne; [exact Hreg|].
  intros Heq. pose proof (Hinv tid t Htid Hstate) as Hreg'.
  rewrite Heq in Hreg'. congruence.
Qed.

Lemma same_timers_pending (s s' : State) :
  timers s' = timers s -> debounceTimers s' = debounceTimers s ->
  pendingRegistered s -> pendingRegistered s'.
Proof. intros Ht Hd Hinv tid t. rewrite Ht, Hd. apply Hinv. Qed.

Lemma step_pending (s : State) (e : Event) :
  pendingRegistered s -> pendingRegistered (step s e).
Proof.
  intros Hinv.
  destruct e as [args options key debounce|key| |tid|pid code out err
                |pid message|pid]; simpl.
  - now apply run_pending.
  - now apply cancel_pending.
  - unfold cancelAll.
    generalize (map fst (map_to_list (activeProcesses s))). intros keys.
    induction keys as [|k keys IH]; simpl; [exact Hinv|].
    now apply cancel_pending.
  - now apply timerFires_pending.
  - unfold processCloses. destruct (processes s !! pid) as [proc|]; [|exact Hinv].
    destruct (closed proc); [exact Hinv|].
    match goal with
    | |- context [resolve ?p ?r ?x] =>
        destruct (resolve_fields p r x) as (_ & Ht & Hd & _)
    end.
    eapply same_timers_pending; [exact Ht | exact Hd | exact Hinv].
  - unfold processErrors. destruct (processes s !! pid) as [proc|]; [|exact Hinv].
    match goal with
    | |- context [resolve ?p ?r ?x] =>
        destruct (resolve_fields p r x) as (_ & Ht & Hd & _)
    end.
    eapply same_timers_pending; [exact Ht | exact Hd | exact Hinv].
  - unfold watchdogFires. destruct (processes s !! pid) as [proc|]; [|exact Hinv].
    destruct (watchdog proc); try exact Hinv.
    destruct (negb (killed proc)); [|exact Hinv].
    match goal with
    | |- context [resolve ?p ?r ?x] =>
        destruct (resolve_fields p r x) as (_ & Ht & Hd & _)
    end.
    eapply same_timers_pending; [exact Ht | exact Hd | exact Hinv].
Qed.

Lemma reachable_pending (s : State) :
  reachable nixArgs experimentalFeatures JSON_parse s -> pendingRegistered s.
Proof.
  induction 1 as [|s e _ IH].
  - intros tid t Ht. discriminate.
  - now apply step_pending.
Qed.

Lemma reachable_exec (s : State) (events : list Event) :
  reachable nixArgs experimentalFeatures JSON_parse s ->
  reachable nixArgs experimentalFeatures JSON_parse (exec s events).
Proof.
  revert s. induction events as [|e events IH]; intros s Hs; [exact Hs|].
  simpl. apply IH. now constructor.
Qed.

Lemma pending_unique (s : State) (tid tid' : nat) (t t' : DebounceTimer) :
  pendingRegistered s ->
  timers s !! tid = Some t -> timers s !! tid' = Some t' ->
  t_state t = Pending -> t_state t' = Pending -> t_key t = t_key t' ->
  tid = tid'.
Proof.
  intros Hinv Ht Ht' Hp Hp' Hk.
  pose proof (Hinv tid t Ht Hp) as H1.
  pose proof (Hinv tid' t' Ht' Hp') as H2.
  rewrite Hk in H1. congruence.
Qed.

End PendingFacts.

Section RunFacts.
Import Runner.

Variables nixArgs experimentalFeatures : list string.
Variable JSON_parse : string -> option Json.

Local Notation base := (buildBaseArgs nixArgs experimentalFeatures).
Local Notation step := (Runner.step nixArgs experimentalFeatures JSON_parse).
Local Notation exec := (Runner.exec nixArgs experimentalFeatures JSON_parse).
Local Notation run := (Runner.run nixArgs experimentalFeatures).
Local Notation StepSpec := (Runner.StepSpec nixArgs experimentalFeatures).
Local Notation debounced := (Runner.debounced nixArgs experimentalFeatures).
Local Notation started := (Runner.started nixArgs experimentalFeatures).
Local Notation reachable :=
  (Runner.reachable nixArgs experimentalFeatures JSON_parse).

Lemma settledSpawned_step (s s' : State) :
  StepSpec s s' -> settledSpawned s -> settledSpawned s'.
Proof.
  intros Hspec Hinv r res Hin.
  assert (Hsub : r ∈ map fst (spawnLog s) -> r ∈ map fst (spawnLog s')).
  { destruct (ss_spawn _ _ _ _ Hspec) as [->|(r' & a & -> & _)]; [auto|].
    rewrite map_app. intros H. apply elem_of_app. now left. }
  destruct (ss_settled _ _ _ _ Hspec r res Hin) as [H|H]; [|now apply Hsub].
  apply Hsub. now apply (Hinv r res).
Qed.

Lemma reachable_settled (s : State) : reachable s -> settledSpawned s.
Proof.
  induction 1 as [|s e _ IH].
  - intros r res H. inversion H.
  - eapply settledSpawned_step; [apply step_spec | exact IH].
Qed.

Lemma cancel_timers_length (key : string) (s : State) :
  length (timers (cancel key s)) = length (timers s).
Proof.
  rewrite cancel_timers. destruct (debounceTimers s !! key); [|reflexivity].
  apply length_alter.
Qed.

Lemma fresh_spawnedFor (s : State) (p : nat) :
  freshPromises s -> promises s <= p -> spawnedFor p s = [].
Proof.
  intros [Hs _] Hle. apply spawnedFor_nil. intros a Hin.
  rewrite Forall_forall in Hs. specialize (Hs _ Hin). simpl in Hs. lia.
Qed.

Lemma fresh_timer (s : State) (tid : nat) (t : DebounceTimer) :
  freshPromises s -> timers s !! tid = Some t -> t_promise t < promises s.
Proof.
  intros [_ Ht] H. rewrite Forall_forall in Ht.
  assert (Hin : (t_promise t, t_args t, t_key t) ∈ timerLog s).
  { unfold timerLog. apply list_elem_of_In, in_map_iff. exists t.
    split; [reflexivity|]. apply list_elem_of_In.
    eapply list_elem_of_lookup_2. exact H. }
  apply (Ht _ Hin).
Qed.

(** A debounced call arms a timer and spawns nothing. *)
Lemma run_debounced (args : list string) (options : NixRunnerOptions)
      (key : string) (s : State) :
  freshPromises s ->
  let s' := fst (run args options (Some key) true s) in
  snd (run args options (Some key) true s) = promises s
  /\ timers s' !! length (timers s)
     = Some (mkTimer args options key (promises s) Pending)
  /\ length (timers s') = S (length (timers s))
  /\ debounceTimers s' !! key = Some (length (timers s))
  /\ debounced (promises s) (length (timers s)) args s'.
Proof.
  intros Hfresh s'.
  pose proof (cancel_quiet key s) as [Hs Ht Hp Hst].
  pose proof (cancel_timers_length key s) as Hlen.
  assert (Htimers : timers s'
                    = timers (cancel key s)
                      ++ [mkTimer args options key (promises s) Pending]).
  { unfold s', Runner.run. simpl. now rewrite Hp. }
  assert (Hnew : timers s' !! length (timers s)
                 = Some (mkTimer args options key (promises s) Pending)).
  { rewrite Htimers, <- Hlen. now rewrite list_lookup_middle. }
  split; [unfold Runner.run; simpl; exact Hp|].
  split; [exact Hnew|].
  split; [rewrite Htimers, length_app, Hlen; simpl; lia|].
  split.
  { unfold s', Runner.run. simpl. rewrite Hlen. apply lookup_insert_eq. }
  split; [unfold s', Runner.run; simpl; lia|].
  split.
  - intros tid t Htid Hpr. rewrite Htimers in Htid.
    apply lookup_snoc_inv in Htid as [Htid|[-> _]]; [|exact Hlen].
    exfalso.
    destruct (timers_after_cancel key s tid t Htid) as (t0 & Ht0 & Hp0 & _).
    pose proof (fresh_timer s tid t0 Hfresh Ht0). lia.
  - eexists. split; [exact Hnew|]. simpl.
    split; [reflexivity|]. split; [reflexivity|].
    assert (Hlog : spawnLog s' = spawnLog s).
    { unfold s', Runner.run, spawnLog in *. simpl. exact Hs. }
    rewrite (spawnedFor_same _ _ _ Hlog). now apply fresh_spawnedFor.
Qed.

(** A call that is not debounced spawns its process at once. *)
Lemma run_started (args : list string) (options : NixRunnerOptions)
      (key : string) (s : State) :
  freshPromises s ->
  let s' := fst (run args options (Some key) false s) in
  snd (run args options (Some key) false s) = promises s
  /\ timers s' = timers (cancel key s)
  /\ debounceTimers s' !! key = None
  /\ started (promises s) args s'.
Proof.
  intros Hfresh s'.
  pose proof (cancel_quiet key s) as [Hs Ht Hp Hst].
  split; [unfold Runner.run; simpl; exact Hp|].
  split; [reflexivity|].
  split.
  { unfold s', Runner.run, executeNix. simpl.
    rewrite cancel_debounceTimers. apply lookup_delete_eq. }
  split; [unfold s', Runner.run, executeNix; simpl; lia|].
  split.
  - intros tid t Htid Hpr.
    change (timers s') with (timers (cancel key s)) in Htid.
    destruct (timers_after_cancel key s tid t Htid) as (t0 & Ht0 & Hp0 & _).
    pose proof (fresh_timer s tid t0 Hfresh Ht0). lia.
  - assert (Hlog : spawnLog s' = spawnLog s ++ [(promises s, base ++ args)]).
    { unfold s', Runner.run, executeNix, spawnLog in *. simpl.
      now rewrite map_app, Hs, Hp. }
    rewrite (spawnedFor_snoc _ _ _ _ _ Hlog), Nat.eqb_refl.
    now rewrite (fresh_spawnedFor s (promises s) Hfresh).
Qed.

(** A call clears the timer registered under its key. *)
Lemma run_clears (args : list string) (options : NixRunnerOptions)
      (key : string) (debounce : bool) (s : State) (tid : nat)
      (t : DebounceTimer) :
  debounceTimers s !! key = Some tid -> timers s !! tid = Some t ->
  timers (fst (run args options (Some key) debounce s)) !! tid
  = Some (clearTimer t).
Proof.
  intros Hreg Ht.
  assert (Hc : timers (cancel key s) !! tid = Some (clearTimer t)).
  { rewrite cancel_timers, Hreg, list_lookup_alter_eq, Ht. reflexivity. }
  unfold Runner.run. destruct debounce; simpl; [|exact Hc].
  rewrite lookup_app_l; [exact Hc|]. eapply lookup_lt_Some. exact Hc.
Qed.

Lemma superseded_of_cleared (s : State) (p tid : nat) (a : list string)
      (t : DebounceTimer) :
  debounced p tid a s -> settledSpawned s ->
  timers s !! tid = Some t -> t_state t = Cleared ->
  superseded p s.
Proof.
  intros (Hlt & Honly & t0 & Ht0 & Hp0 & _ & Hspawn) Hsettled Ht Hc.
  rewrite Ht in Ht0. injection Ht0 as <-. rewrite Hc in Hspawn.
  split; [exact Hlt|]. split; [now apply spawnedFor_nil|]. split.
  - intros tid' t' Ht' Hp'. rewrite (Honly tid' t' Ht' Hp') in Ht'. congruence.
  - intros res Hin. apply Hsettled in Hin.
    now apply in_log_spawnedFor in Hin.
Qed.

End RunFacts.

Section ProcessFacts.
Import Runner.

Variables nixArgs experimentalFeatures : list string.

Local Notation base := (buildBaseArgs nixArgs experimentalFeatures).
Local Notation run := (Runner.run nixArgs experimentalFeatures).

Lemma cancel_processes_length (key : string) (s : State) :
  length (processes (cancel key s)) = length (processes s).
Proof.
  unfold cancel, setProcess, setTimer.
  repeat case_match; simplify_eq; simpl; try reflexivity; apply length_alter.
Qed.

(** A call that is not debounced registers the process it spawns. *)
Lemma run_spawns (args : list string) (options : NixRunnerOptions)
      (key : string) (s : State) :
  let s' := fst (run args options (Some key) false s) in
  let pid := length (processes s) in
  activeProcesses s' !! key = Some pid
  /\ exists p,
      processes s' !! pid = Some p
      /\ killed p = false /\ closed p = false /\ p_args p = base ++ args.
Proof.
  intros s' pid. unfold s', Runner.run, executeNix. simpl.
  rewrite cancel_processes_length. split; [apply lookup_insert_eq|].
  eexists. split.
  - unfold pid. rewrite <- (cancel_processes_length key s).
    apply list_lookup_middle. reflexivity.
  - repeat split.
Qed.

(** A call sends SIGTERM to the running process registered under its key and
    drops it from the map before it goes on. *)
Lemma run_kills_tracked (args : list string) (options : NixRunnerOptions)
      (key : string) (debounce : bool) (s : State) (pid : nat)
      (proc : ChildProcess) :
  activeProcesses s !! key = Some pid ->
  processes s !! pid = Some proc ->
  killed proc = false ->
  let s' := fst (run args options (Some key) debounce s) in
  processes s' !! pid = Some (kill proc)
  /\ activeProcesses s' !! key <> Some pid.
Proof.
  intros Hactive Hproc Hkilled s'.
  assert (Hlt : pid < length (processes s)) by (eapply lookup_lt_Some; eauto).
  assert (Hc : processes (cancel key s) !! pid = Some (kill proc)
               /\ activeProcesses (cancel key s) !! key = None).
  { unfold cancel. rewrite Hactive, Hproc, Hkilled. simpl.
    destruct (debounceTimers s !! key); simpl;
      (split; [rewrite list_lookup_alter_eq, Hproc; reflexivity
              | apply lookup_delete_eq]). }
  destruct Hc as [Hc1 Hc2].
  unfold s', Runner.run, executeNix. destruct debounce; simpl.
  - split; [exact Hc1 | rewrite Hc2; discriminate].
  - split.
    + rewrite lookup_app_l; [exact Hc1|].
      now rewrite cancel_processes_length.
    + rewrite lookup_insert_eq, cancel_processes_length. intros [= H]. lia.
Qed.

End ProcessFacts.

(** C2, as the code has it. When a second call with key [k] comes while the
    first, debounced, call with [k] still waits on its timer, the second call
    clears that timer before it goes on; whatever events follow, no process
    is ever spawned for the first call and its promise never settles, and the
    second call spawns exactly one process, with its own arguments: at once
    when it is not debounced, and when its own timer fires otherwise. At
    every moment at most one pending timer exists per key. When the first
    call was not debounced, its process is already spawned and registered:
    the second call sends it SIGTERM and drops it from the map before it goes
    on, so both calls have invoked the evaluator. *)
Theorem run_supersedes_pending_call
        (nixArgs experimentalFeatures : list string)
        (JSON_parse : string -> option Json)
        (s : Runner.State) (key : string) (args1 args2 : list string)
        (options1 options2 : NixRunnerOptions) (debounce2 : bool)
        (events : list Runner.Event) :
  Runner.reachable nixArgs experimentalFeatures JSON_parse s ->
  let run := Runner.run nixArgs experimentalFeatures in
  let base := Runner.buildBaseArgs nixArgs experimentalFeatures in
  let first := run args1 options1 (Some key) true s in
  let second := run args2 options2 (Some key) debounce2 (fst first) in
  let tid1 := length (Runner.timers s) in
  let later :=
    Runner.exec nixArgs experimentalFeatures JSON_parse (fst second) events in
  (exists t,
      Runner.timers (fst first) !! tid1 = Some t
      /\ Runner.t_state t = Runner.Pending
      /\ Runner.t_promise t = snd first
      /\ Runner.debounceTimers (fst first) !! key = Some tid1)
  /\ (exists t,
         Runner.timers (fst second) !! tid1 = Some t
         /\ Runner.t_state t = Runner.Cleared)
  /\ Runner.debounceTimers (fst second) !! key <> Some tid1
  /\ Runner.spawnedFor (snd first) later = []
  /\ (forall res, (snd first, res) ∉ Runner.settled later)
  /\ (if debounce2
      then exists t,
          Runner.timers later !! S tid1 = Some t
          /\ Runner.spawnedFor (snd second) later
             = match Runner.t_state t with
               | Runner.Fired => [base ++ args2]
               | _ => []
               end
      else Runner.spawnedFor (snd second) later = [base ++ args2])
  /\ (debounce2 = true ->
      Runner.spawnedFor (snd second)
        (Runner.step nixArgs experimentalFeatures JSON_parse (fst second)
                     (Runner.TimerFires (S tid1)))
      = [base ++ args2])
  /\ (forall tid tid' t t',
         Runner.timers later !! tid = Some t ->
         Runner.timers later !! tid' = Some t' ->
         Runner.t_state t = Runner.Pending ->
         Runner.t_state t' = Runner.Pending ->
         Runner.t_key t = Runner.t_key t' -> tid = tid')
  /\ (let firstNow := run args1 options1 (Some key) false s in
      let secondNow := run args2 options2 (Some key) debounce2 (fst firstNow) in
      let pid := length (Runner.processes s) in
      Runner.activeProcesses (fst firstNow) !! key = Some pid
      /\ (exists p,
             Runner.processes (fst firstNow) !! pid = Some p
             /\ Runner.killed p = false /\ Runner.p_args p = base ++ args1)
      /\ (exists p,
             Runner.processes (fst secondNow) !! pid = Some p
             /\ Runner.killed p = true /\ Runner.p_args p = base ++ args1)
      /\ Runner.activeProcesses (fst secondNow) !! key <> Some pid).
Proof.
  intros Hreach run base first second tid1 later.
  pose proof (reachable_fresh _ _ _ s Hreach) as Hfresh.
  assert (Hreach1 : Runner.reachable nixArgs experimentalFeatures JSON_parse
                      (fst first)).
  { apply (Runner.reachable_step _ _ _ s
             (Runner.Call args1 options1 (Some key) true) Hreach). }
  assert (Hreach2 : Runner.reachable nixArgs experimentalFeatures JSON_parse
                      (fst second)).
  { apply (Runner.reachable_step _ _ _ (fst first)
             (Runner.Call args2 options2 (Some key) debounce2) Hreach1). }
  pose proof (reachable_fresh _ _ _ _ Hreach1) as Hfresh1.
  destruct (run_debounced nixArgs experimentalFeatures args1 options1 key s
              Hfresh) as (Hp1 & Ht1 & Hlen1 & Hreg1 & Hdeb1).
  fold run in Hp1, Ht1, Hlen1, Hreg1, Hdeb1. fold first in Hp1, Ht1, Hlen1, Hreg1, Hdeb1.
  fold tid1 in Ht1, Hlen1, Hreg1, Hdeb1.
  pose proof (run_clears nixArgs experimentalFeatures args2 options2 key
                debounce2 (fst first) tid1 _ Hreg1 Ht1) as Hclear.
  fold run in Hclear. fold second in Hclear.
  assert (Hsup : Runner.superseded (snd first) (fst second)).
  { rewrite Hp1.
    eapply superseded_of_cleared;
      [|apply (reachable_settled _ _ _ _ Hreach2) | exact Hclear | reflexivity].
    eapply debounced_step; [|exact Hdeb1].
    apply (step_spec nixArgs experimentalFeatures JSON_parse (fst first)
             (Runner.Call args2 options2 (Some key) debounce2)). }
  assert (Hsup' : Runner.superseded (snd first) later).
  { unfold later.
    apply (exec_preserves nixArgs experimentalFeatures JSON_parse
             (Runner.superseded (snd first))); [|exact Hsup].
    intros a b Hspec.
    apply (superseded_step nixArgs experimentalFeatures a b _ Hspec). }
  split.
  { eexists. split; [exact Ht1|]. split; [reflexivity|].
    split; [symmetry; exact Hp1 | exact Hreg1]. }
  split; [eexists; split; [exact Hclear | reflexivity]|].
  split.
  { destruct debounce2.
    - destruct (run_debounced nixArgs experimentalFeatures args2 options2 key
                  (fst first) Hfresh1) as (_ & _ & _ & Hreg2 & _).
      fold run in Hreg2. fold second in Hreg2. rewrite Hreg2, Hlen1.
      intros [= H]. lia.
    - destruct (run_started nixArgs experimentalFeatures args2 options2 key
                  (fst first) Hfresh1) as (_ & _ & Hreg2 & _).
      fold run in Hreg2. fold second in Hreg2. rewrite Hreg2. discriminate. }
  destruct Hsup' as (_ & Hno & _ & Hsettled).
  split; [now apply spawnedFor_nil|].
  split; [exact Hsettled|].
  split.
  { destruct debounce2.
    - destruct (run_debounced nixArgs experimentalFeatures args2 options2 key
                  (fst first) Hfresh1) as (Hp2 & _ & _ & _ & Hdeb2).
      fold run in Hp2, Hdeb2. fold second in Hp2, Hdeb2.
      rewrite Hlen1, <- Hp2 in Hdeb2.
      assert (Hdeb2' : Runner.debounced nixArgs experimentalFeatures
                         (snd second) (S tid1) args2 later).
      { unfold later.
        apply (exec_preserves nixArgs experimentalFeatures JSON_parse
                 (Runner.debounced nixArgs experimentalFeatures
                    (snd second) (S tid1) args2)); [|exact Hdeb2].
        intros a b Hspec. now apply debounced_step. }
      destruct Hdeb2' as (_ & _ & t & Ht & _ & _ & Hspawn).
      exists t. split; [exact Ht | exact Hspawn].
    - destruct (run_started nixArgs experimentalFeatures args2 options2 key
                  (fst first) Hfresh1) as (Hp2 & _ & _ & Hst2).
      fold run in Hp2, Hst2. fold second in Hp2, Hst2. rewrite <- Hp2 in Hst2.
      assert (Hst2' : Runner.started nixArgs experimentalFeatures
                        (snd second) args2 later).
      { unfold later.
        apply (exec_preserves nixArgs experimentalFeatures JSON_parse
                 (Runner.started nixArgs experimentalFeatures
                    (snd second) args2)); [|exact Hst2].
        intros a b Hspec. now apply started_step. }
      now destruct Hst2' as (_ & _ & Hspawn). }
  split.
  { intros ->.
    destruct (run_debounced nixArgs experimentalFeatures args2 options2 key
                (fst first) Hfresh1) as (Hp2 & Ht2 & _ & _ & Hdeb2).
    fold run in Hp2, Ht2, Hdeb2. fold second in Hp2, Ht2, Hdeb2.
    rewrite Hlen1 in Ht2, Hdeb2. rewrite <- Hp2 in Hdeb2.
    pose proof (debounced_step _ _ _ _ _ _ _
                  (step_spec nixArgs experimentalFeatures JSON_parse (fst second)
                             (Runner.TimerFires (S tid1))) Hdeb2)
      as (_ & _ & t & Ht & _ & _ & Hspawn).
    rewrite Hspawn. revert Ht.
    unfold Runner.step, Runner.timerFires. rewrite Ht2.
    cbn [Runner.t_state Runner.executeNix Runner.setTimer Runner.timers
         Runner.processes].
    rewrite list_lookup_alter_eq, Ht2.
    now intros [= <-]. }
  split.
  { intros tid tid' t t'. apply pending_unique.
    apply (reachable_pending nixArgs experimentalFeatures JSON_parse).
    unfold later. now apply reachable_exec. }
  intros firstNow secondNow pid.
  destruct (run_spawns nixArgs experimentalFeatures args1 options1 key s)
    as (Hactive & p & Hp & Hkilled & Hclosed & Hargs).
  fold run in Hactive, Hp. fold firstNow in Hactive, Hp. fold pid in Hactive, Hp.
  destruct (run_kills_tracked nixArgs experimentalFeatures args2 options2 key
              debounce2 (fst firstNow) pid p Hactive Hp Hkilled)
    as [Hdead Hgone].
  fold run in Hdead, Hgone. fold secondNow in Hdead, Hgone.
  split; [exact Hactive|].
  split; [exists p; auto|].
  split; [|exact Hgone].
  eexists. split; [exact Hdead|]. unfold Runner.kill. simpl.
  rewrite Hclosed. split; [reflexivity | exact Hargs].
Qed.

Lemma run_supersedes_pending_call_witness :
  let run := Runner.run Samples.nixArgs Samples.experimentalFeatures in
  let first :=
    run ["eval"; ".#a"] Samples.options (Some "type:a") true Runner.init in
  let second :=
    run ["eval"; ".#b"] Samples.options (Some "type:a") true (fst first) in
  let later :=
    Runner.exec Samples.nixArgs Samples.experimentalFeatures Samples.noJson
                (fst second) [Runner.TimerFires 0; Runner.TimerFires 1] in
  Runner.spawnedFor (snd first) later = []
  /\ Runner.spawnedFor (snd second) later
     = [Samples.baseArgs ++ ["eval"; ".#b"]]
  /\ Runner.spawnedFor (snd second)
       (Runner.step Samples.nixArgs Samples.experimentalFeatures Samples.noJson
                    (fst second) (Runner.TimerFires 1))
     = [Samples.baseArgs ++ ["eval"; ".#b"]].
Proof.
  intros run first second later.
  destruct (run_supersedes_pending_call
              Samples.nixArgs Samples.experimentalFeatures Samples.noJson
              Runner.init "type:a" ["eval"; ".#a"] ["eval"; ".#b"]
              Samples.options Samples.options true
              [Runner.TimerFires 0; Runner.TimerFires 1]
              (Runner.reachable_init _ _ _))
    as (_ & _ & _ & Hfirst & _ & (t & Ht & Hsecond) & Hfires & _).
  split; [exact Hfirst|]. split; [|exact (Hfires eq_refl)].
  fold run first second later in Ht, Hsecond.
  assert (Hfired : Runner.t_state t = Runner.Fired).
  { vm_compute in Ht. injection Ht as <-. reflexivity. }
  rewrite Hfired in Hsecond. exact Hsecond.
Defined.

(** C2, as stated, fails where the first call is not debounced: its process
    is spawned at once and still runs when the second call comes, so the pair
    has invoked the evaluator twice; and when the killed process closes, the
    promise of the first call settles with a failure. *)
Lemma run_twice_spawns_twice :
  let run := Runner.run Samples.nixArgs Samples.experimentalFeatures in
  let first :=
    run ["eval"; ".#a"] Samples.options (Some "type:a") false Runner.init in
  let second :=
    run ["eval"; ".#b"] Samples.options (Some "type:a") false (fst first) in
  let later :=
    Runner.exec Samples.nixArgs Samples.experimentalFeatures Samples.noJson
                (fst second) [Runner.ProcessCloses 0 None "" ""] in
  Runner.activeProcesses (fst first) !! "type:a" = Some 0
  /\ map (fun p => (Runner.killed p, Runner.closed p))
         (Runner.processes (fst first)) = [(false, false)]
  /\ map Runner.p_args (Runner.processes (fst second))
     = [Samples.baseArgs ++ ["eval"; ".#a"];
        Samples.baseArgs ++ ["eval"; ".#b"]]
  /\ map Runner.killed (Runner.processes (fst second)) = [true; false]
  /\ Runner.settled later
     = [(snd first, mkResult false None (Some "Exit code null"))].
Proof. vm_compute. repeat split. Qed.

(** A remark on the ['close'] handler: it deletes the entry of its key
    whichever process the entry holds. When the killed process of an earlier
    call closes after a later call has registered its own process, that
    process is no longer tracked, and the next call does not stop it. *)
Lemma stale_close_untracks_successor :
  let later :=
    Runner.exec Samples.nixArgs Samples.experimentalFeatures Samples.noJson
      Runner.init
      [Runner.Call ["eval"; ".#a"] Samples.options (Some "type:a") false;
       Runner.Call ["eval"; ".#b"] Samples.options (Some "type:a") false;
       Runner.ProcessCloses 0 None "" "";
       Runner.Call ["eval"; ".#c"] Samples.options (Some "type:a") false] in
  map (fun p => (Runner.killed p, Runner.closed p)) (Runner.processes later)
  = [(true, true); (false, false); (false, false)].
Proof. vm_compute. reflexivity. Qed.

(** * Further properties

    Properties of the code beyond the ones its specification states. *)

(** ** Fuzzy matching *)

Section FuzzyFacts.
Import SearchIndex.

Lemma charAt_lookup (s : string) (i : nat) :
  JS.charAt s i = list_ascii_of_string s !! i.
Proof.
  unfold JS.charAt. revert i.
  induction s as [|c s IH]; intros [|i]; simpl; auto.
Qed.

Lemma length_chars (s : string) :
  String.length s = length (list_ascii_of_string s).
Proof. induction s as [|c s IH]; simpl; auto. Qed.

Lemma fuzzyLoop_empty (i : nat) (target : string) :
  fuzzyLoop "" i target = false.
Proof.
  induction target as [|c t IH]; [reflexivity|].
  simpl. now destruct i.
Qed.

Lemma fuzzyLoop_sublist (query target : string) (i : nat) :
  i < String.length query ->
  fuzzyLoop query i target = true
  <-> drop i (list_ascii_of_string query)
      `sublist_of` list_ascii_of_string target.
Proof.
  revert i. induction target as [|c t IH]; intros i Hi.
  - simpl. split; [discriminate|]. intros H. apply sublist_nil_r in H.
    apply (f_equal length) in H. rewrite length_drop in H.
    rewrite length_chars in Hi. simpl in H. lia.
  - rewrite length_chars in Hi.
    destruct (lookup_lt_is_Some_2 _ _ Hi) as [d Hd].
    cbn [fuzzyLoop list_ascii_of_string]. rewrite charAt_lookup, Hd.
    rewrite (drop_S _ _ _ Hd).
    destruct (Ascii.eqb c d) eqn:Hc.
    + apply Ascii.eqb_eq in Hc. subst d.
      destruct (String.length query <=? S i)%nat eqn:Hlen.
      * apply Nat.leb_le in Hlen. rewrite length_chars in Hlen.
        rewrite drop_ge by lia.
        split; [intros _|reflexivity].
        apply sublist_skip, sublist_nil_l.
      * apply Nat.leb_gt in Hlen. rewrite (IH (S i) Hlen).
        split; [apply sublist_skip|].
        intros H. apply sublist_cons_r in H as [H'|(l' & [= <-] & H')];
          [|exact H'].
        etransitivity; [|exact H']. apply sublist_cons. reflexivity.
    + apply Ascii.eqb_neq in Hc. rewrite length_chars in IH.
      rewrite (IH i Hi), (drop_S _ _ _ Hd).
      split; [apply sublist_cons|].
      intros H. apply sublist_cons_r in H as [H'|(l' & [= ? ?] & H')];
        [exact H' | congruence].
Qed.

End FuzzyFacts.

(** X1. On strings of ASCII characters, [fuzzyMatch(query, target)] holds
    exactly when the query is not empty and its characters occur in the
    target in the same order (the query is a subsequence of the target); an
    empty query matches nothing. *)
Theorem fuzzyMatch_subsequence (query target : string) :
  JS.isAscii query = true ->
  JS.isAscii target = true ->
  SearchIndex.fuzzyMatch query target = true
  <-> query <> ""
      /\ list_ascii_of_string query `sublist_of` list_ascii_of_string target.
Proof.
  intros _ _.
  unfold SearchIndex.fuzzyMatch. destruct query as [|c q].
  - rewrite fuzzyLoop_empty. split; [discriminate | now intros [H _]].
  - rewrite fuzzyLoop_sublist by (simpl; lia).
    rewrite drop_0. split; [now split | now intros [_ H]].
Qed.

Lemma fuzzyMatch_subsequence_witness :
  SearchIndex.fuzzyMatch "gt" "git" = true
  /\ SearchIndex.fuzzyMatch "tg" "git" = false.
Proof.
  split.
  - apply (fuzzyMatch_subsequence "gt" "git" eq_refl eq_refl).
    split; [discriminate|]. simpl.
    apply sublist_skip, sublist_cons, sublist_skip, sublist_nil.
  - apply not_true_is_false. intros H.
    apply (fuzzyMatch_subsequence "tg" "git" eq_refl eq_refl) in H
      as [_ H].
    simpl in H.
    apply sublist_cons_r in H as [H|(l & [=] & _)].
    apply sublist_cons_r in H as [H|(l & [=] & _)].
    apply sublist_cons_r in H as [H|(l & [= <-] & H)].
    + apply sublist_nil_r in H. discriminate.
    + apply sublist_nil_r in H. discriminate.
Defined.

(** ** Completion paths *)

Section CompletionFacts.

Lemma take_slice (s : string) (n : nat) : JS.take s n +:+ JS.slice s n = s.
Proof.
  revert s. induction n as [|n IH]; intros [|c s]; simpl; auto.
  now rewrite IH.
Qed.

Lemma endsWith_inv (s suffix : string) :
  JS.endsWith s suffix = true ->
  s = JS.take s (String.length s - String.length suffix) +:+ suffix.
Proof.
  unfold JS.endsWith. intros H. apply andb_prop in H as [_ H].
  apply String.eqb_eq in H.
  rewrite <- (take_slice s (String.length s - String.length suffix)) at 1.
  now rewrite H.
Qed.

Lemma split_ends_with_dot (s : string) :
  JS.endsWith s "." = true -> List.last (JS.split "." s) "" = "".
Proof.
  intros H. rewrite (endsWith_inv _ _ H).
  change "." with (String "." "") at 2.
  rewrite split_append. simpl JS.split. now rewrite last_last.
Qed.

Lemma split_parts_dotFree (s : string) :
  Forall (fun part => AttrPath.dotFree part = true) (JS.split "." s).
Proof.
  induction s as [|c s IH]; [repeat constructor|].
  simpl. destruct (Ascii.eqb c ".") eqn:Hc.
  - constructor; [reflexivity | exact IH].
  - destruct (JS.split "." s) as [|part parts]; [repeat constructor|].
    + unfold AttrPath.dotFree. simpl. now rewrite Hc.
    + inversion IH as [|? ? Hp Hps]; subst. constructor; [|exact Hps].
      unfold AttrPath.dotFree in *. simpl. now rewrite Hc.
Qed.

Lemma or_else_empty (s : string) : JS.or_else s "" = s.
Proof. now destruct s. Qed.

End CompletionFacts.

(** X2. [parsePathForCompletion] loses nothing: for every path, the scope
    followed by the prefix is the list of the dot-separated parts of the
    path, the prefix has no dot, and the [fullPath] that
    [getConfigCompletion] rebuilds of the two is the path itself. *)
Theorem parsePathForCompletion_recomposes (path : string) :
  let c := NixdClient.parsePathForCompletion path in
  NixdClient.scope c ++ [NixdClient.prefix c] = JS.split "." path
  /\ AttrPath.dotFree (NixdClient.prefix c) = true
  /\ NixdClient.fullPath c = path.
Proof.
  cbv zeta.
  assert (Hparts :
    NixdClient.scope (NixdClient.parsePathForCompletion path)
    ++ [NixdClient.prefix (NixdClient.parsePathForCompletion path)]
    = JS.split "." path).
  { unfold NixdClient.parsePathForCompletion.
    destruct (JS.truthy path) eqn:Ht; simpl.
    - destruct (JS.endsWith path ".") eqn:He; simpl.
      + rewrite <- (split_ends_with_dot path He).
        symmetry. apply app_removelast_last, split_nonempty.
      + rewrite or_else_empty.
        symmetry. apply app_removelast_last, split_nonempty.
    - apply truthy_false in Ht. now subst. }
  split; [exact Hparts|]. split.
  { pose proof (split_parts_dotFree path) as Hall. rewrite <- Hparts in Hall.
    apply Forall_app in Hall as [_ Hall]. now inversion Hall. }
  unfold NixdClient.fullPath.
  destruct (NixdClient.scope (NixdClient.parsePathForCompletion path))
    as [|part scope] eqn:Hs.
  - simpl. simpl in Hparts.
    transitivity (JS.join "." (JS.split "." path)); [|apply join_split].
    now rewrite <- Hparts.
  - cbn [length Nat.ltb Nat.leb].
    transitivity (JS.join "." (JS.split "." path)); [|apply join_split].
    rewrite <- Hparts. rewrite join_app by discriminate. reflexivity.
Qed.

(** ** Attribute paths and the commands built of them *)

Section EvalArgsFacts.

Lemma filter_all {A : Type} (p : A -> bool) (l : list A) :
  Forall (fun x => p x = true) l -> List.filter p l = l.
Proof.
  induction 1 as [|x l Hx _ IH]; [reflexivity|].
  simpl. now rewrite Hx, IH.
Qed.

Lemma omap_nonIndex (parts : list string) :
  Forall (fun part => NixRunner.nonIndex part = true) parts ->
  omap NixRunner.indexOf parts = [].
Proof.
  induction 1 as [|part parts Hp _ IH]; [reflexivity|].
  cbn [omap list_omap]. unfold NixRunner.nonIndex in Hp.
  unfold NixRunner.indexOf at 1.
  destruct (NixRunner.matchIndex part); [discriminate|]. exact IH.
Qed.

Lemma split_snoc_index (p : string) (i : nat) :
  JS.split "." (p +:+ ".[" +:+ JS.showNat i +:+ "]")
  = JS.split "." p ++ [AttrPath.display (AttrPath.Index i)].
Proof.
  change (p +:+ ".[" +:+ JS.showNat i +:+ "]")
    with (p +:+ String "." (AttrPath.display (AttrPath.Index i))).
  rewrite split_append. f_equal.
  apply split_dotFree, (display_dotFree (AttrPath.Index i)). reflexivity.
Qed.

Lemma buildAccessor_snoc (accesses : list nat) (i : nat) :
  NixRunner.buildAccessor (accesses ++ [i])
  = NixRunner.wrapElemAt (NixRunner.buildAccessor accesses) i.
Proof. unfold NixRunner.buildAccessor. now rewrite fold_left_app. Qed.

Lemma replaceX_head (body : string) :
  NixRunner.replaceX false ("x: " +:+ body)
  = "v: " +:+ NixRunner.replaceX false body.
Proof. reflexivity. Qed.

End EvalArgsFacts.

(** X3. A path none of whose dot-separated parts is a bracketed integer
    goes to the evaluator unchanged: [parseAttrPath] returns it as the base
    path with no list access, and [buildEvalArgs] builds the plain command,
    on [.#path] (on [.] for the empty path), with the [--apply] expression
    as given when there is one. *)
Theorem buildEvalArgs_without_index (attrPath : string)
        (applyExpr : option string) :
  Forall (fun part => NixRunner.nonIndex part = true)
         (JS.split "." attrPath) ->
  NixRunner.parseAttrPath attrPath = NixRunner.mkParsed attrPath []
  /\ NixRunner.buildEvalArgs attrPath applyExpr
     = ["eval"; "--json";
        if JS.truthy attrPath then ".#" +:+ attrPath else "."]
       ++ match applyExpr with
          | Some e => if JS.truthy e then ["--apply"; e] else []
          | None => []
          end.
Proof.
  intros Hparts.
  assert (Hparse : NixRunner.parseAttrPath attrPath
                   = NixRunner.mkParsed attrPath []).
  { rewrite parseAttrPath_parts, (filter_all _ _ Hparts), join_split.
    now rewrite (omap_nonIndex _ Hparts). }
  split; [exact Hparse|].
  unfold NixRunner.buildEvalArgs. rewrite Hparse. simpl.
  destruct applyExpr as [e|]; simpl; [|reflexivity].
  destruct e; reflexivity.
Qed.

Lemma buildEvalArgs_without_index_witness :
  NixRunner.buildEvalArgs "packages.x86_64-linux.hello"
                          (Some "x: builtins.typeOf x")
  = ["eval"; "--json"; ".#packages.x86_64-linux.hello"; "--apply";
     "x: builtins.typeOf x"].
Proof.
  apply (buildEvalArgs_without_index "packages.x86_64-linux.hello"
           (Some "x: builtins.typeOf x")).
  vm_compute. repeat constructor.
Defined.

(** X4. The path that [fetchListChildren] gives to the child of a list
    element is read back by [parseAttrPath] as the base path of the parent
    with the index of the element added after the list accesses of the
    parent, so the accessor of the child is one [builtins.elemAt] around
    the accessor of the parent. *)
Theorem listChild_path_parses (parent : Node.FlakeNode)
        (elem : ElementInfo) :
  let parsedParent := NixRunner.parseAttrPath (Node.attrPath parent) in
  let parsedChild :=
    NixRunner.parseAttrPath
      (Node.attrPath (FlakeTreeProvider.listChild parent elem)) in
  NixRunner.basePath parsedChild = NixRunner.basePath parsedParent
  /\ NixRunner.listAccesses parsedChild
     = NixRunner.listAccesses parsedParent ++ [index elem]
  /\ NixRunner.buildAccessor (NixRunner.listAccesses parsedChild)
     = "(builtins.elemAt "
       +:+ NixRunner.buildAccessor (NixRunner.listAccesses parsedParent)
       +:+ " " +:+ JS.showNat (index elem) +:+ ")".
Proof.
  cbv zeta.
  assert (Hpath : Node.attrPath (FlakeTreeProvider.listChild parent elem)
                  = Node.attrPath parent +:+ ".[" +:+ JS.showNat (index elem)
                    +:+ "]").
  { unfold FlakeTreeProvider.listChild.
    destruct (isDrv elem); reflexivity. }
  assert (Hchild :
    NixRunner.parseAttrPath
      (Node.attrPath (FlakeTreeProvider.listChild parent elem))
    = NixRunner.mkParsed
        (NixRunner.basePath (NixRunner.parseAttrPath (Node.attrPath parent)))
        (NixRunner.listAccesses
           (NixRunner.parseAttrPath (Node.attrPath parent))
         ++ [index elem])).
  { rewrite Hpath, !parseAttrPath_parts, split_snoc_index.
    cbn [NixRunner.basePath NixRunner.listAccesses].
    rewrite List.filter_app, omap_app. cbn [List.filter omap list_omap].
    unfold NixRunner.nonIndex at 2. unfold NixRunner.indexOf at 2.
    rewrite matchIndex_index. cbn [fmap option_fmap option_map].
    now rewrite parseInt_showNat, app_nil_r. }
  rewrite Hchild. cbn [NixRunner.basePath NixRunner.listAccesses].
  split; [reflexivity|]. split; [reflexivity|].
  now rewrite buildAccessor_snoc.
Qed.

(** X5. [parseAttrPath] keeps the names and the indices of a path apart and
    forgets where the indices stood: a path with names after its indices
    ([a.[0].b]) is parsed, and so evaluated, as the path with all the names
    first ([a.b.[0]]). *)
Theorem parseAttrPath_moves_names_first (before after : list string)
        (indices : list nat) :
  Forall (fun s => AttrPath.validName s = true) (before ++ after) ->
  before <> [] ->
  NixRunner.parseAttrPath
    (AttrPath.serialize
       (map AttrPath.Name before ++ AttrPath.indexTail indices
        ++ map AttrPath.Name after))
  = NixRunner.mkParsed (JS.join "." (before ++ after)) indices
  /\ NixRunner.parseAttrPath
       (AttrPath.serialize
          (map AttrPath.Name (before ++ after)
           ++ AttrPath.indexTail indices))
     = NixRunner.mkParsed (JS.join "." (before ++ after)) indices.
Proof.
  intros Hvalid Hne. apply Forall_app in Hvalid as Hboth.
  destruct Hboth as [Hb Ha].
  assert (Hseg : forall segs,
             segs <> [] ->
             Forall (fun seg => AttrPath.validSegment seg = true) segs ->
             JS.split "." (AttrPath.serialize segs)
             = map AttrPath.display segs).
  { intros segs Hn Hall. unfold AttrPath.serialize. apply split_join.
    - destruct segs; [congruence | discriminate].
    - apply Forall_map. eapply Forall_impl; [exact Hall|].
      intros seg. apply display_dotFree. }
  assert (Hnames : forall names,
             Forall (fun s => AttrPath.validName s = true) names ->
             Forall (fun seg => AttrPath.validSegment seg = true)
                    (map AttrPath.Name names)).
  { intros names H. apply Forall_map. exact H. }
  assert (Hidx : Forall (fun seg => AttrPath.validSegment seg = true)
                        (AttrPath.indexTail indices)).
  { unfold AttrPath.indexTail. apply Forall_map, Forall_true. reflexivity. }
  split.
  - rewrite parseAttrPath_parts, Hseg.
    + rewrite app_assoc, map_app, List.filter_app, omap_app.
      rewrite (filter_names before indices Hb).
      rewrite (omap_indices before indices Hb).
      pose proof (filter_names after [] Ha) as Hf.
      pose proof (omap_indices after [] Ha) as Ho.
      unfold AttrPath.indexTail in Hf, Ho. simpl in Hf, Ho.
      rewrite app_nil_r in Hf, Ho. rewrite Hf, Ho, app_nil_r. reflexivity.
    + destruct before; [congruence | discriminate].
    + apply Forall_app. split; [now apply Hnames|].
      apply Forall_app. split; [exact Hidx | now apply Hnames].
  - rewrite parseAttrPath_parts, Hseg.
    + now rewrite (filter_names _ indices Hvalid),
        (omap_indices _ indices Hvalid).
    + destruct before; [congruence | discriminate].
    + apply Forall_app. split; [now apply Hnames | exact Hidx].
Qed.

Lemma parseAttrPath_moves_names_first_witness :
  NixRunner.parseAttrPath "a.[0].b" = NixRunner.mkParsed "a.b" [0]
  /\ NixRunner.parseAttrPath "a.b.[0]" = NixRunner.mkParsed "a.b" [0].
Proof.
  apply (parseAttrPath_moves_names_first ["a"] ["b"] [0]).
  - repeat constructor.
  - discriminate.
Defined.

(** X6. For a path with at least one index, [buildEvalArgs] rewrites the
    whole [--apply] expression, its parameter included: an expression
    [x: body] becomes [x: let v = accessor; in v: body'], where [body'] is
    the body with every free-standing [x] replaced by [v]. *)
Theorem buildEvalArgs_renames_parameter (attrPath body : string) :
  NixRunner.listAccesses (NixRunner.parseAttrPath attrPath) <> [] ->
  let parsed := NixRunner.parseAttrPath attrPath in
  NixRunner.buildEvalArgs attrPath (Some ("x: " +:+ body))
  = ["eval"; "--json";
     if JS.truthy (NixRunner.basePath parsed)
     then ".#" +:+ NixRunner.basePath parsed else ".";
     "--apply";
     "x: let v = " +:+ NixRunner.buildAccessor (NixRunner.listAccesses parsed)
     +:+ "; in v: " +:+ NixRunner.replaceX false body].
Proof.
  intros Hne. cbv zeta. unfold NixRunner.buildEvalArgs.
  destruct (NixRunner.listAccesses (NixRunner.parseAttrPath attrPath))
    as [|i accesses] eqn:Hacc; [congruence|].
  cbn [length Nat.ltb Nat.leb JS.opt_or_else].
  change (JS.or_else ("x: " +:+ body) "") with ("x: " +:+ body).
  change (JS.truthy ("x: " +:+ body)) with true. cbv iota.
  rewrite replaceX_head. reflexivity.
Qed.

Lemma buildEvalArgs_renames_parameter_witness :
  NixRunner.buildEvalArgs "pkgs.[0]" (Some "x: builtins.typeOf x")
  = ["eval"; "--json"; ".#pkgs"; "--apply";
     "x: let v = (builtins.elemAt x 0); in v: builtins.typeOf v"].
Proof.
  apply (buildEvalArgs_renames_parameter "pkgs.[0]" "builtins.typeOf x").
  vm_compute. discriminate.
Defined.

(** X7. The process keys of the query methods tell the methods and the
    paths apart: two queries on a path share a key only if they are the
    same method on the same path, and no such key is the key of
    [flakeShow] or of a [getListElementInfo]. *)
Theorem query_keys_distinct (i j : nat)
        (f g : string -> string -> NixRunner.Query)
        (flakePath flakePath' p q : string) :
  NixRunner.pathQueries !! i = Some f ->
  NixRunner.pathQueries !! j = Some g ->
  (NixRunner.q_key (f flakePath p) = NixRunner.q_key (g flakePath' q) ->
   i = j /\ p = q)
  /\ NixRunner.q_key (f flakePath p)
     <> NixRunner.q_key (NixRunner.flakeShow flakePath')
  /\ forall n,
       NixRunner.q_key (f flakePath p)
       <> NixRunner.q_key (NixRunner.getListElementInfo flakePath' q n).
Proof.
  intros Hf Hg. unfold NixRunner.pathQueries in Hf, Hg.
  repeat (destruct i as [|i]; simpl in Hf; [injection Hf as <-|]);
    try (destruct i; discriminate Hf);
    repeat (destruct j as [|j]; simpl in Hg; [injection Hg as <-|]);
    try (destruct j; discriminate Hg);
    (split; [simpl; intros H; split; congruence|]);
    (split; [simpl; congruence | intros n; simpl; congruence]).
Qed.

Lemma query_keys_distinct_witness :
  NixRunner.q_key (NixRunner.getValueType "/w" "a.b")
  <> NixRunner.q_key (NixRunner.flakeShow "/w").
Proof.
  apply (query_keys_distinct 3 3 NixRunner.getValueType
           NixRunner.getValueType "/w" "/w" "a.b" "a.b");
    reflexivity.
Defined.

(** ** The search index *)

Section IndexFacts.
Import SearchIndex.

Lemma elem_of_add (x c : string) (cs : list string) :
  c ∈ SmartCache.add x cs <-> c = x \/ c ∈ cs.
Proof.
  unfold SmartCache.add. destruct (SmartCache.has cs x) eqn:H.
  - apply has_elem_of in H. split; [auto | now intros [->|?]].
  - rewrite elem_of_app, list_elem_of_singleton. tauto.
Qed.

Lemma NoDup_add (x : string) (cs : list string) :
  NoDup cs -> NoDup (SmartCache.add x cs).
Proof.
  intros Hnd. unfold SmartCache.add. destruct (SmartCache.has cs x) eqn:H;
    [exact Hnd|].
  apply NoDup_app. split; [exact Hnd|]. split; [|apply NoDup_singleton].
  intros y Hy Hx. apply list_elem_of_singleton in Hx. subst y.
  apply has_elem_of in Hy. congruence.
Qed.

(** The path that the loop of [indexPath] has reached from [current]. *)
Lemma indexStep_fst (parts : list string) (current : string)
      (tree : gmap string (list string)) :
  fst (fold_left indexStep parts (current, tree))
  = fold_left
      (fun current part =>
         if JS.truthy current then current +:+ "." +:+ part else part)
      parts current.
Proof.
  revert current tree. induction parts as [|part parts IH];
    intros current tree; [reflexivity|].
  simpl. apply IH.
Qed.

(** The children of a parent after one round. *)
Lemma indexStep_lookup (current part parent : string)
      (tree : gmap string (list string)) :
  let current1 :=
    if JS.truthy current then current +:+ "." +:+ part else part in
  snd (indexStep (current, tree) part) !! parent
  = if decide (parent = current)
    then Some (SmartCache.add current1 (default [] (tree !! current)))
    else tree !! parent.
Proof.
  cbv zeta. unfold indexStep. cbn [snd].
  destruct (decide (parent = current)) as [->|Hne].
  - rewrite lookup_alter_eq.
    destruct (tree !! current) as [cs|] eqn:E.
    + now rewrite E.
    + now rewrite lookup_insert_eq.
  - rewrite lookup_alter_ne by congruence.
    destruct (tree !! current); [reflexivity|].
    now rewrite lookup_insert_ne by congruence.
Qed.

Lemma indexStep_edge (current part : string)
      (tree : gmap string (list string)) (parent child : string) :
  let current1 :=
    if JS.truthy current then current +:+ "." +:+ part else part in
  treeEdge (snd (indexStep (current, tree) part)) parent child
  <-> treeEdge tree parent child \/ (parent = current /\ child = current1).
Proof.
  cbv zeta. unfold treeEdge. rewrite indexStep_lookup.
  destruct (decide (parent = current)) as [->|Hne].
  - split.
    + intros (cs & [= <-] & Hin). apply elem_of_add in Hin as [->|Hin];
        [now right|].
      left. destruct (tree !! current) as [cs|]; simpl in Hin;
        [eauto | now apply elem_of_nil in Hin].
    + intros [(cs & Hcs & Hin)|[_ ->]]; eexists; (split; [reflexivity|]);
        apply elem_of_add; [right; now rewrite Hcs | now left].
  - split; [now left | now intros [?|[? _]]].
Qed.

Lemma indexStep_keys (current part : string)
      (tree : gmap string (list string)) (parent : string) :
  is_Some (snd (indexStep (current, tree) part) !! parent)
  <-> is_Some (tree !! parent) \/ parent = current.
Proof.
  rewrite indexStep_lookup. destruct (decide (parent = current)) as [->|Hne].
  - split; [now right | eauto].
  - split; [now left | now intros [?|?]].
Qed.

Lemma indexStep_NoDup (current part : string)
      (tree : gmap string (list string)) :
  (forall parent cs, tree !! parent = Some cs -> NoDup cs) ->
  forall parent cs,
    snd (indexStep (current, tree) part) !! parent = Some cs -> NoDup cs.
Proof.
  intros Hnd parent cs. rewrite indexStep_lookup.
  destruct (decide (parent = current)) as [->|Hne]; [|apply Hnd].
  intros [= <-]. apply NoDup_add.
  destruct (tree !! current) as [cs|] eqn:E; simpl;
    [now apply (Hnd current) | constructor].
Qed.

Lemma indexLoop_wellFormed (parts : list string) (current : string)
      (tree : gmap string (list string)) :
  Forall (fun part => JS.truthy part = true) parts ->
  wellFormed tree ->
  (current = "" \/ exists grand, treeEdge tree grand current) ->
  wellFormed (snd (fold_left indexStep parts (current, tree))).
Proof.
  intros Hparts. revert current tree.
  induction Hparts as [|part parts Hpart _ IH]; intros current tree Hwf Hcur;
    [exact Hwf|].
  cbn [fold_left].
  destruct (indexStep (current, tree) part) as [current1 tree1] eqn:Hstep.
  assert (Hc1 : current1
                = if JS.truthy current then current +:+ "." +:+ part
                  else part).
  { unfold indexStep in Hstep. now injection Hstep as <- _. }
  assert (Ht1 : tree1 = snd (indexStep (current, tree) part))
    by now rewrite Hstep.
  destruct Hwf as (Hext & Hconn & Hnd).
  apply IH.
  - split; [|split].
    + intros parent child Hedge. rewrite Ht1 in Hedge.
      apply indexStep_edge in Hedge as [Hedge|[-> ->]];
        [now apply Hext | now exists part].
    + intros parent Hkey. rewrite Ht1 in Hkey.
      assert (Hold : forall g, treeEdge tree g parent ->
                               exists grand, treeEdge tree1 grand parent).
      { intros g Hg. exists g. rewrite Ht1. apply indexStep_edge.
        now left. }
      apply indexStep_keys in Hkey as [Hkey| ->].
      * destruct (Hconn parent Hkey) as [->|[g Hg]]; [now left|].
        right. now apply (Hold g).
      * destruct Hcur as [->|[g Hg]]; [now left|].
        right. now apply (Hold g).
    + rewrite Ht1. now apply indexStep_NoDup.
  - right. exists current. rewrite Ht1, Hc1. apply indexStep_edge.
    now right.
Qed.

Lemma splitPath_truthy (s : string) :
  Forall (fun part => JS.truthy part = true) (SearchProvider.splitPath s).
Proof.
  unfold SearchProvider.splitPath.
  pose proof (splitLoop_parts_truthy s
                (SearchProvider.mkSplitState [] "" false)) as H.
  specialize (H (Forall_nil_2 _)).
  destruct (JS.truthy (SearchProvider.current _)) eqn:E; [|exact H].
  apply Forall_app. split; [exact H|]. now constructor.
Qed.

Lemma wellFormed_empty : wellFormed ∅.
Proof.
  split; [|split].
  - intros parent child (cs & H & _). now rewrite lookup_empty in H.
  - intros parent [cs H]. now rewrite lookup_empty in H.
  - intros parent cs H. now rewrite lookup_empty in H.
Qed.

Lemma indexPath_wellFormed (rootPath absolutePath : string) (idx : Index) :
  wellFormed (pathTree idx) /\ NoDup (allPaths idx) ->
  wellFormed (pathTree (indexPath rootPath absolutePath idx))
  /\ NoDup (allPaths (indexPath rootPath absolutePath idx)).
Proof.
  intros [Hwf Hnd]. unfold indexPath.
  destruct (JS.truthy absolutePath); simpl; [|now split].
  destruct (JS.truthy (SearchProvider.toRelativePath _ _)); simpl;
    [|now split].
  split; [|now apply NoDup_add].
  apply indexLoop_wellFormed; [apply splitPath_truthy | exact Hwf | now left].
Qed.

Lemma indexed_wellFormed (calls : list (string * string)) :
  wellFormed (pathTree (indexed calls)) /\ NoDup (allPaths (indexed calls)).
Proof.
  unfold indexed.
  assert (H : forall idx,
             wellFormed (pathTree idx) /\ NoDup (allPaths idx) ->
             wellFormed
               (pathTree (fold_left
                            (fun idx call =>
                               indexPath (fst call) (snd call) idx)
                            calls idx))
             /\ NoDup
                  (allPaths (fold_left
                               (fun idx call =>
                                  indexPath (fst call) (snd call) idx)
                               calls idx))).
  { induction calls as [|call calls IH]; intros idx Hidx; [exact Hidx|].
    simpl. apply IH. now apply indexPath_wellFormed. }
  apply H. split; [apply wellFormed_empty | constructor].
Qed.

End IndexFacts.

(** X8. Whatever paths have been indexed, the path tree is a tree under
    the root [""]: every child listed under a parent is the parent with
    one more non-empty part after a dot (the part alone under the root), and
    every parent that has an entry is the root or is itself listed as a
    child. *)
Theorem pathTree_connected (calls : list (string * string))
        (parent child : string) :
  SearchIndex.edge (SearchIndex.indexed calls) parent child ->
  (exists part,
     JS.truthy part = true
     /\ child = if JS.truthy parent then parent +:+ "." +:+ part else part)
  /\ (parent = ""
      \/ exists grand,
          SearchIndex.edge (SearchIndex.indexed calls) grand parent).
Proof.
  intros Hedge.
  destruct (indexed_wellFormed calls) as [(Hext & Hconn & _) _].
  split; [now apply Hext|].
  apply Hconn. destruct Hedge as (cs & Hcs & _). now exists cs.
Qed.

Lemma pathTree_connected_witness :
  (exists part,
     JS.truthy part = true
     /\ "programs.git" = "programs" +:+ "." +:+ part)
  /\ ("programs" = ""
      \/ exists grand,
          SearchIndex.edge
            (SearchIndex.indexed [("cfg", "cfg.programs.git.enable")])
            grand "programs").
Proof.
  apply (pathTree_connected [("cfg", "cfg.programs.git.enable")]
           "programs" "programs.git").
  exists ["programs.git"]. split; [reflexivity|]. apply list_elem_of_here.
Defined.

Section OrderFacts.

Lemma leb_trans (a b c : string) :
  String.leb a b = true -> String.leb b c = true -> String.leb a c = true.
Proof.
  intros Hab Hbc. apply Is_true_true. apply Is_true_true in Hab, Hbc.
  change (String.le a c). now transitivity b.
Qed.

Lemma leb_false (a b : string) :
  String.leb a b = false -> String.leb b a = true.
Proof. intros H. destruct (String.leb_total a b); congruence. Qed.

Lemma sortStrings_sorted (l : list string) :
  StronglySorted (fun a b => String.leb a b = true) (JS.sortStrings l).
Proof.
  unfold JS.sortStrings.
  apply (sort_sorted String.leb (fun a b => String.leb a b = true)).
  - auto.
  - apply leb_false.
  - apply leb_trans.
Qed.

Lemma sortStrings_perm (l : list string) : JS.sortStrings l ≡ₚ l.
Proof. apply sort_perm. Qed.

Lemma StronglySorted_take {A : Type} (R : A -> A -> Prop) (n : nat)
      (l : list A) :
  StronglySorted R l -> StronglySorted R (take n l).
Proof.
  intros H. revert n. induction H as [|x l Hs IH Hx]; intros [|n]; simpl;
    try constructor.
  - apply IH.
  - now apply Forall_take.
Qed.

End OrderFacts.

Section SuggestionFacts.
Import SearchIndex.

Lemma serialize_truthy (segs : list AttrPath.Segment) :
  Forall (fun seg => AttrPath.validSegment seg = true) segs ->
  segs <> [] -> JS.truthy (AttrPath.serialize segs) = true.
Proof.
  intros Hall Hne. destruct Hall as [|seg segs Hseg Hall]; [congruence|].
  destruct (splitLoop_segment seg [] Hseg) as [_ Ht].
  unfold AttrPath.serialize. cbn [map].
  destruct (map AttrPath.display segs) as [|d ds]; [exact Ht|].
  rewrite join_cons by discriminate.
  destruct (AttrPath.display seg); [discriminate | reflexivity].
Qed.

Lemma splitPath_serialize (segs : list AttrPath.Segment) :
  Forall (fun seg => AttrPath.validSegment seg = true) segs ->
  SearchProvider.splitPath (AttrPath.serialize segs)
  = map AttrPath.display segs.
Proof. intros Hall. exact (splitLoop_serialize segs [] Hall). Qed.

Lemma display_truthy (segs : list AttrPath.Segment) :
  Forall (fun seg => AttrPath.validSegment seg = true) segs ->
  Forall (fun part => JS.truthy part = true) (map AttrPath.display segs).
Proof.
  intros Hall. apply Forall_map. eapply Forall_impl; [exact Hall|].
  intros seg Hseg. simpl. now destruct (splitLoop_segment seg [] Hseg).
Qed.

Lemma indexLoop_edges (parts : list string) (current : string)
      (tree : gmap string (list string)) :
  let tree' := snd (fold_left indexStep parts (current, tree)) in
  let from ps :=
    fold_left
      (fun current part =>
         if JS.truthy current then current +:+ "." +:+ part else part)
      ps current in
  (forall parent child,
     treeEdge tree parent child -> treeEdge tree' parent child)
  /\ forall k, k < length parts ->
               treeEdge tree' (from (take k parts)) (from (take (S k) parts)).
Proof.
  cbv zeta. revert current tree.
  induction parts as [|part parts IH]; intros current tree.
  - split; [auto | simpl; lia].
  - cbn [fold_left].
    destruct (indexStep (current, tree) part) as [current1 tree1] eqn:Hstep.
    assert (Hc1 : current1
                  = if JS.truthy current then current +:+ "." +:+ part
                    else part).
    { unfold indexStep in Hstep. now injection Hstep as <- _. }
    assert (Ht1 : tree1 = snd (indexStep (current, tree) part))
      by now rewrite Hstep.
    destruct (IH current1 tree1) as [Hkeep Hchain].
    assert (Hold : forall parent child,
               treeEdge tree parent child ->
               treeEdge (snd (fold_left indexStep parts (current1, tree1)))
                        parent child).
    { intros parent child H. apply Hkeep. rewrite Ht1.
      apply indexStep_edge. now left. }
    split; [exact Hold|].
    intros [|k] Hk.
    + simpl. apply Hkeep. rewrite Ht1. apply indexStep_edge. right.
      split; reflexivity.
    + simpl in Hk. cbn [take fold_left]. rewrite <- Hc1.
      apply Hchain. lia.
Qed.

End SuggestionFacts.

(** X9. Indexing a well-formed path registers it and its whole chain of
    prefixes: the relative path is in [allPaths], and in the path tree each
    prefix of the path is listed among the children of the prefix that is
    one segment shorter, from the root [""] on; what the tree listed before
    is still listed. *)
Theorem indexPath_lists_prefixes (rootPath absolutePath : string)
        (idx : SearchIndex.Index) (segs : list AttrPath.Segment) :
  Forall (fun seg => AttrPath.validSegment seg = true) segs ->
  segs <> [] ->
  SearchProvider.toRelativePath rootPath absolutePath
  = AttrPath.serialize segs ->
  let idx' := SearchIndex.indexPath rootPath absolutePath idx in
  AttrPath.serialize segs ∈ SearchIndex.allPaths idx'
  /\ (forall k,
        k < length segs ->
        SearchIndex.edge idx' (AttrPath.serialize (take k segs))
                         (AttrPath.serialize (take (S k) segs)))
  /\ (forall parent child,
        SearchIndex.edge idx parent child ->
        SearchIndex.edge idx' parent child).
Proof.
  intros Hvalid Hne Hrel. cbv zeta.
  pose proof (serialize_truthy segs Hvalid Hne) as Htruthy.
  assert (Habs : JS.truthy absolutePath = true).
  { destruct absolutePath; [|reflexivity].
    assert (H0 : SearchProvider.toRelativePath rootPath "" = "")
      by (destruct rootPath; reflexivity).
    rewrite H0 in Hrel. rewrite <- Hrel in Htruthy. discriminate. }
  unfold SearchIndex.indexPath, SearchIndex.edge.
  rewrite Habs, Hrel, Htruthy. cbn [negb SearchIndex.allPaths
                                      SearchIndex.pathTree].
  rewrite (splitPath_serialize segs Hvalid).
  destruct (indexLoop_edges (map AttrPath.display segs) ""
              (SearchIndex.pathTree idx)) as [Hkeep Hchain].
  split; [apply elem_of_add; now left|]. split; [|exact Hkeep].
  intros k Hk. specialize (Hchain k). rewrite length_map in Hchain.
  specialize (Hchain Hk).
  assert (Hjoin : forall n,
             fold_left
               (fun current part =>
                  if JS.truthy current then current +:+ "." +:+ part
                  else part)
               (take n (map AttrPath.display segs)) ""
             = AttrPath.serialize (take n segs)).
  { intros n. rewrite firstn_map.
    change (fold_left _ (map AttrPath.display (take n segs)) "")
      with (SearchProvider.rebuild (map AttrPath.display (take n segs))).
    rewrite rebuild_join; [reflexivity|].
    apply display_truthy, Forall_take, Hvalid. }
  now rewrite !Hjoin in Hchain.
Qed.

Lemma indexPath_lists_prefixes_witness :
  let idx' :=
    SearchIndex.indexPath "cfg" "cfg.home.packages.[3]"
                          (SearchIndex.mkIndex [] ∅) in
  "home.packages.[3]" ∈ SearchIndex.allPaths idx'
  /\ SearchIndex.edge idx' "home.packages" "home.packages.[3]".
Proof.
  destruct (indexPath_lists_prefixes "cfg" "cfg.home.packages.[3]"
              (SearchIndex.mkIndex [] ∅)
              [AttrPath.Name "home"; AttrPath.Name "packages";
               AttrPath.Index 3])
    as (Hall & Hchain & _).
  - repeat constructor.
  - discriminate.
  - reflexivity.
  - split; [exact Hall|]. apply (Hchain 2). simpl. lia.
Defined.

(** X10. A query that ends with a dot is answered from the path tree
    alone: the suggestions are children of the path before the dot, in
    code-unit order, at most 30 of them and all of them when the parent has
    at most 30; a parent without entry gives no suggestion. The locale plays
    no part. *)
Theorem suggestions_after_dot (localeCompare : string -> string -> Z)
        (idx : SearchIndex.Index) (parent : string) :
  let suggestions :=
    SearchIndex.getAutocompleteSuggestions localeCompare (parent +:+ ".")
                                           idx in
  match SearchIndex.pathTree idx !! parent with
  | Some children =>
      StronglySorted (fun a b => String.leb a b = true) suggestions
      /\ (forall child, child ∈ suggestions -> child ∈ children)
      /\ length suggestions = Nat.min 30 (length children)
      /\ (length children <= 30 -> suggestions ≡ₚ children)
  | None => suggestions = []
  end.
Proof.
  cbv zeta. unfold SearchIndex.getAutocompleteSuggestions.
  assert (Ht : JS.truthy (parent +:+ ".") = true)
    by (destruct parent; reflexivity).
  assert (He : JS.endsWith (parent +:+ ".") "." = true).
  { unfold JS.endsWith. rewrite length_append. simpl String.length.
    replace (String.length parent + 1 - 1) with (String.length parent) by lia.
    rewrite slice_append. apply andb_true_intro. split; [|reflexivity].
    apply Nat.leb_le. lia. }
  rewrite Ht, He. cbn [negb].
  replace (String.length (parent +:+ ".") - 1) with (String.length parent)
    by (rewrite length_append; simpl; lia).
  rewrite take_append.
  destruct (SearchIndex.pathTree idx !! parent) as [children|];
    [|reflexivity].
  split; [apply StronglySorted_take, sortStrings_sorted|].
  split.
  { intros child Hin. apply elem_of_take in Hin as (i & Hin & _).
    apply list_elem_of_lookup_2 in Hin.
    now rewrite sortStrings_perm in Hin. }
  split.
  { rewrite length_take, (Permutation_length (sortStrings_perm children)).
    reflexivity. }
  intros Hlen. rewrite take_ge; [apply sortStrings_perm|].
  rewrite (Permutation_length (sortStrings_perm children)). exact Hlen.
Qed.

Section ScoredFacts.
Import SearchIndex.

Variable localeCompare : string -> string -> Z.

(** Sorting by [byScore] puts higher scores first, whatever the locale. *)
Lemma byScore_sorted (l : list Suggestion) :
  StronglySorted (fun a b => (score b <= score a)%Z)
                 (JS.sort (byScore localeCompare) l).
Proof.
  apply (sort_sorted (byScore localeCompare)
           (fun a b => (score b <= score a)%Z)).
  - intros a b. unfold byScore.
    destruct (score b =? score a)%Z eqn:E; simpl.
    + apply Z.eqb_eq in E. lia.
    + intros H. apply Z.leb_le in H. lia.
  - intros a b. unfold byScore.
    destruct (score b =? score a)%Z eqn:E; simpl.
    + apply Z.eqb_eq in E. lia.
    + intros H. apply Z.leb_gt in H. lia.
  - intros a b c. lia.
Qed.

Lemma filter_sublist {A : Type} (f : A -> bool) (l : list A) :
  List.filter f l `sublist_of` l.
Proof.
  induction l as [|x l IH]; simpl; [constructor|].
  destruct (f x); now constructor.
Qed.

Lemma childSuggestions_paths (searchTerm : string) (children : list string)
      (acc : list Suggestion) :
  map path (fold_left (childSuggestion searchTerm) children acc)
  = map path acc ++ List.filter (keeps searchTerm) children.
Proof.
  revert acc. induction children as [|c cs IH]; intros acc.
  - simpl. now rewrite app_nil_r.
  - cbn [fold_left List.filter]. rewrite IH. unfold childSuggestion, keeps.
    destruct (JS.startsWith (lastPartLower c) searchTerm); simpl.
    + rewrite map_app. simpl. now rewrite <- app_assoc.
    + destruct (JS.includes (lastPartLower c) searchTerm); simpl;
        [|reflexivity].
      rewrite map_app. simpl. now rewrite <- app_assoc.
Qed.

Lemma pathSuggestion_paths (normalizedQuery searchTerm p : string)
      (suggestions : list Suggestion) :
  exists extra,
    map path (pathSuggestion normalizedQuery searchTerm suggestions p)
    = map path suggestions ++ extra
    /\ (extra = [] \/ (extra = [p] /\ p ∉ map path suggestions)).
Proof.
  unfold pathSuggestion.
  destruct (existsb _ suggestions) eqn:E.
  - exists []. now rewrite app_nil_r; auto.
  - assert (Hnot : p ∉ map path suggestions).
    { intros Hin. apply list_elem_of_In, in_map_iff in Hin
        as (s & Hs & Hin).
      assert (Ht : existsb (fun s => String.eqb (path s) p) suggestions
                   = true).
      { apply existsb_exists. exists s. split; [exact Hin|].
        now apply String.eqb_eq. }
      congruence. }
    repeat case_match; try (exists []; rewrite app_nil_r; now auto);
      exists [p]; rewrite map_app; simpl; auto.
Qed.

Lemma pathSuggestions_fold (normalizedQuery searchTerm : string)
      (paths : list string) (suggestions : list Suggestion)
      (good : string -> Prop) :
  NoDup (map path suggestions) ->
  Forall good (map path suggestions) ->
  Forall good paths ->
  let result :=
    fold_left (pathSuggestion normalizedQuery searchTerm) paths
              suggestions in
  NoDup (map path result) /\ Forall good (map path result).
Proof.
  cbv zeta. revert suggestions.
  induction paths as [|p paths IH]; intros suggestions Hnd Hgood Hpaths;
    [now split|].
  cbn [fold_left]. inversion Hpaths as [|? ? Hp Hrest]; subst.
  destruct (pathSuggestion_paths normalizedQuery searchTerm p suggestions)
    as (extra & Heq & [->|[-> Hnot]]).
  - rewrite app_nil_r in Heq. apply IH; [now rewrite Heq..|exact Hrest].
  - apply IH; [| |exact Hrest]; rewrite Heq.
    + apply NoDup_app. split; [exact Hnd|]. split; [|apply NoDup_singleton].
      intros x Hx Hx'. apply list_elem_of_singleton in Hx'. now subst.
    + apply Forall_app. split; [exact Hgood | now constructor].
Qed.

End ScoredFacts.

Section RankFacts.
Import SearchIndex.

Lemma childSuggestion_Forall (P : Suggestion -> Prop) (searchTerm : string)
      (children : list string) (acc : list Suggestion) :
  Forall (fun c => P (mkSuggestion c 10) /\ P (mkSuggestion c 5)) children ->
  Forall P acc ->
  Forall P (fold_left (childSuggestion searchTerm) children acc).
Proof.
  revert acc. induction children as [|c cs IH]; intros acc Hcs Hacc;
    [exact Hacc|].
  inversion Hcs as [|? ? [H10 H5] Hrest]; subst.
  cbn [fold_left]. apply IH; [exact Hrest|].
  unfold childSuggestion. repeat case_match; try exact Hacc;
    apply Forall_app; split; try exact Hacc; now constructor.
Qed.

Lemma pathSuggestion_Forall (P : Suggestion -> Prop)
      (normalizedQuery searchTerm : string) (paths : list string)
      (acc : list Suggestion) :
  Forall (fun p => P (mkSuggestion p 3) /\ P (mkSuggestion p 2)
                   /\ P (mkSuggestion p 1)) paths ->
  Forall P acc ->
  Forall P (fold_left (pathSuggestion normalizedQuery searchTerm) paths acc).
Proof.
  revert acc. induction paths as [|p ps IH]; intros acc Hps Hacc;
    [exact Hacc|].
  inversion Hps as [|? ? (H3 & H2 & H1) Hrest]; subst.
  cbn [fold_left]. apply IH; [exact Hrest|].
  unfold pathSuggestion. repeat case_match; try exact Hacc;
    apply Forall_app; split; try exact Hacc; now constructor.
Qed.

(** With a comparator that orders the strings, sorting by [byScore] puts
    the higher score first and orders equal scores by the comparator. *)
Lemma byScore_ranks (compare : string -> string -> Z)
      (l : list Suggestion) :
  consistent compare ->
  StronglySorted (ranks compare) (JS.sort (byScore compare) l).
Proof.
  intros [Hsign Htrans].
  apply (sort_sorted (byScore compare) (ranks compare)).
  - intros a b. unfold byScore, ranks.
    destruct (score b =? score a)%Z eqn:E; simpl.
    + apply Z.eqb_eq in E. intros H. apply Z.leb_le in H. right. lia.
    + apply Z.eqb_neq in E. intros H. apply Z.leb_le in H. left. lia.
  - intros a b. unfold byScore, ranks.
    destruct (score b =? score a)%Z eqn:E; simpl.
    + apply Z.eqb_eq in E. intros H. apply Z.leb_gt in H. right.
      split; [lia|]. pose proof (Hsign (path a) (path b)) as Hs. lia.
    + apply Z.eqb_neq in E. intros H. apply Z.leb_gt in H. left. lia.
  - intros a b c. unfold ranks.
    intros [Hab|[Hab Hab']] [Hbc|[Hbc Hbc']]; try (left; lia).
    right. split; [lia|]. eapply Htrans; eassumption.
Qed.

End RankFacts.

(** X11. A query of ASCII characters that is not empty and does not end
    with a dot, over indexed paths of ASCII characters, is answered from
    the candidates that the two loops of [getAutocompleteSuggestions]
    collect: a child of a parent in the path tree with score 10 or 5, or
    an entry of [allPaths] with score 3, 2 or 1, no path twice. With a
    [localeCompare] that orders the strings, as it does in every locale,
    the answer is the paths of the candidates with the higher score first
    and equal scores in the order of [localeCompare], cut after 30: at
    most 30 paths, none twice, and no candidate that is left out has a
    higher score than one that is listed. *)
Theorem suggestions_scored (localeCompare : string -> string -> Z)
        (calls : list (string * string)) (query : string) :
  JS.truthy query = true ->
  JS.endsWith query "." = false ->
  JS.isAscii query = true ->
  Forall (fun call => JS.isAscii (snd call) = true) calls ->
  SearchIndex.consistent localeCompare ->
  let idx := SearchIndex.indexed calls in
  let candidates := SearchIndex.scored query idx in
  exists ranked,
    ranked ≡ₚ candidates
    /\ StronglySorted (SearchIndex.ranks localeCompare) ranked
    /\ SearchIndex.getAutocompleteSuggestions localeCompare query idx
       = map SearchIndex.path (take 30 ranked)
    /\ NoDup (map SearchIndex.path candidates)
    /\ Forall
         (fun s =>
            ((SearchIndex.score s = 10%Z \/ SearchIndex.score s = 5%Z)
             /\ exists parent,
                 SearchIndex.edge idx parent (SearchIndex.path s))
            \/ ((SearchIndex.score s = 3%Z \/ SearchIndex.score s = 2%Z
                 \/ SearchIndex.score s = 1%Z)
                /\ SearchIndex.path s ∈ SearchIndex.allPaths idx))
         candidates
    /\ length (SearchIndex.getAutocompleteSuggestions localeCompare query
                 idx) <= 30
    /\ NoDup (SearchIndex.getAutocompleteSuggestions localeCompare query idx)
    /\ (forall kept dropped,
          kept ∈ take 30 ranked -> dropped ∈ drop 30 ranked ->
          (SearchIndex.score dropped <= SearchIndex.score kept)%Z).
Proof.
  intros Ht He _ _ Hcmp. cbv zeta.
  set (idx := SearchIndex.indexed calls).
  set (candidates := SearchIndex.scored query idx).
  set (ranked := JS.sort (SearchIndex.byScore localeCompare) candidates).
  exists ranked.
  pose proof (sort_perm (SearchIndex.byScore localeCompare) candidates)
    as Hperm. fold ranked in Hperm.
  pose proof (byScore_ranks localeCompare candidates Hcmp) as Hsorted.
  fold ranked in Hsorted.
  assert (Hanswer :
    SearchIndex.getAutocompleteSuggestions localeCompare query idx
    = map SearchIndex.path (take 30 ranked)).
  { unfold SearchIndex.getAutocompleteSuggestions. now rewrite Ht, He. }
  destruct (indexed_wellFormed calls) as [(_ & _ & Hsets) Hall].
  fold idx in Hsets, Hall.
  assert (Hnd : NoDup (map SearchIndex.path candidates)).
  { unfold candidates, SearchIndex.scored.
    apply (pathSuggestions_fold _ _ _ _ (fun _ => True)).
    - destruct (SearchIndex.pathTree idx !! _) as [cs|] eqn:Hcs;
        [|constructor].
      rewrite childSuggestions_paths. simpl.
      eapply sublist_NoDup; [|apply filter_sublist]. eapply Hsets. exact Hcs.
    - apply Forall_forall. intros; exact I.
    - apply Forall_forall. intros; exact I. }
  assert (Hnd' : NoDup (map SearchIndex.path ranked)) by now rewrite Hperm.
  split; [exact Hperm|]. split; [exact Hsorted|]. split; [exact Hanswer|].
  split; [exact Hnd|]. split; [|split; [|split]].
  - unfold candidates, SearchIndex.scored.
    apply pathSuggestion_Forall.
    + apply Forall_forall. intros p Hp. simpl. repeat split; right; auto.
    + destruct (SearchIndex.pathTree idx !! _) as [cs|] eqn:Hcs;
        [|constructor].
      apply childSuggestion_Forall; [|constructor].
      apply Forall_forall. intros c Hc. simpl.
      split; left; (split; [auto|]); eexists; exists cs; split;
        try exact Hcs; exact Hc.
  - rewrite Hanswer, length_map. apply firstn_le_length.
  - rewrite Hanswer, <- firstn_map.
    eapply sublist_NoDup; [exact Hnd' | apply sublist_take].
  - intros kept dropped Hk Hd.
    rewrite <- (take_drop 30 ranked) in Hsorted.
    apply list_elem_of_In in Hk, Hd.
    revert Hsorted Hk Hd. generalize (take 30 ranked) (drop 30 ranked).
    intros front back Hs Hk Hd.
    induction front as [|x front IH]; [destruct Hk|].
    simpl in Hs. apply StronglySorted_inv in Hs as [Hs Hx].
    destruct Hk as [->|Hk]; [|now apply IH].
    rewrite List.Forall_forall in Hx.
    assert (Hr : SearchIndex.ranks localeCompare kept dropped)
      by (apply Hx, in_or_app; now right).
    unfold SearchIndex.ranks in Hr. lia.
Qed.

Lemma suggestions_scored_witness :
  exists ranked,
    SearchIndex.getAutocompleteSuggestions
      (fun _ _ => 0%Z) "gi"
      (SearchIndex.indexed
         [("", "services.gitea"); ("", "programs.git"); ("", "gi")])
    = map SearchIndex.path (take 30 ranked)
    /\ ranked
       ≡ₚ [SearchIndex.mkSuggestion "gi" 10;
           SearchIndex.mkSuggestion "services.gitea" 3;
           SearchIndex.mkSuggestion "programs.git" 3]
    /\ StronglySorted (SearchIndex.ranks (fun _ _ => 0%Z)) ranked.
Proof.
  destruct (suggestions_scored (fun _ _ => 0%Z)
              [("", "services.gitea"); ("", "programs.git"); ("", "gi")]
              "gi")
    as (ranked & Hperm & Hsorted & Hanswer & _);
    [reflexivity | reflexivity | reflexivity | repeat constructor | |].
  - split; [reflexivity | intros; lia].
  - exists ranked. split; [exact Hanswer|].
    split; [exact Hperm | exact Hsorted].
Defined.

(** ** More on the query runner *)

Section TrimFacts.

Lemma trimStart_spaces (s : string) :
  JS.allChars JS.isSpace s = true -> JS.trimStart s = "".
Proof.
  induction s as [|c s IH]; [reflexivity|].
  simpl. intros H. apply andb_prop in H as [Hc Hs]. rewrite Hc. now apply IH.
Qed.

Lemma trim_spaces (s : string) :
  JS.allChars JS.isSpace s = true -> JS.trim s = "".
Proof. intros H. unfold JS.trim. now rewrite trimStart_spaces. Qed.

End TrimFacts.

(** X12. What the ['close'] handler resolves with: the result is a success
    exactly when the exit code is 0; a success always carries data, [null]
    when the output is empty or white space only; a failure carries no data
    and an error message that is never empty (the trimmed error output, or
    [Exit code N] when that is empty). *)
Theorem closeResult_cases (JSON_parse : string -> option Json)
        (code : option Z) (stdout stderr : string) :
  let result := Runner.closeResult JSON_parse code stdout stderr in
  (success result = true <-> code = Some 0%Z)
  /\ (success result = true -> data result <> None /\ error result = None)
  /\ (success result = true -> JS.allChars JS.isSpace stdout = true ->
      data result = Some JNull)
  /\ (success result = false ->
      data result = None
      /\ exists message, error result = Some message /\ message <> "").
Proof.
  cbv zeta. unfold Runner.closeResult.
  destruct code as [[|p|p]|]; simpl.
  1: { destruct (JS.truthy (JS.trim stdout)) eqn:Et;
         [destruct (JSON_parse stdout)|]; simpl;
         (split; [tauto|]); (split; [split; congruence|]);
         (split; [|discriminate]); intros _ Hsp;
         rewrite (trim_spaces _ Hsp) in Et; try discriminate; reflexivity. }
  all: split; [split; discriminate|]; split; [discriminate|];
    split; [discriminate|]; intros _; split; [reflexivity|];
    eexists; (split; [reflexivity|]); unfold JS.or_else;
    destruct (JS.truthy (JS.trim stderr)) eqn:E;
    [now apply truthy_true in E | discriminate].
Qed.

Section CancelAllFacts.
Import Runner.

Variables nixArgs experimentalFeatures : list string.
Variable JSON_parse : string -> option Json.

Local Notation step := (Runner.step nixArgs experimentalFeatures JSON_parse).
Local Notation exec := (Runner.exec nixArgs experimentalFeatures JSON_parse).
Local Notation run := (Runner.run nixArgs experimentalFeatures).
Local Notation reachable :=
  (Runner.reachable nixArgs experimentalFeatures JSON_parse).

Lemma cancel_registered (key : string) (s : State) :
  registeredKeys s -> registeredKeys (cancel key s).
Proof.
  intros Hinv k tid. rewrite cancel_debounceTimers, cancel_timers.
  intros Hk. apply lookup_delete_Some in Hk as [Hne Hk].
  destruct (Hinv k tid Hk) as (t & Ht & Hkey).
  destruct (debounceTimers s !! key) as [tid0|]; [|eauto].
  destruct (Nat.eq_dec tid0 tid) as [->|Hn].
  - exists (clearTimer t). rewrite list_lookup_alter_eq, Ht. now split.
  - exists t. now rewrite list_lookup_alter_ne.
Qed.

Lemma same_timers_registered (s s' : State) :
  timers s' = timers s -> debounceTimers s' = debounceTimers s ->
  registeredKeys s -> registeredKeys s'.
Proof. intros Ht Hd Hinv k tid. rewrite Ht, Hd. apply Hinv. Qed.

Lemma cancelAll_registered (s : State) :
  registeredKeys s -> registeredKeys (cancelAll s).
Proof.
  intros Hinv. unfold cancelAll.
  generalize (map fst (map_to_list (activeProcesses s))). intros keys.
  induction keys as [|k keys IH]; simpl; [exact Hinv|].
  now apply cancel_registered.
Qed.

Lemma step_registered (s : State) (e : Event) :
  registeredKeys s -> registeredKeys (step s e).
Proof.
  intros Hinv.
  destruct e as [args options key debounce|key| |tid|pid code out err
                |pid message|pid]; simpl.
  - unfold Runner.run. set (k := default (JS.join " " args) key).
    pose proof (cancel_registered k s Hinv) as Hc.
    destruct debounce; simpl; [|exact Hc].
    intros k' tid. simpl.
    destruct (decide (k' = k)) as [->|Hne].
    + rewrite lookup_insert_eq. intros [= <-].
      eexists. rewrite lookup_app_r, Nat.sub_diag by lia. now split.
    + rewrite lookup_insert_ne by congruence. intros Hk.
      destruct (Hc k' tid Hk) as (t & Ht & Hkey).
      exists t. split; [|exact Hkey]. now apply lookup_app_l_Some.
  - now apply cancel_registered.
  - now apply cancelAll_registered.
  - unfold timerFires.
    destruct (timers s !! tid) as [t|] eqn:Htid; [|exact Hinv].
    destruct (t_state t) eqn:Hstate; try exact Hinv.
    intros k tid'. simpl. intros Hk.
    apply lookup_delete_Some in Hk as [Hne Hk].
    destruct (Hinv k tid' Hk) as (t' & Ht' & Hkey).
    destruct (Nat.eq_dec tid tid') as [->|Hn].
    + rewrite list_lookup_alter_eq, Ht'. simpl. eexists. split; [reflexivity|].
      exact Hkey.
    + exists t'. now rewrite list_lookup_alter_ne.
  - unfold processCloses.
    destruct (processes s !! pid) as [proc|]; [|exact Hinv].
    destruct (closed proc); [exact Hinv|].
    match goal with
    | |- context [resolve ?p ?r ?x] =>
        destruct (resolve_fields p r x) as (_ & Ht & Hd & _)
    end.
    eapply same_timers_registered; [exact Ht | exact Hd | exact Hinv].
  - unfold processErrors.
    destruct (processes s !! pid) as [proc|]; [|exact Hinv].
    match goal with
    | |- context [resolve ?p ?r ?x] =>
        destruct (resolve_fields p r x) as (_ & Ht & Hd & _)
    end.
    eapply same_timers_registered; [exact Ht | exact Hd | exact Hinv].
  - unfold watchdogFires.
    destruct (processes s !! pid) as [proc|]; [|exact Hinv].
    destruct (watchdog proc); try exact Hinv.
    destruct (negb (killed proc)); [|exact Hinv].
    match goal with
    | |- context [resolve ?p ?r ?x] =>
        destruct (resolve_fields p r x) as (_ & Ht & Hd & _)
    end.
    eapply same_timers_registered; [exact Ht | exact Hd | exact Hinv].
Qed.

Lemma reachable_registered (s : State) : reachable s -> registeredKeys s.
Proof.
  induction 1 as [|s e _ IH].
  - intros k tid H. unfold init in H. simpl in H.
    now rewrite lookup_empty in H.
  - now apply step_registered.
Qed.

(** A timer registered under another key is left alone by [cancel]. *)
Lemma cancel_other_timer (key : string) (s : State) (tid : nat)
      (t : DebounceTimer) :
  registeredKeys s ->
  timers s !! tid = Some t -> t_key t <> key ->
  timers (cancel key s) !! tid = Some t
  /\ debounceTimers (cancel key s) !! t_key t = debounceTimers s !! t_key t.
Proof.
  intros Hinv Ht Hne. rewrite cancel_timers, cancel_debounceTimers.
  split; [|now rewrite lookup_delete_ne by congruence].
  destruct (debounceTimers s !! key) as [tid0|] eqn:Hk; [|exact Ht].
  destruct (Hinv key tid0 Hk) as (t0 & Ht0 & Hkey).
  rewrite list_lookup_alter_ne; [exact Ht|].
  intros ->. congruence.
Qed.

Lemma cancel_activeProcesses (key k : string) (s : State) :
  k <> key -> activeProcesses (cancel key s) !! k = activeProcesses s !! k.
Proof.
  intros Hne. unfold cancel, setProcess, setTimer.
  repeat case_match; simplify_eq; simpl;
    rewrite ?lookup_delete_ne by congruence; reflexivity.
Qed.

End CancelAllFacts.

(** X13. [cancelAll] goes through the keys of the running processes only:
    a debounced call that still waits for its timer, under a key that has no
    running process, is not cancelled. Its timer is still pending and
    registered after [cancelAll], and when it fires the process of the call
    is spawned. *)
Theorem cancelAll_spares_waiting_call (nixArgs experimentalFeatures : list string)
        (JSON_parse : string -> option Json) (s : Runner.State)
        (tid : nat) (t : Runner.DebounceTimer) :
  Runner.reachable nixArgs experimentalFeatures JSON_parse s ->
  Runner.timers s !! tid = Some t ->
  Runner.t_state t = Runner.Pending ->
  Runner.activeProcesses s !! Runner.t_key t = None ->
  let s' := Runner.cancelAll s in
  Runner.timers s' !! tid = Some t
  /\ Runner.debounceTimers s' !! Runner.t_key t = Some tid
  /\ Runner.spawnLog
       (Runner.step nixArgs experimentalFeatures JSON_parse s'
                    (Runner.TimerFires tid))
     = Runner.spawnLog s'
       ++ [(Runner.t_promise t,
            Runner.buildBaseArgs nixArgs experimentalFeatures
            ++ Runner.t_args t)].
Proof.
  intros Hreach Ht Hpend Hnone. cbv zeta.
  pose proof (reachable_registered _ _ _ s Hreach) as Hkeys.
  pose proof (reachable_pending _ _ _ s Hreach tid t Ht Hpend) as Hreg.
  assert (Hfold : forall keys,
             Forall (fun k => k <> Runner.t_key t) keys ->
             let s' := foldr Runner.cancel s keys in
             Runner.registeredKeys s'
             /\ Runner.timers s' !! tid = Some t
             /\ Runner.debounceTimers s' !! Runner.t_key t = Some tid).
  { induction 1 as [|k keys Hk _ IH]; simpl; [auto|].
    destruct IH as (Hinv & Ht' & Hreg').
    destruct (cancel_other_timer k _ tid t Hinv Ht' (not_eq_sym Hk))
      as [Ht'' Hd].
    split; [now apply cancel_registered|]. split; [exact Ht''|].
    now rewrite Hd. }
  destruct (Hfold (map fst (map_to_list (Runner.activeProcesses s))))
    as (_ & Ht' & Hreg').
  { apply Forall_forall. intros k Hk Heq. subst k.
    apply list_elem_of_In, in_map_iff in Hk as ([k pid] & Hfst & Hin).
    simpl in Hfst. subst k. apply list_elem_of_In, elem_of_map_to_list in Hin.
    congruence. }
  fold (Runner.cancelAll s) in Ht', Hreg'.
  split; [exact Ht'|]. split; [exact Hreg'|].
  simpl. unfold Runner.timerFires. rewrite Ht', Hpend.
  unfold Runner.spawnLog, Runner.executeNix. simpl.
  now rewrite map_app.
Qed.

Lemma cancelAll_spares_waiting_call_witness :
  let s :=
    Runner.exec Samples.nixArgs Samples.experimentalFeatures Samples.noJson
                Runner.init
                [Runner.Call ["eval"; ".#a"] Samples.options (Some "k") true;
                 Runner.CancelAll; Runner.TimerFires 0] in
  Runner.spawnLog s = [(0, Samples.baseArgs ++ ["eval"; ".#a"])].
Proof.
  pose proof
    (cancelAll_spares_waiting_call
       Samples.nixArgs Samples.experimentalFeatures Samples.noJson
       (Runner.step Samples.nixArgs Samples.experimentalFeatures
          Samples.noJson Runner.init
          (Runner.Call ["eval"; ".#a"] Samples.options (Some "k") true))
       0 (Runner.mkTimer ["eval"; ".#a"] Samples.options "k" 0
            Runner.Pending)) as H.
  destruct H as (_ & _ & H);
    [repeat constructor | reflexivity | reflexivity | reflexivity |].
  exact H.
Defined.

Section SettleFacts.
Import Runner.

Variables nixArgs experimentalFeatures : list string.
Variable JSON_parse : string -> option Json.

Local Notation step := (Runner.step nixArgs experimentalFeatures JSON_parse).
Local Notation exec := (Runner.exec nixArgs experimentalFeatures JSON_parse).
Local Notation reachable :=
  (Runner.reachable nixArgs experimentalFeatures JSON_parse).

Lemma resolve_grows (promise : nat) (result : NixEvalResult Json)
      (s0 s : State) :
  settled s = settled s0 -> grows s0 (resolve promise result s).
Proof.
  intros Hs. unfold resolve.
  destruct (existsb _ (settled s)) eqn:E; [now left|].
  right. exists promise, result. simpl. rewrite Hs. split; [reflexivity|].
  intros Hin. rewrite <- Hs in Hin.
  apply list_elem_of_In, in_map_iff in Hin as (e & He & Hin).
  assert (Ht : existsb (fun e => (fst e =? promise)%nat) (settled s) = true).
  { apply existsb_exists. exists e. split; [exact Hin|].
    now apply Nat.eqb_eq. }
  congruence.
Qed.

Lemma step_grows (s : State) (e : Event) : grows s (step s e).
Proof.
  destruct e as [args options key debounce|key| |tid|pid code out err
                |pid message|pid]; simpl.
  - left. unfold Runner.run. destruct debounce; simpl; apply cancel_settled.
  - left. apply cancel_settled.
  - left. apply cancelAll_quiet.
  - left. unfold timerFires. destruct (timers s !! tid) as [t|]; [|reflexivity].
    destruct (t_state t); reflexivity.
  - unfold processCloses. destruct (processes s !! pid) as [proc|];
      [|now left].
    destruct (closed proc); [now left|]. now apply resolve_grows.
  - unfold processErrors. destruct (processes s !! pid) as [proc|];
      [|now left].
    now apply resolve_grows.
  - unfold watchdogFires. destruct (processes s !! pid) as [proc|];
      [|now left].
    destruct (watchdog proc); try now left.
    destruct (negb (killed proc)); [|now left]. now apply resolve_grows.
Qed.

Lemma grows_once (s s' : State) :
  grows s s' -> settledOnce s ->
  settledOnce s' /\ forall e, e ∈ settled s -> e ∈ settled s'.
Proof.
  unfold settledOnce. intros [->|(p & r & -> & Hnot)] Hnd; [now split|].
  split.
  - rewrite map_app. apply NoDup_app. split; [exact Hnd|].
    split; [|apply NoDup_singleton].
    intros x Hx Hx'. apply list_elem_of_singleton in Hx'. now subst.
  - intros e He. apply elem_of_app. now left.
Qed.

Lemma exec_once (events : list Event) (s : State) :
  settledOnce s ->
  settledOnce (exec s events)
  /\ forall e, e ∈ settled s -> e ∈ settled (exec s events).
Proof.
  revert s. induction events as [|e events IH]; intros s Hs; [now split|].
  simpl. destruct (grows_once s (step s e) (step_grows s e) Hs) as [H1 H2].
  destruct (IH _ H1) as [H3 H4]. split; [exact H3 | auto].
Qed.

Lemma reachable_once (s : State) : reachable s -> settledOnce s.
Proof.
  induction 1 as [|s e _ IH]; [constructor|].
  now apply (grows_once s (step s e) (step_grows s e)).
Qed.

Lemma settledOnce_unique (s : State) (promise : nat)
      (a b : NixEvalResult Json) :
  settledOnce s -> (promise, a) ∈ settled s -> (promise, b) ∈ settled s ->
  a = b.
Proof.
  unfold settledOnce. intros Hnd Ha Hb.
  apply list_elem_of_lookup in Ha as [i Hi]. apply list_elem_of_lookup in Hb as [j Hj].
  assert (Hij : i = j).
  { eapply NoDup_lookup; [exact Hnd| |].
    - rewrite list_lookup_fmap, Hi. reflexivity.
    - rewrite list_lookup_fmap, Hj. reflexivity. }
  subst j. congruence.
Qed.

End SettleFacts.

(** X14. A timeout is final. When the watchdog of a process that has not
    been killed fires while the promise of the call is unsettled, the
    promise settles with the failure [Command timed out after Nms], and
    whatever happens afterwards (the killed process closing with its exit
    status, an error, further calls) this stays its one and only result. *)
Theorem timeout_is_final (nixArgs experimentalFeatures : list string)
        (JSON_parse : string -> option Json) (s : Runner.State) (pid : nat)
        (proc : Runner.ChildProcess) (events : list Runner.Event) :
  Runner.reachable nixArgs experimentalFeatures JSON_parse s ->
  Runner.processes s !! pid = Some proc ->
  Runner.watchdog proc = Runner.Pending ->
  Runner.killed proc = false ->
  (forall result, (Runner.p_promise proc, result) ∉ Runner.settled s) ->
  let s' :=
    Runner.exec nixArgs experimentalFeatures JSON_parse s
                (Runner.WatchdogFires pid :: events) in
  forall result,
    (Runner.p_promise proc, result) ∈ Runner.settled s'
    <-> result
        = mkResult false None
            (Some ("Command timed out after "
                   +:+ JS.showZ (Runner.p_timeout proc) +:+ "ms")).
Proof.
  intros Hreach Hproc Hdog Hkilled Hfresh. cbv zeta.
  set (timeout := mkResult false None
                    (Some ("Command timed out after "
                           +:+ JS.showZ (Runner.p_timeout proc) +:+ "ms"))).
  set (s1 := Runner.step nixArgs experimentalFeatures JSON_parse s
                         (Runner.WatchdogFires pid)).
  assert (Hs1 : Runner.reachable nixArgs experimentalFeatures JSON_parse s1)
    by now constructor.
  assert (Hin : (Runner.p_promise proc, timeout) ∈ Runner.settled s1).
  { unfold s1. simpl. unfold Runner.watchdogFires.
    rewrite Hproc, Hdog, Hkilled. simpl. unfold Runner.resolve. simpl.
    destruct (existsb _ (Runner.settled s)) eqn:E.
    - apply existsb_exists in E as ([r res] & Hin & Heq).
      apply Nat.eqb_eq in Heq. simpl in Heq. subst r.
      destruct (Hfresh res). now apply list_elem_of_In.
    - simpl. apply elem_of_app. right. now apply list_elem_of_singleton. }
  pose proof (reachable_once _ _ _ s1 Hs1) as Honce.
  destruct (exec_once nixArgs experimentalFeatures JSON_parse events s1 Honce)
    as [Honce' Hkeep].
  change (Runner.exec nixArgs experimentalFeatures JSON_parse s
            (Runner.WatchdogFires pid :: events))
    with (Runner.exec nixArgs experimentalFeatures JSON_parse s1 events).
  intros result. split.
  - intros Hres. eapply settledOnce_unique; [exact Honce' | exact Hres|].
    now apply Hkeep.
  - intros ->. now apply Hkeep.
Qed.

Lemma timeout_is_final_witness :
  (0, mkResult false None (Some "Command timed out after 30000ms"))
  ∈ Runner.settled
      (Runner.exec Samples.nixArgs Samples.experimentalFeatures
         Samples.noJson Runner.init
         [Runner.Call ["eval"; ".#a"] Samples.options None false;
          Runner.WatchdogFires 0;
          Runner.ProcessCloses 0 None "" ""]).
Proof.
  apply (timeout_is_final
           Samples.nixArgs Samples.experimentalFeatures Samples.noJson
           (Runner.step Samples.nixArgs Samples.experimentalFeatures
              Samples.noJson Runner.init
              (Runner.Call ["eval"; ".#a"] Samples.options None false))
           0
           (Runner.mkProcess (Samples.baseArgs ++ ["eval"; ".#a"]) "/w"
              "eval .#a" 0 30000 false false Runner.Pending)
           [Runner.ProcessCloses 0 None "" ""]).
  - apply Runner.reachable_step, Runner.reachable_init.
  - reflexivity.
  - reflexivity.
  - reflexivity.
  - intros result H. simpl in H. now apply elem_of_nil in H.
  - reflexivity.
Defined.

(** ** More on the tree provider *)

Section EffectFacts.
Import Node FlakeTreeProvider.

Lemma logsOnly_refl (a : Provider) : logsOnly [] [] a a.
Proof. unfold logsOnly. destruct a. simpl. now rewrite !app_nil_r. Qed.

Lemma logsOnly_trans qs us qs' us' (a b c : Provider) :
  logsOnly qs us a b -> logsOnly qs' us' b c ->
  logsOnly (qs ++ qs') (us ++ us') a c.
Proof.
  unfold logsOnly. intros -> ->. simpl. now rewrite !app_assoc.
Qed.

Lemma logsOnly_ask q (a : Provider) : logsOnly [q] [] a (ask q a).
Proof. unfold logsOnly, ask. now rewrite app_nil_r. Qed.

Lemma logsOnly_emitStatus ty m (a : Provider) :
  logsOnly [] [(ty, m)] a (emitStatus ty m a).
Proof. unfold logsOnly, emitStatus. now rewrite app_nil_r. Qed.

Lemma logsOnly_flakePath qs us (a b : Provider) :
  logsOnly qs us a b -> flakePath b = flakePath a.
Proof. now intros ->. Qed.

Lemma failWith_logs (d : string) (err : option string) (parent : FlakeNode)
      (st : Provider) :
  exists us, logsOnly [] us st (fst (failWith d err parent st)).
Proof.
  rewrite failWith_fallback. simpl. eexists. apply logsOnly_emitStatus.
Qed.

Variable ev : Evaluator.
Variable writeTime : Z.

Ltac logs :=
  cbn [fst snd];
  first
    [ apply logsOnly_refl
    | eapply logsOnly_trans;
      [|first [apply logsOnly_ask | apply logsOnly_emitStatus]]; logs ].

Lemma fetchLeafValue_logs (node : FlakeNode) (st : Provider) :
  logsOnly [NixRunner.getValue (flakePath st) (attrPath node)] []
           st (fst (fetchLeafValue ev writeTime node st)).
Proof.
  unfold fetchLeafValue. destruct (success _); simpl; apply logsOnly_ask.
Qed.

Lemma fetchAttrsetChildren_logs (parent : FlakeNode) (st : Provider) :
  exists qs us,
    logsOnly qs us st (fst (fst (fetchAttrsetChildren ev parent st)))
    /\ length qs <= 2 /\ inFlake st qs.
Proof.
  unfold fetchAttrsetChildren. rewrite failWith_fallback.
  destruct (prefetchCache st !! attrPath parent).
  { exists [], []. split; [apply logsOnly_refl|]. split; [simpl; lia|].
    constructor. }
  match goal with
  | |- context [if ?c then updateAppearance ?n else parent] =>
      set (parent1 := if c then updateAppearance n else parent)
  end.
  destruct (negb (success (evalAttrNames ev (attrPath parent1)))).
  { eexists _, _.
    split; [logs | split; [simpl; lia | repeat constructor]]. }
  destruct (data (evalAttrNames ev (attrPath parent1))).
  - eexists _, _.
    split; [logs | split; [simpl; lia | repeat constructor]].
  - eexists _, _.
    split; [logs | split; [simpl; lia | repeat constructor]].
Qed.

Lemma fetchListChildren_logs (parent : FlakeNode) (st : Provider) :
  exists qs us,
    logsOnly qs us st (fst (fst (fetchListChildren ev parent st)))
    /\ length qs <= 1 /\ inFlake st qs.
Proof.
  unfold fetchListChildren. rewrite failWith_fallback.
  destruct (negb _).
  { eexists _, _.
    split; [logs | split; [simpl; lia | repeat constructor]]. }
  destruct (data _).
  - eexists _, _.
    split; [logs | split; [simpl; lia | repeat constructor]].
  - eexists _, _.
    split; [logs | split; [simpl; lia | repeat constructor]].
Qed.

Lemma fetchChildren_logs (parent : FlakeNode) (st : Provider) :
  exists qs us,
    logsOnly qs us st (fst (fst (fetchChildren ev writeTime parent st)))
    /\ length qs <= 3 /\ inFlake st qs
    /\ head qs
       = Some (NixRunner.getValueType (flakePath st) (attrPath parent)).
Proof.
  unfold fetchChildren. rewrite failWith_fallback.
  destruct (negb _).
  { eexists _, _.
    split; [logs | split; [simpl; lia | split; [repeat constructor|]]].
    reflexivity. }
  set (q := NixRunner.getValueType (flakePath st) (attrPath parent)).
  set (st1 := ask q st).
  assert (Hq : inFlake st [q]) by (repeat constructor).
  assert (Hleaf :
    exists qs us,
      logsOnly qs us st
        (fst (fst (let '(st2, parent2) :=
                     fetchLeafValue ev writeTime
                       (setCollapsibleState NotCollapsible
                          (setNodeType Leaf parent)) st1
                   in (st2, parent2, Returned (@nil FlakeNode)))))
      /\ length qs <= 3 /\ inFlake st qs /\ head qs = Some q).
  { pose proof (fetchLeafValue_logs
                  (setCollapsibleState NotCollapsible
                     (setNodeType Leaf parent)) st1) as H.
    destruct (fetchLeafValue _ _ _ _) as [st2 parent2]. simpl in *.
    eexists _, _. split; [|split; [|split]].
    - eapply logsOnly_trans; [apply logsOnly_ask | exact H].
    - simpl. lia.
    - repeat constructor.
    - reflexivity. }
  destruct (data _) as [ty|]; [|exact Hleaf].
  destruct (String.eqb ty "set") eqn:Eset.
  { apply String.eqb_eq in Eset. subst ty.
    destruct (fetchAttrsetChildren_logs parent st1)
      as (qs & us & Hlog & Hlen & Hin).
    eexists _, _. split; [|split; [|split]].
    - eapply logsOnly_trans; [apply logsOnly_ask | exact Hlog].
    - simpl. lia.
    - constructor; [reflexivity | exact Hin].
    - reflexivity. }
  destruct (String.eqb ty "list") eqn:Elist.
  { apply String.eqb_eq in Elist. subst ty.
    destruct (fetchListChildren_logs parent st1)
      as (qs & us & Hlog & Hlen & Hin).
    eexists _, _. split; [|split; [|split]].
    - eapply logsOnly_trans; [apply logsOnly_ask | exact Hlog].
    - simpl. lia.
    - constructor; [reflexivity | exact Hin].
    - reflexivity. }
  apply String.eqb_neq in Eset, Elist.
  repeat (match goal with
          | |- context [match ?x with _ => _ end] =>
              match type of x with
              | string => destruct x
              | ascii => destruct x
              | bool => destruct x
              end
          end; try congruence; try exact Hleaf).
Qed.

End EffectFacts.

Section IndexGrowFacts.
Import Node FlakeTreeProvider.

Lemma indexGrows_refl (a : Provider) : indexGrows a a.
Proof. split; [reflexivity | auto]. Qed.

Lemma indexGrows_trans (a b c : Provider) :
  indexGrows a b -> indexGrows b c -> indexGrows a c.
Proof.
  intros (H1 & H2 & H3) (H4 & H5 & H6).
  split; [now transitivity (knownPaths b) | auto].
Qed.

Lemma indexGrows_same (a b : Provider) :
  knownPaths b = knownPaths a -> indexGrows a b.
Proof. intros H. unfold indexGrows. rewrite H. split; [reflexivity | auto]. Qed.

Lemma indexPath_grows (p : string) (a : Provider) :
  indexGrows a (indexPath p a).
Proof.
  unfold indexPath.
  destruct (JS.truthy p) eqn:Hp; simpl; [|apply indexGrows_refl].
  destruct (existsb (String.eqb p) (knownPaths a)) eqn:Hex; simpl;
    [apply indexGrows_refl|].
  assert (Hnot : p ∉ knownPaths a).
  { intros Hin. apply list_elem_of_In in Hin.
    assert (Ht : existsb (String.eqb p) (knownPaths a) = true).
    { apply existsb_exists. exists p. split; [exact Hin|].
      apply String.eqb_refl. }
    congruence. }
  split; [now exists [p]|]. split.
  - intros Hnd. apply NoDup_app. split; [exact Hnd|].
    split; [|apply NoDup_singleton].
    intros x Hx Hx'. apply list_elem_of_singleton in Hx'. now subst.
  - intros Hne Hin. apply elem_of_app in Hin as [Hin|Hin]; [auto|].
    apply list_elem_of_singleton in Hin. subst p. discriminate.
Qed.

Lemma indexPath_known (p : string) (a : Provider) :
  JS.truthy p = true -> p ∈ knownPaths (indexPath p a).
Proof.
  intros Hp. unfold indexPath. rewrite Hp. simpl.
  destruct (existsb (String.eqb p) (knownPaths a)) eqn:Hex; simpl.
  - apply existsb_exists in Hex as (x & Hin & Heq).
    apply String.eqb_eq in Heq. subst x. now apply list_elem_of_In.
  - apply elem_of_app. right. now apply list_elem_of_singleton.
Qed.

Lemma indexGrows_known (a b : Provider) (p : string) :
  indexGrows a b -> p ∈ knownPaths a -> p ∈ knownPaths b.
Proof.
  intros ([k Hk] & _) Hin. rewrite Hk. apply elem_of_app. now left.
Qed.

Lemma indexFold_grows {A : Type} (f : A -> string) (l : list A)
      (a : Provider) :
  let b := fold_left (fun s x => indexPath (f x) s) l a in
  indexGrows a b
  /\ issued b = issued a
  /\ Forall (fun x => JS.truthy (f x) = true -> f x ∈ knownPaths b) l.
Proof.
  cbv zeta. revert a. induction l as [|x l IH]; intros a.
  - split; [apply indexGrows_refl|]. split; [reflexivity | constructor].
  - cbn [fold_left]. destruct (IH (indexPath (f x) a)) as (Hg & Hi & Hall).
    split; [eapply indexGrows_trans; [apply indexPath_grows | exact Hg]|].
    split.
    + rewrite Hi. unfold indexPath. now destruct (_ && _).
    + constructor; [|exact Hall].
      intros Hx. eapply indexGrows_known; [exact Hg|].
      now apply indexPath_known.
Qed.

Lemma logsOnly_known qs us (a b : Provider) :
  logsOnly qs us a b -> knownPaths b = knownPaths a.
Proof. now intros ->. Qed.

Lemma logsOnly_issued qs us (a b : Provider) :
  logsOnly qs us a b -> issued b = issued a ++ qs.
Proof. now intros ->. Qed.

Variable ev : Evaluator.
Variable writeTime : Z.

(** What a call of [getChildren] does to the log of queries and to the
    known paths. *)
Lemma fetchTopLevelOutputs_effects (st : Provider) :
  let st' := fst (fetchTopLevelOutputs ev st) in
  issued st' = issued st ++ [NixRunner.flakeShow (flakePath st)]
  /\ indexGrows st st'.
Proof.
  cbv zeta. unfold fetchTopLevelOutputs.
  destruct (negb (success (evalFlakeShow ev))).
  { simpl. destruct (lastGoodChildren st !! ""); simpl;
      (split; [reflexivity | now apply indexGrows_same]). }
  destruct (data (evalFlakeShow ev)) as [outputs|]; simpl;
    [|split; [reflexivity | now apply indexGrows_same]].
  match goal with
  | |- context [fold_left ?g ?l ?a] =>
      destruct (indexFold_grows (fun key : string => key) l a)
        as (Hg & Hi & _)
  end.
  split; [exact Hi|].
  eapply indexGrows_trans; [|eapply indexGrows_trans; [exact Hg|]];
    now apply indexGrows_same.
Qed.

Lemma getChildren_effects (now : Z) (element : option FlakeNode)
      (st : Provider) :
  let st' := fst (fst (getChildren ev writeTime now element st)) in
  (exists qs,
     issued st' = issued st ++ qs /\ length qs <= 3 /\ inFlake st qs)
  /\ indexGrows st st'.
Proof.
  cbv zeta. unfold getChildren.
  destruct (negb (JS.truthy (flakePath st))).
  { simpl. split; [|apply indexGrows_refl].
    exists []. rewrite app_nil_r. split; [reflexivity|].
    split; [simpl; lia | constructor]. }
  unfold getChildrenTry. destruct element as [el|].
  - destruct (getCachedChildren now el) as [cached|].
    { simpl. split; [|apply indexGrows_refl].
      exists []. rewrite app_nil_r. split; [reflexivity|].
      split; [simpl; lia | constructor]. }
    destruct (fetchChildren_logs ev writeTime el st)
      as (qs & us & Hlog & Hlen & Hin & _).
    destruct (fetchChildren ev writeTime el st) as [[st1 el1] out].
    cbn [fst] in Hlog.
    pose proof (logsOnly_issued _ _ _ _ Hlog) as Hissued.
    pose proof (logsOnly_known _ _ _ _ Hlog) as Hknown.
    destruct out as [cs|m].
    + destruct (indexFold_grows attrPath cs st1) as (Hg & Hi & _).
      fold (indexAll cs st1) in Hg, Hi.
      assert (Hgrow : indexGrows st (indexAll cs st1)).
      { apply (indexGrows_trans st st1); [now apply indexGrows_same|].
        exact Hg. }
      destruct (_ && _); simpl.
      * split; [exists qs; now rewrite Hi, Hissued|].
        apply (indexGrows_trans st (indexAll cs st1));
          [exact Hgrow | now apply indexGrows_same].
      * split; [exists qs; now rewrite Hi, Hissued | exact Hgrow].
    + simpl. destruct (lastGoodChildren st1 !! attrPath el1); simpl;
        (split; [exists qs; now rewrite Hissued
                | now apply indexGrows_same]).
  - unfold getRootChildren.
    destruct (negb (JS.truthy (rootPath st))).
    + destruct (fetchTopLevelOutputs_effects st) as [Hi Hg].
      destruct (fetchTopLevelOutputs ev st) as [st1 out].
      cbn [fst] in Hi, Hg.
      assert (Hqs : exists qs,
                 issued st1 = issued st ++ qs /\ length qs <= 3
                 /\ inFlake st qs).
      { eexists. split; [exact Hi|]. split; [simpl; lia|].
        repeat constructor. }
      destruct out as [cs|m]; simpl; [now split|].
      split; [exact Hqs|].
      apply (indexGrows_trans st st1);
        [exact Hg | now apply indexGrows_same].
    + match goal with
      | |- context [fetchChildren ev writeTime ?root ?s] =>
          destruct (fetchChildren_logs ev writeTime root s)
            as (qs & us & Hlog & Hlen & Hin & _);
          destruct (fetchChildren ev writeTime root s) as [[st1 root1] out]
      end.
      cbn [fst] in Hlog.
      pose proof (logsOnly_issued _ _ _ _ Hlog) as Hissued.
      pose proof (logsOnly_known _ _ _ _ Hlog) as Hknown.
      simpl in Hissued, Hknown, Hin.
      destruct out as [cs|m]; simpl;
        (split; [exists qs; now rewrite Hissued
                | now apply indexGrows_same]).
Qed.

End IndexGrowFacts.

(** ** The node cache and the node it belongs to *)

Section CacheOwnerFacts.
Import Node FlakeTreeProvider.

Variable ev : Evaluator.
Variable writeTime : Z.

(** A call on a node with nothing fresh in its cache asks for the type of
    the node first. *)
Lemma getChildren_asks_type (now : Z) (el : FlakeNode) (st : Provider) :
  JS.truthy (flakePath st) = true ->
  getCachedChildren now el = None ->
  exists rest,
    issued (fst (fst (getChildren ev writeTime now (Some el) st)))
    = issued st ++ NixRunner.getValueType (flakePath st) (attrPath el)
                   :: rest.
Proof.
  intros Hflake Hmiss. unfold getChildren. rewrite Hflake. cbn [negb].
  unfold getChildrenTry. rewrite Hmiss.
  destruct (fetchChildren_logs ev writeTime el st)
    as (qs & us & Hlog & _ & _ & Hhead).
  destruct (fetchChildren ev writeTime el st) as [[st1 el1] out].
  cbn [fst] in Hlog.
  pose proof (logsOnly_issued _ _ _ _ Hlog) as Hissued.
  destruct qs as [|q rest]; [discriminate|].
  injection Hhead as ->. exists rest.
  destruct out as [cs|m].
  - destruct (indexFold_grows attrPath cs st1) as (_ & Hi & _).
    fold (indexAll cs st1) in Hi.
    destruct (_ && _); simpl; now rewrite Hi, Hissued.
  - simpl. destruct (lastGoodChildren st1 !! attrPath el1); simpl;
      exact Hissued.
Qed.

(** The call for the root, with a root path configured, fetches for a new
    root node: it asks for the type of the root path and records no last
    good children. *)
Lemma getChildren_root_fetches (now : Z) (st : Provider) :
  JS.truthy (flakePath st) = true ->
  JS.truthy (rootPath st) = true ->
  let result := getChildren ev writeTime now None st in
  snd (fst result) = None
  /\ lastGoodChildren (fst (fst result)) = lastGoodChildren st
  /\ exists rest,
       issued (fst (fst result))
       = issued st ++ NixRunner.getValueType (flakePath st) (rootPath st)
                      :: rest.
Proof.
  intros Hflake Hroot. cbv zeta.
  unfold getChildren. rewrite Hflake. cbn [negb].
  unfold getChildrenTry, getRootChildren. rewrite Hroot. cbn [negb].
  match goal with
  | |- context [fetchChildren ev writeTime ?root ?s] =>
      destruct (fetchChildren_logs ev writeTime root s)
        as (qs & us & Hlog & _ & _ & Hhead);
      destruct (fetchChildren ev writeTime root s) as [[st1 root1] out]
  end.
  cbn [fst] in Hlog. unfold logsOnly in Hlog. subst st1.
  destruct qs as [|q rest]; [discriminate|].
  injection Hhead as ->.
  destruct out as [cs|m]; simpl;
    (split; [reflexivity|]; split; [reflexivity|]; now exists rest).
Qed.

End CacheOwnerFacts.

(** C7, as the code has it. For a node that [getChildren] is called on: a
    children result that is not empty, fetched for a node that is not an
    error node, is written to the cache of that node and to the last good
    children under its path, and a call on that node within 60 seconds of
    the write returns it without asking the runner anything; a result of
    length zero is not cached: the node is left as the fetch left it. The
    cache belongs to the node and not to the path: a call on another node
    of the same path that has nothing cached asks for the type again, and
    so does every call for the root with a root path configured, which
    records no last good children either. *)
Theorem getChildren_caches_nonempty
        (ev : Evaluator) (writeTime now : Z)
        (st st1 : FlakeTreeProvider.Provider) (el el1 : Node.FlakeNode)
        (cs : list Node.FlakeNode) :
  JS.truthy (FlakeTreeProvider.flakePath st) = true ->
  Node.getCachedChildren now el = None ->
  FlakeTreeProvider.fetchChildren ev writeTime el st
  = (st1, el1, FlakeTreeProvider.Returned cs) ->
  Node.attrPath el1 = Node.attrPath el
  /\ (cs <> [] -> Node.nodeType el1 <> Node.Error ->
   FlakeTreeProvider.getChildren ev writeTime now (Some el) st
   = (FlakeTreeProvider.setLastGood (Node.attrPath el1) cs
        (FlakeTreeProvider.indexAll cs st1),
      Some (Node.cacheChildren writeTime cs el1),
      FlakeTreeProvider.applyFilter st cs)
   /\ forall ev' writeTime' now' st',
        JS.truthy (FlakeTreeProvider.flakePath st') = true ->
        (now' - writeTime <= 60000)%Z ->
        FlakeTreeProvider.getChildren ev' writeTime' now'
          (Some (Node.cacheChildren writeTime cs el1)) st'
        = (st', Some (Node.cacheChildren writeTime cs el1),
           FlakeTreeProvider.applyFilter st' cs))
  /\ (cs = [] ->
      FlakeTreeProvider.getChildren ev writeTime now (Some el) st
      = (st1, Some el1, []))
  /\ (forall ev' writeTime' now' st' (other : Node.FlakeNode),
        JS.truthy (FlakeTreeProvider.flakePath st') = true ->
        Node.attrPath other = Node.attrPath el1 ->
        Node.getCachedChildren now' other = None ->
        exists rest,
          FlakeTreeProvider.issued
            (fst (fst (FlakeTreeProvider.getChildren ev' writeTime' now'
                         (Some other) st')))
          = FlakeTreeProvider.issued st'
            ++ NixRunner.getValueType (FlakeTreeProvider.flakePath st')
                 (Node.attrPath el1) :: rest)
  /\ (forall ev' writeTime' now' st',
        JS.truthy (FlakeTreeProvider.flakePath st') = true ->
        JS.truthy (FlakeTreeProvider.rootPath st') = true ->
        let result :=
          FlakeTreeProvider.getChildren ev' writeTime' now' None st' in
        snd (fst result) = None
        /\ FlakeTreeProvider.lastGoodChildren (fst (fst result))
           = FlakeTreeProvider.lastGoodChildren st'
        /\ exists rest,
             FlakeTreeProvider.issued (fst (fst result))
             = FlakeTreeProvider.issued st'
               ++ NixRunner.getValueType (FlakeTreeProvider.flakePath st')
                    (FlakeTreeProvider.rootPath st') :: rest).
Proof.
  intros Hflake Hmiss Hfetch.
  pose proof (getChildren_miss ev writeTime now st st1 el el1 cs
                Hflake Hmiss Hfetch) as Hget.
  split; [|split; [|split; [|split]]].
  - pose proof (fetchChildren_frame ev writeTime el st) as Hframe.
    rewrite Hfetch in Hframe. apply Hframe.
  - intros Hcs Herr. split.
    + now apply getChildren_records.
    + intros ev' writeTime' now' st' Hflake' Hfresh.
      apply getChildren_hit; [exact Hflake'|].
      now apply cacheChildren_fresh.
  - intros ->. rewrite Hget. simpl. now rewrite applyFilter_nil.
  - intros ev' writeTime' now' st' other Hflake' Hpath Hnone.
    rewrite <- Hpath. now apply getChildren_asks_type.
  - intros ev' writeTime' now' st' Hflake' Hroot.
    now apply getChildren_root_fetches.
Qed.

Lemma getChildren_caches_nonempty_witness :
  let ev := Samples.setEvaluator ["vim"; "git"] in
  let el := Samples.nodeAt "programs" in
  let cs := [Node.createChild "git" Node.Attrset el;
             Node.createChild "vim" Node.Attrset el] in
  let cached := Node.cacheChildren 1000 cs el in
  snd (FlakeTreeProvider.getChildren ev 1000 1000 (Some el) Samples.provider)
  = cs
  /\ snd (fst (FlakeTreeProvider.getChildren ev 1000 1000 (Some el)
                 Samples.provider)) = Some cached
  /\ FlakeTreeProvider.getChildren (Samples.failingEvaluator "offline")
       2000 61000 (Some cached) Samples.provider
     = (Samples.provider, Some cached, cs)
  /\ exists rest,
       FlakeTreeProvider.issued
         (fst (fst (FlakeTreeProvider.getChildren ev 2000 2000 (Some el)
                      Samples.provider)))
       = NixRunner.getValueType "/w" "programs" :: rest.
Proof.
  intros ev el cs cached.
  destruct (FlakeTreeProvider.fetchChildren ev 1000 el Samples.provider)
    as [[st1 el1] out] eqn:Hfetch.
  assert (Hout : out = FlakeTreeProvider.Returned cs /\ el1 = el).
  { vm_compute in Hfetch. injection Hfetch as _ <- <-. split; reflexivity. }
  destruct Hout as [-> ->].
  destruct (getChildren_caches_nonempty ev 1000 1000 Samples.provider st1 el el
              cs eq_refl eq_refl Hfetch) as (_ & Hfull & _ & Hother & _).
  destruct Hfull as [Hfirst Hagain]; [discriminate | discriminate |].
  rewrite Hfirst. split; [reflexivity|]. split; [reflexivity|].
  split.
  - apply (Hagain (Samples.failingEvaluator "offline") 2000%Z 61000%Z
                  Samples.provider eq_refl).
    lia.
  - apply (Hother ev 2000%Z 2000%Z Samples.provider el eq_refl eq_refl
                  eq_refl).
Defined.

(** C7, as stated, fails: a fetch that succeeds with no children leaves the
    node cache empty, and the call that follows at once asks the runner the
    same three queries again. So does the call for the root with the root
    path [cfg] configured, whose two children are fetched again by the
    call that follows at once. *)
Lemma empty_result_not_cached :
  let ev := Samples.setEvaluator [] in
  let el := Samples.nodeAt "programs" in
  let first := FlakeTreeProvider.getChildren ev 1000 1000 (Some el)
                 Samples.provider in
  let second := FlakeTreeProvider.getChildren ev 1001 1001 (snd (fst first))
                  (fst (fst first)) in
  let rooted :=
    FlakeTreeProvider.mkProvider "/w" "cfg" None ∅ ∅ "" [] [] [] in
  let ev2 := Samples.setEvaluator ["vim"; "git"] in
  let third := FlakeTreeProvider.getChildren ev2 1000 1000 None rooted in
  let fourth :=
    FlakeTreeProvider.getChildren ev2 1001 1001 None (fst (fst third)) in
  FlakeTreeProvider.queryFailure ev Samples.provider "programs" = None
  /\ snd first = []
  /\ (Node.cache <$> snd (fst first)) = Some None
  /\ map NixRunner.q_key (FlakeTreeProvider.issued (fst (fst first)))
     = ["type:programs"; "isDrv:programs"; "attrNames:programs"]
  /\ map NixRunner.q_key (FlakeTreeProvider.issued (fst (fst second)))
     = ["type:programs"; "isDrv:programs"; "attrNames:programs";
        "type:programs"; "isDrv:programs"; "attrNames:programs"]
  /\ map Node.attrPath (snd third) = ["cfg.git"; "cfg.vim"]
  /\ map NixRunner.q_key (FlakeTreeProvider.issued (fst (fst fourth)))
     = ["type:cfg"; "isDrv:cfg"; "attrNames:cfg";
        "type:cfg"; "isDrv:cfg"; "attrNames:cfg"].
Proof. vm_compute. repeat split. Qed.

(** X15. A call of [getChildren], whatever the node, the caches and the
    answers of the evaluator, issues at most three queries, every one of
    them in the directory of the flake. *)
Theorem getChildren_query_bound (ev : Evaluator) (writeTime now : Z)
        (element : option Node.FlakeNode)
        (st : FlakeTreeProvider.Provider) :
  let st' :=
    fst (fst (FlakeTreeProvider.getChildren ev writeTime now element st)) in
  exists qs,
    FlakeTreeProvider.issued st' = FlakeTreeProvider.issued st ++ qs
    /\ length qs <= 3
    /\ Forall (fun q =>
                 cwd (NixRunner.q_options q)
                 = FlakeTreeProvider.flakePath st) qs.
Proof. apply getChildren_effects. Qed.

(** X16. The paths known for the search are a set that [getChildren] only
    extends: after any call the paths known before are still known, in the
    same order; if no path was listed twice, none is; and the empty path is
    never added. *)
Theorem getChildren_index_grows (ev : Evaluator) (writeTime now : Z)
        (element : option Node.FlakeNode)
        (st : FlakeTreeProvider.Provider) :
  let st' :=
    fst (fst (FlakeTreeProvider.getChildren ev writeTime now element st)) in
  FlakeTreeProvider.knownPaths st `prefix_of` FlakeTreeProvider.knownPaths st'
  /\ (NoDup (FlakeTreeProvider.knownPaths st) ->
      NoDup (FlakeTreeProvider.knownPaths st'))
  /\ ("" ∉ FlakeTreeProvider.knownPaths st ->
      "" ∉ FlakeTreeProvider.knownPaths st').
Proof. apply getChildren_effects. Qed.

Section FetchFacts.
Import Node FlakeTreeProvider.

Variable ev : Evaluator.
Variable writeTime : Z.

(** The node that [fetchAttrsetChildren] leaves: a derivation when the
    check says so. *)
Lemma fetchChildren_set (el : FlakeNode) (st : Provider)
      (names : list string) :
  success (evalType ev (attrPath el)) = true ->
  data (evalType ev (attrPath el)) = Some "set" ->
  prefetchCache st !! attrPath el = None ->
  success (evalAttrNames ev (attrPath el)) = true ->
  data (evalAttrNames ev (attrPath el)) = Some names ->
  exists st1 el1,
    fetchChildren ev writeTime el st
    = (st1, el1,
       Returned (map (fun name => createChild name Attrset el1)
                     (JS.sortStrings names)))
    /\ attrPath el1 = attrPath el
    /\ issued st1
       = issued st
         ++ [NixRunner.getValueType (flakePath st) (attrPath el);
             NixRunner.isDerivation (flakePath st) (attrPath el);
             NixRunner.getAttrNames (flakePath st) (attrPath el)].
Proof.
  intros Hts Htd Hpre Hns Hnd.
  unfold fetchChildren. rewrite Hts, Htd. cbn [negb].
  unfold fetchAttrsetChildren. cbn [prefetchCache ask]. rewrite Hpre.
  match goal with
  | |- context [if ?c then updateAppearance ?n else el] =>
      set (el1 := if c then updateAppearance n else el)
  end.
  assert (Hp : attrPath el1 = attrPath el).
  { unfold el1. destruct (_ && _); [|reflexivity].
    now rewrite updateAppearance_path. }
  rewrite Hp, Hns, Hnd. cbn [negb].
  eexists _, el1. split; [reflexivity|]. split; [exact Hp|].
  simpl. rewrite <- !app_assoc. simpl. reflexivity.
Qed.

Lemma createChild_fields (name : string) (n : FlakeNode) :
  let c := createChild name Attrset n in
  label c = name
  /\ attrPath c
     = (if JS.truthy (attrPath n) then attrPath n +:+ "." +:+ name
        else name)
  /\ nodeType c = Attrset
  /\ collapsibleState c = Collapsed
  /\ cache c = None.
Proof. cbv zeta. unfold createChild. simpl. auto. Qed.

End FetchFacts.

(** X17. The children of an attribute set that is not prefetched are its
    attribute names, each one once, in code-unit order: each child is an
    expandable attribute-set node labelled with the name, at the path of
    the parent, a dot and the name (the name alone under a parent with the
    empty path), and every child path that is not empty is known to the
    search afterwards. Three queries are issued: type, derivation check,
    attribute names. *)
Theorem getChildren_set_sorted (ev : Evaluator) (writeTime now : Z)
        (el : Node.FlakeNode) (st : FlakeTreeProvider.Provider)
        (names : list string) :
  JS.truthy (FlakeTreeProvider.flakePath st) = true ->
  FlakeTreeProvider.filterPath st = "" ->
  Node.getCachedChildren now el = None ->
  success (evalType ev (Node.attrPath el)) = true ->
  data (evalType ev (Node.attrPath el)) = Some "set" ->
  FlakeTreeProvider.prefetchCache st !! Node.attrPath el = None ->
  success (evalAttrNames ev (Node.attrPath el)) = true ->
  data (evalAttrNames ev (Node.attrPath el)) = Some names ->
  let '(st', _, cs) :=
    FlakeTreeProvider.getChildren ev writeTime now (Some el) st in
  map Node.label cs ≡ₚ names
  /\ StronglySorted (fun a b => String.leb a b = true) (map Node.label cs)
  /\ Forall
       (fun c =>
          Node.attrPath c
          = (if JS.truthy (Node.attrPath el)
             then Node.attrPath el +:+ "." +:+ Node.label c
             else Node.label c)
          /\ Node.nodeType c = Node.Attrset
          /\ Node.collapsibleState c = Node.Collapsed
          /\ (JS.truthy (Node.attrPath c) = true ->
              Node.attrPath c ∈ FlakeTreeProvider.knownPaths st'))
       cs
  /\ map NixRunner.q_key (FlakeTreeProvider.issued st')
     = map NixRunner.q_key (FlakeTreeProvider.issued st)
       ++ ["type:" +:+ Node.attrPath el; "isDrv:" +:+ Node.attrPath el;
           "attrNames:" +:+ Node.attrPath el].
Proof.
  intros Hflake Hfilter Hmiss Hts Htd Hpre Hns Hnd.
  destruct (fetchChildren_set ev writeTime el st names Hts Htd Hpre Hns Hnd)
    as (st1 & el1 & Hfetch & Hpath & Hissued).
  rewrite (getChildren_miss ev writeTime now st st1 el el1 _
             Hflake Hmiss Hfetch).
  rewrite (applyFilter_off st _ Hfilter).
  set (cs := map (fun name => Node.createChild name Node.Attrset el1)
                 (JS.sortStrings names)).
  destruct (indexFold_grows Node.attrPath cs st1) as (_ & Hi & Hknown).
  fold (FlakeTreeProvider.indexAll cs st1) in Hi, Hknown.
  assert (Hlabels : map Node.label cs = JS.sortStrings names).
  { unfold cs. rewrite map_map. simpl. apply map_id. }
  assert (Hrest :
    forall st',
      FlakeTreeProvider.knownPaths st'
      = FlakeTreeProvider.knownPaths (FlakeTreeProvider.indexAll cs st1) ->
      FlakeTreeProvider.issued st'
      = FlakeTreeProvider.issued (FlakeTreeProvider.indexAll cs st1) ->
      map Node.label cs ≡ₚ names
      /\ StronglySorted (fun a b => String.leb a b = true)
                        (map Node.label cs)
      /\ Forall
           (fun c =>
              Node.attrPath c
              = (if JS.truthy (Node.attrPath el)
                 then Node.attrPath el +:+ "." +:+ Node.label c
                 else Node.label c)
              /\ Node.nodeType c = Node.Attrset
              /\ Node.collapsibleState c = Node.Collapsed
              /\ (JS.truthy (Node.attrPath c) = true ->
                  Node.attrPath c ∈ FlakeTreeProvider.knownPaths st'))
           cs
      /\ map NixRunner.q_key (FlakeTreeProvider.issued st')
         = map NixRunner.q_key (FlakeTreeProvider.issued st)
           ++ ["type:" +:+ Node.attrPath el; "isDrv:" +:+ Node.attrPath el;
               "attrNames:" +:+ Node.attrPath el]).
  { intros st' Hk Hq. rewrite Hlabels.
    split; [apply sortStrings_perm|]. split; [apply sortStrings_sorted|].
    split.
    - rewrite Hk. apply Forall_forall. intros c Hc.
      rewrite Forall_forall in Hknown. specialize (Hknown c Hc).
      unfold cs in Hc. apply list_elem_of_In, in_map_iff in Hc
        as (name & <- & _).
      destruct (createChild_fields name el1) as (Hl & Ha & Ht & Hc & _).
      rewrite Hl, Ha, Hpath. repeat split; try assumption.
      rewrite <- Hpath, <- Ha. exact Hknown.
    - rewrite Hq, Hi, Hissued, map_app. reflexivity. }
  destruct (_ && _); apply Hrest; reflexivity.
Qed.

Lemma getChildren_set_sorted_witness :
  map Node.label
      (snd (FlakeTreeProvider.getChildren
              (Samples.setEvaluator ["services"; "Programs"; "boot"]) 0 0
              (Some (Samples.nodeAt "cfg")) Samples.provider))
  ≡ₚ ["services"; "Programs"; "boot"].
Proof.
  pose proof
    (getChildren_set_sorted
       (Samples.setEvaluator ["services"; "Programs"; "boot"]) 0 0
       (Samples.nodeAt "cfg") Samples.provider
       ["services"; "Programs"; "boot"]
       eq_refl eq_refl eq_refl eq_refl eq_refl eq_refl eq_refl eq_refl)
    as H.
  destruct (FlakeTreeProvider.getChildren _ _ _ _ _) as [[st' el'] cs].
  exact (proj1 H).
Defined.

(** X18. With no root path configured, the children of the root are the
    outputs of [nix flake show], each one once, in code-unit order: an
    expandable node whose label and path are the name of the output. One
    query is issued; the names that are not empty are known to the search;
    the children are recorded as the last good children of the root, so a
    later call whose query fails returns them again. *)
Theorem getChildren_top_level (ev : Evaluator) (writeTime now : Z)
        (st : FlakeTreeProvider.Provider) (outputs : list (string * Json)) :
  JS.truthy (FlakeTreeProvider.flakePath st) = true ->
  FlakeTreeProvider.rootPath st = "" ->
  FlakeTreeProvider.filterPath st = "" ->
  success (evalFlakeShow ev) = true ->
  data (evalFlakeShow ev) = Some outputs ->
  let '(st', _, cs) :=
    FlakeTreeProvider.getChildren ev writeTime now None st in
  map Node.label cs ≡ₚ map fst outputs
  /\ StronglySorted (fun a b => String.leb a b = true) (map Node.label cs)
  /\ Forall
       (fun c =>
          Node.attrPath c = Node.label c
          /\ Node.nodeType c = Node.Attrset
          /\ Node.collapsibleState c = Node.Collapsed
          /\ (JS.truthy (Node.attrPath c) = true ->
              Node.attrPath c ∈ FlakeTreeProvider.knownPaths st'))
       cs
  /\ FlakeTreeProvider.issued st'
     = FlakeTreeProvider.issued st
       ++ [NixRunner.flakeShow (FlakeTreeProvider.flakePath st)]
  /\ FlakeTreeProvider.lastGoodChildren st' !! "" = Some cs
  /\ forall ev' writeTime' now',
       success (evalFlakeShow ev') = false ->
       snd (FlakeTreeProvider.getChildren ev' writeTime' now' None st') = cs.
Proof.
  intros Hflake Hroot Hfilter Hs Hd.
  unfold FlakeTreeProvider.getChildren, FlakeTreeProvider.getChildrenTry,
    FlakeTreeProvider.getRootChildren.
  rewrite Hflake, Hroot. cbn [negb JS.truthy].
  unfold FlakeTreeProvider.fetchTopLevelOutputs at 1.
  rewrite Hs, Hd. cbn [negb].
  set (keys := JS.sortStrings (map fst outputs)).
  set (cs := map (fun key => Node.new key key Node.Attrset Node.Collapsed)
                 keys).
  set (st2 := FlakeTreeProvider.emitStatus _ _ _).
  destruct (indexFold_grows (fun key : string => key) keys st2)
    as (_ & Hi & Hknown).
  set (st3 := fold_left _ keys st2) in *.
  set (st' := FlakeTreeProvider.setLastGood "" cs st3).
  assert (Hf' : FlakeTreeProvider.filterPath st' = "").
  { unfold st'. simpl.
    assert (Hsame : forall l a,
               FlakeTreeProvider.filterPath
                 (fold_left (fun s key => FlakeTreeProvider.indexPath key s)
                            l a)
               = FlakeTreeProvider.filterPath a).
    { induction l as [|k l IH]; intros a; [reflexivity|]. simpl.
      rewrite IH. unfold FlakeTreeProvider.indexPath.
      now destruct (_ && _). }
    unfold st3. rewrite Hsame. exact Hfilter. }
  assert (Hfl' : FlakeTreeProvider.flakePath st'
                 = FlakeTreeProvider.flakePath st
                 /\ FlakeTreeProvider.rootPath st' = "").
  { assert (Hsame : forall l a,
               FlakeTreeProvider.flakePath
                 (fold_left (fun s key => FlakeTreeProvider.indexPath key s)
                            l a)
               = FlakeTreeProvider.flakePath a
               /\ FlakeTreeProvider.rootPath
                    (fold_left
                       (fun s key => FlakeTreeProvider.indexPath key s) l a)
                  = FlakeTreeProvider.rootPath a).
    { induction l as [|k l IH]; intros a; [now split|]. simpl.
      destruct (IH (FlakeTreeProvider.indexPath k a)) as [-> ->].
      unfold FlakeTreeProvider.indexPath. now destruct (_ && _). }
    unfold st', st3. simpl. destruct (Hsame keys st2) as [-> ->].
    split; [reflexivity | exact Hroot]. }
  destruct Hfl' as [Hfl' Hr'].
  rewrite (applyFilter_off st' cs Hf').
  assert (Hlabels : map Node.label cs = keys).
  { unfold cs. rewrite map_map. simpl. apply map_id. }
  rewrite Hlabels.
  split; [apply sortStrings_perm|]. split; [apply sortStrings_sorted|].
  split.
  { apply Forall_forall. intros c Hc. unfold cs in Hc.
    apply list_elem_of_In, in_map_iff in Hc as (key & <- & Hkey).
    simpl. repeat split. intros Ht.
    rewrite Forall_forall in Hknown. apply Hknown; [|exact Ht].
    now apply list_elem_of_In. }
  split; [exact Hi|].
  split; [unfold st'; simpl; apply lookup_insert_eq|].
  intros ev' writeTime' now' Hfail.
  unfold FlakeTreeProvider.getChildren, FlakeTreeProvider.getChildrenTry,
    FlakeTreeProvider.getRootChildren.
  rewrite Hfl', Hflake, Hr'. cbn [negb JS.truthy].
  unfold FlakeTreeProvider.fetchTopLevelOutputs. rewrite Hfail.
  cbn [negb]. simpl FlakeTreeProvider.lastGoodChildren.
  rewrite lookup_insert_eq. cbn [snd].
  apply applyFilter_off. simpl. exact Hf'.
Qed.

Lemma getChildren_top_level_witness :
  map Node.label
      (snd (FlakeTreeProvider.getChildren
              (mkEvaluator (fun _ => Samples.failed "unused")
                 (fun _ => Samples.failed "unused")
                 (fun _ => Samples.failed "unused")
                 (fun _ => Samples.failed "unused")
                 (fun _ => Samples.failed "unused")
                 (Samples.ok [("packages", JObj []); ("apps", JObj [])]))
              0 0 None Samples.provider))
  ≡ₚ ["packages"; "apps"].
Proof.
  pose proof
    (getChildren_top_level
       (mkEvaluator (fun _ => Samples.failed "unused")
          (fun _ => Samples.failed "unused")
          (fun _ => Samples.failed "unused")
          (fun _ => Samples.failed "unused")
          (fun _ => Samples.failed "unused")
          (Samples.ok [("packages", JObj []); ("apps", JObj [])]))
       0 0 Samples.provider [("packages", JObj []); ("apps", JObj [])]
       eq_refl eq_refl eq_refl eq_refl eq_refl) as H.
  destruct (FlakeTreeProvider.getChildren _ _ _ _ _) as [[st' el'] cs].
  exact (proj1 H).
Defined.

Section LeafFacts.
Import Node FlakeTreeProvider.

Variable ev : Evaluator.
Variable writeTime : Z.

Lemma fetchChildren_leaf (el : FlakeNode) (st : Provider) :
  success (evalType ev (attrPath el)) = true ->
  data (evalType ev (attrPath el)) <> Some "set" ->
  data (evalType ev (attrPath el)) <> Some "list" ->
  fetchChildren ev writeTime el st
  = let '(st2, el2) :=
      fetchLeafValue ev writeTime
        (setCollapsibleState NotCollapsible (setNodeType Leaf el))
        (ask (NixRunner.getValueType (flakePath st) (attrPath el)) st) in
    (st2, el2, Returned []).
Proof.
  intros Hs Hset Hlist. unfold fetchChildren. rewrite Hs. cbn [negb].
  destruct (data (evalType ev (attrPath el))) as [ty|]; [|reflexivity].
  assert (Hs' : ty <> "set") by congruence.
  assert (Hl' : ty <> "list") by congruence.
  repeat (match goal with
          | |- context [match ?x with _ => _ end] =>
              match type of x with
              | string => destruct x
              | ascii => destruct x
              | bool => destruct x
              end
          end; try congruence; try reflexivity).
Qed.

End LeafFacts.

(** X19. A value that is neither an attribute set nor a list has no
    children: [getChildren] returns the empty list, records nothing as last
    good children and caches no children, and turns the node into a leaf
    that cannot be expanded and shows the formatted value; when the value
    query fails the node becomes an error node that carries the message
    instead. Two queries are issued, for the type and for the value. *)
Theorem getChildren_leaf (ev : Evaluator) (writeTime now : Z)
        (el : Node.FlakeNode) (st : FlakeTreeProvider.Provider) :
  JS.truthy (FlakeTreeProvider.flakePath st) = true ->
  Node.getCachedChildren now el = None ->
  success (evalType ev (Node.attrPath el)) = true ->
  data (evalType ev (Node.attrPath el)) <> Some "set" ->
  data (evalType ev (Node.attrPath el)) <> Some "list" ->
  let value := evalValue ev (Node.attrPath el) in
  exists st' el',
    FlakeTreeProvider.getChildren ev writeTime now (Some el) st
    = (st', Some el', [])
    /\ FlakeTreeProvider.lastGoodChildren st'
       = FlakeTreeProvider.lastGoodChildren st
    /\ map NixRunner.q_key (FlakeTreeProvider.issued st')
       = map NixRunner.q_key (FlakeTreeProvider.issued st)
         ++ ["type:" +:+ Node.attrPath el; "value:" +:+ Node.attrPath el]
    /\ Node.collapsibleState el' = Node.NotCollapsible
    /\ (forall now', (now <= now')%Z ->
                      Node.getCachedChildren now' el' = None)
    /\ (success value = true ->
        Node.nodeType el' = Node.Leaf
        /\ Node.description el' = Node.formatValue <$> data value)
    /\ (success value = false ->
        Node.nodeType el' = Node.Error
        /\ Node.description el' = Some "error"
        /\ Node.errorMessage el'
           = Some (JS.opt_or_else (error value) "Failed to evaluate")).
Proof.
  intros Hflake Hmiss Hs Hset Hlist. cbv zeta.
  pose proof (fetchChildren_leaf ev writeTime el st Hs Hset Hlist) as Hfetch.
  unfold FlakeTreeProvider.fetchLeafValue in Hfetch.
  cbn [Node.attrPath Node.setCollapsibleState Node.setNodeType] in Hfetch.
  destruct (success (evalValue ev (Node.attrPath el))) eqn:Hv.
  - rewrite (getChildren_miss ev writeTime now st _ el _ [] Hflake Hmiss
               Hfetch).
    cbn [length Nat.ltb Nat.leb andb]. rewrite applyFilter_nil.
    eexists _, _. split; [reflexivity|].
    split; [reflexivity|].
    split; [simpl; now rewrite !map_app, <- app_assoc|].
    split; [reflexivity|]. split; [reflexivity|].
    split; [intros _; split; reflexivity | discriminate].
  - rewrite (getChildren_miss ev writeTime now st _ el _ [] Hflake Hmiss
               Hfetch).
    cbn [length Nat.ltb Nat.leb andb]. rewrite applyFilter_nil.
    eexists _, _. split; [reflexivity|].
    split; [reflexivity|].
    split; [simpl; now rewrite !map_app, <- app_assoc|].
    split; [reflexivity|].
    split.
    { intros now' Hnow. unfold Node.getCachedChildren in *. simpl.
      destruct (Node.cache el) as [c|]; [|reflexivity].
      destruct (Node.children c); [|reflexivity].
      destruct (60000 <? now - Node.timestamp c)%Z eqn:E; [|discriminate].
      apply Z.ltb_lt in E.
      destruct (60000 <? now' - Node.timestamp c)%Z eqn:E'; [reflexivity|].
      apply Z.ltb_ge in E'. lia. }
    split; [discriminate | intros _; repeat split].
Qed.

Lemma getChildren_leaf_witness :
  exists st' el',
    FlakeTreeProvider.getChildren
      (mkEvaluator (fun _ => Samples.ok "string")
         (fun _ => Samples.failed "unused") (fun _ => Samples.failed "unused")
         (fun _ => Samples.ok (JStr "hello"))
         (fun _ => Samples.failed "unused") (Samples.failed "unused"))
      0 0 (Some (Samples.nodeAt "a.b")) Samples.provider
    = (st', Some el', [])
    /\ Node.description el' = Some (NixRunner.dq +:+ "hello" +:+ NixRunner.dq).
Proof.
  destruct
    (getChildren_leaf
       (mkEvaluator (fun _ => Samples.ok "string")
          (fun _ => Samples.failed "unused")
          (fun _ => Samples.failed "unused")
          (fun _ => Samples.ok (JStr "hello"))
          (fun _ => Samples.failed "unused") (Samples.failed "unused"))
       0 0 (Samples.nodeAt "a.b") Samples.provider)
    as (st' & el' & Hget & _ & _ & _ & _ & Hok & _);
    [reflexivity | reflexivity | reflexivity | discriminate | discriminate|].
  exists st', el'. split; [exact Hget|].
  destruct (Hok eq_refl) as [_ Hd]. exact Hd.
Defined.

Section PrefetchFacts.
Import Node FlakeTreeProvider.

Lemma indexPath_settings (p : string) (a : Provider) :
  flakePath (indexPath p a) = flakePath a
  /\ filterPath (indexPath p a) = filterPath a
  /\ prefetchCache (indexPath p a) = prefetchCache a
  /\ lastGoodChildren (indexPath p a) = lastGoodChildren a
  /\ issued (indexPath p a) = issued a.
Proof. unfold indexPath. destruct (_ && _); simpl; auto. Qed.

Lemma indexFold_settings {A : Type} (f : A -> string) (l : list A)
      (a : Provider) :
  let b := fold_left (fun s x => indexPath (f x) s) l a in
  flakePath b = flakePath a
  /\ filterPath b = filterPath a
  /\ prefetchCache b = prefetchCache a
  /\ lastGoodChildren b = lastGoodChildren a
  /\ issued b = issued a.
Proof.
  cbv zeta. revert a. induction l as [|x l IH]; intros a; [simpl; auto|].
  simpl. destruct (IH (indexPath (f x) a)) as (-> & -> & -> & -> & ->).
  apply indexPath_settings.
Qed.

Lemma prefetched_fields (fullPath : string) (names : list string)
      (result : NixEvalResult (list string)) (st : Provider) :
  success result = true -> data result = Some names ->
  let st1 := prefetched fullPath result st in
  let cs :=
    map (fun name => new name (fullPath +:+ "." +:+ name) Attrset Collapsed)
        (JS.sortStrings names) in
  prefetchCache st1 !! fullPath = Some cs
  /\ lastGoodChildren st1 !! fullPath = Some cs
  /\ flakePath st1 = flakePath st
  /\ filterPath st1 = filterPath st
  /\ issued st1 = issued st.
Proof.
  intros Hs Hd. cbv zeta. unfold prefetched. rewrite Hs, Hd.
  match goal with
  | |- context [indexPath fullPath ?s] =>
      destruct (indexPath_settings fullPath s) as (-> & -> & -> & -> & ->)
  end.
  cbn [prefetchCache lastGoodChildren flakePath filterPath issued].
  rewrite !lookup_insert_eq.
  destruct (indexFold_settings
              (fun name : string => fullPath +:+ "." +:+ name)
              (JS.sortStrings names) st) as (-> & -> & _ & _ & ->).
  auto.
Qed.

End PrefetchFacts.

(** X20. Prefetched children stand in for a fetch. Once the attribute
    names of a path have been prefetched, [getChildren] on a node at that
    path whose type is an attribute set asks for the type only and returns
    the prefetched children; they are the nodes that a fetch of the same
    names builds with [createChild]: the names in code-unit order, each at
    the path of the node, a dot and the name. *)
Theorem prefetched_children_used (ev : Evaluator) (writeTime now : Z)
        (el : Node.FlakeNode) (st : FlakeTreeProvider.Provider)
        (result : NixEvalResult (list string)) (names : list string) :
  success result = true -> data result = Some names ->
  JS.truthy (FlakeTreeProvider.flakePath st) = true ->
  FlakeTreeProvider.filterPath st = "" ->
  JS.truthy (Node.attrPath el) = true ->
  Node.getCachedChildren now el = None ->
  success (evalType ev (Node.attrPath el)) = true ->
  data (evalType ev (Node.attrPath el)) = Some "set" ->
  let st1 := FlakeTreeProvider.prefetched (Node.attrPath el) result st in
  let '(st', _, cs) :=
    FlakeTreeProvider.getChildren ev writeTime now (Some el) st1 in
  cs = map (fun name => Node.createChild name Node.Attrset el)
           (JS.sortStrings names)
  /\ FlakeTreeProvider.issued st'
     = FlakeTreeProvider.issued st
       ++ [NixRunner.getValueType (FlakeTreeProvider.flakePath st)
                                  (Node.attrPath el)].
Proof.
  intros Hs Hd Hflake Hfilter Hpath Hmiss Hts Htd. cbv zeta.
  destruct (prefetched_fields (Node.attrPath el) names result st Hs Hd)
    as (Hpre & _ & Hfl & Hfi & Hiss).
  set (st1 := FlakeTreeProvider.prefetched (Node.attrPath el) result st) in *.
  set (cs := map (fun name =>
                    Node.new name (Node.attrPath el +:+ "." +:+ name)
                             Node.Attrset Node.Collapsed)
                 (JS.sortStrings names)) in *.
  assert (Hfetch :
    FlakeTreeProvider.fetchChildren ev writeTime el st1
    = (FlakeTreeProvider.ask
         (NixRunner.getValueType (FlakeTreeProvider.flakePath st1)
                                 (Node.attrPath el)) st1,
       el, FlakeTreeProvider.Returned cs)).
  { unfold FlakeTreeProvider.fetchChildren. rewrite Hts, Htd. cbn [negb].
    unfold FlakeTreeProvider.fetchAttrsetChildren.
    cbn [FlakeTreeProvider.prefetchCache FlakeTreeProvider.ask].
    now rewrite Hpre. }
  assert (Hflake1 : JS.truthy (FlakeTreeProvider.flakePath st1) = true)
    by now rewrite Hfl.
  rewrite (getChildren_miss ev writeTime now st1 _ el el cs Hflake1 Hmiss
             Hfetch).
  rewrite (applyFilter_off st1 cs) by now rewrite Hfi.
  assert (Hcs : cs = map (fun name => Node.createChild name Node.Attrset el)
                         (JS.sortStrings names)).
  { unfold cs. apply map_ext. intros name. unfold Node.createChild.
    now rewrite Hpath. }
  assert (Hissued : forall s,
             FlakeTreeProvider.issued s
             = FlakeTreeProvider.issued
                 (FlakeTreeProvider.ask
                    (NixRunner.getValueType (FlakeTreeProvider.flakePath st1)
                                            (Node.attrPath el)) st1) ->
             FlakeTreeProvider.issued s
             = FlakeTreeProvider.issued st
               ++ [NixRunner.getValueType (FlakeTreeProvider.flakePath st)
                                          (Node.attrPath el)]).
  { intros s ->. simpl. now rewrite Hiss, Hfl. }
  destruct (_ && _); (split; [exact Hcs|]); apply Hissued; simpl;
    now rewrite issued_index_all.
Qed.

Lemma prefetched_children_used_witness :
  map Node.attrPath
      (snd (FlakeTreeProvider.getChildren
              (Samples.setEvaluator []) 0 0
              (Some (Samples.nodeAt "cfg.programs"))
              (FlakeTreeProvider.prefetched "cfg.programs"
                 (Samples.ok ["vim"; "git"]) Samples.provider)))
  = ["cfg.programs.git"; "cfg.programs.vim"].
Proof.
  pose proof
    (prefetched_children_used (Samples.setEvaluator []) 0 0
       (Samples.nodeAt "cfg.programs") Samples.provider
       (Samples.ok ["vim"; "git"]) ["vim"; "git"]
       eq_refl eq_refl eq_refl eq_refl eq_refl eq_refl eq_refl eq_refl)
    as H.
  cbv zeta in H.
  change (Node.attrPath (Samples.nodeAt "cfg.programs"))
    with "cfg.programs" in H.
  destruct (FlakeTreeProvider.getChildren _ _ _ _ _) as [[st' el'] cs].
  destruct H as [-> _]. reflexivity.
Defined.

Section FilterFacts.
Import Node FlakeTreeProvider.

Lemma toLowerCase_append (a b : string) :
  JS.toLowerCase (a +:+ b) = JS.toLowerCase a +:+ JS.toLowerCase b.
Proof. induction a as [|c a IH]; simpl; [reflexivity | now rewrite IH]. Qed.

Lemma startsWith_lower (s pre : string) :
  JS.startsWith s pre = true ->
  JS.startsWith (JS.toLowerCase s) (JS.toLowerCase pre) = true.
Proof.
  unfold JS.startsWith. intros H. apply prefix_inv in H as [rest ->].
  rewrite toLowerCase_append. apply prefix_append.
Qed.

Lemma isAncestor_lower (a b : string) :
  AttrPath.isAncestor a b ->
  JS.toLowerCase b = JS.toLowerCase a
  \/ JS.startsWith (JS.toLowerCase b) (JS.toLowerCase a +:+ ".") = true.
Proof.
  intros H. apply underCollapsed_isAncestor in H.
  unfold SmartCache.underCollapsed in H. apply orb_true_iff in H as [H|H].
  - apply String.eqb_eq in H. left. now subst.
  - right. apply startsWith_lower in H.
    now rewrite toLowerCase_append in H.
Qed.

End FilterFacts.

(** X21. The filter never hides what it is about. After [setFilterPath]
    with a text of ASCII characters whose trimmed form is the path [f],
    [applyFilter] keeps every child with a path of ASCII characters that,
    relative to the root path, is [f], one of its ancestors or one of its
    descendants (by dot-separated segments); a text that is empty or white
    space only filters nothing out. *)
Theorem setFilterPath_keeps_related (st : FlakeTreeProvider.Provider)
        (path : string) (cs : list Node.FlakeNode) (child : Node.FlakeNode) :
  JS.isAscii path = true ->
  JS.isAscii (Node.attrPath child) = true ->
  child ∈ cs ->
  (let relative :=
     FlakeTreeProvider.toRelativePath (FlakeTreeProvider.rootPath st)
                                      (Node.attrPath child) in
   JS.allChars JS.isSpace path = true
   \/ AttrPath.isAncestor relative (JS.trim path)
   \/ AttrPath.isAncestor (JS.trim path) relative) ->
  child
  ∈ FlakeTreeProvider.applyFilter
      (FlakeTreeProvider.setFilterPath path st) cs.
Proof.
  intros _ _ Hin Hrel. cbv zeta in Hrel.
  set (st' := FlakeTreeProvider.setFilterPath path st).
  assert (Hf : FlakeTreeProvider.filterPath st' = JS.trim path
               /\ FlakeTreeProvider.rootPath st'
                  = FlakeTreeProvider.rootPath st).
  { unfold st', FlakeTreeProvider.setFilterPath. simpl.
    now destruct (JS.truthy (JS.trim path)). }
  destruct Hf as [Hf Hr].
  unfold FlakeTreeProvider.applyFilter. rewrite Hf.
  destruct Hrel as [Hblank|Hrel].
  { now rewrite (trim_spaces _ Hblank). }
  destruct (negb (JS.truthy (JS.trim path))); [exact Hin|].
  apply list_elem_of_In, filter_In. split; [now apply list_elem_of_In|].
  unfold FlakeTreeProvider.matchesFilter. rewrite Hf, Hr.
  destruct Hrel as [H|H]; apply isAncestor_lower in H as [H|H].
  - rewrite H, String.eqb_refl. reflexivity.
  - rewrite H. now case_match.
  - rewrite H, String.eqb_refl. reflexivity.
  - rewrite H. cbn [orb]. repeat case_match; reflexivity.
Qed.

Lemma setFilterPath_keeps_related_witness :
  Samples.nodeAt "cfg.programs"
  ∈ FlakeTreeProvider.applyFilter
      (FlakeTreeProvider.setFilterPath
         " programs.git "
         (FlakeTreeProvider.mkProvider "/w" "cfg" None ∅ ∅ "" [] [] []))
      [Samples.nodeAt "cfg.boot"; Samples.nodeAt "cfg.programs"].
Proof.
  apply setFilterPath_keeps_related.
  - reflexivity.
  - reflexivity.
  - apply list_elem_of_further, list_elem_of_here.
  - right. left. exists ["git"]. reflexivity.
Defined.

(** X22. What a node shows for a string value is bounded: the text that
    [setValue] writes for a string is the string between double quotes when
    it has at most 50 characters, and otherwise its first 47 characters,
    three dots, between double quotes; it is never longer than 52
    characters. *)
Theorem formatValue_string_bound (s : string) :
  String.length (Node.formatValue (JStr s))
  = 2 + Nat.min 50 (String.length s)
  /\ exists shown,
      Node.formatValue (JStr s) = NixRunner.dq +:+ shown +:+ NixRunner.dq
      /\ String.prefix (JS.take s 47) shown = true
      /\ (String.length s <= 50 -> shown = s).
Proof.
  assert (Htake : forall n t, String.length (JS.take t n)
                              = Nat.min n (String.length t)).
  { induction n as [|n IH]; intros [|c t]; simpl; auto. }
  assert (Hprefix : forall n t, String.prefix (JS.take t n) t = true).
  { induction n as [|n IH]; intros [|c t]; simpl; auto.
    destruct (ascii_dec c c); [apply IH | congruence]. }
  unfold Node.formatValue.
  destruct (50 <? String.length s)%nat eqn:E.
  - apply Nat.ltb_lt in E. split.
    + unfold NixRunner.dq. rewrite !length_append, Htake.
      change (String.length (String (ascii_of_nat 34) "")) with 1.
      change (String.length "...") with 3. lia.
    + eexists. split; [reflexivity|]. split; [apply prefix_append | lia].
  - apply Nat.ltb_ge in E. split.
    + unfold NixRunner.dq. rewrite !length_append.
      change (String.length (String (ascii_of_nat 34) "")) with 1. lia.
    + exists s. split; [reflexivity|]. split; [apply Hprefix | reflexivity].
Qed.

(** ** The status view, the expansion set and the file watcher *)

(** X23. The status view keeps the most recent updates, the newest first,
    and never more than 50: after any sequence of updates its history is the
    first 50 entries of the sequence read backwards, and the view is sent
    the 10 most recent ones. *)
Theorem statusHistory_recent (updates : list StatusView.StatusUpdate) :
  StatusView.received updates = take 50 (rev updates)
  /\ length (StatusView.received updates) = Nat.min 50 (length updates)
  /\ StatusView.posted (StatusView.received updates)
     = take 10 (rev updates).
Proof.
  assert (H : StatusView.received updates = take 50 (rev updates)).
  { unfold StatusView.received.
    induction updates as [|u updates IH] using rev_ind; [reflexivity|].
    rewrite fold_left_app, IH, rev_unit. cbn [fold_left].
    unfold StatusView.updateStatus, StatusView.maxHistory.
    cbn [take]. cbn [length].
    destruct (50 <? S (length (take 50 (rev updates))))%nat eqn:E.
    - f_equal. now rewrite take_take.
    - apply Nat.ltb_ge in E. f_equal.
      rewrite length_take in E.
      rewrite !take_ge; [reflexivity | lia | lia]. }
  split; [exact H|]. split.
  - rewrite H, length_take, length_rev. reflexivity.
  - unfold StatusView.posted. rewrite H, take_take. reflexivity.
Qed.

Section ExpansionFacts.

Lemma elem_of_remove (p q : string) (paths : list string) :
  q ∈ SmartCache.remove p paths <-> q ∈ paths /\ q <> p.
Proof.
  unfold SmartCache.remove. rewrite !list_elem_of_In, filter_In.
  rewrite negb_true_iff, String.eqb_neq. split; intros [H1 H2]; split; auto.
Qed.

End ExpansionFacts.

(** X24. Collapsing a node takes the node itself out of the set of expanded
    paths and nothing else: every other expanded path, a descendant of the
    collapsed node included, stays expanded, and the next smart refresh
    still fires the change event for its node. *)
Theorem onNodeCollapsed_keeps_others_expanded
        (findNodeByPath : string -> option Node.FlakeNode)
        (p q : string) (st : SmartCache.TreeState) (node : Node.FlakeNode) :
  q ∈ SmartCache.expandedPaths st -> q <> p ->
  findNodeByPath q = Some node ->
  let st' := SmartCache.onNodeCollapsed p st in
  (p ∉ SmartCache.expandedPaths st')
  /\ q ∈ SmartCache.expandedPaths st'
  /\ node ∈ SmartCache.fired (SmartCache.smartRefresh findNodeByPath st').
Proof.
  intros Hq Hne Hnode. cbv zeta.
  assert (Hq' : q ∈ SmartCache.expandedPaths (SmartCache.onNodeCollapsed p st)).
  { simpl. apply elem_of_remove. now split. }
  split; [|split; [exact Hq'|]].
  - simpl. rewrite elem_of_remove. now intros [_ H].
  - unfold SmartCache.smartRefresh. rewrite refresh_fold_fired.
    apply elem_of_app. right. apply list_elem_of_omap. exists q.
    split; [|exact Hnode].
    unfold SmartCache.sortedPaths. now rewrite sort_perm.
Qed.

Lemma onNodeCollapsed_keeps_others_expanded_witness :
  Samples.nodeAt "programs.git"
  ∈ SmartCache.fired
      (SmartCache.smartRefresh (fun path => Some (Samples.nodeAt path))
         (SmartCache.onNodeCollapsed "programs"
            (SmartCache.mkTreeState ["programs"; "programs.git"] ∅ []))).
Proof.
  apply (onNodeCollapsed_keeps_others_expanded
           (fun path => Some (Samples.nodeAt path)) "programs" "programs.git"
           (SmartCache.mkTreeState ["programs"; "programs.git"] ∅ [])).
  - apply list_elem_of_further, list_elem_of_here.
  - discriminate.
  - reflexivity.
Defined.

Section WatcherFacts.
Import Extension.

Variable findNodeByPath : string -> option Node.FlakeNode.

Local Notation step := (Extension.step findNodeByPath).
Local Notation exec := (Extension.exec findNodeByPath).
Local Notation reachable := (Extension.reachable findNodeByPath).

Lemma clearDebounce_pending (w : Watcher) (tid : nat) :
  onePending w -> clearDebounce w !! tid <> Some Runner.Pending.
Proof.
  intros Hinv. unfold clearDebounce.
  destruct (debounceTimer w) as [tid0|] eqn:Hd.
  - destruct (Nat.eq_dec tid0 tid) as [->|Hne].
    + rewrite list_lookup_alter_eq.
      destruct (timers w !! tid) as [[]|]; discriminate.
    + rewrite list_lookup_alter_ne by exact Hne.
      intros H. apply Hinv in H. congruence.
  - intros H. apply Hinv in H. congruence.
Qed.

Lemma length_clearDebounce (w : Watcher) :
  length (clearDebounce w) = length (timers w).
Proof.
  unfold clearDebounce. destruct (debounceTimer w); [|reflexivity].
  apply length_alter.
Qed.

Lemma step_onePending (w : Watcher) (e : Event) :
  onePending w -> onePending (step w e).
Proof.
  intros Hinv. destruct e as [|tid|path|path|]; simpl.
  - intros tid Ht. simpl in *.
    apply lookup_snoc_inv in Ht as [Ht|[-> _]]; [|reflexivity].
    now apply clearDebounce_pending in Ht.
  - unfold timerFires.
    destruct (timers w !! tid) as [[]|] eqn:Ht; try exact Hinv.
    intros tid' Ht'. simpl in *.
    apply lookup_alter_Some in Ht' as (x & Hx & [[-> Hf]|[Hne Heq]]);
      [discriminate | subst x; now apply Hinv].
  - exact Hinv.
  - exact Hinv.
  - intros tid Ht. simpl in *. now apply clearDebounce_pending in Ht.
Qed.

Lemma reachable_onePending (w : Watcher) : reachable w -> onePending w.
Proof.
  induction 1 as [t|w e _ IH]; [intros tid H; discriminate|].
  now apply step_onePending.
Qed.

(** After a file change exactly one timer is pending: the last one. *)
Lemma triggered_pending (w : Watcher) (tid : nat) :
  onePending w ->
  timers (triggerSmartRefresh w) !! tid = Some Runner.Pending
  <-> tid = length (timers w).
Proof.
  intros Hinv. unfold triggerSmartRefresh. simpl. split.
  - intros Ht. apply lookup_snoc_inv in Ht as [Ht|[-> _]].
    + now apply clearDebounce_pending in Ht.
    + apply length_clearDebounce.
  - intros ->. rewrite <- length_clearDebounce.
    now rewrite lookup_app_r, Nat.sub_diag by lia.
Qed.

(** Firing timers when only timer [last] is pending. *)
Lemma fires_once (fires : list nat) (w : Watcher) (last : nat) :
  (forall tid, timers w !! tid = Some Runner.Pending <-> tid = last) ->
  tree (exec w (map TimerFires fires))
  = if existsb (Nat.eqb last) fires
    then SmartCache.smartRefresh findNodeByPath (tree w)
    else tree w.
Proof.
  revert w. induction fires as [|tid fires IH]; intros w Hlast;
    [reflexivity|].
  cbn [map Extension.exec fold_left existsb].
  fold (exec (step w (TimerFires tid)) (map TimerFires fires)).
  destruct (Nat.eqb_spec last tid) as [<-|Hne].
  - assert (Hp : timers w !! last = Some Runner.Pending) by now apply Hlast.
    simpl. unfold timerFires. rewrite Hp.
    assert (Hnone : forall fs w',
               (forall tid, timers w' !! tid <> Some Runner.Pending) ->
               tree (exec w' (map TimerFires fs)) = tree w').
    { induction fs as [|f fs IHf]; intros w' Hw'; [reflexivity|].
      cbn [map Extension.exec fold_left].
      fold (exec (step w' (TimerFires f)) (map TimerFires fs)).
      assert (Hs : step w' (TimerFires f) = w').
      { simpl. unfold timerFires. specialize (Hw' f).
        destruct (timers w' !! f) as [[]|]; congruence. }
      rewrite Hs. now apply IHf. }
    rewrite Hnone; [reflexivity|].
    intros tid Ht. simpl in Ht.
    apply lookup_alter_Some in Ht as (x & Hx & [[-> Hf]|[Hn Heq]]);
      [discriminate|].
    subst x. apply Hlast in Hx. congruence.
  - assert (Hs : step w (TimerFires tid) = w).
    { simpl. unfold timerFires.
      destruct (timers w !! tid) as [[]|] eqn:Ht; try reflexivity.
      apply Hlast in Ht. congruence. }
    rewrite Hs. simpl. now apply IH.
Qed.

End WatcherFacts.

(** X25. A burst of file changes causes one smart refresh. After one or
    more file changes in a row only the timer of the last change is pending;
    whichever timers the runtime then fires, in whatever order and however
    often, the tree is smart-refreshed exactly once if the last timer is
    among them and not at all otherwise. *)
Theorem file_changes_refresh_once
        (findNodeByPath : string -> option Node.FlakeNode)
        (w : Extension.Watcher) (changes : nat) (fires : list nat) :
  Extension.reachable findNodeByPath w ->
  let burst :=
    Extension.exec findNodeByPath w
                   (replicate (S changes) Extension.FileChanged) in
  let last := length (Extension.timers w) + changes in
  (forall tid,
     Extension.timers burst !! tid = Some Runner.Pending <-> tid = last)
  /\ Extension.tree
       (Extension.exec findNodeByPath burst
                       (map Extension.TimerFires fires))
     = if existsb (Nat.eqb last) fires
       then SmartCache.smartRefresh findNodeByPath (Extension.tree w)
       else Extension.tree w.
Proof.
  intros Hreach. cbv zeta.
  assert (Hburst : forall n w0,
             Extension.onePending w0 ->
             let b := Extension.exec findNodeByPath w0
                        (replicate (S n) Extension.FileChanged) in
             (forall tid,
                Extension.timers b !! tid = Some Runner.Pending
                <-> tid = length (Extension.timers w0) + n)
             /\ Extension.tree b = Extension.tree w0).
  { induction n as [|n IH]; intros w0 Hinv; cbv zeta.
    - simpl. split; [|reflexivity]. intros tid.
      rewrite (triggered_pending w0 tid Hinv). now rewrite Nat.add_0_r.
    - change (replicate (S (S n)) Extension.FileChanged)
        with (Extension.FileChanged
              :: replicate (S n) Extension.FileChanged).
      cbn [Extension.exec fold_left].
      fold (Extension.exec findNodeByPath
              (Extension.step findNodeByPath w0 Extension.FileChanged)
              (replicate (S n) Extension.FileChanged)).
      destruct (IH (Extension.step findNodeByPath w0 Extension.FileChanged))
        as [Hp Ht].
      { now apply step_onePending. }
      split; [|rewrite Ht; reflexivity].
      intros tid. rewrite Hp. simpl.
      rewrite length_app, length_clearDebounce. simpl. lia. }
  destruct (Hburst changes w (reachable_onePending findNodeByPath w Hreach))
    as [Hp Ht].
  split; [exact Hp|].
  rewrite (fires_once findNodeByPath fires _ _ Hp). now rewrite Ht.
Qed.

Lemma file_changes_refresh_once_witness :
  let t := SmartCache.mkTreeState ["programs"] ∅ [] in
  let find := fun path => Some (Samples.nodeAt path) in
  Extension.tree
    (Extension.exec find (Extension.init t)
       [Extension.FileChanged; Extension.FileChanged; Extension.FileChanged;
        Extension.TimerFires 0; Extension.TimerFires 2;
        Extension.TimerFires 1; Extension.TimerFires 2])
  = SmartCache.smartRefresh find t.
Proof.
  intros t find.
  destruct (file_changes_refresh_once find (Extension.init t) 2 [0; 2; 1; 2])
    as [_ H]; [constructor|].
  exact H.
Defined.

Section RefreshFacts2.
Import Node FlakeTreeProvider.

Lemma prefetchCommonPaths_logs (inProgress : bool) (paths : list string)
      (st : Provider) :
  exists qs us,
    logsOnly qs us st (fst (prefetchCommonPaths inProgress paths st))
    /\ (inProgress = false -> JS.truthy (rootPath st) = true ->
        qs = map (fun subPath =>
                    NixRunner.getAttrNames
                      (flakePath st) (rootPath st +:+ "." +:+ subPath))
                 paths)
    /\ (inProgress = true \/ JS.truthy (rootPath st) = false -> qs = []).
Proof.
  unfold prefetchCommonPaths.
  destruct inProgress.
  { exists [], []. split; [apply logsOnly_refl|].
    split; [discriminate | reflexivity]. }
  destruct (JS.truthy (rootPath st)) eqn:Hr; cbn [negb].
  2:{ exists [], []. split; [apply logsOnly_refl|].
      split; [discriminate | reflexivity]. }
  assert (Hfold : forall l a,
             logsOnly
               (map (fun subPath =>
                       NixRunner.getAttrNames
                         (flakePath a) (rootPath a +:+ "." +:+ subPath)) l)
               [] a
               (fold_left
                  (fun s subPath =>
                     ask (NixRunner.getAttrNames
                            (flakePath s) (rootPath s +:+ "." +:+ subPath)) s)
                  l a)).
  { induction l as [|x l IH]; intros a; [apply logsOnly_refl|].
    cbn [fold_left map].
    pose proof (logsOnly_trans _ _ _ _ _ _ _
                  (logsOnly_ask
                     (NixRunner.getAttrNames
                        (flakePath a) (rootPath a +:+ "." +:+ x)) a)
                  (IH _)) as H.
    exact H. }
  eexists _, _. split.
  - cbn [fst]. eapply logsOnly_trans; [apply logsOnly_emitStatus|].
    apply Hfold.
  - split; [intros _ _; reflexivity|].
    intros [H|H]; discriminate.
Qed.

End RefreshFacts2.

(** X26. [refresh] forgets the root node, the prefetch cache and the paths
    known to the search, and it keeps the last good children: a fetch that
    fails right after a refresh still shows the children recorded before
    it. With a root path configured and no prefetch running, it asks for the
    attribute names of each prefetch path under the root path, in order;
    otherwise it asks nothing. *)
Theorem refresh_keeps_last_good (ev : Evaluator) (writeTime now : Z)
        (prefetchInProgress : bool) (prefetchPaths : list string)
        (st : FlakeTreeProvider.Provider) (el : Node.FlakeNode)
        (cs : list Node.FlakeNode) :
  JS.truthy (FlakeTreeProvider.flakePath st) = true ->
  FlakeTreeProvider.filterPath st = "" ->
  Node.getCachedChildren now el = None ->
  success (evalType ev (Node.attrPath el)) = false ->
  FlakeTreeProvider.lastGoodChildren st !! Node.attrPath el = Some cs ->
  let st1 :=
    fst (FlakeTreeProvider.refresh prefetchInProgress prefetchPaths st) in
  FlakeTreeProvider.rootNode st1 = None
  /\ FlakeTreeProvider.prefetchCache st1 = ∅
  /\ FlakeTreeProvider.knownPaths st1 = []
  /\ FlakeTreeProvider.lastGoodChildren st1
     = FlakeTreeProvider.lastGoodChildren st
  /\ FlakeTreeProvider.issued st1
     = FlakeTreeProvider.issued st
       ++ (if negb prefetchInProgress
              && JS.truthy (FlakeTreeProvider.rootPath st)
           then map (fun subPath =>
                       NixRunner.getAttrNames
                         (FlakeTreeProvider.flakePath st)
                         (FlakeTreeProvider.rootPath st +:+ "." +:+ subPath))
                    prefetchPaths
           else [])
  /\ snd (FlakeTreeProvider.getChildren ev writeTime now (Some el) st1) = cs.
Proof.
  intros Hflake Hfilter Hmiss Hfail Hgood. cbv zeta.
  unfold FlakeTreeProvider.refresh.
  set (st0 := FlakeTreeProvider.emitStatus _ _ _).
  destruct (prefetchCommonPaths_logs prefetchInProgress prefetchPaths st0)
    as (qs & us & Hlog & Hqs & Hnone).
  set (st1 := fst (FlakeTreeProvider.prefetchCommonPaths
                     prefetchInProgress prefetchPaths st0)) in *.
  clearbody st1. unfold FlakeTreeProvider.logsOnly in Hlog.
  assert (Hfields :
    FlakeTreeProvider.rootNode st1 = None
    /\ FlakeTreeProvider.prefetchCache st1 = ∅
    /\ FlakeTreeProvider.knownPaths st1 = []
    /\ FlakeTreeProvider.lastGoodChildren st1
       = FlakeTreeProvider.lastGoodChildren st
    /\ FlakeTreeProvider.issued st1 = FlakeTreeProvider.issued st ++ qs
    /\ FlakeTreeProvider.flakePath st1 = FlakeTreeProvider.flakePath st
    /\ FlakeTreeProvider.filterPath st1 = FlakeTreeProvider.filterPath st).
  { subst st1. simpl. repeat split; reflexivity. }
  destruct Hfields as (Hroot & Hpre & Hknown & Hlast & Hissued & Hfl & Hfi).
  assert (Hq : qs = if negb prefetchInProgress
                       && JS.truthy (FlakeTreeProvider.rootPath st)
                    then map (fun subPath =>
                                NixRunner.getAttrNames
                                  (FlakeTreeProvider.flakePath st)
                                  (FlakeTreeProvider.rootPath st +:+ "."
                                   +:+ subPath))
                             prefetchPaths
                    else []).
  { destruct prefetchInProgress; [apply Hnone; now left|].
    destruct (JS.truthy (FlakeTreeProvider.rootPath st)) eqn:Hr.
    - now apply Hqs.
    - apply Hnone. now right. }
  split; [exact Hroot|]. split; [exact Hpre|]. split; [exact Hknown|].
  split; [exact Hlast|].
  split; [now rewrite Hissued, Hq|].
  assert (Hflake1 : JS.truthy (FlakeTreeProvider.flakePath st1) = true)
    by (rewrite Hfl; exact Hflake).
  assert (Hfetch :
    FlakeTreeProvider.fetchChildren ev writeTime el st1
    = (FlakeTreeProvider.emitStatus FlakeTreeProvider.Failure
         (JS.opt_or_else (error (evalType ev (Node.attrPath el)))
                         "Failed to get type")
         (FlakeTreeProvider.ask
            (NixRunner.getValueType (FlakeTreeProvider.flakePath st1)
                                    (Node.attrPath el)) st1),
       el, FlakeTreeProvider.Returned cs)).
  { unfold FlakeTreeProvider.fetchChildren. rewrite Hfail. cbn [negb].
    rewrite failWith_fallback. unfold FlakeTreeProvider.fallback.
    cbn [FlakeTreeProvider.lastGoodChildren FlakeTreeProvider.ask].
    now rewrite Hlast, Hgood. }
  rewrite (getChildren_miss ev writeTime now st1 _ el el cs Hflake1 Hmiss
             Hfetch).
  assert (Hoff : FlakeTreeProvider.applyFilter st1 cs = cs).
  { apply applyFilter_off. rewrite Hfi. exact Hfilter. }
  destruct ((0 <? length cs)%nat && _); cbn [snd]; exact Hoff.
Qed.

Lemma refresh_keeps_last_good_witness :
  let st :=
    FlakeTreeProvider.mkProvider
      "/w" "cfg" None
      (<["cfg.programs" := [Samples.nodeAt "cfg.programs.git"]]> ∅) ∅ ""
      ["cfg.programs"] [] [] in
  let st1 := fst (FlakeTreeProvider.refresh false ["programs"; "boot"] st) in
  map NixRunner.q_key (FlakeTreeProvider.issued st1)
  = ["attrNames:cfg.programs"; "attrNames:cfg.boot"]
  /\ snd (FlakeTreeProvider.getChildren
            (Samples.failingEvaluator "offline") 0 0
            (Some (Samples.nodeAt "cfg.programs")) st1)
     = [Samples.nodeAt "cfg.programs.git"].
Proof.
  intros st st1.
  destruct (refresh_keeps_last_good
              (Samples.failingEvaluator "offline") 0 0 false
              ["programs"; "boot"] st (Samples.nodeAt "cfg.programs")
              [Samples.nodeAt "cfg.programs.git"]
              eq_refl eq_refl eq_refl eq_refl eq_refl)
    as (_ & _ & _ & _ & Hissued & Hget).
  fold st1 in Hissued, Hget. split; [now rewrite Hissued | exact Hget].
Defined.

(** X27. After [deactivate] no smart refresh happens: whichever timers of
    the file watcher fire afterwards, the tree stays as it is. *)
Theorem deactivate_stops_refresh
        (findNodeByPath : string -> option Node.FlakeNode)
        (w : Extension.Watcher) (fires : list nat) :
  Extension.reachable findNodeByPath w ->
  Extension.tree
    (Extension.exec findNodeByPath w
       (Extension.Deactivate :: map Extension.TimerFires fires))
  = Extension.tree w.
Proof.
  intros Hreach.
  pose proof (reachable_onePending findNodeByPath w Hreach) as Hinv.
  cbn [Extension.exec fold_left Extension.step].
  set (w' := Extension.deactivate w).
  assert (Hnone : forall tid,
             Extension.timers w' !! tid <> Some Runner.Pending).
  { intros tid. unfold w'. simpl. now apply clearDebounce_pending. }
  change (Extension.tree w) with (Extension.tree w').
  clearbody w'. clear Hinv Hreach.
  revert w' Hnone. induction fires as [|f fires IH]; intros w' Hnone;
    [reflexivity|].
  cbn [map fold_left].
  assert (Hs : Extension.step findNodeByPath w' (Extension.TimerFires f)
               = w').
  { simpl. unfold Extension.timerFires. specialize (Hnone f).
    destruct (Extension.timers w' !! f) as [[]|]; congruence. }
  rewrite Hs. now apply IH.
Qed.

Lemma deactivate_stops_refresh_witness :
  let t := SmartCache.mkTreeState ["programs"] ∅ [] in
  let find := fun path => Some (Samples.nodeAt path) in
  Extension.tree
    (Extension.exec find
       (Extension.step find (Extension.init t) Extension.FileChanged)
       [Extension.Deactivate; Extension.TimerFires 0])
  = t.
Proof.
  intros t find.
  apply (deactivate_stops_refresh find
           (Extension.step find (Extension.init t) Extension.FileChanged)
           [0]).
  apply Extension.reachable_step, Extension.reachable_init.
Defined.

Section TrackedFacts.
Import Runner.

Variables nixArgs experimentalFeatures : list string.
Variable JSON_parse : string -> option Json.

Local Notation step := (Runner.step nixArgs experimentalFeatures JSON_parse).
Local Notation reachable :=
  (Runner.reachable nixArgs experimentalFeatures JSON_parse).

Lemma kill_key (p : ChildProcess) : p_key (kill p) = p_key p.
Proof. reflexivity. Qed.

(** What [cancel] does to the processes and to the map of the running
    ones. *)
Lemma cancel_processes (key : string) (s : State) :
  (exists pid proc,
     activeProcesses s !! key = Some pid /\ processes s !! pid = Some proc
     /\ killed proc = false
     /\ processes (cancel key s) = alter kill pid (processes s)
     /\ activeProcesses (cancel key s) = delete key (activeProcesses s))
  \/ (processes (cancel key s) = processes s
      /\ activeProcesses (cancel key s) = activeProcesses s
      /\ forall pid proc,
           activeProcesses s !! key = Some pid ->
           processes s !! pid = Some proc -> killed proc = true).
Proof.
  unfold cancel, setProcess, setTimer.
  destruct (activeProcesses s !! key) as [pid|] eqn:Hk.
  - destruct (processes s !! pid) as [proc|] eqn:Hp.
    + destruct (killed proc) eqn:Hkilled; cbn [negb].
      * right. repeat case_match; simplify_eq; simpl;
          (split; [reflexivity|]); (split; [reflexivity|]);
          intros ? ? [= <-] ?; congruence.
      * left. exists pid, proc.
        repeat case_match; simplify_eq; simpl; auto 10.
    + right. repeat case_match; simplify_eq; simpl;
        (split; [reflexivity|]); (split; [reflexivity|]);
        intros ? ? [= <-] ?; congruence.
  - right. repeat case_match; simplify_eq; simpl;
      (split; [reflexivity|]); (split; [reflexivity|]); discriminate.
Qed.

Lemma cancel_tracked (key : string) (s : State) :
  trackedKeys s -> trackedKeys (cancel key s).
Proof.
  intros Hinv k pid.
  destruct (cancel_processes key s)
    as [(pid0 & proc0 & _ & _ & _ & -> & ->)|(-> & -> & _)]; [|apply Hinv].
  intros Hk. apply lookup_delete_Some in Hk as [_ Hk].
  destruct (Hinv k pid Hk) as (proc & Hp & Hkey).
  destruct (Nat.eq_dec pid0 pid) as [->|Hne].
  - exists (kill proc). rewrite list_lookup_alter_eq, Hp. now split.
  - exists proc. now rewrite list_lookup_alter_ne.
Qed.

Lemma executeNix_tracked (args : list string) (options : NixRunnerOptions)
      (key : string) (promise : nat) (s : State) :
  trackedKeys s ->
  trackedKeys
    (executeNix nixArgs experimentalFeatures args options key promise s).
Proof.
  intros Hinv k pid. unfold executeNix. simpl.
  destruct (decide (k = key)) as [->|Hne].
  - rewrite lookup_insert_eq. intros [= <-].
    eexists. rewrite lookup_app_r, Nat.sub_diag by lia. now split.
  - rewrite lookup_insert_ne by congruence. intros Hk.
    destruct (Hinv k pid Hk) as (proc & Hp & Hkey).
    exists proc. split; [|exact Hkey]. now apply lookup_app_l_Some.
Qed.

Lemma resolve_tracked (promise : nat) (result : NixEvalResult Json)
      (s : State) :
  trackedKeys s -> trackedKeys (resolve promise result s).
Proof. unfold resolve. now destruct (existsb _ _). Qed.

Lemma setProcess_tracked (pid : nat) (f : ChildProcess -> ChildProcess)
      (s : State) :
  (forall p, p_key (f p) = p_key p) ->
  trackedKeys s -> trackedKeys (setProcess pid f s).
Proof.
  intros Hf Hinv k pid'. simpl. intros Hk.
  destruct (Hinv k pid' Hk) as (proc & Hp & Hkey).
  destruct (Nat.eq_dec pid pid') as [->|Hne].
  - exists (f proc). rewrite list_lookup_alter_eq, Hp. split; [reflexivity|].
    now rewrite Hf.
  - exists proc. now rewrite list_lookup_alter_ne.
Qed.

Lemma untrack_tracked (key : string) (s : State) :
  trackedKeys s ->
  trackedKeys
    (mkState (processes s) (timers s) (delete key (activeProcesses s))
             (debounceTimers s) (settled s) (promises s)).
Proof.
  intros Hinv k pid. simpl. intros Hk.
  apply lookup_delete_Some in Hk as [_ Hk]. now apply Hinv.
Qed.

Lemma step_tracked (s : State) (e : Event) :
  trackedKeys s -> trackedKeys (step s e).
Proof.
  intros Hinv.
  destruct e as [args options key debounce|key| |tid|pid code out err
                |pid message|pid]; simpl.
  - unfold Runner.run. set (k := default (JS.join " " args) key).
    pose proof (cancel_tracked k s Hinv) as Hc.
    destruct debounce; simpl.
    + intros k' pid Hk. simpl in Hk. now apply Hc.
    + apply (executeNix_tracked args options k _
               (mkState (processes (cancel k s)) (timers (cancel k s))
                        (activeProcesses (cancel k s))
                        (debounceTimers (cancel k s))
                        (settled (cancel k s)) (S (promises (cancel k s))))).
      exact Hc.
  - now apply cancel_tracked.
  - unfold cancelAll.
    generalize (map fst (map_to_list (activeProcesses s))). intros keys.
    induction keys as [|k keys IH]; simpl; [exact Hinv|].
    now apply cancel_tracked.
  - unfold timerFires.
    destruct (timers s !! tid) as [t|]; [|exact Hinv].
    destruct (t_state t); try exact Hinv.
    apply executeNix_tracked. intros k pid Hk. simpl in Hk. now apply Hinv.
  - unfold processCloses.
    destruct (processes s !! pid) as [proc|]; [|exact Hinv].
    destruct (closed proc); [exact Hinv|].
    apply resolve_tracked.
    apply (untrack_tracked (p_key proc)
             (setProcess pid (fun p => markClosed (stopWatchdog p)) s)).
    now apply setProcess_tracked.
  - unfold processErrors.
    destruct (processes s !! pid) as [proc|]; [|exact Hinv].
    apply resolve_tracked.
    apply (untrack_tracked (p_key proc) (setProcess pid stopWatchdog s)).
    now apply setProcess_tracked.
  - unfold watchdogFires.
    destruct (processes s !! pid) as [proc|]; [|exact Hinv].
    destruct (watchdog proc); try exact Hinv.
    destruct (negb (killed proc)).
    + apply resolve_tracked. now apply setProcess_tracked.
    + now apply setProcess_tracked.
Qed.

Lemma reachable_tracked (s : State) : reachable s -> trackedKeys s.
Proof.
  induction 1 as [|s e _ IH].
  - intros k pid H. unfold init in H. simpl in H.
    now rewrite lookup_empty in H.
  - now apply step_tracked.
Qed.

End TrackedFacts.

(** X28. [cancelAll] ends every running process the runner tracks: a
    tracked process that has neither been killed nor closed is sent the
    signal and is no longer tracked under its key afterwards; nothing new is
    spawned and no promise is settled by [cancelAll] itself. *)
Theorem cancelAll_kills_running (nixArgs experimentalFeatures : list string)
        (JSON_parse : string -> option Json) (s : Runner.State)
        (key : string) (pid : nat) (proc : Runner.ChildProcess) :
  Runner.reachable nixArgs experimentalFeatures JSON_parse s ->
  Runner.activeProcesses s !! key = Some pid ->
  Runner.processes s !! pid = Some proc ->
  Runner.killed proc = false -> Runner.closed proc = false ->
  let s' := Runner.cancelAll s in
  Runner.activeProcesses s' !! key = None
  /\ (exists proc',
        Runner.processes s' !! pid = Some proc'
        /\ Runner.killed proc' = true
        /\ Runner.p_args proc' = Runner.p_args proc
        /\ Runner.p_promise proc' = Runner.p_promise proc)
  /\ Runner.spawnLog s' = Runner.spawnLog s
  /\ Runner.settled s' = Runner.settled s.
Proof.
  intros Hreach Hk Hp Hkilled Hclosed. cbv zeta.
  pose proof (reachable_tracked _ _ _ s Hreach) as Htracked.
  destruct (cancelAll_quiet s) as [[Hlog _ _ _] Hsettled].
  set (same := fun p : Runner.ChildProcess =>
                 Runner.p_args p = Runner.p_args proc
                 /\ Runner.p_promise p = Runner.p_promise proc).
  set (before := fun s0 : Runner.State =>
                   Runner.trackedKeys s0
                   /\ Runner.activeProcesses s0 !! key = Some pid
                   /\ exists p0,
                       Runner.processes s0 !! pid = Some p0
                       /\ Runner.killed p0 = false
                       /\ Runner.closed p0 = false /\ same p0).
  set (after := fun s0 : Runner.State =>
                  Runner.activeProcesses s0 !! key = None
                  /\ exists p',
                      Runner.processes s0 !! pid = Some p'
                      /\ Runner.killed p' = true /\ same p').
  assert (HA : forall k' s0, before s0 -> k' <> key ->
                             before (Runner.cancel k' s0)).
  { unfold before. intros k' s0 (Ht & Ha & p0 & Hp0 & Hk0 & Hc0 & Hs0) Hne.
    split; [now apply cancel_tracked|].
    destruct (cancel_processes k' s0)
      as [(pid0 & proc0 & Hk' & _ & _ & -> & ->)|(-> & -> & _)].
    - assert (Hpid : pid0 <> pid).
      { intros ->. destruct (Ht k' pid Hk') as (x & Hx & Hkx).
        destruct (Ht key pid Ha) as (y & Hy & Hky). congruence. }
      rewrite lookup_delete_ne by congruence.
      split; [exact Ha|]. exists p0.
      now rewrite list_lookup_alter_ne by exact Hpid.
    - split; [exact Ha|]. now exists p0. }
  assert (HB : forall s0, before s0 -> after (Runner.cancel key s0)).
  { unfold before, after.
    intros s0 (Ht & Ha & p0 & Hp0 & Hk0 & Hc0 & Hs0).
    destruct (cancel_processes key s0)
      as [(pid0 & proc0 & Hk' & _ & _ & -> & ->)|(_ & _ & Hall)].
    - assert (pid0 = pid) by congruence. subst pid0.
      split; [apply lookup_delete_eq|].
      exists (Runner.kill p0). rewrite list_lookup_alter_eq, Hp0.
      split; [reflexivity|]. split; [|exact Hs0].
      unfold Runner.kill. simpl. now rewrite Hc0.
    - specialize (Hall pid p0 Ha Hp0). congruence. }
  assert (HC : forall k' s0, after s0 -> after (Runner.cancel k' s0)).
  { unfold after. intros k' s0 (Ha & p' & Hp' & Hk' & Hs').
    destruct (cancel_processes k' s0)
      as [(pid0 & proc0 & _ & _ & _ & -> & ->)|(-> & -> & _)].
    - split; [apply lookup_delete_None; now right|].
      destruct (Nat.eq_dec pid0 pid) as [->|Hne].
      + exists (Runner.kill p'). rewrite list_lookup_alter_eq, Hp'.
        split; [reflexivity|]. split; [|exact Hs'].
        unfold Runner.kill. simpl. rewrite Hk'. apply orb_true_r.
      + exists p'. now rewrite list_lookup_alter_ne.
    - split; [exact Ha|]. now exists p'. }
  assert (Hfold : forall keys,
             NoDup keys ->
             (key ∈ keys -> after (foldr Runner.cancel s keys))
             /\ (key ∉ keys -> before (foldr Runner.cancel s keys))).
  { induction 1 as [|k1 keys Hnot Hnd [IHin IHout]]; simpl.
    - split; [intros H; now apply elem_of_nil in H|].
      intros _. split; [exact Htracked|]. split; [exact Hk|].
      exists proc. unfold same. auto.
    - split.
      + intros Hin. apply elem_of_cons in Hin as [<-|Hin].
        * now apply HB, IHout.
        * now apply HC, IHin.
      + intros Hout. apply not_elem_of_cons in Hout as [Hne Hout].
        apply HA; [now apply IHout | congruence]. }
  destruct (Hfold (map fst (map_to_list (Runner.activeProcesses s))))
    as [Hafter _].
  { apply NoDup_fst_map_to_list. }
  destruct Hafter as (Ha & p' & Hp' & Hk' & Hargs & Hprom).
  { apply list_elem_of_In, in_map_iff. exists (key, pid).
    split; [reflexivity|]. apply list_elem_of_In, elem_of_map_to_list.
    exact Hk. }
  fold (Runner.cancelAll s) in Ha, Hp'.
  split; [exact Ha|].
  split; [exists p'; auto|]. split; [exact Hlog | exact Hsettled].
Qed.

Lemma cancelAll_kills_running_witness :
  let s :=
    Runner.exec Samples.nixArgs Samples.experimentalFeatures Samples.noJson
                Runner.init
                [Runner.Call ["eval"; ".#a"] Samples.options (Some "a") false;
                 Runner.Call ["eval"; ".#b"] Samples.options (Some "b") false;
                 Runner.CancelAll] in
  Runner.activeProcesses s !! "b" = None
  /\ (exists proc',
        Runner.processes s !! 1 = Some proc'
        /\ Runner.killed proc' = true
        /\ Runner.p_args proc' = Samples.baseArgs ++ ["eval"; ".#b"]
        /\ Runner.p_promise proc' = 1).
Proof.
  intros s.
  destruct (cancelAll_kills_running
              Samples.nixArgs Samples.experimentalFeatures Samples.noJson
              (Runner.exec Samples.nixArgs Samples.experimentalFeatures
                 Samples.noJson Runner.init
                 [Runner.Call ["eval"; ".#a"] Samples.options (Some "a")
                              false;
                  Runner.Call ["eval"; ".#b"] Samples.options (Some "b")
                              false])
              "b" 1
              (Runner.mkProcess (Samples.baseArgs ++ ["eval"; ".#b"]) "/w"
                                "b" 1 30000 false false Runner.Pending))
    as (Ha & Hp & _).
  - apply reachable_exec. constructor.
  - reflexivity.
  - reflexivity.
  - reflexivity.
  - reflexivity.
  - split; [exact Ha | exact Hp].
Defined.

Section ExpiryFacts.
Import Node FlakeTreeProvider.

Lemma getCachedChildren_expired (stamp now : Z) (cs : list FlakeNode)
      (el : FlakeNode) :
  (60000 < now - stamp)%Z ->
  getCachedChildren now (cacheChildren stamp cs el) = None.
Proof.
  intros H. unfold getCachedChildren, cacheChildren. simpl.
  now apply Z.ltb_lt in H as ->.
Qed.

Lemma getCachedChildren_fresh (stamp now : Z) (cs : list FlakeNode)
      (el : FlakeNode) :
  (now - stamp <= 60000)%Z ->
  getCachedChildren now (cacheChildren stamp cs el) = Some cs.
Proof.
  intros H. unfold getCachedChildren, cacheChildren. simpl.
  now apply Z.ltb_ge in H as ->.
Qed.

End ExpiryFacts.

(** X29. The children kept on a node are good for 60 seconds, the bound
    included: a [getChildren] call up to then issues no query, and a call
    later than that asks the evaluator again, starting with the query for
    the type of the node. *)
Theorem children_cache_expires (ev : Evaluator) (writeTime stamp now : Z)
        (cs : list Node.FlakeNode) (el : Node.FlakeNode)
        (st : FlakeTreeProvider.Provider) :
  JS.truthy (FlakeTreeProvider.flakePath st) = true ->
  let cached := Node.cacheChildren stamp cs el in
  let st' :=
    fst (fst (FlakeTreeProvider.getChildren ev writeTime now (Some cached)
                                            st)) in
  ((now - stamp <= 60000)%Z ->
   FlakeTreeProvider.issued st' = FlakeTreeProvider.issued st)
  /\ ((60000 < now - stamp)%Z ->
      exists rest,
        FlakeTreeProvider.issued st'
        = FlakeTreeProvider.issued st
          ++ NixRunner.getValueType (FlakeTreeProvider.flakePath st)
               (Node.attrPath el) :: rest).
Proof.
  intros Hfp cached st'. subst st'.
  unfold FlakeTreeProvider.getChildren. rewrite Hfp. cbn [negb].
  unfold FlakeTreeProvider.getChildrenTry. split; intros Hage.
  - subst cached. rewrite (getCachedChildren_fresh _ _ _ _ Hage).
    reflexivity.
  - subst cached. rewrite (getCachedChildren_expired _ _ _ _ Hage).
    destruct (fetchChildren_logs ev writeTime (Node.cacheChildren stamp cs el)
                                 st)
      as (qs & us & Hlog & _ & _ & Hhead).
    destruct (FlakeTreeProvider.fetchChildren ev writeTime _ st)
      as [[st1 el1] out].
    cbn [fst] in Hlog.
    pose proof (logsOnly_issued _ _ _ _ Hlog) as Hissued.
    destruct qs as [|q rest]; [discriminate|].
    injection Hhead as ->. exists rest.
    change (Node.attrPath (Node.cacheChildren stamp cs el))
      with (Node.attrPath el) in Hissued.
    destruct out as [cs'|m].
    + destruct (indexFold_grows Node.attrPath cs' st1) as (_ & Hi & _).
      fold (FlakeTreeProvider.indexAll cs' st1) in Hi.
      destruct (_ && _); simpl; now rewrite Hi, Hissued.
    + simpl.
      destruct (FlakeTreeProvider.lastGoodChildren st1 !! Node.attrPath el1);
        simpl; exact Hissued.
Qed.

(** A node whose children were kept at time 1000: read at 61000 the
    provider issues no query, read at 61001 it asks for the type again. *)
Lemma children_cache_expires_witness :
  let cached :=
    Node.cacheChildren 1000 [Samples.nodeAt "programs.git"]
                       (Samples.nodeAt "programs") in
  let ev := Samples.setEvaluator ["git"] in
  FlakeTreeProvider.issued
    (fst (fst (FlakeTreeProvider.getChildren ev 61000 61000 (Some cached)
                                             Samples.provider)))
  = FlakeTreeProvider.issued Samples.provider
  /\ exists rest,
       FlakeTreeProvider.issued
         (fst (fst (FlakeTreeProvider.getChildren ev 61001 61001
                                                  (Some cached)
                                                  Samples.provider)))
       = FlakeTreeProvider.issued Samples.provider
         ++ NixRunner.getValueType
              (FlakeTreeProvider.flakePath Samples.provider) "programs"
            :: rest.
Proof.
  cbv zeta. split.
  - apply (proj1 (children_cache_expires (Samples.setEvaluator ["git"])
                    61000 1000 61000 [Samples.nodeAt "programs.git"]
                    (Samples.nodeAt "programs") Samples.provider eq_refl)).
    lia.
  - apply (proj2 (children_cache_expires (Samples.setEvaluator ["git"])
                    61001 1000 61001 [Samples.nodeAt "programs.git"]
                    (Samples.nodeAt "programs") Samples.provider eq_refl)).
    lia.
Defined.
